(** * The parametric AAA reductor of pyMOR ([pymor/reductors/aaa.py])

    A shallow embedding of [pAAAReductor.reduce], [nd_loewner],
    [full_nd_loewner], [make_bary_func], [_ls_part] and [_post_processing],
    followed by the properties established about them.

    Conventions.
    - Array elements ([float64]/[complex128]) and real magnitudes are kept
      abstract in the class [Scalar]. What a statement needs of the
      arithmetic is a hypothesis of it: the laws of [OrderLaws],
      [ScalarLaws] and [FiniteLaws], which hold for exact numbers and for
      the floating-point numbers of numpy alike; no statement takes a
      rounded product or quotient to be exact. Two instances are given:
      the Gaussian rationals, on which the examples run, and binary64.
    - The calls into LAPACK ([scipy.linalg.svd], [numpy.linalg.matrix_rank])
      and the draws of the random generator are parameters of the model.
    - Python objects that are shared and mutated (lists of lists, arrays)
      live in a store addressed by locations.

    Three further parts follow at the end: the Gauss quadratures of
    [pymor/tools/quadratures.py] (module [Quadratures]), the formatter and
    the blocks of [pymor/core/logger.py] (module [Logger]) and the assembly
    of the finite element matrices of [pymor/discreteoperators/cg.py]
    (module [CG]). *)

From Stdlib Require Import QArith Qcanon Qcabs Lia Lqa ZArith List Bool.
From stdpp Require Import base list.
From Corelib Require PrimFloat.
Import ListNotations.

Set Default Proof Using "Type".

(** ** Scalars *)

(** [F] is the element type of the sample arrays, [M] the type of real
    numbers that arise as magnitudes, tolerances and singular values. *)
Class Scalar : Type := {
  F : Type;
  M : Type;
  fzero : F;
  fone : F;
  fadd : F -> F -> F;
  fsub : F -> F -> F;
  fmul : F -> F -> F;
  fdiv : F -> F -> F;
  fconj : F -> F;
  (* [np.imag(x) != 0] *)
  fimag_nonzero : F -> bool;
  (* [x == y] *)
  feqb : F -> F -> bool;
  (* the integer [n] as an array element, for [np.mean] *)
  fof_nat : nat -> F;
  (* [np.abs] *)
  fabs : F -> M;
  mzero : M;
  mmul : M -> M -> M;
  mdiv : M -> M -> M;
  (* [a <= b] and [a < b] on reals *)
  mleb : M -> M -> bool;
  mltb : M -> M -> bool
}.

(** Exceptions the model distinguishes. *)
Inductive exn : Type :=
| ValueError
| IndexError
| AssertionError
| UnboundLocalError
| TypeError.

Inductive res (A : Type) : Type :=
| Ok (a : A)
| Raise (e : exn).
Arguments Ok {A} a.
Arguments Raise {A} e.

Definition res_bind {A B : Type} (r : res A) (k : A -> res B) : res B :=
  match r with
  | Ok a => k a
  | Raise e => Raise e
  end.

Section Arrays.
Context `{Sc : Scalar}.

(** ** Index combinations *)

(** [itertools.product] of the pools, as the equivalent code in the Python
    documentation builds it: [result = [[]]], then for each pool
    [result = [x + [y] for x in result for y in pool]]. The order is
    row-major (last pool varies fastest), the order [np.reshape(., -1)]
    uses to flatten a selection made with [np.ix_]. *)
Definition product_step {A : Type} (acc : list (list A)) (pool : list A) : list (list A) :=
  flat_map (fun x => map (fun y => x ++ [y]) pool) acc.

Definition product {A : Type} (pools : list (list A)) : list (list A) :=
  fold_left product_step pools [[]].

(** ** N-dimensional arrays *)

(** A C-contiguous [ndarray]: its shape and its entries in row-major order. *)
Record ndarray : Type := mk_ndarray {
  shape : list nat;
  data : list F
}.

(** Flat offset of a multi-index over the leading axes
    ([np.ravel_multi_index], Horner form). *)
Fixpoint ravel_from (acc : nat) (dims idx : list nat) : nat :=
  match dims, idx with
  | n :: dims', i :: idx' => ravel_from (acc * n + i) dims' idx'
  | _, _ => acc
  end.

Definition ravel (dims idx : list nat) : nat := ravel_from 0 dims idx.

(** [np.unravel_index(k, dims)]. *)
Fixpoint unravel (dims : list nat) (k : nat) : list nat :=
  match dims with
  | [] => []
  | n :: dims' =>
      let stride := fold_right Nat.mul 1 dims' in
      (k / stride) :: unravel dims' (k mod stride)
  end.

(** [a[idx]] for a full multi-index into a scalar-valued array. *)
Definition tget (a : ndarray) (idx : list nat) : F :=
  nth (ravel (shape a) idx) (data a) fzero.

(** The selection of [a] by [np.ix_] over [parts], flattened by [np.reshape(., -1)]. *)
Definition select (a : ndarray) (parts : list (list nat)) : list F :=
  map (tget a) (product parts).

(** [v[idx]] for a one-dimensional array and a list of indices. *)
Definition take_idx (v : list F) (idx : list nat) : list F :=
  map (fun k => nth k v fzero) idx.

(** ** Matrices as lists of rows *)

Definition matrix : Type := list (list F).

(** [x[:, np.newaxis] - y[np.newaxis]] *)
Definition outer_sub (x y : list F) : matrix :=
  map (fun a => map (fun b => fsub a b) y) x.

(** [np.kron(A, B)] for two-dimensional [A] and [B]. *)
Definition kron_row (ra rb : list F) : list F :=
  flat_map (fun a => map (fun b => fmul a b) rb) ra.

Definition kron (A B : matrix) : matrix :=
  flat_map (fun ra => map (fun rb => kron_row ra rb) B) A.

(** Elementwise [A / B]. *)
Definition mat_div (A B : matrix) : matrix :=
  zip_with (zip_with fdiv) A B.

(** ** [_ls_part] *)

(** [np.delete(np.arange(n), p)]: the indices below [n] that are not in [p]. *)
Definition np_delete_arange (n : nat) (p : list nat) : list nat :=
  List.filter (fun k => negb (existsb (Nat.eqb k) p)) (seq 0 n).

Definition _ls_part (itpl_part : list (list nat)) (svs : list (list F)) : list (list nat) :=
  zip_with (fun p s => np_delete_arange (length s) p) itpl_part svs.

(** ** [nd_loewner] *)

(** The location-difference matrix of variable [i]:
    [p0[ls_part[i]][:, np.newaxis] - p0[itpl_part[i]][np.newaxis]]. *)
Definition loc_diff (svs : list (list F)) (itpl_part ls_part : list (list nat)) (i : nat) : matrix :=
  let p0 := nth i svs [] in
  outer_sub (take_idx p0 (nth i ls_part [])) (take_idx p0 (nth i itpl_part [])).

(** [np.reshape] to [(-1, n)] fails on an empty selection: both the
    interpolation and the least-squares selection must be non-empty. *)
Definition nd_loewner (samples : ndarray) (svs : list (list F)) (itpl_part : list (list nat)) : res matrix :=
  let d := length (shape samples) in
  let ls_part := _ls_part itpl_part svs in
  let sd := loc_diff svs itpl_part ls_part 0 in
  let sdpd := fold_left (fun acc i => kron acc (loc_diff svs itpl_part ls_part i)) (seq 1 (d - 1)) sd in
  let samples0 := select samples itpl_part in
  let samples1 := select samples ls_part in
  if (length samples0 =? 0) || (length samples1 =? 0) then Raise ValueError
  else
    let samplesd := map (fun a => map (fun b => fsub a b) samples0) samples1 in
    Ok (mat_div samplesd sdpd).

(** ** [full_nd_loewner] *)

(** [A @ B] *)
Definition vec_scale (x : F) (v : list F) : list F := map (fmul x) v.

Definition vec_add (u v : list F) : list F := zip_with fadd u v.

Definition row_matmul (r : list F) (B : matrix) (ncols : nat) : list F :=
  fold_left (fun acc xb => vec_add acc (vec_scale (fst xb) (snd xb))) (zip r B) (repeat fzero ncols).

Definition matmul (A B : matrix) : matrix :=
  map (fun r => row_matmul r B (length (nth 0 B []))) A.

(** [np.eye(1, n, k)]: the row with a one at column [k]. *)
Definition eye_row (n k : nat) : list F :=
  map (fun j => if j =? k then fone else fzero) (seq 0 n).

(** [np.eye(n)] *)
Definition eye (n : nat) : matrix :=
  map (fun k => eye_row n k) (seq 0 n).

(** [np.where(np.array(l) == x)[0][0]], with position [length l] standing
    for the failing lookup. *)
Fixpoint first_index (x : nat) (l : list nat) : nat :=
  match l with
  | [] => 0
  | y :: l' => if y =? x then 0 else S (first_index x l')
  end.

(** The index list [l_j]: the entries of [j] at the variables flagged [false]
    (interpolated), [slice(None)] (here [None]) inserted at the variables
    flagged [true]. *)
Fixpoint merge_slices (i : list bool) (j : list nat) : list (option nat) :=
  match i with
  | [] => []
  | true :: i' => None :: merge_slices i' j
  | false :: i' =>
      match j with
      | x :: j' => Some x :: merge_slices i' j'
      | [] => []
      end
  end.

Definition keep_flagged {A : Type} (i : list bool) (l : list A) : list A :=
  map snd (List.filter (fun fl => fst fl) (zip i l)).

Definition keep_unflagged {A : Type} (i : list bool) (l : list A) : list A :=
  map snd (List.filter (fun fl => negb (fst fl)) (zip i l)).

(** The full multi-index obtained from [l_j] by filling its slices with the
    entries of [free]. *)
Fixpoint fill_slices (l_j : list (option nat)) (free : list nat) : list nat :=
  match l_j with
  | [] => []
  | Some x :: l' => x :: fill_slices l' free
  | None :: l' =>
      match free with
      | y :: free' => y :: fill_slices l' free'
      | [] => 0 :: fill_slices l' []
      end
  end.

(** [samples[tuple(l_j)]] *)
Definition slice_fixed (samples : ndarray) (l_j : list (option nat)) : ndarray :=
  let dims := keep_flagged (map (fun o => match o with None => true | Some _ => false end) l_j)
                           (shape samples) in
  mk_ndarray dims
    (map (fun free => tget samples (fill_slices l_j free)) (product (map (seq 0) dims))).

(** The selection matrix [T_mat] of one block. *)
Definition T_mat (itpl_part : list (list nat)) (l_j : list (option nat)) : matrix :=
  fold_left
    (fun T pk =>
       let T_new :=
         match snd pk with
         | None => eye (length (fst pk))
         | Some x => [eye_row (length (fst pk)) (first_index x (fst pk))]
         end in
       kron T T_new)
    (zip itpl_part l_j) [[fone]].

(** All tuples over [{0,1}] of length [d] ([false] for 0, [true] for 1), in
    the order of [itertools.product]. *)
Definition flag_tuples (d : nat) : list (list bool) :=
  product (repeat [false; true] d).

Definition is_trivial (i : list bool) : bool :=
  forallb negb i || forallb (fun b => b) i.

Definition full_nd_loewner (samples : ndarray) (svs : list (list F)) (itpl_part : list (list nat)) : res matrix :=
  res_bind (nd_loewner samples svs itpl_part) (fun L =>
  fold_left
    (fun acc i =>
       if is_trivial i then acc
       else
         fold_left
           (fun acc' j =>
              res_bind acc' (fun L' =>
              let l_j := merge_slices i j in
              let samples0 := slice_fixed samples l_j in
              let svs0 := keep_flagged i svs in
              let itpl_part0 := keep_flagged i itpl_part in
              res_bind (nd_loewner samples0 svs0 itpl_part0) (fun LL =>
              Ok (L' ++ matmul LL (T_mat itpl_part l_j)))))
           (product (keep_unflagged i itpl_part)) acc)
    (flag_tuples (length svs)) (Ok L)).

(** ** [make_bary_func] *)

(** [np.argmin] and [np.argmax] of a flat array: the first position of the
    extremum. *)
Fixpoint argmin_from (best : M) (besti k : nat) (l : list M) : nat :=
  match l with
  | [] => besti
  | x :: l' => if mltb x best then argmin_from x k (S k) l' else argmin_from best besti (S k) l'
  end.

Definition argmin (l : list M) : nat :=
  match l with
  | [] => 0
  | x :: l' => argmin_from x 0 1 l'
  end.

Fixpoint argmax_from (best : M) (besti k : nat) (l : list M) : nat :=
  match l with
  | [] => besti
  | x :: l' => if mltb best x then argmax_from x k (S k) l' else argmax_from best besti (S k) l'
  end.

Definition argmax (l : list M) : nat :=
  match l with
  | [] => 0
  | x :: l' => argmax_from x 0 1 l'
  end.

(** The factor of one variable in the denominator product: the reciprocals
    of the distances to the nodes, or, within [removable_singularity_tol] of
    a node, the selector of the nearest node. *)
Definition bary_factor (tol : M) (x : F) (nodes : list F) : list F :=
  let d := map (fun node => fsub x node) nodes in
  if existsb (fun e => mltb (fabs e) tol) d
  then eye_row (length d) (argmin (map fabs d))
  else map (fun e => fdiv fone e) d.

Definition vec_sum (l : list F) : F := fold_left fadd l fzero.

(** [np.tensordot(m, itpl_vals, axes=1)]: the combination of the
    interpolation values (each one flattened) with the weights [m]. *)
Definition tensordot1 (m : list F) (itpl_vals : list (list F)) : list F :=
  fold_left (fun acc mv => vec_add acc (vec_scale (fst mv) (snd mv)))
            (zip m itpl_vals) (repeat fzero (length (nth 0 itpl_vals []))).

(** The function returned by [make_bary_func], applied to [args]. The
    result is the value [np.atleast_2d(nd[0])], flattened. *)
Definition make_bary_func (itpl_nodes : list (list F)) (itpl_vals : list (list F)) (coefs : list F)
    (removable_singularity_tol : M) (args : list F) : list F :=
  let pd :=
    fold_left (fun pd xn => kron_row pd (bary_factor removable_singularity_tol (fst xn) (snd xn)))
              (zip args itpl_nodes) [fone] in
  let m := zip_with fmul coefs pd in
  let num := tensordot1 m itpl_vals in
  let denom := vec_sum (zip_with fmul coefs pd) in
  map (fun x => fdiv x denom) num.

(** ** The store of Python objects *)

Abbreviation loc := nat.

Inductive obj : Type :=
| OList (items : list loc)     (* a list whose items are references *)
| OInts (items : list nat)     (* a list of integers *)
| OVec (v : list F)            (* a one-dimensional array *)
| OTensor (a : ndarray).       (* an N-dimensional array *)

Abbreviation store := (list obj).

(** The result of a computation on the store: a value, or an exception,
    each with the store it leaves behind. *)
Inductive outcome (A : Type) : Type :=
| Done (a : A) (s : store)
| Fail (e : exn) (s : store).
Arguments Done {A} a s.
Arguments Fail {A} e s.

Definition st (A : Type) : Type := store -> outcome A.

Definition ret {A : Type} (a : A) : st A := fun s => Done a s.

Definition raise {A : Type} (e : exn) : st A := fun s => Fail e s.

Definition bind {A B : Type} (m : st A) (k : A -> st B) : st B :=
  fun s => match m s with
           | Done a s' => k a s'
           | Fail e s' => Fail e s'
           end.

Definition lift {A : Type} (r : res A) : st A :=
  match r with
  | Ok a => ret a
  | Raise e => raise e
  end.

#[export] Instance st_ret : MRet st := @ret.
#[export] Instance st_bind : MBind st := fun A B k m => bind m k.

(** Allocation of a fresh object. *)
Definition alloc (o : obj) : st loc :=
  fun s => Done (length s) (s ++ [o]).

Definition read_list (l : loc) : st (list loc) :=
  fun s => match s !! l with
           | Some (OList items) => Done items s
           | _ => Fail TypeError s
           end.

Definition read_ints (l : loc) : st (list nat) :=
  fun s => match s !! l with
           | Some (OInts items) => Done items s
           | _ => Fail TypeError s
           end.

Definition read_vec (l : loc) : st (list F) :=
  fun s => match s !! l with
           | Some (OVec v) => Done v s
           | _ => Fail TypeError s
           end.

Definition read_tensor (l : loc) : st ndarray :=
  fun s => match s !! l with
           | Some (OTensor a) => Done a s
           | _ => Fail TypeError s
           end.

Fixpoint mapM {A B : Type} (f : A -> st B) (l : list A) : st (list B) :=
  match l with
  | [] => ret []
  | a :: l' => b ← f a; bs ← mapM f l'; ret (b :: bs)
  end.

Fixpoint for_each {A : Type} (l : list A) (f : A -> st unit) : st unit :=
  match l with
  | [] => ret tt
  | a :: l' => _ ← f a; for_each l' f
  end.

(** The value of a nested list of integers: [[list(q) for q in p]]. *)
Definition read_parts (p : loc) : st (list (list nat)) :=
  refs ← read_list p; mapM read_ints refs.

(** [p[i]] as a value. *)
Definition read_part (p : loc) (i : nat) : st (list nat) :=
  refs ← read_list p;
  match refs !! i with
  | Some l => read_ints l
  | None => raise IndexError
  end.

(** [l.append(x)] on a list of integers: the object is changed in place. *)
Definition ints_append (l : loc) (x : nat) : st unit :=
  fun s => match s !! l with
           | Some (OInts items) => Done tt (<[l := OInts (items ++ [x])]> s)
           | _ => Fail TypeError s
           end.

(** [p[i].append(x)] *)
Definition list_append (p : loc) (i : nat) (x : nat) : st unit :=
  refs ← read_list p;
  match refs !! i with
  | Some l => ints_append l x
  | None => raise IndexError
  end.

(** [p[i] = q]: slot [i] of the outer list is rebound. *)
Definition list_setitem (p : loc) (i : nat) (q : loc) : st unit :=
  fun s => match s !! p with
           | Some (OList items) =>
               if i <? length items then Done tt (<[p := OList (<[i := q]> items)]> s)
               else Fail IndexError s
           | _ => Fail TypeError s
           end.

(** ** Array helpers used by [reduce] *)

(** [a[i, None]]: the slice at index [i] of the first axis, with a new
    leading axis of length one. *)
Definition row_slice (a : ndarray) (i : nat) : res ndarray :=
  match shape a with
  | [] => Raise IndexError
  | n :: tl =>
      if i <? n then
        let T := fold_right Nat.mul 1 tl in
        Ok (mk_ndarray (1 :: tl) (take T (drop (i * T) (data a))))
      else Raise IndexError
  end.

(** [a.conj()] *)
Definition conj_array (a : ndarray) : ndarray :=
  mk_ndarray (shape a) (map fconj (data a)).

(** [np.atleast_2d] *)
Definition atleast_2d (a : ndarray) : ndarray :=
  match shape a with
  | [] => mk_ndarray [1; 1] (data a)
  | [n] => mk_ndarray [1; n] (data a)
  | _ => a
  end.

(** [np.vstack]: every array is made at least two-dimensional, then the
    arrays are concatenated along the first axis, which requires equal
    remaining dimensions. *)
Definition vstack (l : list ndarray) : res ndarray :=
  match map atleast_2d l with
  | [] => Raise ValueError
  | a :: rest =>
      if forallb (fun b => bool_decide (tail (shape b) = tail (shape a))) rest
      then Ok (mk_ndarray
                 (fold_right Nat.add 0 (map (fun b => hd 0 (shape b)) (a :: rest)) :: tail (shape a))
                 (concat (map data (a :: rest))))
      else Raise ValueError
  end.

(** The pass over [enumerate(svs[0])] that collects the conjugates missing
    from [svs[0]] and the conjugated sample slices. *)
Fixpoint conj_lists (v0 : list F) (a : ndarray) (l : list (nat * F)) : res (list F * list ndarray) :=
  match l with
  | [] => Ok ([], [])
  | (i, s) :: l' =>
      if existsb (feqb (fconj s)) v0 then conj_lists v0 a l'
      else
        res_bind (row_slice a i) (fun r =>
        res_bind (conj_lists v0 a l') (fun cr =>
        Ok (fconj s :: fst cr, conj_array r :: snd cr)))
  end.

Definition enumerate {A : Type} (l : list A) : list (nat * A) :=
  zip (seq 0 (length l)) l.

(** [np.max] of a flat array of reals. *)
Fixpoint max_from (best : M) (l : list M) : M :=
  match l with
  | [] => best
  | x :: l' => if mltb best x then max_from x l' else max_from best l'
  end.

Definition np_max (l : list M) : res M :=
  match l with
  | [] => Raise ValueError
  | x :: l' => Ok (max_from x l')
  end.

(** [np.mean] *)
Definition np_mean (a : ndarray) : F :=
  fdiv (vec_sum (data a)) (fof_nat (length (data a))).

Definition dot (u v : list F) : F := vec_sum (zip_with fmul u v).

(** [a @ v] for a vector [v]: contraction of the last axis. *)
Definition matvec_last (a : ndarray) (v : list F) : ndarray :=
  let lead := removelast (shape a) in
  let m := List.last (shape a) 0 in
  mk_ndarray lead
    (map (fun k => dot (take m (drop (k * m) (data a))) v) (seq 0 (fold_right Nat.mul 1 lead))).

(** The block of trailing entries of [a] at the leading multi-index [idx]. *)
Definition tblock (a : ndarray) (nlead : nat) (idx : list nat) : list F :=
  let T := fold_right Nat.mul 1 (drop nlead (shape a)) in
  take T (drop (ravel (take nlead (shape a)) idx * T) (data a)).

(** ** The reductor *)

(** The numerical kernels the reductor calls. [svd_last L] stands for
    [spla.svd(L, lapack_driver='gesvd')]: it gives the singular values [S]
    and the column [V.T.conj()[:, -1:]]. [new_rng_vectors] gives the two
    normalised random vectors [(w, v)] drawn from [new_rng(0)]. *)
Record numerics : Type := {
  svd_last : matrix -> list M * list F;
  matrix_rank : matrix -> M -> nat;
  new_rng_vectors : bool -> nat -> nat -> list F * list F;
  default_removable_singularity_tol : M
}.

(** The attributes of a [pAAAReductor] that [reduce] reads. *)
Record reductor : Type := {
  sampling_values : loc;
  samples : loc;
  conjugate : bool;
  nsp_tol : M;
  post_process : bool;
  L_rk_tol : M;
  num_vars : nat
}.

Inductive log_level : Type := LvInfo | LvWarning.

Inductive log_event : Type :=
| LogStep (j : nat) (lens : list nat)
| LogStartPostProcessing
| LogPostProcessingFailed
| LogNonMinimal
| LogConvergedNullspace.

Definition level_of (e : log_event) : log_level :=
  match e with
  | LogPostProcessingFailed | LogNonMinimal => LvWarning
  | _ => LvInfo
  end.

(** The evaluator [bary_func]: the constant function the iteration starts
    with, or a barycentric form. *)
Inductive bary : Type :=
| BaryConst (c : F)
| BaryForm (itpl_nodes : list (list F)) (itpl_vals : list (list F)) (coefs : list F).

(** The local variables of [reduce] that the loop updates. [l_form] holds
    [itpl_nodes], [itpl_samples] and [coefs] once they are bound. *)
Record locals : Type := {
  l_itpl_part : loc;
  l_bary : bary;
  l_form : option (list (list F) * list F * list F);
  l_j : nat;
  l_log : list log_event
}.

Inductive exit_reason : Type :=
| CapsReached          (* the [while] condition is false *)
| ToleranceReached     (* [break] of the stopping criterion *)
| NullspaceConverged.  (* [break] after the update of the form *)

Inductive step : Type :=
| Continue (l : locals)
| Exit (r : exit_reason) (l : locals).

Context (K : numerics).

Definition eval_bary (b : bary) (args : list F) : F :=
  match b with
  | BaryConst c => c
  | BaryForm itpl_nodes itpl_vals coefs =>
      nth 0 (make_bary_func itpl_nodes itpl_vals coefs (default_removable_singularity_tol K) args) fzero
  end.

(** The multi-indices of the grid [np.meshgrid] of [svs] with [indexing='ij'], in
    row-major order, and the grid point of a multi-index. *)
Definition grid_indices (svs : list (list F)) : list (list nat) :=
  product (map (fun sv => seq 0 (length sv)) svs).

Definition coords (svs : list (list F)) (idx : list nat) : list F :=
  zip_with (fun sv k => nth k sv fzero) svs idx.

(** The error matrix: [np.abs] of [bary_func] on the grid minus [samples], flattened. *)
Definition err_matrix (b : bary) (svs : list (list F)) (smp : ndarray) : list M :=
  map (fun idx => fabs (fsub (eval_bary b (coords svs idx)) (tget smp idx))) (grid_indices svs).

(** The index lists [zero_idx] of the error-zeroing step. *)
Definition zero_idx (parts : list (list nat)) (max_itpl : list Z) (smp : ndarray) (nv : nat)
    : list (list nat) :=
  map (fun i =>
         let part := nth i parts [] in
         if (nth i max_itpl 0 <=? Z.of_nat (length part))%Z
         then seq 0 (nth i (shape smp) 0)
         else part)
      (seq 0 nv).

Definition in_block (zidx : list (list nat)) (idx : list nat) : bool :=
  forallb (fun zk => existsb (Nat.eqb (snd zk)) (fst zk)) (zip zidx idx).

(** The assignment of zero to the block of [err_mat] selected by [np.ix_] over [zero_idx]. *)
Definition mask_block (zidx : list (list nat)) (svs : list (list F)) (err_mat : list M) : list M :=
  zip_with (fun idx e => if in_block zidx idx then mzero else e) (grid_indices svs) err_mat.

(** [any(len(i) < mi for i, mi in zip(self.itpl_part, max_itpl))] *)
Definition any_room (parts : list (list nat)) (max_itpl : list Z) : bool :=
  existsb (fun pm => (Z.of_nat (length (fst pm)) <? snd pm)%Z) (zip parts max_itpl).

(** [np.where(svs[0] == x)[0]], its first entry if any. *)
Fixpoint find_index (x : F) (v : list F) : option nat :=
  match v with
  | [] => None
  | y :: v' => if feqb y x then Some 0 else option_map S (find_index x v')
  end.

(** The body of [for i in range(num_vars)] that extends the partition of
    variable [i] by the greedy index. *)
Definition append_step (conj : bool) (svs : list (list F)) (max_itpl : list Z) (greedy_idx : list nat)
    (p : loc) (i : nat) : st unit :=
  part ← read_part p i;
  let g := nth i greedy_idx 0 in
  if negb (existsb (Nat.eqb g) part) && (Z.of_nat (length part) <? nth i max_itpl 0)%Z then
    _ ← list_append p i g;
    if (i =? 0) && conj && fimag_nonzero (nth g (nth i svs []) fzero) then
      let conj_sample := fconj (nth g (nth i svs []) fzero) in
      match find_index conj_sample (nth 0 svs []) with
      | Some c => list_append p i c
      | None => raise IndexError
      end
    else ret tt
  else ret tt.

Definition greedy_append (conj : bool) (svs : list (list F)) (max_itpl : list Z) (greedy_idx : list nat)
    (p : loc) (nv : nat) : st unit :=
  for_each (seq 0 nv) (append_step conj svs max_itpl greedy_idx p).

(** [np.sum(S/S[0] < nsp_tol)]. Singular values are non-negative and
    descending: when [S[0]] is zero every quotient is [nan] and no
    comparison holds. *)
Definition null_dim (S : list M) (tol : M) : res nat :=
  match S with
  | [] => Raise IndexError
  | s0 :: _ =>
      if mleb s0 mzero then Ok 0
      else Ok (length (List.filter (fun x => mltb (mdiv x s0) tol) S))
  end.

(** ** [_post_processing] *)

Fixpoint argmax_nat_from (best besti k : nat) (l : list nat) : nat :=
  match l with
  | [] => besti
  | x :: l' => if best <? x then argmax_nat_from x k (S k) l' else argmax_nat_from best besti (S k) l'
  end.

Definition argmax_nat (l : list nat) : nat :=
  match l with
  | [] => 0
  | x :: l' => argmax_nat_from x 0 1 l'
  end.

Fixpoint mapM_res {A B : Type} (f : A -> res B) (l : list A) : res (list B) :=
  match l with
  | [] => Ok []
  | a :: l' => res_bind (f a) (fun b => res_bind (mapM_res f l') (fun bs => Ok (b :: bs)))
  end.

(** The largest rank among the one-dimensional Loewner matrices of variable
    [i], the other variables held fixed at every index combination. *)
Definition max_rank_var (smp : ndarray) (svs : list (list F)) (parts : list (list nat)) (tol : M)
    (i : nat) : res nat :=
  let shapes := take i (shape smp) ++ drop (S i) (shape smp) in
  res_bind
    (mapM_res
       (fun idc =>
          let l_idc := map Some (take i idc) ++ [None] ++ map Some (drop i idc) in
          res_bind (nd_loewner (slice_fixed smp l_idc) [nth i svs []] [nth i parts []])
                   (fun L => Ok (matrix_rank K L tol)))
       (product (map (seq 0) shapes)))
    (fun rks => Ok (fold_left Nat.max rks 0)).

(** [l[0:stop]] *)
Definition slice_to (l : list nat) (stop : Z) : list nat :=
  if (0 <=? stop)%Z then take (Z.to_nat stop) l
  else take (Z.to_nat (Z.of_nat (length l) + stop)) l.

(** The entries [max_rks] before the back-solve, and the product [denom]. *)
Definition max_rks_of (smp : ndarray) (svs : list (list F)) (parts : list (list nat)) (tol : M)
    : res (list Z) :=
  let max_idx := argmax_nat (map length parts) in
  mapM_res
    (fun i =>
       if i =? max_idx then Ok (Z.of_nat (length (nth max_idx parts [])) - 1)%Z
       else res_bind (max_rank_var smp svs parts tol i) (fun rk => Ok (Z.of_nat rk)))
    (seq 0 (length svs)).

Definition pp_denom (parts : list (list nat)) (max_rks : list Z) : Z :=
  fold_left Z.mul
    (map (fun k => (Z.of_nat (length (nth k parts [])) - nth k max_rks 0)%Z) (seq 0 (length parts)))
    1%Z.

(** [itpl_part[i] = itpl_part[i][0:max_rks[i]+1]]: the slice is a new list,
    bound to slot [i] of the outer list. *)
Definition truncate_step (p : loc) (max_rks : list Z) (i : nat) : st unit :=
  part ← read_part p i;
  q ← alloc (OInts (slice_to part (nth i max_rks 0 + 1)%Z));
  list_setitem p i q.

(** [None] stands for the pair [(None, None)]. *)
Definition _post_processing (smp : ndarray) (svs : list (list F)) (p : loc) (d_nsp : Z) (tol : M)
    : st (option (list F * loc)) :=
  parts ← read_parts p;
  max_rks ← lift (max_rks_of smp svs parts tol);
  let max_idx := argmax_nat (map length parts) in
  let denom := pp_denom parts max_rks in
  if (denom =? 0)%Z || negb (d_nsp mod denom =? 0)%Z then ret None
  else
    let max_rks' :=
      <[max_idx := (Z.of_nat (length (nth max_idx parts [])) - d_nsp / denom)%Z]> max_rks in
    _ ← for_each (seq 0 (length max_rks')) (truncate_step p max_rks');
    parts' ← read_parts p;
    L ← lift (full_nd_loewner smp svs parts');
    ret (Some (snd (svd_last K L), p)).

(** ** [pAAAReductor.reduce] *)

(** What is fixed when the loop starts: the sampling values and the scalar
    samples (after the conjugate augmentation and the MIMO projection), the
    threshold [rel_tol] and the caps. *)
Record loop_env : Type := {
  e_svs : list (list F);
  e_samples : ndarray;
  e_rel_tol : M;
  e_max_itpl : list Z
}.

Definition add_log (e : log_event) (l : locals) : locals :=
  {| l_itpl_part := l_itpl_part l; l_bary := l_bary l; l_form := l_form l;
     l_j := l_j l; l_log := l_log l ++ [e] |}.

(** The masked error matrix of an iteration. *)
Definition masked_err (env : loop_env) (b : bary) (parts : list (list nat)) : list M :=
  mask_block (zero_idx parts (e_max_itpl env) (e_samples env) (length (e_svs env)))
             (e_svs env)
             (err_matrix b (e_svs env) (e_samples env)).

(** The post-processing branch of an iteration: the coefficients and the
    partition object to continue with, and the messages logged. *)
Definition nonminimal_branch (self : reductor) (env : loop_env) (p : loc) (coefs0 : list F)
    (d_nsp : nat) : st (list F * loc * list log_event) :=
  if 1 <? d_nsp then
    if post_process self then
      r ← _post_processing (e_samples env) (e_svs env) p (Z.of_nat d_nsp) (L_rk_tol self);
      match r with
      | Some (pp_coefs, pp_itpl_part) => ret (pp_coefs, pp_itpl_part, [LogStartPostProcessing])
      | None => ret (coefs0, p, [LogStartPostProcessing; LogPostProcessingFailed])
      end
    else ret (coefs0, p, [LogNonMinimal])
  else ret (coefs0, p, []).

(** The statements of a pass after the stopping criterion: the greedy
    extension of the partition, the least-squares problem, the
    post-processing and the update of the barycentric form. *)
Definition iter_update (self : reductor) (env : loop_env) (l1 : locals) (err_mat : list M) : st step :=
  let p := l_itpl_part l1 in
  let greedy_idx := unravel (map length (e_svs env)) (argmax err_mat) in
  _ ← greedy_append (conjugate self) (e_svs env) (e_max_itpl env) greedy_idx p
        (length (e_svs env));
  parts1 ← read_parts p;
  L ← lift (full_nd_loewner (e_samples env) (e_svs env) parts1);
  let S := fst (svd_last K L) in
  let coefs0 := snd (svd_last K L) in
  d_nsp ← lift (null_dim S (nsp_tol self));
  cpl ← nonminimal_branch self env p coefs0 d_nsp;
  let coefs := fst (fst cpl) in
  let p' := snd (fst cpl) in
  parts2 ← read_parts p';
  let itpl_samples := select (e_samples env) parts2 in
  let itpl_nodes := zip_with take_idx (e_svs env) parts2 in
  let l2 :=
    {| l_itpl_part := p';
       l_bary := BaryForm itpl_nodes (map (fun x => [x]) itpl_samples) coefs;
       l_form := Some (itpl_nodes, itpl_samples, coefs);
       l_j := l_j l1;
       l_log := l_log l1 ++ snd cpl |} in
  if post_process self && (1 <=? d_nsp)
  then ret (Exit NullspaceConverged (add_log LogConvergedNullspace l2))
  else ret (Continue l2).

(** The local state after the iteration counter is advanced and the error
    of the step is logged. *)
Definition log_step (l : locals) (parts : list (list nat)) : locals :=
  {| l_itpl_part := l_itpl_part l; l_bary := l_bary l; l_form := l_form l; l_j := S (l_j l);
     l_log := l_log l ++ [LogStep (S (l_j l)) (map length parts)] |}.

(** One pass through the body of the [while] loop, its condition included. *)
Definition reduce_iter (self : reductor) (env : loop_env) (l : locals) : st step :=
  parts ← read_parts (l_itpl_part l);
  if negb (any_room parts (e_max_itpl env)) then ret (Exit CapsReached l)
  else
    let err_mat := masked_err env (l_bary l) parts in
    err ← lift (np_max err_mat);
    if mleb err (e_rel_tol env) then ret (Exit ToleranceReached (log_step l parts))
    else iter_update self env (log_step l parts) err_mat.

(** The [while] loop, run for at most [fuel] passes; [None] when the fuel
    does not suffice. *)
Fixpoint reduce_loop (fuel : nat) (self : reductor) (env : loop_env) (l : locals) (s : store)
    : option (outcome (exit_reason * locals)) :=
  match fuel with
  | 0 => None
  | S fuel' =>
      match reduce_iter self env l s with
      | Done (Continue l') s' => reduce_loop fuel' self env l' s'
      | Done (Exit r l') s' => Some (Done (r, l') s')
      | Fail e s' => Some (Fail e s')
      end
  end.

(** What [reduce] has set up when the loop starts. *)
Record prepared : Type := {
  p_env : loop_env;
  p_samples_orig : ndarray;
  p_dim_input : nat;
  p_dim_output : nat;
  p_locals : locals
}.

(** The complex-conjugate augmentation of the copies [svs] (at [svs_loc])
    and [samples]. *)
Definition add_conjugates (sv_items : list loc) (svs_loc : loc) (smp0 : ndarray) : st ndarray :=
  match sv_items !! 0 with
  | None => raise IndexError
  | Some l0 =>
      v0 ← read_vec l0;
      cr ← lift (conj_lists v0 smp0 (enumerate v0));
      match fst cr with
      | [] => ret smp0
      | _ :: _ =>
          l0' ← alloc (OVec (v0 ++ fst cr));
          _ ← list_setitem svs_loc 0 l0';
          a ← lift (vstack (smp0 :: snd cr));
          _ ← alloc (OTensor a);
          ret a
      end
  end.

(** The projection of matrix-valued samples onto scalar data. The test
    [np.iscomplex(svs[0])] reads the sampling values of variable 0, and
    raises [IndexError] when there is no variable. *)
Definition mimo_transform (svs : list (list F)) (smp1 : ndarray) : res (ndarray * nat * nat) :=
  if length (shape smp1) =? length svs then Ok (smp1, 1, 1)
  else if length (shape smp1) =? length svs + 2 then
    let dim_input := List.last (shape smp1) 0 in
    let dim_output := List.last (removelast (shape smp1)) 0 in
    match svs with
    | [] => Raise IndexError
    | sv0 :: _ =>
        let wv := new_rng_vectors K (existsb fimag_nonzero sv0) dim_output dim_input in
        Ok (matvec_last (matvec_last smp1 (snd wv)) (fst wv), dim_input, dim_output)
    end
  else Raise AssertionError.

(** [self.itpl_part]: fresh empty lists, or the caller's object itself. *)
Definition init_itpl_part (itpl_part : option loc) (nv : nat) : st loc :=
  match itpl_part with
  | None =>
      refs ← mapM (fun _ => alloc (OInts [])) (seq 0 nv);
      alloc (OList refs)
  | Some q =>
      items ← read_list q;
      if length items =? nv then ret q else raise AssertionError
  end.

Definition reduce_init (self : reductor) (tol : M) (itpl_part : option loc)
    (max_itpl : option (list Z)) : st prepared :=
  sv_items ← read_list (sampling_values self);
  svs_loc ← alloc (OList sv_items);
  smp0 ← read_tensor (samples self);
  _ ← alloc (OTensor smp0);
  smp1 ← (if conjugate self then add_conjugates sv_items svs_loc smp0 else ret smp0);
  sv_items' ← read_list svs_loc;
  svs ← mapM read_vec sv_items';
  max_samples ← lift (np_max (map fabs (data smp1)));
  let rel_tol := mmul tol max_samples in
  tr ← lift (mimo_transform svs smp1);
  let smp := fst (fst tr) in
  p ← init_itpl_part itpl_part (length svs);
  let max_itpl' :=
    match max_itpl with
    | None => map (fun sv => (Z.of_nat (length sv) - 1)%Z) svs
    | Some mi => mi
    end in
  if negb (length max_itpl' =? length svs) then raise AssertionError
  else
    ret {| p_env := {| e_svs := svs; e_samples := smp; e_rel_tol := rel_tol;
                       e_max_itpl := max_itpl' |};
           p_samples_orig := smp1;
           p_dim_input := snd (fst tr);
           p_dim_output := snd tr;
           p_locals := {| l_itpl_part := p; l_bary := BaryConst (np_mean smp);
                          l_form := None; l_j := 0; l_log := [] |} |}.

(** The reduced model: the dimensions and the barycentric form handed to
    [TransferFunction]. *)
Record rom : Type := {
  rom_dim_input : nat;
  rom_dim_output : nat;
  rom_nodes : list (list F);
  rom_vals : list (list F);
  rom_coefs : list F
}.

(** The statements after the loop. *)
Definition reduce_final (pr : prepared) (l : locals) : st rom :=
  mimo_vals ←
    (if negb (p_dim_input pr =? 1) || negb (p_dim_output pr =? 1) then
       parts ← read_parts (l_itpl_part l);
       ret (Some (map (tblock (p_samples_orig pr) (length (e_svs (p_env pr)))) (product parts)))
     else ret None);
  match l_form l with
  | None => raise UnboundLocalError
  | Some (itpl_nodes, itpl_samples, coefs) =>
      ret {| rom_dim_input := p_dim_input pr;
             rom_dim_output := p_dim_output pr;
             rom_nodes := itpl_nodes;
             rom_vals := match mimo_vals with
                         | Some v => v
                         | None => map (fun x => [x]) itpl_samples
                         end;
             rom_coefs := coefs |}
  end.

(** [reduce], with [fuel] bounding the passes of its loop. The result
    carries the final local state: [self.itpl_part] and the log. *)
Definition reduce (fuel : nat) (self : reductor) (tol : M) (itpl_part : option loc)
    (max_itpl : option (list Z)) (s : store) : option (outcome (rom * locals)) :=
  match reduce_init self tol itpl_part max_itpl s with
  | Fail e s1 => Some (Fail e s1)
  | Done pr s1 =>
      match reduce_loop fuel self (p_env pr) (p_locals pr) s1 with
      | None => None
      | Some (Fail e s2) => Some (Fail e s2)
      | Some (Done (_, l) s2) =>
          match reduce_final pr l s2 with
          | Done r s3 => Some (Done (r, l) s3)
          | Fail e s3 => Some (Fail e s3)
          end
      end
  end.

End Arrays.

Abbreviation loc := nat.
Abbreviation store := (list obj).

Arguments Done {Sc A} a s.
Arguments Fail {Sc A} e s.

(** ** Laws of the arithmetic *)

(** The strict order on the reals, as far as the searches for an extremum
    rely on it. *)
Class OrderLaws (Sc : Scalar) : Prop := {
  mltb_trans : forall a b c : M, mltb a b = true -> mltb b c = true -> mltb a c = true;
  mltb_asym : forall a b : M, mltb a b = true -> mltb b a = false;
  mltb_neg_trans : forall a b c : M, mltb b a = false -> mltb b c = true -> mltb a c = true
}.

(** Laws of the comparison, the conjugation and the neutral elements. They
    hold for exact numbers and, with [=] read as the comparison [==] of
    two numbers (for which 0.0 and -0.0 are one number), for the float64
    and complex128 numbers of numpy: a difference is zero only for equal
    numbers, and adding zero or multiplying by one is not rounded. *)
Class ScalarLaws (Sc : Scalar) : Prop := {
  feqb_eq : forall x y : F, feqb x y = true <-> x = y;
  fconj_invol : forall x : F, fconj (fconj x) = x;
  fsub_eq : forall x y : F, fsub x y = fzero -> x = y;
  fadd_0_l : forall x : F, fadd fzero x = x;
  fadd_0_r : forall x : F, fadd x fzero = x;
  fmul_1_l : forall x : F, fmul fone x = x;
  fmul_1_r : forall x : F, fmul x fone = x
}.

(** Laws of the [finite] numbers: every number of an exact arithmetic,
    and in float64 and complex128 every number that is neither an
    infinity nor NaN. They hold there in the same reading of [=]: a
    finite number minus itself and zero times a finite number are zero,
    and two different finite numbers have a difference of positive
    magnitude. Nothing is assumed on the value of a rounded product or
    quotient, and a difference or product of finite numbers need not be
    finite. *)
Class FiniteLaws (Sc : Scalar) (finite : F -> Prop) : Prop := {
  finite_zero : finite fzero;
  finite_one : finite fone;
  fsub_diag : forall x : F, finite x -> fsub x x = fzero;
  fmul_0_l : forall x : F, finite x -> fmul fzero x = fzero;
  fmul_0_r : forall x : F, finite x -> fmul x fzero = fzero;
  fabs_sub_pos : forall x y : F, finite x -> finite y -> x <> y ->
                 mltb (fabs fzero) (fabs (fsub x y)) = true
}.

(** ** A computable instance: Gaussian rationals *)

(** Elements are complex numbers with rational real and imaginary parts.
    A real number [m] that arises as a magnitude, a tolerance or a singular
    value is kept as the rational [sgn(m) * m^2]: this map is strictly
    increasing and commutes with products and quotients, so every order
    test, [argmax], [argmin], [tol * max] and [S / S[0]] is computed
    exactly, and [np.abs(z)] is kept as [re(z)^2 + im(z)^2]. *)
Module Gauss.

Record gauss : Type := mk_gauss { re : Qc; im : Qc }.

Definition gzero : gauss := mk_gauss 0 0.
Definition gone : gauss := mk_gauss 1 0.
Definition gadd (x y : gauss) : gauss := mk_gauss (re x + re y) (im x + im y).
Definition gsub (x y : gauss) : gauss := mk_gauss (re x - re y) (im x - im y).
Definition gmul (x y : gauss) : gauss :=
  mk_gauss (re x * re y - im x * im y) (re x * im y + im x * re y).
Definition gnorm2 (x : gauss) : Qc := re x * re x + im x * im x.
Definition gdiv (x y : gauss) : gauss :=
  mk_gauss ((re x * re y + im x * im y) / gnorm2 y) ((im x * re y - re x * im y) / gnorm2 y).
Definition gconj (x : gauss) : gauss := mk_gauss (re x) (- im x).
Definition gimag_nonzero (x : gauss) : bool := negb (Qc_eq_bool (im x) 0).
Definition geqb (x y : gauss) : bool := Qc_eq_bool (re x) (re y) && Qc_eq_bool (im x) (im y).
Definition gof_nat (n : nat) : gauss := mk_gauss (Q2Qc (inject_Z (Z.of_nat n))) 0.
Definition qleb (a b : Qc) : bool := Qle_bool a b.
Definition qltb (a b : Qc) : bool := negb (Qle_bool b a).

#[export] Instance gauss_scalar : Scalar := {|
  F := gauss;
  M := Qc;
  fzero := gzero;
  fone := gone;
  fadd := gadd;
  fsub := gsub;
  fmul := gmul;
  fdiv := gdiv;
  fconj := gconj;
  fimag_nonzero := gimag_nonzero;
  feqb := geqb;
  fof_nat := gof_nat;
  fabs := gnorm2;
  mzero := 0%Qc;
  mmul := Qcmult;
  mdiv := Qcdiv;
  mleb := qleb;
  mltb := qltb
|}.

(** The real number [q] and the imaginary number [q * 1j]. *)
Definition real (q : Q) : gauss := mk_gauss (Q2Qc q) 0.
Definition imag (q : Q) : gauss := mk_gauss 0 (Q2Qc q).

End Gauss.

(** ** The arithmetic of numpy on real arrays: binary64 *)

(** Arrays of dtype float64 hold IEEE 754 binary64 numbers, and numpy
    rounds every sum, difference, product and quotient of two of them to
    the nearest one. These are the primitive floating-point numbers of
    Rocq. A real number is its own conjugate and has no imaginary part. *)
Module Binary64.
Import PrimFloat.
#[local] Open Scope float_scope.

#[export] Instance binary64_scalar : Scalar := {|
  F := float;
  M := float;
  fzero := 0;
  fone := 1;
  fadd := add;
  fsub := sub;
  fmul := mul;
  fdiv := div;
  fconj := fun x => x;
  fimag_nonzero := fun _ => false;
  feqb := eqb;
  fof_nat := fun n => Nat.iter n (fun x => x + 1) 0;
  fabs := abs;
  mzero := 0;
  mmul := mul;
  mdiv := div;
  mleb := leb;
  mltb := ltb
|}.

End Binary64.

(** * Properties *)

(** ** The Loewner matrix ([nd_loewner]) *)

Section LoewnerFacts.
Context `{Sc : Scalar}.

Lemma flat_map_map {A B C : Type} (f : A -> B) (g : B -> list C) (l : list A) :
  flat_map g (map f l) = flat_map (fun x => g (f x)) l.
Proof.
  induction l as [|a l IH]; simpl; [reflexivity|]. now rewrite IH.
Qed.

Lemma map_flat_map {A B C : Type} (f : B -> C) (g : A -> list B) (l : list A) :
  map f (flat_map g l) = flat_map (fun x => map f (g x)) l.
Proof.
  induction l as [|a l IH]; simpl; [reflexivity|].
  now rewrite map_app, IH.
Qed.

Lemma flat_map_ext_in {A B : Type} (f g : A -> list B) (l : list A) :
  (forall x, In x l -> f x = g x) -> flat_map f l = flat_map g l.
Proof.
  induction l as [|a l IH]; simpl; intros E; [reflexivity|].
  rewrite E by now left. rewrite IH; [reflexivity|]. intros x Hx. apply E. now right.
Qed.

Lemma zip_with_map_same {A B C D : Type} (f : B -> C -> D) (g : A -> B) (h : A -> C) (l : list A) :
  zip_with f (map g l) (map h l) = map (fun x => f (g x) (h x)) l.
Proof.
  induction l as [|a l IH]; simpl; [reflexivity|]. now rewrite IH.
Qed.

(** The Kronecker product of two matrices given entrywise over index
    lists is given entrywise over the extended index tuples. *)
Lemma kron_outer {I : Type} (X Y : list (list I)) (A B : list I)
    (f : list I -> list I -> F) (g : I -> I -> F) (h : list I -> list I -> F) (P Q : list I -> Prop) :
  (forall x, In x X -> P x) -> (forall y, In y Y -> Q y) ->
  (forall x a y b, P x -> Q y -> h (x ++ [a]) (y ++ [b]) = fmul (f x y) (g a b)) ->
  kron (map (fun x => map (fun y => f x y) Y) X) (map (fun a => map (fun b => g a b) B) A)
  = map (fun xa => map (fun yb => h xa yb) (product_step Y B)) (product_step X A).
Proof.
  intros HP HQ Hh. unfold kron, product_step.
  rewrite flat_map_map, map_flat_map.
  apply flat_map_ext_in. intros x Hx.
  rewrite !map_map. apply map_ext. intros a.
  unfold kron_row. rewrite flat_map_map, map_flat_map.
  apply flat_map_ext_in. intros y Hy.
  rewrite !map_map. apply map_ext. intros b.
  symmetry. apply Hh; auto.
Qed.

Lemma product_snoc {A : Type} (pools : list (list A)) (pool : list A) :
  product (pools ++ [pool]) = product_step (product pools) pool.
Proof. unfold product. now rewrite fold_left_app. Qed.

Lemma product_take_S {A : Type} (pools : list (list A)) (k : nat) :
  k < length pools ->
  product (take (S k) pools) = product_step (product (take k pools)) (nth k pools []).
Proof.
  intros Hk. rewrite <- product_snoc. f_equal.
  revert k Hk. induction pools as [|p pools IH]; intros k Hk; simpl in *; [lia|].
  destruct k as [|k]; simpl; [reflexivity|].
  f_equal. apply IH. lia.
Qed.

Lemma product_length_in {A : Type} (pools : list (list A)) (x : list A) :
  In x (product pools) -> length x = length pools.
Proof.
  revert x. induction pools as [|pool pools IH] using rev_ind; intros x Hx.
  - simpl in Hx. destruct Hx as [<-|[]]. reflexivity.
  - rewrite product_snoc in Hx. unfold product_step in Hx.
    apply in_flat_map in Hx. destruct Hx as (y & Hy & Hx).
    apply in_map_iff in Hx. destruct Hx as (a & <- & _).
    rewrite !length_app. simpl. now rewrite (IH y Hy).
Qed.

(** The difference of the locations of variable [i] selected by the
    multi-indices [rs] (row) and [cs] (column). *)
Definition loc_dif (svs : list (list F)) (i : nat) (rs cs : list nat) : F :=
  fsub (nth (nth i rs 0) (nth i svs []) fzero) (nth (nth i cs 0) (nth i svs []) fzero).

(** The product over the variables [0..n] of the location differences,
    multiplied in the order of the variables. *)
Definition loc_prod (svs : list (list F)) (n : nat) (rs cs : list nat) : F :=
  fold_left (fun acc i => fmul acc (loc_dif svs i rs cs)) (seq 1 n) (loc_dif svs 0 rs cs).

(** The entry the specification gives for row combination [rs] and column
    combination [cs]. *)
Definition loewner_entry (samples : ndarray) (svs : list (list F)) (rs cs : list nat) : F :=
  fdiv (fsub (tget samples rs) (tget samples cs)) (loc_prod svs (length (shape samples) - 1) rs cs).

Lemma loc_diff_outer svs itpl ls i :
  loc_diff svs itpl ls i
  = map (fun r => map (fun c => fsub (nth r (nth i svs []) fzero) (nth c (nth i svs []) fzero))
                      (nth i itpl [])) (nth i ls []).
Proof.
  unfold loc_diff, outer_sub, take_idx. rewrite map_map.
  apply map_ext. intros r. now rewrite map_map.
Qed.

Lemma loc_dif_snoc svs i (x y : list nat) a b :
  i < length x -> i < length y ->
  loc_dif svs i (x ++ [a]) (y ++ [b]) = loc_dif svs i x y.
Proof.
  intros Hx Hy. unfold loc_dif. now rewrite !app_nth1 by assumption.
Qed.

Lemma loc_dif_last svs i (x y : list nat) a b :
  length x = i -> length y = i ->
  loc_dif svs i (x ++ [a]) (y ++ [b])
  = fsub (nth a (nth i svs []) fzero) (nth b (nth i svs []) fzero).
Proof.
  intros Hx Hy. unfold loc_dif.
  rewrite !app_nth2 by lia. rewrite Hx, Hy, Nat.sub_diag. reflexivity.
Qed.

Lemma loc_prod_snoc svs n (x y : list nat) a b :
  n < length x -> n < length y ->
  loc_prod svs n (x ++ [a]) (y ++ [b]) = loc_prod svs n x y.
Proof.
  intros Hx Hy. unfold loc_prod.
  rewrite loc_dif_snoc by lia.
  generalize (loc_dif svs 0 x y). intros acc.
  assert (Hs : forall i, In i (seq 1 n) -> i < length x /\ i < length y).
  { intros i Hi. apply in_seq in Hi. lia. }
  revert acc Hs. generalize (seq 1 n). intros l.
  induction l as [|i l IH]; intros acc Hs; simpl; [reflexivity|].
  rewrite loc_dif_snoc by (apply Hs; now left).
  apply IH. intros j Hj. apply Hs. now right.
Qed.

(** The denominator grid after the variables [0..n] have been combined. *)
Lemma sdpd_outer svs itpl ls n :
  n < length itpl -> n < length ls ->
  fold_left (fun acc i => kron acc (loc_diff svs itpl ls i)) (seq 1 n) (loc_diff svs itpl ls 0)
  = map (fun rs => map (fun cs => loc_prod svs n rs cs) (product (take (S n) itpl)))
        (product (take (S n) ls)).
Proof.
  induction n as [|n IH]; intros Hi Hl.
  - simpl. rewrite loc_diff_outer.
    rewrite !product_take_S by lia. simpl. unfold product_step. simpl.
    rewrite !app_nil_r, map_map. apply map_ext. intros r.
    rewrite map_map. reflexivity.
  - rewrite seq_S, fold_left_app. simpl. rewrite IH by lia.
    rewrite loc_diff_outer.
    rewrite (product_take_S itpl (S n)) by lia.
    rewrite (product_take_S ls (S n)) by lia.
    apply (kron_outer _ _ _ _ _ _ _ (fun x : list nat => length x = S n) (fun y : list nat => length y = S n)).
    + intros x Hx. apply product_length_in in Hx. rewrite Hx, length_take. lia.
    + intros y Hy. apply product_length_in in Hy. rewrite Hy, length_take. lia.
    + intros x a y b Hx Hy. unfold loc_prod at 1.
      rewrite seq_S, fold_left_app. simpl.
      rewrite (loc_dif_last svs (S n)) by lia.
      f_equal. apply loc_prod_snoc; lia.
Qed.

Lemma product_nonempty_length {A : Type} (pools : list (list A)) :
  (length (product pools) =? 0) = false -> product pools <> [].
Proof. intros H E. rewrite E in H. discriminate. Qed.

(** C3. For a sample tensor over [d >= 1] variables, a sampling grid and an
    interpolation partition with one entry per variable, whose least-squares
    partition is non-empty in every variable, [nd_loewner] returns the matrix
    whose rows run over the Cartesian product of the least-squares indices
    and whose columns run over the Cartesian product of the interpolation
    indices (both in row-major order), the entry at row combination [rs] and
    column combination [cs] being [(f(rs) - f(cs))] divided by the product
    over all variables [i] of [location_i(rs_i) - location_i(cs_i)]. *)
Theorem nd_loewner_entries (samples : ndarray) (svs : list (list F)) (itpl_part : list (list nat)) :
  1 <= length (shape samples) ->
  length svs = length (shape samples) ->
  length itpl_part = length (shape samples) ->
  product itpl_part <> [] ->
  product (_ls_part itpl_part svs) <> [] ->
  nd_loewner samples svs itpl_part
  = Ok (map (fun rs => map (fun cs => loewner_entry samples svs rs cs) (product itpl_part))
            (product (_ls_part itpl_part svs))).
Proof.
  intros Hd Hs Hp Hne1 Hne2. unfold nd_loewner.
  assert (Hl : length (_ls_part itpl_part svs) = length (shape samples)).
  { unfold _ls_part. rewrite length_zip_with. lia. }
  unfold select. rewrite !length_map.
  destruct (product itpl_part) as [|c0 cols] eqn:Ec; [congruence|].
  destruct (product (_ls_part itpl_part svs)) as [|r0 rows] eqn:Er; [congruence|].
  cbn [length Nat.eqb orb]. f_equal.
  rewrite sdpd_outer by lia.
  replace (S (length (shape samples) - 1)) with (length (shape samples)) by lia.
  rewrite (take_ge itpl_part) by lia. rewrite (take_ge (_ls_part itpl_part svs)) by lia.
  rewrite Ec, Er. unfold mat_div.
  rewrite map_map.
  rewrite zip_with_map_same. apply map_ext. intros rs.
  rewrite map_map, zip_with_map_same. reflexivity.
Qed.

End LoewnerFacts.

(** ** Computations on the store *)

Section StoreFacts.
Context `{Sc : Scalar}.

Lemma bind_Done {A B : Type} (m : st A) (k : A -> st B) (s s' : store) (a : A) :
  m s = Done a s' -> (m ≫= k) s = k a s'.
Proof. intros H. unfold mbind, st_bind, bind. now rewrite H. Qed.

Lemma bind_Fail {A B : Type} (m : st A) (k : A -> st B) (s s' : store) (e : exn) :
  m s = Fail e s' -> (m ≫= k) s = Fail e s'.
Proof. intros H. unfold mbind, st_bind, bind. now rewrite H. Qed.

Lemma bind_inv_Done {A B : Type} (m : st A) (k : A -> st B) (s s2 : store) (b : B) :
  (m ≫= k) s = Done b s2 -> exists a s1, m s = Done a s1 /\ k a s1 = Done b s2.
Proof.
  unfold mbind, st_bind, bind. destruct (m s) as [a s1|e s1]; [eauto|discriminate].
Qed.

Lemma lift_Ok {A : Type} (a : A) (s : store) : lift (Ok a) s = Done a s.
Proof. reflexivity. Qed.

Lemma lift_Raise {A : Type} (e : exn) (s : store) : lift (Raise e : res A) s = Fail e s.
Proof. reflexivity. Qed.

(** Reading leaves the store as it is. *)
Definition pure_st {A : Type} (m : st A) : Prop :=
  forall s, (exists a, m s = Done a s) \/ (exists e, m s = Fail e s).

Lemma pure_read_list l : pure_st (read_list l).
Proof. intros s. unfold read_list. destruct (s !! l) as [[]|]; eauto. Qed.

Lemma pure_read_ints l : pure_st (read_ints l).
Proof. intros s. unfold read_ints. destruct (s !! l) as [[]|]; eauto. Qed.

Lemma pure_read_vec l : pure_st (read_vec l).
Proof. intros s. unfold read_vec. destruct (s !! l) as [[]|]; eauto. Qed.

Lemma pure_read_tensor l : pure_st (read_tensor l).
Proof. intros s. unfold read_tensor. destruct (s !! l) as [[]|]; eauto. Qed.

Lemma pure_ret {A : Type} (a : A) : pure_st (ret a).
Proof. intros s. left. now exists a. Qed.

Lemma pure_raise {A : Type} (e : exn) : pure_st (raise e : st A).
Proof. intros s. right. now exists e. Qed.

Lemma pure_lift {A : Type} (r : res A) : pure_st (lift r).
Proof. destruct r; [apply pure_ret|apply pure_raise]. Qed.

Lemma pure_bind {A B : Type} (m : st A) (k : A -> st B) :
  pure_st m -> (forall a, pure_st (k a)) -> pure_st (m ≫= k).
Proof.
  intros Hm Hk s. destruct (Hm s) as [[a E]|[e E]].
  - rewrite (bind_Done _ _ _ _ _ E). apply Hk.
  - rewrite (bind_Fail _ _ _ _ _ E). eauto.
Qed.

Lemma pure_mapM {A B : Type} (f : A -> st B) (l : list A) :
  (forall a, pure_st (f a)) -> pure_st (mapM f l).
Proof.
  intros Hf. induction l as [|a l IH]; simpl.
  - apply pure_ret.
  - apply pure_bind; [apply Hf|]. intros b.
    apply pure_bind; [apply IH|]. intros bs. apply pure_ret.
Qed.

Lemma pure_read_parts p : pure_st (read_parts p).
Proof.
  unfold read_parts. apply pure_bind; [apply pure_read_list|].
  intros refs. apply pure_mapM. apply pure_read_ints.
Qed.

Lemma pure_read_part p i : pure_st (read_part p i).
Proof.
  unfold read_part. apply pure_bind; [apply pure_read_list|].
  intros refs. destruct (refs !! i); [apply pure_read_ints|apply pure_raise].
Qed.

Lemma pure_Done_store {A : Type} (m : st A) (s s' : store) (a : A) :
  pure_st m -> m s = Done a s' -> s' = s.
Proof.
  intros Hm E. destruct (Hm s) as [[b E']|[e E']]; rewrite E' in E; congruence.
Qed.

End StoreFacts.

(** ** Failure of the post-processing *)

Section PostProcessingFacts.
Context `{Sc : Scalar} (K : numerics).

(** When the back-solve is inconsistent, [_post_processing] returns the
    sentinel and leaves the store as it found it. *)
Lemma post_processing_sentinel (smp : ndarray) (svs : list (list F)) (p : loc) (d_nsp : Z) (tol : M)
    (s : store) (parts : list (list nat)) (max_rks : list Z) :
  read_parts p s = Done parts s ->
  max_rks_of K smp svs parts tol = Ok max_rks ->
  (pp_denom parts max_rks = 0 \/ d_nsp mod pp_denom parts max_rks <> 0)%Z ->
  _post_processing K smp svs p d_nsp tol s = Done None s.
Proof.
  intros Hp Hr Hd. unfold _post_processing.
  rewrite (bind_Done _ _ _ _ _ Hp). rewrite Hr.
  rewrite (bind_Done _ _ _ _ _ (lift_Ok _ _)).
  destruct Hd as [Hd|Hd].
  - rewrite Hd. reflexivity.
  - destruct (pp_denom parts max_rks =? 0)%Z; [reflexivity|].
    destruct (Z.eqb_spec (d_nsp mod pp_denom parts max_rks) 0) as [E|E]; [contradiction|].
    reflexivity.
Qed.

(** C7. In a pass of the loop whose nullspace dimension exceeds one, with
    post-processing enabled, if the back-solve of [_post_processing] is
    inconsistent (the product of the differences between partition size and
    estimated rank is zero, or does not divide the nullspace dimension),
    then [_post_processing] returns the sentinel without touching the
    store, and the pass does not abort: it logs the warning, builds the
    barycentric form from the coefficients of the singular value
    decomposition and the partition as the greedy step left it, and ends
    the loop through the nullspace exit. *)
Theorem post_processing_failure_falls_back (self : reductor) (env : loop_env) (l : locals)
    (s s1 : store) (parts parts1 : list (list nat)) (err : M) (L : matrix) (d_nsp : nat)
    (max_rks : list Z) :
  let p := l_itpl_part l in
  let greedy_idx := unravel (map length (e_svs env)) (argmax (masked_err K env (l_bary l) parts)) in
  let coefs0 := snd (svd_last K L) in
  read_parts p s = Done parts s ->
  any_room parts (e_max_itpl env) = true ->
  np_max (masked_err K env (l_bary l) parts) = Ok err ->
  mleb err (e_rel_tol env) = false ->
  greedy_append (conjugate self) (e_svs env) (e_max_itpl env) greedy_idx p (length (e_svs env)) s
    = Done tt s1 ->
  read_parts p s1 = Done parts1 s1 ->
  full_nd_loewner (e_samples env) (e_svs env) parts1 = Ok L ->
  null_dim (fst (svd_last K L)) (nsp_tol self) = Ok d_nsp ->
  1 < d_nsp ->
  post_process self = true ->
  max_rks_of K (e_samples env) (e_svs env) parts1 (L_rk_tol self) = Ok max_rks ->
  (pp_denom parts1 max_rks = 0 \/ Z.of_nat d_nsp mod pp_denom parts1 max_rks <> 0)%Z ->
  _post_processing K (e_samples env) (e_svs env) p (Z.of_nat d_nsp) (L_rk_tol self) s1 = Done None s1
  /\ level_of LogPostProcessingFailed = LvWarning
  /\ reduce_iter K self env l s
     = Done (Exit NullspaceConverged
               {| l_itpl_part := p;
                  l_bary := BaryForm (zip_with take_idx (e_svs env) parts1)
                                     (map (fun x => [x]) (select (e_samples env) parts1)) coefs0;
                  l_form := Some (zip_with take_idx (e_svs env) parts1,
                                  select (e_samples env) parts1, coefs0);
                  l_j := S (l_j l);
                  l_log := ((l_log l ++ [LogStep (S (l_j l)) (map length parts)])
                            ++ [LogStartPostProcessing; LogPostProcessingFailed])
                           ++ [LogConvergedNullspace] |})
            s1.
Proof.
  intros p greedy_idx coefs0 Hp Hroom Herr Htol Hga Hp1 HL Hd Hgt Hpp Hr Hinc.
  assert (Hsent := post_processing_sentinel _ _ _ _ _ _ _ _ Hp1 Hr Hinc).
  split; [exact Hsent|]. split; [reflexivity|].
  unfold reduce_iter. fold p.
  rewrite (bind_Done _ _ _ _ _ Hp). rewrite Hroom. cbn [negb].
  rewrite Herr. rewrite (bind_Done _ _ _ _ _ (lift_Ok _ _)).
  rewrite Htol. unfold iter_update. cbn [log_step l_itpl_part]. fold p. fold greedy_idx.
  rewrite (bind_Done _ _ _ _ _ Hga).
  rewrite (bind_Done _ _ _ _ _ Hp1).
  rewrite HL. rewrite (bind_Done _ _ _ _ _ (lift_Ok _ _)).
  rewrite Hd. rewrite (bind_Done _ _ _ _ _ (lift_Ok _ _)).
  assert (Hb : nonminimal_branch K self env p (snd (svd_last K L)) d_nsp s1
               = Done (snd (svd_last K L), p, [LogStartPostProcessing; LogPostProcessingFailed]) s1).
  { unfold nonminimal_branch.
    destruct (Nat.ltb_spec 1 d_nsp) as [_|]; [|lia].
    rewrite Hpp. rewrite (bind_Done _ _ _ _ _ Hsent). reflexivity. }
  rewrite (bind_Done _ _ _ _ _ Hb). cbn [fst snd].
  rewrite (bind_Done _ _ _ _ _ Hp1).
  rewrite Hpp. destruct (Nat.leb_spec 1 d_nsp) as [_|]; [|lia].
  reflexivity.
Qed.

End PostProcessingFacts.

(** ** The interpolation partition in the store *)

Section PartitionFacts.
Context `{Sc : Scalar}.

(** The object at [p] is a list of pairwise distinct lists of integers
    [refs], whose values are [parts]. *)
Definition wf_part (s : store) (p : loc) (refs : list loc) (parts : list (list nat)) : Prop :=
  s !! p = Some (OList refs) /\
  NoDup refs /\
  Forall2 (fun r part => s !! r = Some (OInts part)) refs parts.

(** The stores agree outside the locations [refs], and no object is added. *)
Definition same_outside (refs : list loc) (s s' : store) : Prop :=
  length s' = length s /\ forall l, l ∉ refs -> s' !! l = s !! l.

Lemma same_outside_refl refs s : same_outside refs s s.
Proof. split; auto. Qed.

Lemma same_outside_trans refs s1 s2 s3 :
  same_outside refs s1 s2 -> same_outside refs s2 s3 -> same_outside refs s1 s3.
Proof.
  intros [L1 H1] [L2 H2]. split; [congruence|].
  intros l Hl. rewrite H2, H1; auto.
Qed.

Lemma wf_length s p refs parts : wf_part s p refs parts -> length refs = length parts.
Proof. intros (_ & _ & H). eapply Forall2_length; eauto. Qed.

Lemma read_list_wf s p refs parts : wf_part s p refs parts -> read_list p s = Done refs s.
Proof. intros (H & _). unfold read_list. now rewrite H. Qed.

Lemma mapM_read_ints s refs parts :
  Forall2 (fun r part => s !! r = Some (OInts part)) refs parts ->
  mapM read_ints refs s = Done parts s.
Proof.
  induction 1 as [|r part refs parts Hr _ IH]; simpl; [reflexivity|].
  assert (E : read_ints r s = Done part s) by (unfold read_ints; now rewrite Hr).
  rewrite (bind_Done _ _ _ _ _ E). rewrite (bind_Done _ _ _ _ _ IH). reflexivity.
Qed.

Lemma read_parts_wf s p refs parts : wf_part s p refs parts -> read_parts p s = Done parts s.
Proof.
  intros H. unfold read_parts. rewrite (bind_Done _ _ _ _ _ (read_list_wf _ _ _ _ H)).
  apply mapM_read_ints. apply H.
Qed.

Lemma wf_lookup s p refs parts i r :
  wf_part s p refs parts -> refs !! i = Some r ->
  exists part, parts !! i = Some part /\ s !! r = Some (OInts part).
Proof.
  intros (_ & _ & H) Hr.
  destruct (Forall2_lookup_l _ _ _ _ _ H Hr) as (part & Hp & Hs). eauto.
Qed.

Lemma read_part_wf s p refs parts i part :
  wf_part s p refs parts -> parts !! i = Some part -> read_part p i s = Done part s.
Proof.
  intros H Hi. unfold read_part. rewrite (bind_Done _ _ _ _ _ (read_list_wf _ _ _ _ H)).
  destruct H as (_ & _ & H).
  destruct (Forall2_lookup_r _ _ _ _ _ H Hi) as (r & Hr & Hs).
  rewrite Hr. unfold read_ints. now rewrite Hs.
Qed.

Lemma list_append_wf s p refs parts i part x :
  wf_part s p refs parts -> parts !! i = Some part ->
  exists s', list_append p i x s = Done tt s' /\
             wf_part s' p refs (<[i := part ++ [x]]> parts) /\
             same_outside refs s s'.
Proof.
  intros H Hi.
  pose proof H as (Hp & Hnd & HF).
  destruct (Forall2_lookup_r _ _ _ _ _ HF Hi) as (r & Hr & Hs).
  exists (<[r := OInts (part ++ [x])]> s).
  assert (Hlt : r < length s) by (eapply lookup_lt_Some; eauto).
  split; [|split].
  - unfold list_append. rewrite (bind_Done _ _ _ _ _ (read_list_wf _ _ _ _ H)).
    rewrite Hr. unfold ints_append. now rewrite Hs.
  - split; [|split; [assumption|]].
    + rewrite list_lookup_insert_ne; [assumption|]. intros ->. congruence.
    + apply Forall2_same_length_lookup. split.
      * rewrite length_insert. eapply Forall2_length; eauto.
      * intros j r' part' Hr' Hp'.
        destruct (decide (j = i)) as [->|Hne].
        -- rewrite list_lookup_insert_eq in Hp' by (eapply lookup_lt_Some; eauto).
           assert (r' = r) by congruence. subst r'.
           rewrite list_lookup_insert_eq by assumption. congruence.
        -- rewrite list_lookup_insert_ne in Hp' by auto.
           assert (r' <> r).
           { intros ->. apply Hne. eapply NoDup_lookup; eauto. }
           rewrite list_lookup_insert_ne by auto.
           exact (Forall2_lookup_lr _ _ _ _ _ _ HF Hr' Hp').
  - split; [apply length_insert|].
    intros l Hl. apply list_lookup_insert_ne. intros <-. apply Hl.
    eapply list_elem_of_lookup_2; eauto.
Qed.

(** What one pass of the greedy step adds to the partition [part] of
    variable [i]: nothing when the component [g] of the greedy index is
    already in it or the cap is reached; otherwise [g], followed, for
    variable 0 of a conjugate-enforcing reductor and a location with
    non-zero imaginary part, by the first index of the conjugate location
    (an [IndexError] when the grid does not hold it). *)
Definition greedy_new (conj : bool) (svs : list (list F)) (max_itpl : list Z) (greedy_idx : list nat)
    (i : nat) (part : list nat) : res (list nat) :=
  let g := nth i greedy_idx 0 in
  if negb (existsb (Nat.eqb g) part) && (Z.of_nat (length part) <? nth i max_itpl 0)%Z then
    if (i =? 0) && conj && fimag_nonzero (nth g (nth i svs []) fzero) then
      match find_index (fconj (nth g (nth i svs []) fzero)) (nth 0 svs []) with
      | Some c => Ok [g; c]
      | None => Raise IndexError
      end
    else Ok [g]
  else Ok [].

Lemma append_step_wf conj svs max_itpl greedy_idx s p refs parts i part :
  wf_part s p refs parts -> parts !! i = Some part ->
  match greedy_new conj svs max_itpl greedy_idx i part with
  | Ok new =>
      exists s', append_step conj svs max_itpl greedy_idx p i s = Done tt s' /\
                 wf_part s' p refs (<[i := part ++ new]> parts) /\
                 same_outside refs s s'
  | Raise e =>
      exists s', append_step conj svs max_itpl greedy_idx p i s = Fail e s' /\
                 same_outside refs s s'
  end.
Proof.
  intros H Hi. unfold greedy_new, append_step.
  rewrite (bind_Done _ _ _ _ _ (read_part_wf _ _ _ _ _ _ H Hi)).
  destruct (negb (existsb (Nat.eqb (nth i greedy_idx 0)) part)
            && (Z.of_nat (length part) <? nth i max_itpl 0)%Z).
  - destruct (list_append_wf s p refs parts i part (nth i greedy_idx 0) H Hi)
      as (s1 & E1 & W1 & O1).
    rewrite (bind_Done _ _ _ _ _ E1).
    destruct ((i =? 0) && conj && fimag_nonzero (nth (nth i greedy_idx 0) (nth i svs []) fzero)).
    + destruct (find_index _ _) as [c|].
      * assert (Hi1 : <[i := part ++ [nth i greedy_idx 0]]> parts !! i
                      = Some (part ++ [nth i greedy_idx 0])).
        { apply list_lookup_insert_eq. eapply lookup_lt_Some; eauto. }
        destruct (list_append_wf s1 p refs _ i _ c W1 Hi1) as (s2 & E2 & W2 & O2).
        exists s2. split; [exact E2|]. split.
        -- rewrite list_insert_insert_eq in W2. rewrite <- app_assoc in W2. exact W2.
        -- eapply same_outside_trans; eauto.
      * exists s1. split; [reflexivity|assumption].
    + exists s1. split; [reflexivity|]. split; assumption.
  - exists s. split; [reflexivity|]. split; [|apply same_outside_refl].
    rewrite app_nil_r. rewrite list_insert_id by assumption. assumption.
Qed.

Definition new_of (conj : bool) (svs : list (list F)) (max_itpl : list Z) (greedy_idx : list nat)
    (i : nat) (part : list nat) : list nat :=
  match greedy_new conj svs max_itpl greedy_idx i part with
  | Ok new => new
  | Raise _ => []
  end.

Lemma greedy_for_each conj svs max_itpl greedy_idx p refs n :
  forall a s parts,
  wf_part s p refs parts -> a + n <= length parts ->
  (exists s' parts',
      for_each (seq a n) (append_step conj svs max_itpl greedy_idx p) s = Done tt s' /\
      wf_part s' p refs parts' /\ same_outside refs s s' /\
      forall i part, parts !! i = Some part ->
        if (a <=? i) && (i <? a + n)
        then exists new, greedy_new conj svs max_itpl greedy_idx i part = Ok new /\
                         parts' !! i = Some (part ++ new)
        else parts' !! i = Some part)
  \/ (exists e s' i part,
      for_each (seq a n) (append_step conj svs max_itpl greedy_idx p) s = Fail e s' /\
      same_outside refs s s' /\ a <= i /\ parts !! i = Some part /\
      greedy_new conj svs max_itpl greedy_idx i part = Raise e).
Proof.
  induction n as [|n IH]; intros a s parts W Hlen.
  - left. exists s, parts. split; [reflexivity|]. split; [assumption|].
    split; [apply same_outside_refl|].
    intros i part Hi. replace ((a <=? i) && (i <? a + 0)) with false; [assumption|].
    symmetry. apply andb_false_iff.
    destruct (Nat.leb_spec a i); [right; apply Nat.ltb_ge; lia|now left].
  - cbn [seq for_each].
    destruct (lookup_lt_is_Some_2 parts a ltac:(lia)) as [part_a Ha].
    pose proof (append_step_wf conj svs max_itpl greedy_idx s p refs parts a part_a W Ha) as Hstep.
    destruct (greedy_new conj svs max_itpl greedy_idx a part_a) as [new|e] eqn:Enew.
    + destruct Hstep as (s1 & E1 & W1 & O1).
      rewrite (bind_Done _ _ _ _ _ E1).
      destruct (IH (S a) s1 _ W1 ltac:(rewrite length_insert; lia))
        as [(s' & parts' & E & W' & O' & Hchar)|(e & s' & i & part & E & O' & Hai & Hi & Hr)].
      * left. exists s', parts'. split; [exact E|]. split; [exact W'|].
        split; [eapply same_outside_trans; eauto|].
        intros i part Hi.
        destruct (decide (i = a)) as [->|Hne].
        -- assert (part = part_a) by congruence. subst part.
           specialize (Hchar a (part_a ++ new)).
           rewrite list_lookup_insert_eq in Hchar by (eapply lookup_lt_Some; eauto).
           specialize (Hchar eq_refl).
           replace ((S a <=? a) && (a <? S a + n)) with false in Hchar
             by (symmetry; apply andb_false_iff; left; apply Nat.leb_gt; lia).
           replace ((a <=? a) && (a <? a + S n)) with true
             by (symmetry; apply andb_true_iff; split;
                 [apply Nat.leb_le|apply Nat.ltb_lt]; lia).
           exists new. split; [exact Enew|exact Hchar].
        -- specialize (Hchar i part).
           rewrite list_lookup_insert_ne in Hchar by auto.
           specialize (Hchar Hi).
           replace ((a <=? i) && (i <? a + S n)) with ((S a <=? i) && (i <? S a + n)); [exact Hchar|].
           destruct (Nat.leb_spec (S a) i), (Nat.leb_spec a i),
             (Nat.ltb_spec i (S a + n)), (Nat.ltb_spec i (a + S n)); simpl; try reflexivity; lia.
      * right. rewrite list_lookup_insert_ne in Hi by lia.
        exists e, s', i, part.
        split; [exact E|]. split; [eapply same_outside_trans; eauto|].
        split; [lia|]. split; assumption.
    + destruct Hstep as (s1 & E1 & O1). right.
      rewrite (bind_Fail _ _ _ _ _ E1).
      exists e, s1, a, part_a.
      split; [reflexivity|]. split; [exact O1|]. split; [lia|]. split; assumption.
Qed.

Lemma mapM_read_ints_inv (refs : list loc) (s s' : store) (parts : list (list nat)) :
  mapM read_ints refs s = Done parts s' ->
  s' = s /\ Forall2 (fun r part => s !! r = Some (OInts part)) refs parts.
Proof.
  revert parts. induction refs as [|r refs IH]; intros parts; simpl.
  - intros [= <- <-]. split; constructor.
  - intros H. apply bind_inv_Done in H. destruct H as (part & s1 & E1 & H).
    apply bind_inv_Done in H. destruct H as (parts' & s2 & E2 & H).
    injection H as <- <-.
    unfold read_ints in E1. destruct (s !! r) as [[| items | |]|] eqn:Er; try discriminate.
    injection E1 as <- <-.
    destruct (IH _ E2) as [-> HF]. split; [reflexivity|]. constructor; assumption.
Qed.

Lemma read_parts_inv (p : loc) (s s' : store) (parts : list (list nat)) :
  read_parts p s = Done parts s' ->
  s' = s /\ exists refs, s !! p = Some (OList refs) /\
                         Forall2 (fun r part => s !! r = Some (OInts part)) refs parts.
Proof.
  unfold read_parts. intros H. apply bind_inv_Done in H. destruct H as (refs & s1 & E1 & H).
  unfold read_list in E1. destruct (s !! p) as [[items| | |]|] eqn:Ep; try discriminate.
  injection E1 as <- <-.
  destruct (mapM_read_ints_inv _ _ _ _ H) as [-> HF]. eauto.
Qed.

End PartitionFacts.

(** ** Maximum, [argmax] and the grid *)

Section ArgmaxFacts.
Context `{Sc : Scalar}.

Lemma argmax_from_spec (l pre : list M) (best : M) (besti : nat) :
  nth besti pre mzero = best -> besti < length pre ->
  nth (argmax_from best besti (length pre) l) (pre ++ l) mzero = max_from best l
  /\ argmax_from best besti (length pre) l < length (pre ++ l).
Proof.
  revert pre best besti. induction l as [|x l IH]; intros pre best besti Hb Hlt; simpl.
  - rewrite app_nil_r. auto.
  - replace (pre ++ x :: l) with ((pre ++ [x]) ++ l) by (rewrite <- app_assoc; reflexivity).
    replace (S (length pre)) with (length (pre ++ [x])) by (rewrite length_app; simpl; lia).
    destruct (mltb best x).
    + apply IH.
      * rewrite app_nth2 by lia. now rewrite Nat.sub_diag.
      * rewrite length_app. simpl. lia.
    + apply IH.
      * rewrite app_nth1 by lia. assumption.
      * rewrite length_app. simpl. lia.
Qed.

(** The entry at [argmax] is the value of [np.max]. *)
Lemma argmax_np_max (l : list M) (e : M) :
  np_max l = Ok e -> nth (argmax l) l mzero = e /\ argmax l < length l.
Proof.
  destruct l as [|x l]; simpl; [discriminate|]. intros [= <-].
  apply (argmax_from_spec l [x] x 0); simpl; [reflexivity|lia].
Qed.

Lemma nth_flat_map_uniform {A B : Type} (f : A -> list B) (n : nat) (X : list A) (k : nat)
    (da : A) (db : B) :
  (forall x, length (f x) = n) -> k < length X * n ->
  nth k (flat_map f X) db = nth (k mod n) (f (nth (k / n) X da)) db.
Proof.
  intros Hf. revert k. induction X as [|x X IH]; intros k Hk; simpl in *; [lia|].
  assert (Hn : n <> 0) by lia.
  destruct (Nat.lt_ge_cases k n) as [Hlt|Hge].
  - rewrite app_nth1 by (rewrite Hf; lia).
    rewrite Nat.div_small, Nat.mod_small by lia. reflexivity.
  - rewrite app_nth2 by (rewrite Hf; lia). rewrite Hf.
    rewrite IH by lia.
    set (q := k - n). assert (Hq : k = q + 1 * n) by lia.
    rewrite Hq. rewrite Nat.Div0.mod_add. rewrite Nat.div_add by lia.
    replace (q / n + 1) with (S (q / n)) by lia. reflexivity.
Qed.

Lemma length_flat_map_uniform {A B : Type} (f : A -> list B) (n : nat) (X : list A) :
  (forall x, length (f x) = n) -> length (flat_map f X) = length X * n.
Proof.
  intros Hf. induction X as [|x X IH]; simpl; [reflexivity|].
  rewrite length_app, Hf, IH. lia.
Qed.

Lemma product_step_length {A : Type} (acc : list (list A)) (pool : list A) :
  length (product_step acc pool) = length acc * length pool.
Proof.
  unfold product_step. apply length_flat_map_uniform. intros x. apply length_map.
Qed.

Lemma product_snoc' {A : Type} (pools : list (list A)) (pool : list A) :
  product (pools ++ [pool]) = product_step (product pools) pool.
Proof. unfold product. now rewrite fold_left_app. Qed.

Lemma product_ranges_length (dims : list nat) :
  length (product (map (seq 0) dims)) = fold_right Nat.mul 1 dims.
Proof.
  induction dims as [|n dims IH] using rev_ind; [reflexivity|].
  rewrite map_app. simpl. rewrite product_snoc', product_step_length, IH, length_seq.
  rewrite fold_right_app. simpl.
  clear IH. induction dims as [|m dims IH]; simpl; [lia|]. rewrite <- IH. lia.
Qed.

Lemma fold_mul_snoc (dims : list nat) (n : nat) :
  fold_right Nat.mul 1 (dims ++ [n]) = fold_right Nat.mul 1 dims * n.
Proof. induction dims as [|m dims IH]; simpl; [lia|]. rewrite IH. lia. Qed.

Lemma unravel_snoc (dims : list nat) (n k : nat) :
  k < fold_right Nat.mul 1 (dims ++ [n]) ->
  unravel (dims ++ [n]) k = unravel dims (k / n) ++ [k mod n].
Proof.
  revert k. induction dims as [|m dims IH]; intros k Hk.
  - cbn in Hk. cbn [app unravel fold_right].
    rewrite Nat.div_1_r. rewrite Nat.mod_small by lia. reflexivity.
  - change ((m :: dims) ++ [n]) with (m :: (dims ++ [n])) in *.
    cbn [unravel]. cbn [fold_right] in Hk.
    rewrite fold_mul_snoc in Hk. rewrite fold_mul_snoc.
    set (S := fold_right Nat.mul 1 dims) in *.
    assert (Hn : n <> 0) by (intros ->; rewrite Nat.mul_0_r in Hk; lia).
    assert (HS : S <> 0) by (intros E; rewrite E in Hk; lia).
    assert (Hmod : k mod (S * n) = k mod n + n * ((k / n) mod S)).
    { rewrite (Nat.mul_comm S n). apply Nat.Div0.mod_mul_r. }
    rewrite IH by (rewrite fold_mul_snoc; apply Nat.mod_upper_bound; lia).
    cbn [app]. f_equal.
    + rewrite (Nat.mul_comm S n). now rewrite Nat.Div0.div_div.
    + f_equal.
      * f_equal. rewrite Hmod. rewrite (Nat.mul_comm n), Nat.div_add by lia.
        rewrite Nat.div_small by (apply Nat.mod_upper_bound; lia). reflexivity.
      * f_equal. rewrite Hmod. rewrite (Nat.mul_comm n), Nat.Div0.mod_add.
        apply Nat.Div0.mod_mod.
Qed.

(** The multi-index at flat position [k] of the grid is
    [np.unravel_index(k, dims)]. *)
Lemma nth_product_ranges (dims : list nat) (k : nat) :
  k < fold_right Nat.mul 1 dims ->
  nth k (product (map (seq 0) dims)) [] = unravel dims k.
Proof.
  revert k. induction dims as [|n dims IH] using rev_ind; intros k Hk.
  - cbn in *. replace k with 0 by lia. reflexivity.
  - rewrite unravel_snoc by assumption.
    rewrite map_app. cbn [map]. rewrite product_snoc'. unfold product_step.
    rewrite fold_mul_snoc in Hk.
    assert (Hn : n <> 0) by (intros ->; lia).
    rewrite (nth_flat_map_uniform _ n _ _ []).
    + rewrite <- IH by (apply Nat.Div0.div_lt_upper_bound; lia).
      rewrite (nth_indep _ _ (nth (k / n) (product (map (seq 0) dims)) [] ++ [0]))
        by (rewrite length_map, length_seq; apply Nat.mod_upper_bound; lia).
      rewrite (map_nth (fun y => _ ++ [y])).
      rewrite seq_nth by (apply Nat.mod_upper_bound; lia). reflexivity.
    + intros x. rewrite length_map. apply length_seq.
    + rewrite product_ranges_length. lia.
Qed.

Lemma unravel_length (dims : list nat) (k : nat) : length (unravel dims k) = length dims.
Proof. revert k. induction dims as [|n dims IH]; intros k; simpl; [reflexivity|]. now rewrite IH. Qed.

(** Every component of an unravelled position is within its dimension. *)
Lemma unravel_bound (dims : list nat) (k i : nat) :
  k < fold_right Nat.mul 1 dims -> i < length dims ->
  nth i (unravel dims k) 0 < nth i dims 0.
Proof.
  revert k i. induction dims as [|n dims IH]; intros k i Hk Hi; simpl in *; [lia|].
  destruct i as [|i].
  - apply Nat.Div0.div_lt_upper_bound. lia.
  - apply IH; [|lia]. apply Nat.mod_upper_bound. intros E. rewrite E in Hk. lia.
Qed.

Lemma argmax_from_first `{!OrderLaws Sc} (l pre : list M) (best : M) (besti : nat) :
  nth besti pre mzero = best -> besti < length pre ->
  (forall j, j < length pre -> mltb best (nth j pre mzero) = false) ->
  (forall j, j < besti -> mltb (nth j pre mzero) best = true) ->
  let k := argmax_from best besti (length pre) l in
  (forall j, j < length (pre ++ l) -> mltb (nth k (pre ++ l) mzero) (nth j (pre ++ l) mzero) = false)
  /\ (forall j, j < k -> mltb (nth j (pre ++ l) mzero) (nth k (pre ++ l) mzero) = true).
Proof.
  revert pre best besti. induction l as [|x l IH]; intros pre best besti Hb Hlt Hmax Hfirst; simpl.
  - rewrite app_nil_r. rewrite Hb. auto.
  - replace (pre ++ x :: l) with ((pre ++ [x]) ++ l) by (rewrite <- app_assoc; reflexivity).
    replace (S (length pre)) with (length (pre ++ [x])) by (rewrite length_app; simpl; lia).
    destruct (mltb best x) eqn:Ex.
    + apply IH.
      * rewrite app_nth2 by lia. now rewrite Nat.sub_diag.
      * rewrite length_app. simpl. lia.
      * intros j Hj. rewrite length_app in Hj. simpl in Hj.
        destruct (Nat.eq_dec j (length pre)) as [->|Hne].
        -- rewrite app_nth2 by lia. rewrite Nat.sub_diag. simpl.
           destruct (mltb x x) eqn:Exx; [|reflexivity].
           now rewrite (mltb_asym _ _ Exx) in Exx.
        -- rewrite app_nth1 by lia. apply mltb_asym.
           apply (mltb_neg_trans _ best); [apply Hmax; lia|assumption].
      * intros j Hj. rewrite app_nth1 by lia.
        apply (mltb_neg_trans _ best); [apply Hmax; lia|assumption].
    + apply IH.
      * rewrite app_nth1 by lia. assumption.
      * rewrite length_app. simpl. lia.
      * intros j Hj. rewrite length_app in Hj. simpl in Hj.
        destruct (Nat.eq_dec j (length pre)) as [->|Hne].
        -- rewrite app_nth2 by lia. rewrite Nat.sub_diag. simpl. assumption.
        -- rewrite app_nth1 by lia. apply Hmax. lia.
      * intros j Hj. rewrite app_nth1 by lia. apply Hfirst. assumption.
Qed.

(** [argmax] gives the first position of a maximal entry. *)
Lemma argmax_first `{!OrderLaws Sc} (l : list M) :
  (forall j, j < length l -> mltb (nth (argmax l) l mzero) (nth j l mzero) = false)
  /\ (forall j, j < argmax l -> mltb (nth j l mzero) (nth (argmax l) l mzero) = true).
Proof.
  destruct l as [|x l]; simpl.
  - split; intros j Hj; lia.
  - apply (argmax_from_first l [x] x 0); simpl; try reflexivity; try lia.
    intros j Hj. replace j with 0 by lia.
    destruct (mltb x x) eqn:Exx; [|reflexivity].
    now rewrite (mltb_asym _ _ Exx) in Exx.
Qed.

End ArgmaxFacts.

(** ** The greedy selection step *)

Section GreedyFacts.
Context `{Sc : Scalar}.

Lemma grid_indices_ranges (svs : list (list F)) :
  grid_indices svs = product (map (seq 0) (map length svs)).
Proof. unfold grid_indices. now rewrite map_map. Qed.

Lemma grid_indices_length (svs : list (list F)) :
  length (grid_indices svs) = fold_right Nat.mul 1 (map length svs).
Proof. rewrite grid_indices_ranges. apply product_ranges_length. Qed.

Lemma greedy_append_wf conj svs max_itpl greedy_idx s p refs parts :
  wf_part s p refs parts ->
  (exists s' parts',
      greedy_append conj svs max_itpl greedy_idx p (length parts) s = Done tt s' /\
      wf_part s' p refs parts' /\ same_outside refs s s' /\
      forall i part, parts !! i = Some part ->
        exists new, greedy_new conj svs max_itpl greedy_idx i part = Ok new /\
                    parts' !! i = Some (part ++ new))
  \/ (exists e s' i part,
      greedy_append conj svs max_itpl greedy_idx p (length parts) s = Fail e s' /\
      same_outside refs s s' /\ parts !! i = Some part /\
      greedy_new conj svs max_itpl greedy_idx i part = Raise e).
Proof.
  intros W. unfold greedy_append.
  destruct (greedy_for_each conj svs max_itpl greedy_idx p refs (length parts) 0 s parts W
              ltac:(lia))
    as [(s' & parts' & E & W' & O & Hchar)|(e & s' & i & part & E & O & _ & Hi & Hr)].
  - left. exists s', parts'. repeat (split; [assumption|]).
    intros i part Hi. specialize (Hchar i part Hi).
    assert (Hlt : i < length parts) by (eapply lookup_lt_Some; eauto).
    replace ((0 <=? i) && (i <? 0 + length parts)) with true in Hchar; [exact Hchar|].
    symmetry. apply andb_true_iff. split; [apply Nat.leb_le; lia|apply Nat.ltb_lt; lia].
  - right. exists e, s', i, part. auto.
Qed.

(** C5 (as amended). In a pass that has not converged, the greedy index is
    the multi-index of the first maximal entry of the masked error matrix.
    For every variable [i], its component [g] is appended to the partition
    of variable [i] exactly when it is not yet a member and the partition
    has fewer than [max_itpl[i]] entries; the partition is unchanged
    otherwise. When [g] is appended for variable 0, conjugate enforcement
    is on and the selected location has non-zero imaginary part, the first
    index of its conjugate location is appended as well. *)
Theorem greedy_step_extends_partition `{!OrderLaws Sc} (conj : bool) (svs : list (list F))
    (max_itpl : list Z) (err_mat : list M) (s : store) (p : loc) (refs : list loc)
    (parts : list (list nat)) :
  let k := argmax err_mat in
  let greedy_idx := unravel (map length svs) k in
  let x0 := nth (nth 0 greedy_idx 0) (nth 0 svs []) fzero in
  wf_part s p refs parts ->
  length parts = length svs ->
  length err_mat = length (grid_indices svs) ->
  err_mat <> [] ->
  (conj = true -> fimag_nonzero x0 = true -> is_Some (find_index (fconj x0) (nth 0 svs []))) ->
  (greedy_idx = nth k (grid_indices svs) []
   /\ (forall j, j < length err_mat -> mltb (nth k err_mat mzero) (nth j err_mat mzero) = false)
   /\ (forall j, j < k -> mltb (nth j err_mat mzero) (nth k err_mat mzero) = true))
  /\ exists s' parts',
       greedy_append conj svs max_itpl greedy_idx p (length svs) s = Done tt s' /\
       wf_part s' p refs parts' /\
       same_outside refs s s' /\
       forall i part, parts !! i = Some part ->
         let g := nth i greedy_idx 0 in
         parts' !! i =
           Some (part ++
                 (if negb (existsb (Nat.eqb g) part)
                     && (Z.of_nat (length part) <? nth i max_itpl 0)%Z
                  then g :: (if (i =? 0) && conj && fimag_nonzero x0
                             then match find_index (fconj x0) (nth 0 svs []) with
                                  | Some c => [c]
                                  | None => []
                                  end
                             else [])
                  else [])).
Proof.
  intros k greedy_idx x0 W Hlen Herr Hne Hconj. split.
  - split; [|apply argmax_first].
    unfold greedy_idx. rewrite grid_indices_ranges. symmetry.
    apply nth_product_ranges.
    rewrite <- grid_indices_length, <- Herr.
    unfold k. destruct err_mat as [|e l]; [congruence|].
    apply (argmax_np_max (e :: l) (max_from e l)). reflexivity.
  - rewrite <- Hlen.
    destruct (greedy_append_wf conj svs max_itpl greedy_idx s p refs parts W)
      as [(s' & parts' & E & W' & O & Hchar)|(e & s' & i & part & E & O & Hi & Hr)].
    + exists s', parts'. repeat (split; [assumption|]).
      intros i part Hi. destruct (Hchar i part Hi) as (new & Hn & Hp). rewrite Hp.
      f_equal. f_equal. unfold greedy_new in Hn. cbv zeta in Hn |- *.
      destruct (negb (existsb (Nat.eqb (nth i greedy_idx 0)) part)
                && (Z.of_nat (length part) <? nth i max_itpl 0)%Z); [|congruence].
      destruct (Nat.eqb_spec i 0) as [->|Hi0]; cbn [andb] in *; [|congruence].
      fold x0 in Hn. destruct (conj && fimag_nonzero x0); [|congruence].
      destruct (find_index (fconj x0) (nth 0 svs [])); congruence.
    + exfalso. unfold greedy_new in Hr.
      destruct (negb (existsb (Nat.eqb (nth i greedy_idx 0)) part)
                && (Z.of_nat (length part) <? nth i max_itpl 0)%Z); [|discriminate].
      destruct (Nat.eqb_spec i 0) as [->|Hi0]; cbn [andb] in *; [|discriminate].
      fold x0 in Hr. destruct conj; cbn [andb] in Hr; [|discriminate].
      destruct (fimag_nonzero x0) eqn:Eim; [|discriminate].
      destruct (Hconj eq_refl eq_refl) as [c Hc]. rewrite Hc in Hr. discriminate.
Qed.

(** *** The truncation of the partition by the post-processing *)

(** The object at [p] is a list of lists of integers with values [parts]
    (the inner lists need not be distinct objects). *)
Definition has_parts (s : store) (p : loc) (refs : list loc) (parts : list (list nat)) : Prop :=
  s !! p = Some (OList refs) /\
  Forall2 (fun r part => s !! r = Some (OInts part)) refs parts.

Lemma wf_has_parts s p refs parts : wf_part s p refs parts -> has_parts s p refs parts.
Proof. intros (H1 & _ & H2). split; assumption. Qed.

Lemma read_parts_has s p refs parts : has_parts s p refs parts -> read_parts p s = Done parts s.
Proof.
  intros [Hp HF]. unfold read_parts.
  assert (E : read_list p s = Done refs s) by (unfold read_list; now rewrite Hp).
  rewrite (bind_Done _ _ _ _ _ E). now apply mapM_read_ints.
Qed.

Lemma read_parts_has_inv s s' p parts :
  read_parts p s = Done parts s' -> s' = s /\ exists refs, has_parts s p refs parts.
Proof.
  intros H. destruct (read_parts_inv _ _ _ _ H) as (-> & refs & Hp & HF).
  split; [reflexivity|]. exists refs. split; assumption.
Qed.

Lemma has_parts_fun s p refs parts refs' parts' :
  has_parts s p refs parts -> has_parts s p refs' parts' -> refs' = refs /\ parts' = parts.
Proof.
  intros H1 H2. pose proof (read_parts_has _ _ _ _ H1) as E1.
  pose proof (read_parts_has _ _ _ _ H2) as E2.
  destruct H1 as [P1 _], H2 as [P2 _]. split; congruence.
Qed.

Lemma truncate_step_has s p refs parts mr i part :
  has_parts s p refs parts -> parts !! i = Some part ->
  exists s' refs',
    truncate_step p mr i s = Done tt s' /\
    has_parts s' p refs' (<[i := slice_to part (nth i mr 0 + 1)%Z]> parts) /\
    length s <= length s'.
Proof.
  intros [Hp HF] Hi.
  destruct (Forall2_lookup_r _ _ _ _ _ HF Hi) as (r & Hr & Hs).
  assert (Hplt : p < length s) by (eapply lookup_lt_Some; eauto).
  set (sl := slice_to part (nth i mr 0 + 1)%Z).
  exists (<[p := OList (<[i := length s]> refs)]> (s ++ [OInts sl])), (<[i := length s]> refs).
  split; [|split].
  - unfold truncate_step.
    assert (E1 : read_part p i s = Done part s).
    { unfold read_part.
      assert (E : read_list p s = Done refs s) by (unfold read_list; now rewrite Hp).
      rewrite (bind_Done _ _ _ _ _ E). rewrite Hr. unfold read_ints. now rewrite Hs. }
    rewrite (bind_Done _ _ _ _ _ E1).
    assert (E2 : alloc (OInts sl) s = Done (length s) (s ++ [OInts sl])) by reflexivity.
    rewrite (bind_Done _ _ _ _ _ E2).
    unfold list_setitem. rewrite lookup_app_l by assumption. rewrite Hp.
    destruct (Nat.ltb_spec i (length refs)) as [_|Hge]; [reflexivity|].
    apply lookup_lt_Some in Hr. lia.
  - split.
    + apply list_lookup_insert_eq. rewrite length_app. simpl. lia.
    + apply Forall2_same_length_lookup. split.
      * rewrite !length_insert. eapply Forall2_length; eauto.
      * intros j r' part' Hr' Hp'.
        destruct (decide (j = i)) as [->|Hne].
        -- rewrite list_lookup_insert_eq in Hr' by (eapply lookup_lt_Some; eauto).
           rewrite list_lookup_insert_eq in Hp' by (eapply lookup_lt_Some; eauto).
           injection Hr' as <-. injection Hp' as <-.
           rewrite list_lookup_insert_ne by lia.
           rewrite lookup_app_r by lia. now rewrite Nat.sub_diag.
        -- rewrite list_lookup_insert_ne in Hr' by auto.
           rewrite list_lookup_insert_ne in Hp' by auto.
           pose proof (Forall2_lookup_lr _ _ _ _ _ _ HF Hr' Hp') as Hs'.
           rewrite list_lookup_insert_ne by (intros <-; congruence).
           rewrite lookup_app_l by (eapply lookup_lt_Some; exact Hs'). exact Hs'.
  - rewrite length_insert, length_app. simpl. lia.
Qed.

Lemma truncate_for_each_has p mr n :
  forall a s refs parts,
  has_parts s p refs parts -> a + n <= length parts ->
  exists s' refs' parts',
    for_each (seq a n) (truncate_step p mr) s = Done tt s' /\
    has_parts s' p refs' parts' /\
    length s <= length s' /\
    length parts' = length parts /\
    forall i part, parts !! i = Some part ->
      exists part', parts' !! i = Some part' /\ length part' <= length part.
Proof.
  induction n as [|n IH]; intros a s refs parts H Hlen.
  - exists s, refs, parts. split; [reflexivity|]. split; [assumption|].
    split; [lia|]. split; [reflexivity|]. intros i part Hi. exists part. split; [assumption|lia].
  - cbn [seq for_each].
    destruct (lookup_lt_is_Some_2 parts a ltac:(lia)) as [part_a Ha].
    destruct (truncate_step_has s p refs parts mr a part_a H Ha) as (s1 & refs1 & E1 & H1 & L1).
    rewrite (bind_Done _ _ _ _ _ E1).
    destruct (IH (S a) s1 refs1 _ H1 ltac:(rewrite length_insert; lia))
      as (s' & refs' & parts' & E & H' & L' & Hl' & Hchar).
    exists s', refs', parts'. split; [exact E|]. split; [exact H'|].
    split; [lia|]. split; [now rewrite Hl', length_insert|].
    intros i part Hi. destruct (decide (i = a)) as [->|Hne].
    + destruct (Hchar a (slice_to part_a (nth a mr 0 + 1)%Z)) as (part' & Hp' & Hle).
      { apply list_lookup_insert_eq. eapply lookup_lt_Some; eauto. }
      exists part'. split; [exact Hp'|].
      assert (part = part_a) by congruence. subst part.
      assert (length (slice_to part_a (nth a mr 0 + 1)%Z) <= length part_a).
      { unfold slice_to. destruct (0 <=? _)%Z; rewrite length_take; lia. }
      lia.
    + apply Hchar. rewrite list_lookup_insert_ne by auto. exact Hi.
Qed.

Lemma mapM_res_length {A B : Type} (f : A -> res B) (l : list A) (bs : list B) :
  mapM_res f l = Ok bs -> length bs = length l.
Proof.
  revert bs. induction l as [|a l IH]; intros bs; simpl.
  - now intros [= <-].
  - destruct (f a) as [b|e]; simpl; [|discriminate].
    destruct (mapM_res f l) as [bs'|e]; simpl; [|discriminate].
    intros [= <-]. simpl. f_equal. now apply IH.
Qed.

End GreedyFacts.

(** ** Objects that [reduce] leaves untouched *)

Section FrameFacts.
Context `{Sc : Scalar} (K : numerics).

Definition store_of {A : Type} (o : outcome A) : store :=
  match o with
  | Done _ s => s
  | Fail _ s => s
  end.

Definition is_array (o : option obj) : Prop :=
  match o with
  | Some (OVec _) | Some (OTensor _) => True
  | _ => False
  end.

(** The objects of the store [s0] that are arrays, or lists that are empty
    or hold a reference to an array. *)
Definition prot (s0 : store) (o : obj) : Prop :=
  match o with
  | OVec _ | OTensor _ => True
  | OList items => items = [] \/ exists r, r ∈ items /\ is_array (s0 !! r)
  | OInts _ => False
  end.

(** Every such object of [s0] is still what it was in [s]. *)
Definition agree (s0 s : store) : Prop :=
  length s0 <= length s /\
  forall l o, s0 !! l = Some o -> prot s0 o -> s !! l = Some o.

Definition unprot (s0 : store) (p : loc) : Prop :=
  forall o, s0 !! p = Some o -> ~ prot s0 o.

(** A computation that preserves [agree s0], whatever its outcome. *)
Definition keeps {A : Type} (s0 : store) (m : st A) : Prop :=
  forall s, agree s0 s -> agree s0 (store_of (m s)).

Lemma agree_refl s0 : agree s0 s0.
Proof. split; auto. Qed.

Lemma keeps_pure {A : Type} s0 (m : st A) : pure_st m -> keeps s0 m.
Proof.
  intros Hm s Ha. destruct (Hm s) as [[a E]|[e E]]; rewrite E; exact Ha.
Qed.

Lemma keeps_bind {A B : Type} s0 (m : st A) (k : A -> st B) :
  keeps s0 m -> (forall a, keeps s0 (k a)) -> keeps s0 (m ≫= k).
Proof.
  intros Hm Hk s Ha. specialize (Hm s Ha).
  unfold mbind, st_bind, bind. destruct (m s) as [a s1|e s1]; simpl in *.
  - apply Hk. exact Hm.
  - exact Hm.
Qed.

Lemma keeps_alloc s0 o : keeps s0 (alloc o).
Proof.
  intros s [Hl Ha]. unfold alloc. simpl. split.
  - rewrite length_app. lia.
  - intros l o' Hs Hp. rewrite lookup_app_l; [auto|].
    apply Nat.lt_le_trans with (length s0); [eapply lookup_lt_Some; eauto|lia].
Qed.

Lemma keeps_ints_append s0 l x : keeps s0 (ints_append l x).
Proof.
  intros s [Hl Ha]. unfold ints_append.
  destruct (s !! l) as [[| items | |]|] eqn:E; simpl; try (split; assumption).
  split; [rewrite length_insert; lia|].
  intros l' o Hs Hp. destruct (decide (l' = l)) as [->|Hne].
  - pose proof (Ha _ _ Hs Hp) as E'. rewrite E in E'. inversion E'; subst. destruct Hp.
  - rewrite list_lookup_insert_ne by auto. auto.
Qed.

Lemma keeps_list_append s0 p i x : keeps s0 (list_append p i x).
Proof.
  unfold list_append. apply keeps_bind; [apply keeps_pure, pure_read_list|].
  intros refs. destruct (refs !! i); [apply keeps_ints_append|apply keeps_pure, pure_raise].
Qed.

Lemma keeps_setitem s0 p i q : unprot s0 p -> keeps s0 (list_setitem p i q).
Proof.
  intros Hu s [Hl Ha]. unfold list_setitem.
  destruct (s !! p) as [[items| | |]|] eqn:E; simpl; try (split; assumption).
  destruct (i <? length items); simpl; [|split; assumption].
  split; [rewrite length_insert; lia|].
  intros l o Hs Hp. destruct (decide (l = p)) as [->|Hne].
  - exfalso. exact (Hu _ Hs Hp).
  - rewrite list_lookup_insert_ne by auto. auto.
Qed.

Lemma keeps_for_each {A : Type} s0 (l : list A) (f : A -> st unit) :
  (forall a, keeps s0 (f a)) -> keeps s0 (for_each l f).
Proof.
  intros Hf. induction l as [|a l IH]; simpl.
  - apply keeps_pure, pure_ret.
  - apply keeps_bind; [apply Hf|]. intros _. apply IH.
Qed.

Lemma keeps_mapM {A B : Type} s0 (f : A -> st B) (l : list A) :
  (forall a, keeps s0 (f a)) -> keeps s0 (mapM f l).
Proof.
  intros Hf. induction l as [|a l IH]; simpl.
  - apply keeps_pure, pure_ret.
  - apply keeps_bind; [apply Hf|]. intros b.
    apply keeps_bind; [apply IH|]. intros bs. apply keeps_pure, pure_ret.
Qed.

Lemma keeps_append_step s0 conj svs max_itpl greedy_idx p i :
  keeps s0 (append_step conj svs max_itpl greedy_idx p i).
Proof.
  unfold append_step. apply keeps_bind; [apply keeps_pure, pure_read_part|].
  intros part. destruct (_ && _); [|apply keeps_pure, pure_ret].
  apply keeps_bind; [apply keeps_list_append|]. intros _.
  destruct (_ && _); [|apply keeps_pure, pure_ret].
  destruct (find_index _ _); [apply keeps_list_append|apply keeps_pure, pure_raise].
Qed.

Lemma keeps_greedy_append s0 conj svs max_itpl greedy_idx p nv :
  keeps s0 (greedy_append conj svs max_itpl greedy_idx p nv).
Proof. apply keeps_for_each. intros i. apply keeps_append_step. Qed.

Lemma unprot_or_empty s0 s p refs parts :
  agree s0 s -> s !! p = Some (OList refs) ->
  Forall2 (fun r part => s !! r = Some (OInts part)) refs parts ->
  refs = [] \/ unprot s0 p.
Proof.
  intros [Hl Ha] Hp HF. destruct refs as [|r refs]; [now left|right].
  intros o Hs Hprot. pose proof (Ha _ _ Hs Hprot) as E. rewrite Hp in E.
  injection E as <-. destruct Hprot as [Hnil|(r' & Hin & Harr)]; [discriminate|].
  destruct (s0 !! r') as [o'|] eqn:Er'; [|destruct Harr].
  assert (Hp' : prot s0 o') by (destruct o'; simpl in *; try contradiction; exact I).
  pose proof (Ha _ _ Er' Hp') as E'.
  apply list_elem_of_lookup in Hin. destruct Hin as [i Hi].
  destruct (Forall2_lookup_l _ _ _ _ _ HF Hi) as (part & _ & Hints).
  rewrite Hints in E'. injection E' as <-. destruct Harr.
Qed.

Lemma keeps_truncate_step s0 p max_rks i :
  unprot s0 p -> keeps s0 (truncate_step p max_rks i).
Proof.
  intros Hu. unfold truncate_step.
  apply keeps_bind; [apply keeps_pure, pure_read_part|]. intros part.
  apply keeps_bind; [apply keeps_alloc|]. intros q. apply keeps_setitem. exact Hu.
Qed.

Lemma truncate_empty (s : store) (p : loc) (max_rks : list Z) (n : nat) :
  s !! p = Some (OList []) ->
  store_of (for_each (seq 0 n) (truncate_step p max_rks) s) = s.
Proof.
  intros Hp. destruct n as [|n]; [reflexivity|]. cbn [seq for_each].
  assert (E : truncate_step p max_rks 0 s = Fail IndexError s).
  { unfold truncate_step, read_part.
    assert (E1 : read_list p s = Done [] s) by (unfold read_list; now rewrite Hp).
    rewrite (bind_Fail _ _ s s IndexError); [reflexivity|].
    rewrite (bind_Done _ _ _ _ _ E1). reflexivity. }
  rewrite (bind_Fail _ _ _ _ _ E). reflexivity.
Qed.

Lemma keeps_post_processing s0 smp svs p d tol :
  keeps s0 (_post_processing K smp svs p d tol).
Proof.
  intros s Ha. unfold _post_processing.
  destruct (pure_read_parts p s) as [[parts E]|[e E]];
    [|rewrite (bind_Fail _ _ _ _ _ E); exact Ha].
  rewrite (bind_Done _ _ _ _ _ E).
  destruct (max_rks_of K smp svs parts tol) as [max_rks|e];
    [|rewrite (bind_Fail _ _ _ _ _ (lift_Raise _ _)); exact Ha].
  rewrite (bind_Done _ _ _ _ _ (lift_Ok _ _)).
  destruct (_ || _); [exact Ha|].
  destruct (read_parts_inv _ _ _ _ E) as (_ & refs & Hp & HF).
  set (mr := <[_ := _]> max_rks).
  assert (Hrest : keeps s0 (parts' ← read_parts p;
                            L ← lift (full_nd_loewner smp svs parts');
                            ret (Some (snd (svd_last K L), p)))).
  { apply keeps_bind; [apply keeps_pure, pure_read_parts|]. intros parts'.
    apply keeps_bind; [apply keeps_pure, pure_lift|]. intros L.
    apply keeps_pure, pure_ret. }
  destruct (unprot_or_empty _ _ _ _ _ Ha Hp HF) as [->|Hu].
  - pose proof (truncate_empty s p mr (length mr) Hp) as Hs.
    unfold mbind at 1, st_bind, bind.
    destruct (for_each (seq 0 (length mr)) (truncate_step p mr) s) as [[] s1|e s1];
      simpl in Hs; subst s1; [|exact Ha].
    apply Hrest. exact Ha.
  - refine (keeps_bind s0 _ _ _ _ s Ha).
    + apply keeps_for_each. intros i. now apply keeps_truncate_step.
    + intros _. exact Hrest.
Qed.

Lemma keeps_bind_alloc {B : Type} s0 (o : obj) (k : loc -> st B) :
  (forall q, unprot s0 q -> keeps s0 (k q)) -> keeps s0 (alloc o ≫= k).
Proof.
  intros Hk s Ha. unfold mbind, st_bind, bind, alloc.
  apply Hk.
  - intros o' Hs. apply lookup_lt_Some in Hs. destruct Ha. lia.
  - apply (keeps_alloc s0 o s Ha).
Qed.

Lemma keeps_if {A : Type} s0 (b : bool) (m1 m2 : st A) :
  keeps s0 m1 -> keeps s0 m2 -> keeps s0 (if b then m1 else m2).
Proof. destruct b; auto. Qed.

Lemma keeps_nonminimal_branch s0 self env p coefs0 d_nsp :
  keeps s0 (nonminimal_branch K self env p coefs0 d_nsp).
Proof.
  unfold nonminimal_branch. repeat apply keeps_if; try (apply keeps_pure, pure_ret).
  apply keeps_bind; [apply keeps_post_processing|].
  intros [[c q]|]; apply keeps_pure, pure_ret.
Qed.

Lemma keeps_iter_update s0 self env l1 err_mat :
  keeps s0 (iter_update K self env l1 err_mat).
Proof.
  unfold iter_update.
  apply keeps_bind; [apply keeps_greedy_append|]. intros _.
  apply keeps_bind; [apply keeps_pure, pure_read_parts|]. intros parts1.
  apply keeps_bind; [apply keeps_pure, pure_lift|]. intros L.
  apply keeps_bind; [apply keeps_pure, pure_lift|]. intros d_nsp.
  apply keeps_bind; [apply keeps_nonminimal_branch|]. intros cpl.
  apply keeps_bind; [apply keeps_pure, pure_read_parts|]. intros parts2.
  apply keeps_if; apply keeps_pure, pure_ret.
Qed.

Lemma keeps_reduce_iter s0 self env l :
  keeps s0 (reduce_iter K self env l).
Proof.
  unfold reduce_iter.
  apply keeps_bind; [apply keeps_pure, pure_read_parts|]. intros parts.
  apply keeps_if; [apply keeps_pure, pure_ret|].
  apply keeps_bind; [apply keeps_pure, pure_lift|]. intros err.
  apply keeps_if; [apply keeps_pure, pure_ret|apply keeps_iter_update].
Qed.

Lemma keeps_reduce_loop s0 self env fuel :
  forall l s out, agree s0 s -> reduce_loop K fuel self env l s = Some out ->
                  agree s0 (store_of out).
Proof.
  induction fuel as [|fuel IH]; intros l s out Ha H; simpl in H; [discriminate|].
  pose proof (keeps_reduce_iter s0 self env l s Ha) as Hi.
  destruct (reduce_iter K self env l s) as [[l'|r l'] s'|e s']; simpl in Hi.
  - eapply IH; eauto.
  - injection H as <-. exact Hi.
  - injection H as <-. exact Hi.
Qed.

Lemma keeps_add_conjugates s0 sv_items svs_loc smp0 :
  unprot s0 svs_loc -> keeps s0 (add_conjugates sv_items svs_loc smp0).
Proof.
  intros Hu. unfold add_conjugates.
  destruct (sv_items !! 0); [|apply keeps_pure, pure_raise].
  apply keeps_bind; [apply keeps_pure, pure_read_vec|]. intros v0.
  apply keeps_bind; [apply keeps_pure, pure_lift|]. intros cr.
  destruct (fst cr); [apply keeps_pure, pure_ret|].
  apply keeps_bind; [apply keeps_alloc|]. intros l0'.
  apply keeps_bind; [now apply keeps_setitem|]. intros _.
  apply keeps_bind; [apply keeps_pure, pure_lift|]. intros a.
  apply keeps_bind; [apply keeps_alloc|]. intros _.
  apply keeps_pure, pure_ret.
Qed.

Lemma keeps_init_itpl_part s0 itpl_part nv :
  keeps s0 (init_itpl_part itpl_part nv).
Proof.
  unfold init_itpl_part. destruct itpl_part as [q|].
  - apply keeps_bind; [apply keeps_pure, pure_read_list|]. intros items.
    apply keeps_if; [apply keeps_pure, pure_ret|apply keeps_pure, pure_raise].
  - apply keeps_bind; [apply keeps_mapM; intros _; apply keeps_alloc|].
    intros refs. apply keeps_alloc.
Qed.

Lemma keeps_reduce_init s0 self tol itpl_part max_itpl :
  keeps s0 (reduce_init K self tol itpl_part max_itpl).
Proof.
  unfold reduce_init.
  apply keeps_bind; [apply keeps_pure, pure_read_list|]. intros sv_items.
  apply keeps_bind_alloc. intros svs_loc Hu.
  apply keeps_bind; [apply keeps_pure, pure_read_tensor|]. intros smp0.
  apply keeps_bind; [apply keeps_alloc|]. intros _.
  apply keeps_bind.
  { apply keeps_if; [now apply keeps_add_conjugates|apply keeps_pure, pure_ret]. }
  intros smp1.
  apply keeps_bind; [apply keeps_pure, pure_read_list|]. intros sv_items'.
  apply keeps_bind; [apply keeps_mapM; intros r; apply keeps_pure, pure_read_vec|]. intros svs.
  apply keeps_bind; [apply keeps_pure, pure_lift|]. intros max_samples.
  apply keeps_bind; [apply keeps_pure, pure_lift|]. intros tr.
  apply keeps_bind; [apply keeps_init_itpl_part|]. intros p.
  apply keeps_if; [apply keeps_pure, pure_raise|apply keeps_pure, pure_ret].
Qed.

Lemma keeps_reduce_final s0 pr l : keeps s0 (reduce_final pr l).
Proof.
  unfold reduce_final. apply keeps_bind.
  - apply keeps_if; [|apply keeps_pure, pure_ret].
    apply keeps_bind; [apply keeps_pure, pure_read_parts|]. intros parts.
    apply keeps_pure, pure_ret.
  - intros mv. destruct (l_form l) as [[[n v] c]|];
      [apply keeps_pure, pure_ret|apply keeps_pure, pure_raise].
Qed.

(** Whatever the outcome of [reduce], every array, and every list of
    arrays, of the store it was called on is still what it was. *)
Lemma reduce_agree fuel self tol itpl_part max_itpl (s : store) out :
  reduce K fuel self tol itpl_part max_itpl s = Some out -> agree s (store_of out).
Proof.
  unfold reduce. intros H.
  pose proof (keeps_reduce_init s self tol itpl_part max_itpl s (agree_refl s)) as H1.
  destruct (reduce_init K self tol itpl_part max_itpl s) as [pr s1|e s1]; simpl in H1.
  - destruct (reduce_loop K fuel self (p_env pr) (p_locals pr) s1) as [o|] eqn:El;
      [|discriminate].
    pose proof (keeps_reduce_loop s self (p_env pr) fuel _ _ _ H1 El) as H2.
    destruct o as [[r l] s2|e s2]; simpl in H2.
    + pose proof (keeps_reduce_final s pr l s2 H2) as H3.
      destruct (reduce_final pr l s2) as [rm s3|e s3]; injection H as <-; exact H3.
    + injection H as <-. exact H2.
  - injection H as <-. exact H1.
Qed.

(** C8. A call of [reduce], whatever its arguments and its outcome (a
    reduced model or an exception), leaves the stored input data as it was:
    the list [self.sampling_values], each array of sampling values it
    refers to, and the tensor [self.samples] are the same objects with the
    same contents in the store after the call. *)
Theorem reduce_preserves_input (fuel : nat) (self : reductor) (tol : M)
    (itpl_part : option loc) (max_itpl : option (list Z)) (s : store)
    (out : outcome (rom * locals)) (items : list loc) (a : ndarray) :
  s !! sampling_values self = Some (OList items) ->
  Forall (fun r => exists v, s !! r = Some (OVec v)) items ->
  s !! samples self = Some (OTensor a) ->
  reduce K fuel self tol itpl_part max_itpl s = Some out ->
  store_of out !! sampling_values self = Some (OList items)
  /\ (forall r, r ∈ items -> store_of out !! r = s !! r)
  /\ store_of out !! samples self = Some (OTensor a).
Proof.
  intros Hsv Hitems Hsmp H. destruct (reduce_agree _ _ _ _ _ _ _ H) as [_ Ha].
  split; [|split].
  - apply Ha; [exact Hsv|]. destruct items as [|r items]; [now left|right].
    exists r. split; [left|]. inversion Hitems as [|? ? [v Hv] _]; subst.
    rewrite Hv. exact I.
  - intros r Hr. rewrite Forall_forall in Hitems. destruct (Hitems r Hr) as [v Hv].
    rewrite Hv. apply Ha; [exact Hv|exact I].
  - apply Ha; [exact Hsmp|exact I].
Qed.

End FrameFacts.

(** ** One pass of the loop *)

Section IterationFacts.
Context `{Sc : Scalar} (K : numerics).

Lemma post_processing_spec smp svs p d tol s refs parts :
  has_parts s p refs parts -> length parts = length svs ->
  match _post_processing K smp svs p d tol s with
  | Done None s' => s' = s
  | Done (Some (c, q)) s' =>
      q = p /\ exists refs' parts',
        has_parts s' p refs' parts' /\ length parts' = length parts /\
        forall i part, parts !! i = Some part ->
          exists part', parts' !! i = Some part' /\ length part' <= length part
  | Fail e s' => True
  end.
Proof.
  intros H Hlen. unfold _post_processing.
  rewrite (bind_Done _ _ _ _ _ (read_parts_has _ _ _ _ H)).
  destruct (max_rks_of K smp svs parts tol) as [max_rks|e] eqn:Emr;
    [|rewrite (bind_Fail _ _ _ _ _ (lift_Raise _ _)); exact I].
  rewrite (bind_Done _ _ _ _ _ (lift_Ok _ _)).
  destruct (_ || _); [reflexivity|].
  set (mr := <[_ := _]> max_rks).
  assert (Hmr : length mr = length parts).
  { unfold mr. rewrite length_insert. unfold max_rks_of in Emr.
    apply mapM_res_length in Emr. rewrite Emr, length_seq. lia. }
  destruct (truncate_for_each_has p mr (length mr) 0 s refs parts H ltac:(lia))
    as (s' & refs' & parts' & E & H' & _ & Hl' & Hchar).
  rewrite (bind_Done _ _ _ _ _ E).
  rewrite (bind_Done _ _ _ _ _ (read_parts_has _ _ _ _ H')).
  destruct (full_nd_loewner smp svs parts') as [L|e].
  - rewrite (bind_Done _ _ _ _ _ (lift_Ok _ _)). cbn.
    split; [reflexivity|]. exists refs', parts'. auto.
  - rewrite (bind_Fail _ _ _ _ _ (lift_Raise _ _)). exact I.
Qed.

(** What a pass that goes beyond the stopping criterion leaves behind. The
    partition after the greedy step is [parts1]; a pass that continues
    keeps it, a pass that exits may have truncated it. *)
Lemma iter_update_spec self env l1 err_mat s refs parts :
  wf_part s (l_itpl_part l1) refs parts ->
  length parts = length (e_svs env) ->
  let p := l_itpl_part l1 in
  let greedy_idx := unravel (map length (e_svs env)) (argmax err_mat) in
  match iter_update K self env l1 err_mat s with
  | Fail e s' => True
  | Done st s' =>
      exists parts1,
        (forall i part, parts !! i = Some part ->
           exists new, greedy_new (conjugate self) (e_svs env) (e_max_itpl env) greedy_idx i part
                       = Ok new /\ parts1 !! i = Some (part ++ new)) /\
        match st with
        | Continue l' =>
            l_itpl_part l' = p /\ wf_part s' p refs parts1 /\ same_outside refs s s' /\
            l_form l' <> None /\
            (post_process self = false \/
             exists L, full_nd_loewner (e_samples env) (e_svs env) parts1 = Ok L /\
                       null_dim (fst (svd_last K L)) (nsp_tol self) = Ok 0)
        | Exit r l' =>
            r = NullspaceConverged /\ post_process self = true /\ l_itpl_part l' = p /\
            l_form l' <> None /\
            exists refs' parts2,
              has_parts s' p refs' parts2 /\ length parts2 = length parts /\
              forall i part1, parts1 !! i = Some part1 ->
                exists part2, parts2 !! i = Some part2 /\ length part2 <= length part1
        end
  end.
Proof.
  intros W Hlen p greedy_idx. unfold iter_update. fold p. fold greedy_idx.
  rewrite <- Hlen.
  destruct (greedy_append_wf (conjugate self) (e_svs env) (e_max_itpl env) greedy_idx
              s p refs parts W)
    as [(s1 & parts1 & E & W1 & O & Hchar)|(e & s1 & i & part & E & _)];
    [|rewrite (bind_Fail _ _ _ _ _ E); exact I].
  rewrite (bind_Done _ _ _ _ _ E).
  rewrite (bind_Done _ _ _ _ _ (read_parts_wf _ _ _ _ W1)).
  destruct (full_nd_loewner (e_samples env) (e_svs env) parts1) as [L|e] eqn:EL;
    [|rewrite (bind_Fail _ _ _ _ _ (lift_Raise _ _)); exact I].
  rewrite (bind_Done _ _ _ _ _ (lift_Ok _ _)).
  destruct (null_dim (fst (svd_last K L)) (nsp_tol self)) as [d_nsp|e] eqn:Ed;
    [|rewrite (bind_Fail _ _ _ _ _ (lift_Raise _ _)); exact I].
  rewrite (bind_Done _ _ _ _ _ (lift_Ok _ _)).
  assert (Hlen1 : length parts1 = length parts).
  { rewrite <- (wf_length _ _ _ _ W1). apply (wf_length _ _ _ _ W). }
  unfold nonminimal_branch.
  destruct (Nat.ltb_spec 1 d_nsp) as [Hgt|Hle].
  - destruct (post_process self) eqn:Epp.
    + (* post-processing runs *)
      pose proof (post_processing_spec (e_samples env) (e_svs env) p (Z.of_nat d_nsp)
                    (L_rk_tol self) s1 refs parts1 (wf_has_parts _ _ _ _ W1)
                    ltac:(congruence)) as Hpp.
      unfold mbind at 1, st_bind, bind. unfold mbind at 1, st_bind, bind.
      destruct (_post_processing K (e_samples env) (e_svs env) p (Z.of_nat d_nsp)
                  (L_rk_tol self) s1) as [[[c q]|] s2|e s2]; [| |exact I].
      * destruct Hpp as (-> & refs' & parts2 & H2 & Hl2 & Hch2).
        cbn [ret fst snd].
        rewrite (bind_Done _ _ _ _ _ (read_parts_has _ _ _ _ H2)).
        destruct (Nat.leb_spec 1 d_nsp) as [_|]; [|lia]. cbn [andb ret].
        exists parts1. split; [exact Hchar|].
        split; [reflexivity|]. split; [reflexivity|]. split; [reflexivity|].
        split; [discriminate|].
        exists refs', parts2. split; [exact H2|]. split; [congruence|exact Hch2].
      * subst s2. cbn [ret fst snd].
        rewrite (bind_Done _ _ _ _ _ (read_parts_wf _ _ _ _ W1)).
        destruct (Nat.leb_spec 1 d_nsp) as [_|]; [|lia]. cbn [andb ret].
        exists parts1. split; [exact Hchar|].
        split; [reflexivity|]. split; [reflexivity|]. split; [reflexivity|].
        split; [discriminate|].
        exists refs, parts1. split; [apply wf_has_parts; exact W1|].
        split; [congruence|]. intros i part1 Hi. exists part1. split; [exact Hi|lia].
    + unfold mbind at 1, st_bind, bind. cbn [ret fst snd].
      rewrite (bind_Done _ _ _ _ _ (read_parts_wf _ _ _ _ W1)). cbn [andb ret].
      exists parts1. split; [exact Hchar|].
      split; [reflexivity|]. split; [exact W1|]. split; [exact O|].
      split; [discriminate|now left].
  - unfold mbind at 1, st_bind, bind. cbn [ret fst snd].
    rewrite (bind_Done _ _ _ _ _ (read_parts_wf _ _ _ _ W1)).
    destruct (post_process self) eqn:Epp; cbn [andb].
    + destruct (Nat.leb_spec 1 d_nsp) as [Hge|Hlt]; cbn [ret].
      * exists parts1. split; [exact Hchar|].
        split; [reflexivity|]. split; [reflexivity|]. split; [reflexivity|].
        split; [discriminate|].
        exists refs, parts1. split; [apply wf_has_parts; exact W1|].
        split; [congruence|]. intros i part1 Hi. exists part1. split; [exact Hi|lia].
      * exists parts1. split; [exact Hchar|].
        split; [reflexivity|]. split; [exact W1|]. split; [exact O|].
        split; [discriminate|]. right. exists L. split; [exact EL|].
        replace d_nsp with 0 in Ed by lia. exact Ed.
    + cbn [ret]. exists parts1. split; [exact Hchar|].
      split; [reflexivity|]. split; [exact W1|]. split; [exact O|].
      split; [discriminate|now left].
Qed.

(** *** The greedy index lies outside the zeroed block *)

Lemma nth_zip_with {A B C : Type} (f : A -> B -> C) (l1 : list A) (l2 : list B) (k : nat)
    (da : A) (db : B) (dc : C) :
  k < length l1 -> k < length l2 ->
  nth k (zip_with f l1 l2) dc = f (nth k l1 da) (nth k l2 db).
Proof.
  revert l2 k. induction l1 as [|a l1 IH]; intros [|b l2] k H1 H2; simpl in *; try lia.
  destruct k as [|k]; [reflexivity|]. apply IH; lia.
Qed.

Lemma forallb_zip_false {A B : Type} (f : A * B -> bool) (l1 : list A) (l2 : list B) :
  forallb f (zip l1 l2) = false ->
  exists i a b, l1 !! i = Some a /\ l2 !! i = Some b /\ f (a, b) = false.
Proof.
  revert l2. induction l1 as [|a l1 IH]; intros [|b l2]; simpl; try discriminate.
  destruct (f (a, b)) eqn:E; simpl.
  - intros H. destruct (IH _ H) as (i & a' & b' & H1 & H2 & H3).
    exists (S i), a', b'. auto.
  - intros _. exists 0, a, b. auto.
Qed.

Lemma existsb_eqb_In (g : nat) (l : list nat) :
  existsb (Nat.eqb g) l = true <-> In g l.
Proof.
  rewrite existsb_exists. split.
  - intros (x & Hx & E). apply Nat.eqb_eq in E. now subst.
  - intros H. exists g. split; [assumption|apply Nat.eqb_refl].
Qed.

Lemma masked_err_length env b parts :
  length (masked_err K env b parts) = length (grid_indices (e_svs env)).
Proof.
  unfold masked_err, mask_block, err_matrix.
  rewrite length_zip_with, length_map. lia.
Qed.

(** When the maximal masked error exceeds a non-negative threshold, some
    variable whose partition has room does not yet hold its component of
    the greedy index. *)
Lemma greedy_outside_block env b parts err :
  shape (e_samples env) = map length (e_svs env) ->
  length parts = length (e_svs env) ->
  np_max (masked_err K env b parts) = Ok err ->
  mleb err (e_rel_tol env) = false ->
  mleb mzero (e_rel_tol env) = true ->
  let greedy_idx := unravel (map length (e_svs env)) (argmax (masked_err K env b parts)) in
  exists i part,
    parts !! i = Some part /\
    (Z.of_nat (length part) < nth i (e_max_itpl env) 0)%Z /\
    ~ In (nth i greedy_idx 0) part.
Proof.
  intros Hshape Hlen Hmax Htol Hpos greedy_idx.
  destruct (argmax_np_max _ _ Hmax) as [Hnth Hk].
  set (k := argmax (masked_err K env b parts)) in *.
  rewrite masked_err_length in Hk.
  assert (Hk' : k < fold_right Nat.mul 1 (map length (e_svs env)))
    by (now rewrite <- grid_indices_length).
  assert (Hidx : nth k (grid_indices (e_svs env)) [] = greedy_idx).
  { rewrite grid_indices_ranges. now apply nth_product_ranges. }
  unfold masked_err, mask_block in Hnth.
  rewrite (nth_zip_with _ _ _ _ [] mzero) in Hnth
    by (unfold err_matrix; rewrite ?length_map; assumption).
  rewrite Hidx in Hnth.
  destruct (in_block _ greedy_idx) eqn:Eb.
  { rewrite <- Hnth in Htol. congruence. }
  unfold in_block in Eb. apply forallb_zip_false in Eb.
  destruct Eb as (i & z & g & Hz & Hg & Hex). cbn [fst snd] in Hex.
  unfold zero_idx in Hz. rewrite list_lookup_fmap in Hz.
  destruct (seq 0 (length (e_svs env)) !! i) as [i'|] eqn:Ei; [|discriminate].
  apply lookup_seq in Ei. destruct Ei as [-> Hi]. cbn in Hz. injection Hz as <-.
  assert (Hgi : nth i greedy_idx 0 = g) by (now apply nth_lookup_Some with (d := 0) in Hg).
  destruct (lookup_lt_is_Some_2 parts i ltac:(lia)) as [part Hp].
  assert (Hpn : nth i parts [] = part) by (now apply nth_lookup_Some with (d := []) in Hp).
  rewrite Hpn in Hex.
  exists i, part. split; [exact Hp|].
  destruct (Z.leb_spec (nth i (e_max_itpl env) 0%Z) (Z.of_nat (length part))) as [Hcap|Hroom].
  - exfalso. assert (Hin : In g (seq 0 (nth i (shape (e_samples env)) 0))).
    { apply in_seq. split; [lia|]. rewrite Hshape. rewrite <- Hgi.
      unfold greedy_idx. cbn [Nat.add]. apply unravel_bound; [exact Hk'|].
      now rewrite length_map. }
    apply existsb_eqb_In in Hin. congruence.
  - split; [lia|]. rewrite Hgi. intros Hin. apply existsb_eqb_In in Hin. congruence.
Qed.

(** *** The room left below the caps *)

(** The number of entries the partitions may still take: the sum over the
    variables of [max_itpl[i] - len(itpl_part[i])], where positive. *)
Definition room_sum (parts : list (list nat)) (max_itpl : list Z) : nat :=
  fold_right Nat.add 0
    (zip_with (fun part mi => Z.to_nat (mi - Z.of_nat (length part))) parts max_itpl).

Lemma room_sum_le parts : forall parts1 mx,
  length parts1 = length parts ->
  (forall i part, parts !! i = Some part ->
     exists part1, parts1 !! i = Some part1 /\ length part <= length part1) ->
  room_sum parts1 mx <= room_sum parts mx.
Proof.
  induction parts as [|part parts IH]; intros [|part1 parts1] mx Hl Hch; simpl in Hl; try lia.
  destruct mx as [|mi mx]; [unfold room_sum; simpl; lia|].
  unfold room_sum in *. cbn [zip_with fold_right].
  destruct (Hch 0 part eq_refl) as (q & Hq & Hle). injection Hq as <-.
  specialize (IH parts1 mx ltac:(lia)).
  assert (IH' := IH (fun i part' Hi => Hch (S i) part' Hi)). lia.
Qed.

Lemma room_sum_lt parts : forall parts1 mx,
  length parts1 = length parts ->
  (forall i part, parts !! i = Some part ->
     exists part1, parts1 !! i = Some part1 /\ length part <= length part1) ->
  (exists i part part1,
     parts !! i = Some part /\ parts1 !! i = Some part1 /\
     (Z.of_nat (length part) < nth i mx 0)%Z /\ length part < length part1) ->
  room_sum parts1 mx < room_sum parts mx.
Proof.
  induction parts as [|part parts IH]; intros [|part1 parts1] mx Hl Hch Hex; simpl in Hl; try lia.
  - destruct Hex as (i & ? & ? & Hi & _). destruct i; discriminate.
  - destruct Hex as (i & q & q1 & Hi & Hi1 & Hroom & Hlt).
    destruct mx as [|mi mx]; [destruct i; simpl in Hroom; lia|].
    unfold room_sum in *. cbn [zip_with fold_right].
    destruct (Hch 0 part eq_refl) as (q' & Hq' & Hle). injection Hq' as <-.
    destruct i as [|i].
    + injection Hi as <-. injection Hi1 as <-. cbn in Hroom.
      pose proof (room_sum_le parts parts1 mx ltac:(lia)
                    (fun i part' Hi => Hch (S i) part' Hi)) as Hle'.
      unfold room_sum in Hle'. lia.
    + assert (IH' : fold_right Nat.add 0
                      (zip_with (fun part mi => Z.to_nat (mi - Z.of_nat (length part))) parts1 mx)
                    < fold_right Nat.add 0
                      (zip_with (fun part mi => Z.to_nat (mi - Z.of_nat (length part))) parts mx)).
      { apply IH; [lia|exact (fun i part' Hi => Hch (S i) part' Hi)|].
        exists i, q, q1. auto. }
      lia.
Qed.

(** *** Progress of a pass that continues *)

(** What the loop relies on: the tensor of samples has the shape of the
    grid, the partition has one entry per variable, and the threshold is
    not negative. *)
Definition loop_ready (env : loop_env) (parts : list (list nat)) : Prop :=
  shape (e_samples env) = map length (e_svs env) /\
  length parts = length (e_svs env) /\
  mleb mzero (e_rel_tol env) = true.

Lemma greedy_new_grows conj svs max_itpl greedy_idx i part new :
  (Z.of_nat (length part) < nth i max_itpl 0)%Z ->
  ~ In (nth i greedy_idx 0) part ->
  greedy_new conj svs max_itpl greedy_idx i part = Ok new ->
  length part < length (part ++ new).
Proof.
  intros Hroom Hnin. unfold greedy_new.
  assert (E1 : existsb (Nat.eqb (nth i greedy_idx 0)) part = false).
  { destruct (existsb _ part) eqn:E; [|reflexivity]. apply existsb_eqb_In in E. contradiction. }
  rewrite E1. cbn [negb andb].
  destruct (Z.ltb_spec (Z.of_nat (length part)) (nth i max_itpl 0%Z)) as [_|]; [|lia].
  destruct (_ && _).
  - destruct (find_index _ _); [|discriminate]. intros [= <-]. rewrite length_app. simpl. lia.
  - intros [= <-]. rewrite length_app. simpl. lia.
Qed.

Lemma reduce_iter_continue self env l s refs parts l' s' :
  wf_part s (l_itpl_part l) refs parts ->
  loop_ready env parts ->
  reduce_iter K self env l s = Done (Continue l') s' ->
  l_itpl_part l' = l_itpl_part l /\
  l_form l' <> None /\
  exists parts',
    wf_part s' (l_itpl_part l) refs parts' /\
    loop_ready env parts' /\
    (forall i part, parts !! i = Some part ->
       exists new, parts' !! i = Some (part ++ new)) /\
    (exists i part part',
       parts !! i = Some part /\ parts' !! i = Some part' /\
       (Z.of_nat (length part) < nth i (e_max_itpl env) 0)%Z /\
       length part < length part').
Proof.
  intros W (Hshape & Hlen & Hpos) H. unfold reduce_iter in H.
  rewrite (bind_Done _ _ _ _ _ (read_parts_wf _ _ _ _ W)) in H.
  destruct (any_room parts (e_max_itpl env)); cbn [negb] in H; [|discriminate].
  destruct (np_max (masked_err K env (l_bary l) parts)) as [err|e] eqn:Emax;
    [|rewrite (bind_Fail _ _ _ _ _ (lift_Raise _ _)) in H; discriminate].
  rewrite (bind_Done _ _ _ _ _ (lift_Ok _ _)) in H.
  destruct (mleb err (e_rel_tol env)) eqn:Etol; [discriminate|].
  pose proof (iter_update_spec self env (log_step l parts)
                (masked_err K env (l_bary l) parts) s refs parts W Hlen) as Hspec.
  cbv zeta in Hspec. rewrite H in Hspec. cbn [log_step l_itpl_part] in Hspec.
  destruct Hspec as (parts1 & Hchar & Hp & W1 & O & Hform & _).
  split; [exact Hp|]. split; [exact Hform|].
  exists parts1. split; [exact W1|].
  assert (Hlen1 : length parts1 = length parts).
  { rewrite <- (wf_length _ _ _ _ W1). apply (wf_length _ _ _ _ W). }
  split; [repeat split; congruence|]. split.
  - intros i part Hi. destruct (Hchar i part Hi) as (new & _ & Hn). eauto.
  - destruct (greedy_outside_block env (l_bary l) parts err Hshape Hlen Emax Etol Hpos)
      as (i & part & Hi & Hroom & Hnin).
    destruct (Hchar i part Hi) as (new & Hnew & Hn).
    exists i, part, (part ++ new). repeat split; try assumption.
    eapply greedy_new_grows; eauto.
Qed.

(** The loop ends within [room_sum + 1] passes. *)
Lemma reduce_loop_terminates self env fuel :
  forall l s refs parts,
  wf_part s (l_itpl_part l) refs parts ->
  loop_ready env parts ->
  room_sum parts (e_max_itpl env) < fuel ->
  exists out, reduce_loop K fuel self env l s = Some out.
Proof.
  induction fuel as [|fuel IH]; intros l s refs parts W R Hfuel; [lia|].
  cbn [reduce_loop].
  destruct (reduce_iter K self env l s) as [[l'|r l'] s'|e s'] eqn:E; eauto.
  destruct (reduce_iter_continue _ _ _ _ _ _ _ _ W R E)
    as (Hp & _ & parts' & W' & R' & Hpre & Hgrow).
  apply (IH l' s' refs parts'); [now rewrite Hp|exact R'|].
  assert (room_sum parts' (e_max_itpl env) < room_sum parts (e_max_itpl env)); [|lia].
  apply room_sum_lt.
  - destruct R as (_ & R2 & _), R' as (_ & R2' & _). congruence.
  - intros i part Hi. destruct (Hpre i part Hi) as (new & Hn).
    exists (part ++ new). split; [exact Hn|]. rewrite length_app. lia.
  - exact Hgrow.
Qed.

(** C2 (as amended). Let the loop start from a partition held in pairwise
    distinct list objects, one per variable, over samples whose shape is
    that of the grid, with a threshold [tol * max|samples|] that is not
    negative. Then (1) a pass is entered only while some partition has
    fewer than [max_itpl[i]] entries; (2) every pass that neither exits nor
    raises lengthens the partition of a variable that had room; (3) the
    loop ends within [room_sum + 1] passes, by an exit or by an exception;
    (4) once a barycentric form has been computed, the statements after the
    loop return it as the reduced model. *)
Theorem greedy_loop_terminates (self : reductor) (env : loop_env) (l : locals) (s : store)
    (refs : list loc) (parts : list (list nat)) :
  wf_part s (l_itpl_part l) refs parts ->
  loop_ready env parts ->
  (any_room parts (e_max_itpl env) = false ->
   reduce_iter K self env l s = Done (Exit CapsReached l) s)
  /\ (forall l' s', reduce_iter K self env l s = Done (Continue l') s' ->
        exists parts',
          read_parts (l_itpl_part l') s' = Done parts' s' /\
          exists i part part',
            parts !! i = Some part /\ parts' !! i = Some part' /\
            (Z.of_nat (length part) < nth i (e_max_itpl env) 0)%Z /\
            length part < length part')
  /\ (exists out,
        reduce_loop K (S (room_sum parts (e_max_itpl env))) self env l s = Some out)
  /\ (forall pr lf sf itpl_nodes itpl_samples coefs,
        l_form lf = Some (itpl_nodes, itpl_samples, coefs) ->
        p_dim_input pr = 1 -> p_dim_output pr = 1 ->
        reduce_final pr lf sf
        = Done {| rom_dim_input := 1; rom_dim_output := 1; rom_nodes := itpl_nodes;
                  rom_vals := map (fun x => [x]) itpl_samples; rom_coefs := coefs |} sf).
Proof.
  intros W R. split; [|split; [|split]].
  - intros Hroom. unfold reduce_iter.
    rewrite (bind_Done _ _ _ _ _ (read_parts_wf _ _ _ _ W)). now rewrite Hroom.
  - intros l' s' E.
    destruct (reduce_iter_continue _ _ _ _ _ _ _ _ W R E)
      as (Hp & _ & parts' & W' & _ & _ & Hgrow).
    exists parts'. split; [|exact Hgrow]. rewrite Hp. now apply read_parts_wf with refs.
  - eapply reduce_loop_terminates; eauto.
  - intros pr lf sf itpl_nodes itpl_samples coefs Hf Hi Ho. unfold reduce_final.
    rewrite Hi, Ho. cbn [Nat.eqb negb orb].
    rewrite (bind_Done _ _ sf sf None) by reflexivity. rewrite Hf. reflexivity.
Qed.

(** *** The size of the partitions *)

Definition step_locals (st : step) : locals :=
  match st with
  | Continue l => l
  | Exit _ l => l
  end.

Lemma greedy_new_length conj svs max_itpl greedy_idx i part new :
  greedy_new conj svs max_itpl greedy_idx i part = Ok new ->
  new = [] \/
  ((Z.of_nat (length part) < nth i max_itpl 0)%Z /\
   (length new = 1 \/ (i = 0 /\ conj = true /\ length new = 2))).
Proof.
  unfold greedy_new.
  destruct (negb _); cbn [andb]; [|intros [= <-]; now left].
  destruct (Z.ltb_spec (Z.of_nat (length part)) (nth i max_itpl 0%Z)) as [Hlt|_];
    [|intros [= <-]; now left].
  destruct (Nat.eqb_spec i 0) as [->|Hne]; cbn [andb].
  - destruct conj; cbn [andb].
    + destruct (fimag_nonzero _).
      * destruct (find_index _ _); [|discriminate]. intros [= <-]. right. split; [assumption|].
        right. auto.
      * intros [= <-]. right. split; [assumption|now left].
    + intros [= <-]. right. split; [assumption|now left].
  - intros [= <-]. right. split; [assumption|now left].
Qed.

(** After any pass, the partition of a variable other than 0, or of any
    variable when conjugates are not enforced, stays within its cap if it
    was within it; the partition of variable 0 stays within its cap plus
    one. *)
Lemma reduce_iter_bound self env l s refs parts st s' :
  wf_part s (l_itpl_part l) refs parts ->
  length parts = length (e_svs env) ->
  reduce_iter K self env l s = Done st s' ->
  exists parts',
    read_parts (l_itpl_part (step_locals st)) s' = Done parts' s' /\
    length parts' = length parts /\
    forall i part part', parts !! i = Some part -> parts' !! i = Some part' ->
      (i <> 0 \/ conjugate self = false ->
       (Z.of_nat (length part) <= nth i (e_max_itpl env) 0)%Z ->
       (Z.of_nat (length part') <= nth i (e_max_itpl env) 0)%Z)
      /\ ((Z.of_nat (length part) <= nth i (e_max_itpl env) 0 + 1)%Z ->
          (Z.of_nat (length part') <= nth i (e_max_itpl env) 0 + 1)%Z).
Proof.
  intros W Hlen H. unfold reduce_iter in H.
  pose proof (read_parts_wf _ _ _ _ W) as Hread.
  rewrite (bind_Done _ _ _ _ _ Hread) in H.
  assert (Hsame : forall i part part', parts !! i = Some part -> parts !! i = Some part' ->
            (i <> 0 \/ conjugate self = false ->
             (Z.of_nat (length part) <= nth i (e_max_itpl env) 0)%Z ->
             (Z.of_nat (length part') <= nth i (e_max_itpl env) 0)%Z)
            /\ ((Z.of_nat (length part) <= nth i (e_max_itpl env) 0 + 1)%Z ->
                (Z.of_nat (length part') <= nth i (e_max_itpl env) 0 + 1)%Z)).
  { intros i part part' H1 H2. assert (part' = part) by congruence. subst. auto. }
  destruct (any_room parts (e_max_itpl env)); cbn [negb] in H.
  2:{ injection H as <- <-. exists parts. auto. }
  destruct (np_max (masked_err K env (l_bary l) parts)) as [err|e] eqn:Emax;
    [|rewrite (bind_Fail _ _ _ _ _ (lift_Raise _ _)) in H; discriminate].
  rewrite (bind_Done _ _ _ _ _ (lift_Ok _ _)) in H.
  destruct (mleb err (e_rel_tol env)) eqn:Etol.
  { injection H as <- <-. exists parts. auto. }
  pose proof (iter_update_spec self env (log_step l parts)
                (masked_err K env (l_bary l) parts) s refs parts W Hlen) as Hspec.
  cbv zeta in Hspec. rewrite H in Hspec. cbn [log_step l_itpl_part] in Hspec.
  destruct Hspec as (parts1 & Hchar & Hst).
  assert (Hgreedy : forall i part part1, parts !! i = Some part -> parts1 !! i = Some part1 ->
            length part <= length part1 /\
            (i <> 0 \/ conjugate self = false ->
             (Z.of_nat (length part) <= nth i (e_max_itpl env) 0)%Z ->
             (Z.of_nat (length part1) <= nth i (e_max_itpl env) 0)%Z)
            /\ ((Z.of_nat (length part) <= nth i (e_max_itpl env) 0 + 1)%Z ->
                (Z.of_nat (length part1) <= nth i (e_max_itpl env) 0 + 1)%Z)).
  { intros i part part1 Hi Hi1. destruct (Hchar i part Hi) as (new & Hnew & Hn).
    assert (part1 = part ++ new) by congruence. subst part1. rewrite length_app.
    destruct (greedy_new_length _ _ _ _ _ _ _ Hnew) as [->|(Hroom & [H1|(-> & Hc & H2)])];
      simpl; repeat split; intros; try lia.
    destruct H0; congruence. }
  destruct st as [l'|r l'].
  - destruct Hst as (Hp & W1 & _). cbn [step_locals]. rewrite Hp.
    exists parts1. split; [now apply read_parts_wf with refs|].
    split; [rewrite <- (wf_length _ _ _ _ W1); apply (wf_length _ _ _ _ W)|].
    intros i part part' Hi Hi'. apply (Hgreedy i part part' Hi Hi').
  - destruct Hst as (_ & _ & Hp & _ & refs' & parts2 & H2 & Hl2 & Hch2).
    cbn [step_locals]. rewrite Hp.
    exists parts2. split; [now apply read_parts_has with refs'|]. split; [exact Hl2|].
    intros i part part2 Hi Hi2.
    destruct (Hchar i part Hi) as (new & Hnew & Hn).
    destruct (Hch2 i _ Hn) as (q & Hq & Hle).
    assert (q = part2) by congruence. subst q.
    destruct (Hgreedy i part _ Hi Hn) as (_ & G1 & G2).
    split; intros; [specialize (G1 ltac:(assumption) ltac:(assumption))|
                    specialize (G2 ltac:(assumption))]; lia.
Qed.

(** *** What every pass returns *)

Lemma lift_inv_Done {A : Type} (r : res A) (s s' : store) (a : A) :
  lift r s = Done a s' -> r = Ok a /\ s' = s.
Proof. destruct r; simpl; [intros [= <- <-]; auto|discriminate]. Qed.

Lemma post_processing_same_object smp svs p d tol s c q s' :
  _post_processing K smp svs p d tol s = Done (Some (c, q)) s' -> q = p.
Proof.
  unfold _post_processing. intros H.
  apply bind_inv_Done in H. destruct H as (parts & s1 & _ & H).
  apply bind_inv_Done in H. destruct H as (max_rks & s2 & _ & H).
  destruct (_ || _); [discriminate|].
  apply bind_inv_Done in H. destruct H as (u & s3 & _ & H).
  apply bind_inv_Done in H. destruct H as (parts' & s4 & _ & H).
  apply bind_inv_Done in H. destruct H as (L & s5 & _ & H).
  now injection H as _ <- _.
Qed.

Lemma nonminimal_branch_same_object self env p coefs0 d_nsp s cpl s' :
  nonminimal_branch K self env p coefs0 d_nsp s = Done cpl s' -> snd (fst cpl) = p.
Proof.
  unfold nonminimal_branch. intros H.
  destruct (1 <? d_nsp); [|now injection H as <- _].
  destruct (post_process self); [|now injection H as <- _].
  apply bind_inv_Done in H. destruct H as ([[c q]|] & s1 & E & H).
  - injection H as <- _. cbn. eapply post_processing_same_object; eauto.
  - now injection H as <- _.
Qed.

(** A pass that goes beyond the stopping criterion keeps the partition
    object, leaves a barycentric form whose nodes are the sampling values
    at the partition then stored in that object, and can exit only through
    the nullspace test, which requires post-processing to be enabled. *)
Lemma iter_update_inv self env l1 err_mat s st s' :
  iter_update K self env l1 err_mat s = Done st s' ->
  l_itpl_part (step_locals st) = l_itpl_part l1 /\
  (exists parts2 coefs,
     read_parts (l_itpl_part l1) s' = Done parts2 s' /\
     l_form (step_locals st)
     = Some (zip_with take_idx (e_svs env) parts2, select (e_samples env) parts2, coefs)) /\
  (forall r l', st = Exit r l' -> r = NullspaceConverged /\ post_process self = true).
Proof.
  unfold iter_update. intros H.
  apply bind_inv_Done in H. destruct H as (u & s1 & _ & H).
  apply bind_inv_Done in H. destruct H as (parts1 & s2 & _ & H).
  apply bind_inv_Done in H. destruct H as (L & s3 & _ & H).
  apply bind_inv_Done in H. destruct H as (d_nsp & s4 & _ & H).
  apply bind_inv_Done in H. destruct H as (cpl & s5 & Eb & H).
  apply nonminimal_branch_same_object in Eb.
  apply bind_inv_Done in H. destruct H as (parts2 & s6 & Er & H).
  rewrite Eb in Er.
  pose proof (pure_Done_store _ _ _ _ (pure_read_parts _) Er) as ->.
  destruct (post_process self) eqn:Epp; cbn [andb] in H.
  - destruct (1 <=? d_nsp); injection H as <- <-; cbn; rewrite Eb;
      (split; [reflexivity|]); (split; [eauto|]); intros r l' Hx;
      [injection Hx as <- _; auto|discriminate].
  - injection H as <- <-. cbn. rewrite Eb.
    split; [reflexivity|]. split; [eauto|]. intros r l' Hx; discriminate.
Qed.

(** The local state and the store agree: the partition object holds a
    nested list, and the barycentric form, once bound, has for nodes the
    sampling values at that partition. *)
Definition form_matches (env : loop_env) (l : locals) (s : store) : Prop :=
  forall itpl_nodes itpl_samples coefs,
    l_form l = Some (itpl_nodes, itpl_samples, coefs) ->
    exists parts,
      read_parts (l_itpl_part l) s = Done parts s /\
      itpl_nodes = zip_with take_idx (e_svs env) parts /\
      itpl_samples = select (e_samples env) parts.

Lemma reduce_iter_inv self env l s st s' :
  form_matches env l s ->
  reduce_iter K self env l s = Done st s' ->
  l_itpl_part (step_locals st) = l_itpl_part l /\
  form_matches env (step_locals st) s'.
Proof.
  intros Hm H. unfold reduce_iter in H.
  apply bind_inv_Done in H. destruct H as (parts & s1 & Er & H).
  pose proof (pure_Done_store _ _ _ _ (pure_read_parts _) Er) as ->.
  destruct (negb _).
  { injection H as <- <-. split; [reflexivity|exact Hm]. }
  apply bind_inv_Done in H. destruct H as (err & s2 & El & H).
  apply lift_inv_Done in El. destruct El as [_ ->].
  destruct (mleb err (e_rel_tol env)).
  { injection H as <- <-. split; [reflexivity|exact Hm]. }
  destruct (iter_update_inv _ _ _ _ _ _ _ H) as (Hp & (parts2 & coefs & Hr & Hf) & _).
  cbn [log_step l_itpl_part] in Hp, Hr. split; [exact Hp|].
  intros n v c Hnvc. rewrite Hf in Hnvc. injection Hnvc as <- <- <-.
  exists parts2. rewrite Hp. auto.
Qed.

Lemma reduce_loop_inv self env fuel :
  forall l s r l' s',
  form_matches env l s ->
  reduce_loop K fuel self env l s = Some (Done (r, l') s') ->
  l_itpl_part l' = l_itpl_part l /\ form_matches env l' s'.
Proof.
  induction fuel as [|fuel IH]; intros l s r l' s' Hm H; [discriminate|].
  cbn [reduce_loop] in H.
  destruct (reduce_iter K self env l s) as [[l1|r1 l1] s1|e s1] eqn:E; [| |discriminate].
  - destruct (reduce_iter_inv _ _ _ _ _ _ Hm E) as [Hp Hm1]. cbn in Hp, Hm1.
    destruct (IH _ _ _ _ _ Hm1 H) as [Hp' Hm']. split; [congruence|exact Hm'].
  - injection H as <- <- <-.
    destruct (reduce_iter_inv _ _ _ _ _ _ Hm E) as [Hp Hm1]. auto.
Qed.

Lemma init_itpl_part_some q nv s p s' :
  init_itpl_part (Some q) nv s = Done p s' -> p = q /\ s' = s.
Proof.
  unfold init_itpl_part. intros H.
  apply bind_inv_Done in H. destruct H as (items & s1 & Er & H).
  pose proof (pure_Done_store _ _ _ _ (pure_read_list _) Er) as ->.
  destruct (_ =? _); [|discriminate]. now injection H as <- <-.
Qed.

Lemma reduce_init_inv self tol itpl_part max_itpl s pr s' :
  reduce_init K self tol itpl_part max_itpl s = Done pr s' ->
  l_form (p_locals pr) = None /\
  (exists max_samples,
     np_max (map fabs (data (p_samples_orig pr))) = Ok max_samples /\
     e_rel_tol (p_env pr) = mmul tol max_samples) /\
  (forall q, itpl_part = Some q -> l_itpl_part (p_locals pr) = q).
Proof.
  unfold reduce_init. intros H.
  apply bind_inv_Done in H. destruct H as (sv_items & s1 & _ & H).
  apply bind_inv_Done in H. destruct H as (svs_loc & s2 & _ & H).
  apply bind_inv_Done in H. destruct H as (smp0 & s3 & _ & H).
  apply bind_inv_Done in H. destruct H as (u & s4 & _ & H).
  apply bind_inv_Done in H. destruct H as (smp1 & s5 & _ & H).
  apply bind_inv_Done in H. destruct H as (sv_items' & s6 & _ & H).
  apply bind_inv_Done in H. destruct H as (svs & s7 & _ & H).
  apply bind_inv_Done in H. destruct H as (max_samples & s8 & Emax & H).
  apply lift_inv_Done in Emax. destruct Emax as [Emax ->].
  apply bind_inv_Done in H. destruct H as (tr & s9 & _ & H).
  apply bind_inv_Done in H. destruct H as (p & s10 & Ep & H).
  destruct (negb _); [discriminate|]. injection H as <- <-. cbn.
  split; [reflexivity|]. split; [eauto|].
  intros q ->. now apply init_itpl_part_some in Ep.
Qed.

(** C1 (as amended). The threshold is [tol] times the largest magnitude of
    the conjugate-augmented samples, computed once before the loop. In
    every pass that is entered, the exit through the stopping criterion
    happens if and only if the maximum of the masked error matrix is at
    most that threshold. A pass whose error exceeds the threshold can still
    end the loop, but only through the nullspace test at its end, and only
    when post-processing is enabled. *)
Theorem stopping_criterion (self : reductor) (tol : M) (itpl_part : option loc)
    (max_itpl : option (list Z)) (s0 s1 : store) (pr : prepared) :
  reduce_init K self tol itpl_part max_itpl s0 = Done pr s1 ->
  exists max_samples,
    np_max (map fabs (data (p_samples_orig pr))) = Ok max_samples /\
    forall l s parts err,
      read_parts (l_itpl_part l) s = Done parts s ->
      any_room parts (e_max_itpl (p_env pr)) = true ->
      np_max (masked_err K (p_env pr) (l_bary l) parts) = Ok err ->
      ((exists l' s', reduce_iter K self (p_env pr) l s = Done (Exit ToleranceReached l') s')
       <-> mleb err (mmul tol max_samples) = true)
      /\ (forall r l' s', reduce_iter K self (p_env pr) l s = Done (Exit r l') s' ->
            r = ToleranceReached \/ (r = NullspaceConverged /\ post_process self = true)).
Proof.
  intros Hinit. destruct (reduce_init_inv _ _ _ _ _ _ _ Hinit) as (_ & (mx & Hmx & Htol) & _).
  exists mx. split; [exact Hmx|].
  intros l s parts err Hr Hroom Herr.
  assert (Hiter : reduce_iter K self (p_env pr) l s
                  = if mleb err (mmul tol mx)
                    then Done (Exit ToleranceReached (log_step l parts)) s
                    else iter_update K self (p_env pr) (log_step l parts)
                           (masked_err K (p_env pr) (l_bary l) parts) s).
  { unfold reduce_iter. rewrite (bind_Done _ _ _ _ _ Hr). rewrite Hroom. cbn [negb].
    rewrite Herr. rewrite (bind_Done _ _ _ _ _ (lift_Ok _ _)). rewrite Htol.
    destruct (mleb err (mmul tol mx)); reflexivity. }
  rewrite Hiter. destruct (mleb err (mmul tol mx)).
  - split.
    + split; [reflexivity|]. intros _. eauto.
    + intros r l' s' [= <- _ _]. now left.
  - assert (Hex : forall r l' s',
              iter_update K self (p_env pr) (log_step l parts)
                (masked_err K (p_env pr) (l_bary l) parts) s = Done (Exit r l') s' ->
              r = NullspaceConverged /\ post_process self = true).
    { intros r l' s' H. destruct (iter_update_inv _ _ _ _ _ _ _ H) as (_ & _ & Hx).
      eapply Hx. reflexivity. }
    split.
    + split; [|discriminate]. intros (l' & s' & H). destruct (Hex _ _ _ H). discriminate.
    + intros r l' s' H. right. eapply Hex; eauto.
Qed.


End IterationFacts.

(** ** Evaluation of the barycentric form at a node *)

Section BaryFacts.
Context `{Sc : Scalar} (HL : ScalarLaws Sc) (HO : OrderLaws Sc).
#[local] Set Default Proof Using "Type HL HO".

Lemma mltb_irrefl (a : M) : mltb a a = false.
Proof. destruct (mltb a a) eqn:E; [|reflexivity]. now rewrite (mltb_asym _ _ E) in E. Qed.

Lemma argmin_from_min (l pre : list M) (best : M) (besti : nat) :
  nth besti pre mzero = best -> besti < length pre ->
  (forall j, j < length pre -> mltb (nth j pre mzero) best = false) ->
  let k := argmin_from best besti (length pre) l in
  k < length (pre ++ l) /\
  forall j, j < length (pre ++ l) -> mltb (nth j (pre ++ l) mzero) (nth k (pre ++ l) mzero) = false.
Proof.
  revert pre best besti. induction l as [|x l IH]; intros pre best besti Hb Hlt Hmin; simpl.
  - rewrite app_nil_r. rewrite Hb. auto.
  - replace (pre ++ x :: l) with ((pre ++ [x]) ++ l) by (rewrite <- app_assoc; reflexivity).
    replace (S (length pre)) with (length (pre ++ [x])) by (rewrite length_app; simpl; lia).
    destruct (mltb x best) eqn:Ex.
    + apply IH.
      * rewrite app_nth2 by lia. now rewrite Nat.sub_diag.
      * rewrite length_app. simpl. lia.
      * intros j Hj. rewrite length_app in Hj. simpl in Hj.
        destruct (Nat.eq_dec j (length pre)) as [->|Hne].
        -- rewrite app_nth2 by lia. rewrite Nat.sub_diag. simpl. apply mltb_irrefl.
        -- rewrite app_nth1 by lia.
           destruct (mltb (nth j pre mzero) x) eqn:Ej; [|reflexivity].
           specialize (Hmin j ltac:(lia)). rewrite (mltb_trans _ _ _ Ej Ex) in Hmin. discriminate.
    + apply IH.
      * rewrite app_nth1 by lia. assumption.
      * rewrite length_app. simpl. lia.
      * intros j Hj. rewrite length_app in Hj. simpl in Hj.
        destruct (Nat.eq_dec j (length pre)) as [->|Hne].
        -- rewrite app_nth2 by lia. rewrite Nat.sub_diag. simpl. assumption.
        -- rewrite app_nth1 by lia. apply Hmin. lia.
Qed.

(** A position whose entry is strictly below every other entry is the one
    [argmin] returns. *)
Lemma argmin_strict (l : list M) (k : nat) :
  k < length l ->
  (forall j, j < length l -> j <> k -> mltb (nth k l mzero) (nth j l mzero) = true) ->
  argmin l = k.
Proof.
  intros Hk Hstrict. destruct l as [|x l]; [simpl in Hk; lia|].
  destruct (argmin_from_min l [x] x 0) as [Hlt Hmin]; try reflexivity; [simpl; lia| |].
  { intros j Hj. simpl in Hj. replace j with 0 by lia. apply mltb_irrefl. }
  change ([x] ++ l) with (x :: l) in *. change (length [x]) with 1 in *.
  change (argmin_from x 0 1 l) with (argmin (x :: l)) in *.
  destruct (Nat.eq_dec (argmin (x :: l)) k) as [E|Hne]; [exact E|].
  specialize (Hstrict _ Hlt Hne). specialize (Hmin k Hk). congruence.
Qed.

Lemma nth_map_lt {A B : Type} (f : A -> B) (l : list A) (j : nat) (da : A) (db : B) :
  j < length l -> nth j (map f l) db = f (nth j l da).
Proof.
  intros Hj. rewrite (nth_indep _ db (f da)) by (now rewrite length_map). apply map_nth.
Qed.

Lemma NoDup_nth_ne (l : list F) (j k : nat) :
  NoDup l -> j < length l -> k < length l -> j <> k -> nth j l fzero <> nth k l fzero.
Proof.
  intros Hnd Hj Hk Hne E.
  destruct (lookup_lt_is_Some_2 l j Hj) as [x Hx].
  destruct (lookup_lt_is_Some_2 l k Hk) as [y Hy].
  rewrite (nth_lookup_Some _ _ fzero _ Hx), (nth_lookup_Some _ _ fzero _ Hy) in E. subst y.
  apply Hne. eapply NoDup_lookup; eauto.
Qed.

Lemma eye_row_length (n k : nat) : length (eye_row n k) = n.
Proof. unfold eye_row. now rewrite length_map, length_seq. Qed.

Lemma eye_row_nth (n k t : nat) :
  t < n -> nth t (eye_row n k) fzero = if t =? k then fone else fzero.
Proof.
  intros Ht. unfold eye_row.
  rewrite (nth_map_lt _ _ _ 0) by (now rewrite length_seq).
  now rewrite seq_nth.
Qed.

(** The weights [coefs.T * pd] at a node: [c] at position [k], zero
    elsewhere. *)
Definition scaled_selector (c : F) (a n k : nat) : list F :=
  map (fun j => if j =? k then c else fzero) (seq a n).

Lemma vec_sum_selector (c : F) (n k : nat) : forall (a : nat) (acc : F),
  fold_left fadd (scaled_selector c a n k) acc
  = if (a <=? k) && (k <? a + n) then fadd acc c else acc.
Proof.
  unfold scaled_selector. induction n as [|n IH]; intros a acc.
  - cbn [seq map fold_left].
    destruct (Nat.leb_spec a k), (Nat.ltb_spec k (a + 0)); cbn [andb]; try reflexivity; lia.
  - cbn [seq map fold_left]. rewrite IH.
    destruct (Nat.eqb_spec a k) as [->|Hne].
    + replace ((S k <=? k) && (k <? S k + n)) with false
        by (symmetry; apply andb_false_iff; left; apply Nat.leb_gt; lia).
      replace ((k <=? k) && (k <? k + S n)) with true
        by (symmetry; apply andb_true_iff; split; [apply Nat.leb_le|apply Nat.ltb_lt]; lia).
      reflexivity.
    + rewrite fadd_0_r.
      replace ((S a <=? k) && (k <? S a + n)) with ((a <=? k) && (k <? a + S n)); [reflexivity|].
      destruct (Nat.leb_spec (S a) k), (Nat.leb_spec a k),
        (Nat.ltb_spec k (S a + n)), (Nat.ltb_spec k (a + S n)); simpl; try reflexivity; lia.
Qed.

Lemma vec_add_zeros (v : list F) :
  vec_add (repeat fzero (length v)) v = v.
Proof.
  unfold vec_add. induction v as [|y v IH]; simpl; [reflexivity|].
  now rewrite fadd_0_l, IH.
Qed.

(** Within the tolerance of a node that is strictly nearer than every other
    node, the factor of the variable is the selector of that node. *)
Lemma bary_factor_near (tol : M) (x : F) (nodes : list F) (k : nat) :
  k < length nodes ->
  mltb (fabs (fsub x (nth k nodes fzero))) tol = true ->
  (forall j, j < length nodes -> j <> k ->
     mltb (fabs (fsub x (nth k nodes fzero))) (fabs (fsub x (nth j nodes fzero))) = true) ->
  bary_factor tol x nodes = eye_row (length nodes) k.
Proof.
  intros Hk Htol Hnear. unfold bary_factor.
  set (d := map (fun node => fsub x node) nodes).
  assert (Hd : length d = length nodes) by apply length_map.
  assert (Hex : existsb (fun e => mltb (fabs e) tol) d = true).
  { apply existsb_exists. exists (fsub x (nth k nodes fzero)). split; [|exact Htol].
    apply in_map_iff. exists (nth k nodes fzero). split; [reflexivity|]. now apply nth_In. }
  rewrite Hex, Hd. f_equal.
  apply argmin_strict; [now rewrite length_map, Hd|].
  intros j Hj Hne. rewrite length_map, Hd in Hj.
  rewrite !(nth_map_lt fabs _ _ fzero) by lia.
  unfold d. rewrite !(nth_map_lt _ nodes _ fzero) by lia.
  now apply Hnear.
Qed.

End BaryFacts.

(** ** Evaluation at the nodes *)

Section NodeFacts.
Context `{Sc : Scalar} (HL : ScalarLaws Sc) (HO : OrderLaws Sc).
Context (finite : F -> Prop) (HF : FiniteLaws Sc finite).
#[local] Set Default Proof Using "Type HL HO HF".

Lemma finite_nth (l : list F) (j : nat) : Forall finite l -> finite (nth j l fzero).
Proof.
  intros Hl. destruct (Nat.lt_ge_cases j (length l)) as [Hj|Hj].
  - rewrite Forall_forall in Hl. apply Hl. apply list_elem_of_In. now apply nth_In.
  - rewrite nth_overflow by exact Hj. apply finite_zero.
Qed.

(** At a node, the factor of the variable is the selector of that node. *)
Lemma bary_factor_at_node (tol : M) (nodes : list F) (k : nat) :
  mltb (fabs fzero) tol = true -> NoDup nodes -> Forall finite nodes -> k < length nodes ->
  bary_factor tol (nth k nodes fzero) nodes = eye_row (length nodes) k.
Proof.
  intros Htol Hnd Hfin Hk. unfold bary_factor.
  set (x := nth k nodes fzero).
  assert (Hx : finite x) by now apply finite_nth.
  set (d := map (fun node => fsub x node) nodes).
  assert (Hd : length d = length nodes) by apply length_map.
  assert (Hex : existsb (fun e => mltb (fabs e) tol) d = true).
  { apply existsb_exists. exists (fsub x x). split; [|now rewrite fsub_diag].
    apply in_map_iff. exists x. split; [reflexivity|]. apply nth_In. exact Hk. }
  rewrite Hex, Hd. f_equal.
  apply (argmin_strict HL HO); [now rewrite length_map, Hd|].
  intros j Hj Hne. rewrite length_map, Hd in Hj.
  rewrite !(nth_map_lt HL HO fabs _ _ fzero) by lia.
  unfold d. rewrite !(nth_map_lt HL HO _ nodes _ fzero) by lia.
  fold x. rewrite fsub_diag by exact Hx.
  apply fabs_sub_pos; [exact Hx|now apply finite_nth|].
  unfold x. now apply (NoDup_nth_ne HL HO nodes k j Hnd Hk Hj).
Qed.

(** The Kronecker product of two selectors is the selector of the combined
    position. *)
Lemma kron_row_eye (m n a b : nat) :
  a < m -> b < n ->
  kron_row (eye_row m a) (eye_row n b) = eye_row (m * n) (a * n + b).
Proof.
  intros Ha Hb.
  assert (Hlen : length (kron_row (eye_row m a) (eye_row n b)) = m * n).
  { unfold kron_row. rewrite (length_flat_map_uniform _ n).
    - now rewrite (eye_row_length HL HO).
    - intros x. now rewrite length_map, (eye_row_length HL HO). }
  apply (nth_ext _ _ fzero fzero); [now rewrite Hlen, (eye_row_length HL HO)|].
  intros t Ht. rewrite Hlen in Ht. rewrite (eye_row_nth HL HO) by assumption.
  unfold kron_row.
  rewrite (nth_flat_map_uniform _ n _ _ fzero)
    by (try (intros x; now rewrite length_map, (eye_row_length HL HO));
        now rewrite (eye_row_length HL HO)).
  assert (Hn : n <> 0) by lia.
  assert (Hq : t / n < m) by (apply Nat.Div0.div_lt_upper_bound; lia).
  assert (Hr : t mod n < n) by (now apply Nat.mod_upper_bound).
  rewrite (nth_map_lt HL HO _ _ _ fzero) by (now rewrite (eye_row_length HL HO)).
  rewrite !(eye_row_nth HL HO) by assumption.
  pose proof (Nat.div_mod_eq t n) as Hdm.
  destruct (Nat.eqb_spec (t / n) a) as [Eq|Nq].
  - rewrite fmul_1_l. destruct (Nat.eqb_spec (t mod n) b) as [Er|Nr].
    + destruct (Nat.eqb_spec t (a * n + b)) as [_|Nt]; [reflexivity|].
      exfalso. apply Nt. rewrite Hdm at 1. rewrite Eq, Er. lia.
    + destruct (Nat.eqb_spec t (a * n + b)) as [Et|_]; [|reflexivity].
      exfalso. apply Nr. rewrite Et. rewrite Nat.add_comm, Nat.Div0.mod_add.
      now apply Nat.mod_small.
  - rewrite fmul_0_l by (destruct (t mod n =? b); [apply finite_one|apply finite_zero]).
    destruct (Nat.eqb_spec t (a * n + b)) as [Et|_]; [|reflexivity].
    exfalso. apply Nq. rewrite Et. rewrite Nat.div_add_l by lia.
    rewrite Nat.div_small by lia. lia.
Qed.

(** The product of the factors of all variables is the selector of the
    flat position of the node combination. *)
Lemma pd_at_nodes (tol : M) (itpl_nodes : list (list F)) :
  mltb (fabs fzero) tol = true ->
  forall (ks : list nat) (m a : nat),
  Forall2 (fun k nodes => k < length nodes /\ NoDup nodes /\ Forall finite nodes)
          ks itpl_nodes ->
  a < m ->
  fold_left (fun pd xn => kron_row pd (bary_factor tol (fst xn) (snd xn)))
            (zip (zip_with (fun k nodes => nth k nodes fzero) ks itpl_nodes) itpl_nodes)
            (eye_row m a)
  = eye_row (m * fold_right Nat.mul 1 (map length itpl_nodes))
            (ravel_from a (map length itpl_nodes) ks)
  /\ ravel_from a (map length itpl_nodes) ks < m * fold_right Nat.mul 1 (map length itpl_nodes).
Proof.
  intros Htol ks m a HN. revert m a.
  induction HN as [|k nodes ks itpl_nodes (Hk & Hnd & Hfin) HN IH]; intros m a Ha.
  - cbn. rewrite Nat.mul_1_r. auto.
  - cbn [zip_with zip fold_left fst snd map fold_right ravel_from].
    rewrite bary_factor_at_node by assumption.
    rewrite kron_row_eye by assumption.
    assert (Ha' : a * length nodes + k < m * length nodes) by nia.
    destruct (IH _ _ Ha') as [E Hlt]. rewrite E.
    rewrite Nat.mul_assoc. auto.
Qed.

Lemma zip_with_eye (coefs : list F) (N k : nat) :
  length coefs = N -> Forall finite coefs -> k < N ->
  zip_with fmul coefs (eye_row N k) = scaled_selector (nth k coefs fzero) 0 N k.
Proof.
  intros Hc Hfin Hk.
  apply (nth_ext _ _ fzero fzero).
  - unfold scaled_selector.
    rewrite length_zip_with, (eye_row_length HL HO), length_map, length_seq. lia.
  - intros t Ht. rewrite length_zip_with, (eye_row_length HL HO) in Ht.
    rewrite (nth_zip_with _ _ _ _ fzero fzero) by (rewrite ?(eye_row_length HL HO); lia).
    rewrite (eye_row_nth HL HO) by lia. unfold scaled_selector.
    rewrite (nth_map_lt HL HO _ _ _ 0) by (rewrite length_seq; lia).
    rewrite seq_nth by lia. cbn [Nat.add].
    destruct (Nat.eqb_spec t k) as [->|_]; [apply fmul_1_r|].
    apply fmul_0_r. now apply finite_nth.
Qed.

Lemma vec_add_scale_zero (acc v : list F) :
  length v = length acc -> Forall finite v -> vec_add acc (vec_scale fzero v) = acc.
Proof.
  unfold vec_add, vec_scale. revert v. induction acc as [|x acc IH]; intros [|y v] H Hfin;
    simpl in *; try lia; [reflexivity|].
  apply Forall_cons in Hfin. destruct Hfin as [Hy Hfin].
  rewrite fmul_0_l by exact Hy. rewrite fadd_0_r. f_equal. apply IH; [lia|exact Hfin].
Qed.

Lemma tensordot_selector (c : F) (k T : nat) (vals : list (list F)) :
  Forall (fun v => length v = T /\ Forall finite v) vals ->
  forall (a : nat) (acc : list F),
  length acc = T ->
  fold_left (fun acc mv => vec_add acc (vec_scale (fst mv) (snd mv)))
            (zip (scaled_selector c a (length vals) k) vals) acc
  = if (a <=? k) && (k <? a + length vals)
    then vec_add acc (vec_scale c (nth (k - a) vals []))
    else acc.
Proof.
  unfold scaled_selector. induction 1 as [|v vals [Hv Hfin] HV IH]; intros a acc Hacc.
  - cbn [length seq map zip zip_with fold_left].
    destruct (Nat.leb_spec a k), (Nat.ltb_spec k (a + 0)); cbn [andb]; try reflexivity; lia.
  - cbn [length seq map zip zip_with fold_left fst snd].
    destruct (Nat.eqb_spec a k) as [->|Hne].
    + rewrite IH by (unfold vec_add, vec_scale; rewrite length_zip_with, length_map; lia).
      replace ((S k <=? k) && (k <? S k + length vals)) with false
        by (symmetry; apply andb_false_iff; left; apply Nat.leb_gt; lia).
      replace ((k <=? k) && (k <? k + S (length vals))) with true
        by (symmetry; apply andb_true_iff; split; [apply Nat.leb_le|apply Nat.ltb_lt]; lia).
      now rewrite Nat.sub_diag.
    + rewrite vec_add_scale_zero by (try lia; exact Hfin). rewrite IH by assumption.
      destruct (Nat.leb_spec (S a) k), (Nat.leb_spec a k),
        (Nat.ltb_spec k (S a + length vals)), (Nat.ltb_spec k (a + S (length vals)));
        simpl; try reflexivity; try lia.
      replace (k - a) with (S (k - S a)) by lia. reflexivity.
Qed.

Lemma pd_of_selectors (tol : M) (itpl_nodes : list (list F)) :
  forall (xks : list (F * nat)) (m a : nat),
  Forall2 (fun xk nodes =>
             snd xk < length nodes /\
             bary_factor tol (fst xk) nodes = eye_row (length nodes) (snd xk))
          xks itpl_nodes ->
  a < m ->
  fold_left (fun pd xn => kron_row pd (bary_factor tol (fst xn) (snd xn)))
            (zip (map fst xks) itpl_nodes) (eye_row m a)
  = eye_row (m * fold_right Nat.mul 1 (map length itpl_nodes))
            (ravel_from a (map length itpl_nodes) (map snd xks))
  /\ ravel_from a (map length itpl_nodes) (map snd xks)
     < m * fold_right Nat.mul 1 (map length itpl_nodes).
Proof.
  intros xks m a HN. revert m a.
  induction HN as [|[x k] nodes xks itpl_nodes [Hk Hsel] HN IH]; intros m a Ha.
  - cbn. rewrite Nat.mul_1_r. auto.
  - cbn [zip_with zip fold_left fst snd map fold_right ravel_from] in *.
    rewrite Hsel. rewrite kron_row_eye by assumption.
    assert (Ha' : a * length nodes + k < m * length nodes) by nia.
    destruct (IH _ _ Ha') as [E Hlt]. rewrite E.
    rewrite Nat.mul_assoc. auto.
Qed.

(** The value of the barycentric quotient when the denominator product is
    the selector of position [k]: the numerator is [c * v] and the
    denominator [c], for the coefficient [c] and every entry [v] of the
    interpolation value of that position. *)
Lemma bary_value_of_selector (coefs : list F) (itpl_vals : list (list F)) (N k : nat) :
  length coefs = N ->
  Forall finite coefs ->
  length itpl_vals = N ->
  Forall (fun v => length v = length (nth 0 itpl_vals []) /\ Forall finite v) itpl_vals ->
  k < N ->
  map (fun x => fdiv x (vec_sum (zip_with fmul coefs (eye_row N k))))
      (tensordot1 (zip_with fmul coefs (eye_row N k)) itpl_vals)
  = map (fun v => fdiv (fmul (nth k coefs fzero) v) (nth k coefs fzero)) (nth k itpl_vals []).
Proof.
  intros Hc Hcf Hv Hshape Hk.
  rewrite (zip_with_eye coefs N k Hc Hcf Hk).
  set (c := nth k coefs fzero) in *.
  unfold vec_sum. rewrite (vec_sum_selector HL HO).
  replace ((0 <=? k) && (k <? 0 + N)) with true
    by (symmetry; apply andb_true_iff; split; [apply Nat.leb_le|apply Nat.ltb_lt]; lia).
  rewrite fadd_0_l.
  unfold tensordot1. rewrite <- Hv.
  rewrite (tensordot_selector c k (length (nth 0 itpl_vals [])) itpl_vals Hshape)
    by apply repeat_length.
  replace ((0 <=? k) && (k <? 0 + length itpl_vals)) with true
    by (symmetry; apply andb_true_iff; split; [apply Nat.leb_le|apply Nat.ltb_lt]; lia).
  rewrite Nat.sub_0_r.
  assert (Hlk : length (nth k itpl_vals []) = length (nth 0 itpl_vals [])).
  { rewrite Forall_forall in Hshape. apply Hshape. apply list_elem_of_In, nth_In. lia. }
  rewrite <- Hlk.
  assert (Hvs : length (vec_scale c (nth k itpl_vals [])) = length (nth k itpl_vals []))
    by apply length_map.
  rewrite <- Hvs at 1. rewrite (vec_add_zeros HL HO).
  unfold vec_scale. now rewrite map_map.
Qed.



End NodeFacts.

(** *** The value at a node in float64 *)

Module Binary64Facts.
Import PrimFloat Binary64.
#[local] Open Scope float_scope.
#[local] Set Warnings "-inexact-float".


End Binary64Facts.

(** ** The Gaussian rationals satisfy the laws *)

Module GaussFacts.
Import Gauss.
#[local] Open Scope Qc_scope.

Lemma qltb_lt (a b : Qc) : qltb a b = true <-> (a < b)%Q.
Proof.
  unfold qltb. rewrite negb_true_iff. split.
  - intros H. apply Qnot_le_lt. intros Hle. apply Qle_bool_iff in Hle. congruence.
  - intros H. destruct (Qle_bool b a) eqn:E; [|reflexivity].
    apply Qle_bool_iff in E. exfalso. eapply Qlt_not_le; eauto.
Qed.

Lemma qltb_ge (a b : Qc) : qltb a b = false <-> (b <= a)%Q.
Proof.
  unfold qltb. rewrite negb_false_iff. apply Qle_bool_iff.
Qed.

#[export] Instance gauss_order : OrderLaws gauss_scalar.
Proof.
  split; cbn.
  - intros a b c H1 H2. apply qltb_lt in H1, H2. apply qltb_lt. eapply Qlt_trans; eauto.
  - intros a b H. apply qltb_lt in H. apply qltb_ge. now apply Qlt_le_weak.
  - intros a b c H1 H2. apply qltb_ge in H1. apply qltb_lt in H2. apply qltb_lt.
    eapply Qle_lt_trans; eauto.
Qed.

Lemma gauss_eq (x y : gauss) : re x = re y -> im x = im y -> x = y.
Proof. destruct x, y; cbn; intros -> ->; reflexivity. Qed.

Lemma Qc_eq_bool_refl (a : Qc) : Qc_eq_bool a a = true.
Proof. unfold Qc_eq_bool. destruct (Qcanon.Qc_eq_dec a a); [reflexivity|contradiction]. Qed.

Lemma Qc_eq_bool_eq (a b : Qc) : Qc_eq_bool a b = true <-> a = b.
Proof.
  split; [apply Qc_eq_bool_correct|]. intros ->. apply Qc_eq_bool_refl.
Qed.

Lemma Qc_sub_0 (a b : Qc) : a - b = 0 -> a = b.
Proof. intros H. replace a with ((a - b) + b) by ring. rewrite H. ring. Qed.

Lemma Qc_square_nonneg (a : Qc) : 0 <= a * a.
Proof.
  unfold Qcle.
  assert (E : (this (a * a) == this a * this a)%Q) by (exact (Qred_correct (this a * this a))).
  rewrite E. change (this 0) with 0%Q. generalize (this a). intros q. nra.
Qed.

Lemma Qc_square_pos (a : Qc) : a <> 0 -> 0 < a * a.
Proof.
  intros Ha. destruct (Qcle_lt_or_eq _ _ (Qc_square_nonneg a)) as [H|H]; [exact H|].
  exfalso. symmetry in H. apply Qcmult_integral in H. tauto.
Qed.

Lemma gnorm2_pos (x : gauss) : x <> gzero -> 0 < gnorm2 x.
Proof.
  intros Hx. unfold gnorm2.
  destruct (Qcanon.Qc_eq_dec (re x) 0) as [Hr|Hr].
  - destruct (Qcanon.Qc_eq_dec (im x) 0) as [Hi|Hi].
    + exfalso. apply Hx. apply gauss_eq; assumption.
    + rewrite Hr. replace (0 * 0 + im x * im x) with (im x * im x) by ring.
      now apply Qc_square_pos.
  - apply Qclt_le_trans with (re x * re x); [now apply Qc_square_pos|].
    replace (re x * re x) with (re x * re x + 0) at 1 by ring.
    apply Qcplus_le_compat; [apply Qcle_refl|apply Qc_square_nonneg].
Qed.

Lemma gnorm2_nonzero (x : gauss) : x <> gzero -> gnorm2 x <> 0.
Proof.
  intros Hx E. pose proof (gnorm2_pos x Hx) as H. rewrite E in H.
  exact (Qclt_not_eq _ _ H eq_refl).
Qed.

(** In the Gaussian rationals a quotient undoes a product. *)
Lemma gdiv_mul_cancel (c x : gauss) : c <> gzero -> gdiv (gmul c x) c = x.
Proof.
  intros Hc. pose proof (gnorm2_nonzero c Hc) as Hn. unfold gnorm2 in Hn.
  apply gauss_eq; cbn; unfold gnorm2; field; exact Hn.
Qed.

#[export] Instance gauss_laws : ScalarLaws gauss_scalar.
Proof.
  split; cbn.
  - intros x y. unfold geqb. rewrite andb_true_iff, !Qc_eq_bool_eq. split.
    + intros [? ?]. now apply gauss_eq.
    + intros ->. auto.
  - intros x. apply gauss_eq; cbn; ring.
  - intros x y H. apply gauss_eq; apply Qc_sub_0.
    + exact (f_equal re H).
    + exact (f_equal im H).
  - intros x. apply gauss_eq; cbn; ring.
  - intros x. apply gauss_eq; cbn; ring.
  - intros x. apply gauss_eq; cbn; ring.
  - intros x. apply gauss_eq; cbn; ring.
Qed.

(** Every Gaussian rational is finite. *)
Definition gfinite (x : gauss) : Prop := True.

#[export] Instance gauss_finite : FiniteLaws gauss_scalar gfinite.
Proof.
  split; cbn.
  - exact I.
  - exact I.
  - intros x _. apply gauss_eq; cbn; ring.
  - intros x _. apply gauss_eq; cbn; ring.
  - intros x _. apply gauss_eq; cbn; ring.
  - intros x y _ _ Hxy. apply qltb_lt. change (gnorm2 gzero < gnorm2 (gsub x y)).
    replace (gnorm2 gzero) with (0 : Qc) by (unfold gnorm2; cbn; ring).
    apply gnorm2_pos. intros E. apply Hxy. apply gauss_eq; apply Qc_sub_0.
    + exact (f_equal re E).
    + exact (f_equal im E).
Qed.

End GaussFacts.

(** ** The complex-conjugate augmentation *)

Section ConjugateFacts.
Context `{Sc : Scalar} (HL : ScalarLaws Sc).
#[local] Set Default Proof Using "Type HL".

(** The entries [(i, s)] of [enumerate(svs[0])] whose conjugate is not in
    [svs[0]]. *)
Definition lacking (v0 : list F) (l : list (nat * F)) : list (nat * F) :=
  List.filter (fun ix => negb (existsb (feqb (fconj (snd ix))) v0)) l.

Lemma conj_lists_ok (v0 : list F) (a : ndarray) (n : nat) (tl : list nat) (l : list (nat * F)) :
  shape a = n :: tl ->
  (forall ix, In ix l -> fst ix < n) ->
  conj_lists v0 a l
  = Ok (map (fun ix => fconj (snd ix)) (lacking v0 l),
        map (fun ix => conj_array
                         (mk_ndarray (1 :: tl)
                            (take (fold_right Nat.mul 1 tl)
                                  (drop (fst ix * fold_right Nat.mul 1 tl) (data a)))))
            (lacking v0 l)).
Proof.
  intros Hs. induction l as [|[i x] l IH]; intros Hl; [reflexivity|].
  cbn [conj_lists lacking List.filter snd fst].
  rewrite IH by (intros ix Hix; apply Hl; now right).
  destruct (existsb (feqb (fconj x)) v0); cbn [negb]; [reflexivity|].
  unfold row_slice. rewrite Hs.
  destruct (Nat.ltb_spec i n) as [_|Hge]; [reflexivity|].
  specialize (Hl (i, x) ltac:(now left)). cbn in Hl. lia.
Qed.

Lemma in_enumerate {A : Type} (l : list A) (x : A) :
  In x l -> exists i, In (i, x) (enumerate l).
Proof.
  unfold enumerate. generalize 0. induction l as [|y l IH]; intros a; [intros []|].
  cbn. intros [->|H].
  - exists a. now left.
  - destruct (IH (S a) H) as [i Hi]. exists i. now right.
Qed.

Lemma enumerate_bound {A : Type} (l : list A) (ix : nat * A) :
  In ix (enumerate l) -> fst ix < length l /\ In (snd ix) l.
Proof.
  unfold enumerate.
  assert (G : forall a, In ix (zip (seq a (length l)) l) ->
                        fst ix < a + length l /\ In (snd ix) l).
  { induction l as [|y l IH]; intros a; [intros []|].
    cbn. intros [<-|H]; cbn; [split; [lia|now left]|].
    destruct (IH (S a) H). split; [lia|now right]. }
  apply G.
Qed.

(** The grid with the conjugates of the lacking locations appended is
    closed under conjugation. *)
Lemma augmented_grid_closed (v0 : list F) (x : F) :
  In x (v0 ++ map (fun ix => fconj (snd ix)) (lacking v0 (enumerate v0))) ->
  In (fconj x) (v0 ++ map (fun ix => fconj (snd ix)) (lacking v0 (enumerate v0))).
Proof.
  intros H. apply in_app_or in H. destruct H as [H|H].
  - destruct (existsb (feqb (fconj x)) v0) eqn:E.
    + apply existsb_exists in E. destruct E as (y & Hy & E).
      apply feqb_eq in E. apply in_or_app. left. now rewrite E.
    + apply in_or_app. right. destruct (in_enumerate _ _ H) as [i Hi].
      apply in_map_iff. exists (i, x). split; [reflexivity|].
      apply filter_In. split; [exact Hi|]. cbn. now rewrite E.
  - apply in_map_iff in H. destruct H as ([i y] & <- & Hy). cbn.
    rewrite fconj_invol. apply in_or_app. left.
    apply filter_In in Hy. destruct Hy as [Hy _].
    apply (enumerate_bound v0 (i, y) Hy).
Qed.

Lemma vstack_rows (a : ndarray) (n t : nat) (tl : list nat) (rows : list ndarray) :
  shape a = n :: t :: tl ->
  Forall (fun r => shape r = 1 :: t :: tl) rows ->
  vstack (a :: rows)
  = Ok (mk_ndarray ((n + length rows) :: t :: tl) (data a ++ concat (map data rows))).
Proof.
  intros Ha Hr. unfold vstack. cbn [map].
  assert (E1 : atleast_2d a = a) by (unfold atleast_2d; now rewrite Ha).
  assert (E2 : map atleast_2d rows = rows).
  { induction Hr as [|r rows Hr _ IH]; [reflexivity|]. cbn. rewrite IH. f_equal.
    unfold atleast_2d. now rewrite Hr. }
  rewrite E1, E2.
  assert (E3 : forallb (fun b => bool_decide (tail (shape b) = tail (shape a))) rows = true).
  { apply forallb_forall. intros r Hin. rewrite Forall_forall in Hr.
    apply list_elem_of_In in Hin. rewrite (Hr r Hin), Ha. cbn. now apply bool_decide_eq_true. }
  rewrite E3. f_equal. f_equal.
  cbn [map fold_right]. rewrite Ha. cbn [hd tail]. f_equal. f_equal.
  clear E2 E3. induction Hr as [|r rows Hr _ IH]; cbn; [reflexivity|].
  rewrite Hr. cbn. f_equal. exact IH.
Qed.

(** C6 (for sample tensors with at least two axes). For a tensor of samples
    with at least two axes whose first axis covers the sampling values of
    variable 0, the augmentation succeeds: the copy
    of the grid of variable 0 becomes the old grid followed by the
    conjugates of the locations lacking their conjugate, in the order of
    the locations; it is closed under conjugation; and the samples are
    followed by the conjugated slices of those locations. *)
Theorem conjugate_augmentation (sv_items : list loc) (svs_loc : loc) (smp0 : ndarray)
    (s : store) (l0 : loc) (v0 : list F) (n t : nat) (tl : list nat) :
  sv_items !! 0 = Some l0 ->
  s !! l0 = Some (OVec v0) ->
  s !! svs_loc = Some (OList sv_items) ->
  shape smp0 = n :: t :: tl ->
  length v0 <= n ->
  let lack := lacking v0 (enumerate v0) in
  let grid := v0 ++ map (fun ix => fconj (snd ix)) lack in
  let T := fold_right Nat.mul 1 (t :: tl) in
  exists smp1 s' items' l0',
    add_conjugates sv_items svs_loc smp0 s = Done smp1 s' /\
    s' !! svs_loc = Some (OList items') /\
    items' !! 0 = Some l0' /\
    s' !! l0' = Some (OVec grid) /\
    (forall x, In x grid -> In (fconj x) grid) /\
    shape smp1 = (n + length lack) :: t :: tl /\
    data smp1
    = data smp0 ++ concat (map (fun ix => map fconj (take T (drop (fst ix * T) (data smp0)))) lack).
Proof.
  intros H0 Hl0 Hsv Hshape Hlen. cbv zeta.
  assert (Hclosed := augmented_grid_closed v0).
  unfold add_conjugates. rewrite H0.
  assert (E1 : read_vec l0 s = Done v0 s) by (unfold read_vec; now rewrite Hl0).
  rewrite (bind_Done _ _ _ _ _ E1).
  rewrite (conj_lists_ok v0 smp0 n (t :: tl) (enumerate v0) Hshape).
  2:{ intros ix Hix. apply enumerate_bound in Hix. lia. }
  rewrite (bind_Done _ _ _ _ _ (lift_Ok _ _)). cbn [fst snd].
  set (T := fold_right Nat.mul 1 (t :: tl)).
  remember (lacking v0 (enumerate v0)) as lack eqn:Elack.
  set (grid := v0 ++ map (fun ix => fconj (snd ix)) lack) in *.
  destruct lack as [|ix0 lack'].
  - cbn [map]. exists smp0, s, sv_items, l0.
    split; [reflexivity|]. split; [exact Hsv|]. split; [exact H0|].
    split; [unfold grid; cbn; now rewrite app_nil_r|].
    split; [exact Hclosed|]. split; [now rewrite Nat.add_0_r|].
    cbn. now rewrite app_nil_r.
  - clear Elack. set (lack := ix0 :: lack') in *.
    assert (Hne : exists y ys, map (fun ix => fconj (snd ix)) lack = y :: ys).
    { unfold lack. cbn. eauto. }
    destruct Hne as (y & ys & Ey). unfold grid. rewrite Ey. cbv beta iota.
    rewrite <- Ey. fold grid.
    assert (Hlt : svs_loc < length s) by (eapply lookup_lt_Some; eauto).
    assert (E2 : alloc (OVec grid) s = Done (length s) (s ++ [OVec grid])) by reflexivity.
    rewrite (bind_Done _ _ _ _ _ E2).
    set (s1 := s ++ [OVec grid]).
    set (s2 := <[svs_loc := OList (<[0 := length s]> sv_items)]> s1).
    assert (E3 : list_setitem svs_loc 0 (length s) s1 = Done tt s2).
    { unfold list_setitem, s1. rewrite lookup_app_l by assumption. rewrite Hsv.
      destruct sv_items as [|r0 rest]; [discriminate|]. reflexivity. }
    rewrite (bind_Done _ _ _ _ _ E3).
    set (rows := map _ lack).
    assert (Hrows : Forall (fun r => shape r = 1 :: t :: tl) rows).
    { unfold rows. apply Forall_forall. intros r Hr. apply list_elem_of_In in Hr.
      apply in_map_iff in Hr. destruct Hr as (ix & <- & _). reflexivity. }
    rewrite (vstack_rows smp0 n t tl rows Hshape Hrows).
    rewrite (bind_Done _ _ _ _ _ (lift_Ok _ _)).
    set (a := mk_ndarray _ _).
    assert (E4 : alloc (OTensor a) s2 = Done (length s2) (s2 ++ [OTensor a])) by reflexivity.
    rewrite (bind_Done _ _ _ _ _ E4).
    assert (Hl2 : length s2 = S (length s)).
    { unfold s2, s1. rewrite length_insert, length_app. simpl. lia. }
    exists a, (s2 ++ [OTensor a]), (<[0 := length s]> sv_items), (length s).
    split; [reflexivity|]. split; [|split; [|split; [|split; [exact Hclosed|split]]]].
    + rewrite lookup_app_l by lia. unfold s2.
      apply list_lookup_insert_eq. unfold s1. rewrite length_app. simpl. lia.
    + destruct sv_items; [discriminate|reflexivity].
    + rewrite lookup_app_l by lia. unfold s2.
      rewrite list_lookup_insert_ne by lia. unfold s1.
      rewrite lookup_app_r by lia. now rewrite Nat.sub_diag.
    + unfold a, rows. cbn. now rewrite length_map.
    + unfold a, rows. cbn. f_equal. f_equal. rewrite map_map. reflexivity.
Qed.

End ConjugateFacts.

(** ** [reduce] as a whole *)

Section ReduceFacts.
Context `{Sc : Scalar} (K : numerics).

Lemma lookup_repeat {A : Type} (x : A) (n k : nat) : k < n -> repeat x n !! k = Some x.
Proof.
  revert k. induction n as [|n IH]; intros k Hk; [lia|].
  destruct k; [reflexivity|]. cbn. apply IH. lia.
Qed.

Lemma mapM_alloc_empty (nv a : nat) (s : store) :
  mapM (fun _ : nat => alloc (OInts [])) (seq a nv) s
  = Done (seq (length s) nv) (s ++ repeat (OInts []) nv).
Proof.
  revert a s. induction nv as [|nv IH]; intros a s.
  - cbn. now rewrite app_nil_r.
  - cbn [seq mapM].
    rewrite (bind_Done _ _ s (s ++ [OInts []]) (length s)) by reflexivity.
    rewrite (bind_Done _ _ _ _ _ (IH (S a) (s ++ [OInts []]))).
    cbn. rewrite length_app. cbn. rewrite Nat.add_1_r, <- app_assoc. reflexivity.
Qed.

(** The partition [reduce] creates when it is given none: an outer list of
    fresh, pairwise distinct, empty lists. *)
Lemma init_itpl_part_none (nv : nat) (s : store) :
  exists p refs s',
    init_itpl_part None nv s = Done p s' /\ wf_part s' p refs (repeat [] nv).
Proof.
  exists (length s + nv), (seq (length s) nv),
         ((s ++ repeat (OInts []) nv) ++ [OList (seq (length s) nv)]).
  split.
  - unfold init_itpl_part. rewrite (bind_Done _ _ _ _ _ (mapM_alloc_empty nv 0 s)).
    unfold alloc. rewrite length_app, repeat_length. reflexivity.
  - split; [|split].
    + rewrite lookup_app_r by (rewrite length_app, repeat_length; lia).
      rewrite length_app, repeat_length, Nat.sub_diag. reflexivity.
    + apply NoDup_seq.
    + apply Forall2_same_length_lookup_2.
      * now rewrite length_seq, repeat_length.
      * intros i r part Hr Hp. apply lookup_seq in Hr. destruct Hr as [-> Hi].
        rewrite (lookup_repeat _ _ _ Hi) in Hp. injection Hp as <-.
        rewrite lookup_app_l by (rewrite length_app, repeat_length; lia).
        rewrite lookup_app_r by lia.
        replace (length s + i - length s) with i by lia.
        now apply lookup_repeat.
Qed.

(** What [reduce] has set up when it starts from no partition. *)
Lemma reduce_init_none self tol max_itpl s pr s' :
  reduce_init K self tol None max_itpl s = Done pr s' ->
  length (e_max_itpl (p_env pr)) = length (e_svs (p_env pr)) /\
  exists refs,
    wf_part s' (l_itpl_part (p_locals pr)) refs (repeat [] (length (e_svs (p_env pr)))).
Proof.
  unfold reduce_init. intros H.
  apply bind_inv_Done in H. destruct H as (sv_items & s1 & _ & H).
  apply bind_inv_Done in H. destruct H as (svs_loc & s2 & _ & H).
  apply bind_inv_Done in H. destruct H as (smp0 & s3 & _ & H).
  apply bind_inv_Done in H. destruct H as (u & s4 & _ & H).
  apply bind_inv_Done in H. destruct H as (smp1 & s5 & _ & H).
  apply bind_inv_Done in H. destruct H as (sv_items' & s6 & _ & H).
  apply bind_inv_Done in H. destruct H as (svs & s7 & _ & H).
  apply bind_inv_Done in H. destruct H as (max_samples & s8 & _ & H).
  apply bind_inv_Done in H. destruct H as (tr & s9 & _ & H).
  apply bind_inv_Done in H. destruct H as (p & s10 & Ep & H).
  destruct (init_itpl_part_none (length svs) s9) as (p' & refs & s'' & E & W).
  rewrite E in Ep. injection Ep as <- <-.
  destruct (Nat.eqb_spec (length match max_itpl with
                                 | Some mi => mi
                                 | None => map (fun sv : list F => (Z.of_nat (length sv) - 1)%Z) svs
                                 end) (length svs)) as [Hl|Hl]; cbn [negb] in H; [|discriminate].
  injection H as <- <-. cbn. split; [exact Hl|]. exists refs. exact W.
Qed.

Lemma room_sum_empty (mx : list Z) :
  room_sum (repeat [] (length mx)) mx = fold_right Nat.add 0 (map Z.to_nat mx).
Proof.
  unfold room_sum. induction mx as [|m mx IH]; [reflexivity|].
  cbn. rewrite IH. f_equal. f_equal. lia.
Qed.

(** Termination of [reduce]. When [reduce] is called without a partition,
    on samples whose shape is that of the grid and with a threshold
    [tol * max|samples|] that is not negative, the call ends, with a
    reduced model or an exception, and its loop makes at most as many
    passes as the caps [max_itpl] add up to, plus the pass that finds the
    caps reached. *)
Theorem reduce_terminates (self : reductor) (tol : M) (max_itpl : option (list Z))
    (s s1 : store) (pr : prepared) (fuel : nat) :
  reduce_init K self tol None max_itpl s = Done pr s1 ->
  shape (e_samples (p_env pr)) = map length (e_svs (p_env pr)) ->
  mleb mzero (e_rel_tol (p_env pr)) = true ->
  fold_right Nat.add 0 (map Z.to_nat (e_max_itpl (p_env pr))) < fuel ->
  exists out, reduce K fuel self tol None max_itpl s = Some out.
Proof.
  intros Hinit Hshape Htol Hfuel.
  destruct (reduce_init_none _ _ _ _ _ _ Hinit) as (Hl & refs & W).
  assert (R : loop_ready (p_env pr) (repeat [] (length (e_svs (p_env pr))))).
  { split; [exact Hshape|]. split; [apply repeat_length|exact Htol]. }
  destruct (reduce_loop_terminates K self (p_env pr) fuel (p_locals pr) s1 refs _ W R)
    as [out Hout].
  { rewrite <- Hl, room_sum_empty. exact Hfuel. }
  unfold reduce. rewrite Hinit, Hout.
  destruct out as [[r l] s2|e s2]; [|eauto].
  destruct (reduce_final pr l s2); eauto.
Qed.

(** An exit in the first pass. When the first pass of the loop is not
    entered (no partition has room) or ends at the stopping criterion
    (the mean of the samples is within the threshold), no barycentric form
    has been bound, and the statements after the loop raise
    [UnboundLocalError]. *)
Theorem first_pass_exit_unbound (self : reductor) (tol : M) (itpl_part : option loc)
    (max_itpl : option (list Z)) (s s1 : store) (pr : prepared) (parts : list (list nat))
    (fuel : nat) :
  reduce_init K self tol itpl_part max_itpl s = Done pr s1 ->
  read_parts (l_itpl_part (p_locals pr)) s1 = Done parts s1 ->
  (any_room parts (e_max_itpl (p_env pr)) = false
   \/ exists err,
        np_max (masked_err K (p_env pr) (l_bary (p_locals pr)) parts) = Ok err /\
        mleb err (e_rel_tol (p_env pr)) = true) ->
  reduce K (S fuel) self tol itpl_part max_itpl s = Some (Fail UnboundLocalError s1).
Proof.
  intros Hinit Hr Hexit.
  destruct (reduce_init_inv K _ _ _ _ _ _ _ Hinit) as (Hform & _ & _).
  assert (Hiter : exists r l,
             reduce_iter K self (p_env pr) (p_locals pr) s1 = Done (Exit r l) s1 /\
             l_form l = None /\ l_itpl_part l = l_itpl_part (p_locals pr)).
  { unfold reduce_iter. rewrite (bind_Done _ _ _ _ _ Hr).
    destruct (any_room parts (e_max_itpl (p_env pr))) eqn:Eroom; cbn [negb].
    - destruct Hexit as [|(err & Herr & Htol)]; [discriminate|].
      rewrite Herr, (bind_Done _ _ _ _ _ (lift_Ok _ _)), Htol.
      eexists _, _. split; [reflexivity|]. split; [exact Hform|reflexivity].
    - eexists _, _. split; [reflexivity|]. split; [exact Hform|reflexivity]. }
  destruct Hiter as (r & l & Hiter & Hf & Hp).
  unfold reduce. rewrite Hinit. cbn [reduce_loop]. rewrite Hiter.
  unfold reduce_final. rewrite Hp.
  destruct (negb (p_dim_input pr =? 1) || negb (p_dim_output pr =? 1)).
  - erewrite (bind_Done _ _ s1 s1);
      [|rewrite (bind_Done _ _ _ _ _ Hr); reflexivity].
    rewrite Hf. reflexivity.
  - rewrite (bind_Done _ _ s1 s1 None) by reflexivity. rewrite Hf. reflexivity.
Qed.

End ReduceFacts.

(** ** The least-squares partition and exhausted variables *)

Section LeastSquaresFacts.
Context `{Sc : Scalar}.

(** [_ls_part] gives, for every variable, the indices of its sampling
    values that are not in its interpolation partition. *)
Lemma np_delete_arange_spec (n : nat) (p : list nat) (k : nat) :
  In k (np_delete_arange n p) <-> k < n /\ ~ In k p.
Proof.
  unfold np_delete_arange. rewrite filter_In, in_seq, negb_true_iff. split.
  - intros [[_ Hk] He]. split; [lia|]. intros Hin.
    assert (E : existsb (Nat.eqb k) p = true)
      by (apply existsb_exists; exists k; split; [assumption|apply Nat.eqb_refl]).
    congruence.
  - intros [Hk Hn]. split; [lia|].
    destruct (existsb (Nat.eqb k) p) eqn:E; [|reflexivity].
    apply existsb_exists in E. destruct E as (x & Hx & E).
    apply Nat.eqb_eq in E. subst. contradiction.
Qed.

Lemma product_empty_pool {A : Type} (pools : list (list A)) :
  In [] pools -> product pools = [].
Proof.
  induction pools as [|pool pools IH] using rev_ind; [intros []|].
  intros H. rewrite product_snoc. apply in_app_or in H. destruct H as [H|[->|[]]].
  - now rewrite (IH H).
  - unfold product_step. clear IH. generalize (product pools). intros l.
    induction l as [|x l IHl]; [reflexivity|exact IHl].
Qed.

Lemma product_in_nth {A : Type} (d : A) (pools : list (list A)) :
  forall x, In x (product pools) ->
  forall i, i < length pools -> In (nth i x d) (nth i pools []).
Proof.
  induction pools as [|pool pools IH] using rev_ind; intros x Hx i Hi; [simpl in Hi; lia|].
  rewrite product_snoc in Hx. unfold product_step in Hx.
  apply in_flat_map in Hx. destruct Hx as (y & Hy & Hx).
  apply in_map_iff in Hx. destruct Hx as (a & <- & Ha).
  pose proof (product_length_in _ _ Hy) as Hl.
  rewrite length_app in Hi. simpl in Hi.
  destruct (Nat.eq_dec i (length pools)) as [->|Hne].
  - rewrite app_nth2 by lia. rewrite app_nth2 by lia.
    rewrite Hl, Nat.sub_diag. exact Ha.
  - rewrite !app_nth1 by lia. apply IH; [exact Hy|lia].
Qed.

(** When the interpolation partition of some variable holds every index of
    its sampling values, no least-squares index is left for it, the
    reshape of the empty selection fails, and both Loewner matrices raise
    [ValueError]. *)
Theorem exhausted_variable_raises (samples : ndarray) (svs : list (list F))
    (itpl_part : list (list nat)) (i : nat) (sv : list F) (part : list nat) :
  svs !! i = Some sv ->
  itpl_part !! i = Some part ->
  (forall k, k < length sv -> In k part) ->
  nd_loewner samples svs itpl_part = Raise ValueError
  /\ full_nd_loewner samples svs itpl_part = Raise ValueError.
Proof.
  intros Hsv Hpart Hall.
  assert (Hnil : np_delete_arange (length sv) part = []).
  { destruct (np_delete_arange (length sv) part) as [|k l] eqn:E; [reflexivity|].
    assert (Hk : In k (np_delete_arange (length sv) part)) by (rewrite E; now left).
    apply np_delete_arange_spec in Hk. destruct Hk as [Hk Hn]. now apply Hall in Hk. }
  assert (Hin : In [] (_ls_part itpl_part svs)).
  { apply list_elem_of_In. apply (list_elem_of_lookup_2 _ i).
    unfold _ls_part. rewrite lookup_zip_with, Hpart. cbn. rewrite Hsv. cbn. now rewrite Hnil. }
  assert (E : nd_loewner samples svs itpl_part = Raise ValueError).
  { unfold nd_loewner, select. rewrite (product_empty_pool _ Hin). cbn [map length Nat.eqb].
    now rewrite orb_true_r. }
  split; [exact E|]. unfold full_nd_loewner. now rewrite E.
Qed.

End LeastSquaresFacts.

Section DenominatorFacts.
Context `{Sc : Scalar} (HL : ScalarLaws Sc).
#[local] Set Default Proof Using "Type HL".


End DenominatorFacts.

(** ** Non-parametric data *)

Section SingleVariableFacts.
Context `{Sc : Scalar}.

Lemma product_single {A : Type} (pool : list A) : product [pool] = map (fun y => [y]) pool.
Proof. unfold product, product_step. cbn. now rewrite app_nil_r. Qed.

(** For data in one variable, [full_nd_loewner] is the classical Loewner
    matrix: one row per sample index outside the partition, in ascending
    order, one column per index of the partition, in the order of the
    partition, with the divided differences of the samples as entries. *)
Theorem loewner_single_variable (samples : ndarray) (sv : list F) (part : list nat) :
  length (shape samples) = 1 ->
  part <> [] ->
  np_delete_arange (length sv) part <> [] ->
  full_nd_loewner samples [sv] [part]
  = Ok (map (fun r => map (fun c => fdiv (fsub (tget samples [r]) (tget samples [c]))
                                         (fsub (nth r sv fzero) (nth c sv fzero))) part)
            (np_delete_arange (length sv) part)).
Proof.
  intros Hd Hp Hl.
  assert (E : nd_loewner samples [sv] [part]
              = Ok (map (fun r => map (fun c => fdiv (fsub (tget samples [r]) (tget samples [c]))
                                                     (fsub (nth r sv fzero) (nth c sv fzero))) part)
                        (np_delete_arange (length sv) part))).
  { unfold nd_loewner. rewrite Hd. cbn [Nat.sub seq fold_left].
    unfold _ls_part. cbn [zip_with]. unfold select.
    rewrite !product_single, !map_map, !length_map.
    destruct part as [|c0 part]; [contradiction|].
    destruct (np_delete_arange (length sv) (c0 :: part)) as [|r0 ls]; [contradiction|].
    cbn [length Nat.eqb orb]. f_equal.
    unfold loc_diff, outer_sub, take_idx, mat_div. cbn [nth].
    rewrite !map_map, zip_with_map_same. apply map_ext. intros r.
    rewrite !map_map, zip_with_map_same. reflexivity. }
  unfold full_nd_loewner. rewrite E. reflexivity.
Qed.

Lemma NoDup_list_filter {A : Type} (f : A -> bool) (l : list A) :
  NoDup l -> NoDup (List.filter f l).
Proof.
  induction 1 as [|x l Hx Hnd IH]; cbn; [constructor|].
  destruct (f x); [|exact IH]. constructor; [|exact IH].
  intros Hin. apply Hx. apply list_elem_of_In in Hin. apply filter_In in Hin.
  apply list_elem_of_In. tauto.
Qed.

(** [_ls_part]: the least-squares indices of a variable are the sample
    indices that are not interpolation indices, each once, and the two
    index sets together count the samples. *)
Theorem ls_part_complement (itpl_part : list (list nat)) (svs : list (list F)) (i : nat)
    (sv : list F) (part : list nat) :
  svs !! i = Some sv ->
  itpl_part !! i = Some part ->
  Forall (fun k => k < length sv) part ->
  exists ls,
    _ls_part itpl_part svs !! i = Some ls /\
    (forall k, In k ls <-> k < length sv /\ ~ In k part) /\
    NoDup ls /\
    (NoDup part -> length ls + length part = length sv).
Proof.
  intros Hsv Hpart Hrange. exists (np_delete_arange (length sv) part).
  split; [|split; [|split]].
  - unfold _ls_part. rewrite lookup_zip_with, Hpart. cbn. now rewrite Hsv.
  - intros k. apply np_delete_arange_spec.
  - unfold np_delete_arange. apply NoDup_list_filter, NoDup_seq.
  - intros Hnd. unfold np_delete_arange.
    set (f := fun k => existsb (Nat.eqb k) part).
    assert (Hsplit : forall l : list nat,
              length (List.filter (fun k => negb (f k)) l) + length (List.filter f l) = length l).
    { induction l as [|x l IH]; [reflexivity|]. cbn. destruct (f x); cbn; lia. }
    assert (Hperm : List.filter f (seq 0 (length sv)) ≡ₚ part).
    { apply NoDup_Permutation; [apply NoDup_list_filter, NoDup_seq|exact Hnd|].
      intros k. rewrite !list_elem_of_In, filter_In, in_seq. unfold f. split.
      - intros [_ E]. apply existsb_exists in E. destruct E as (x & Hx & E).
        apply Nat.eqb_eq in E. now subst.
      - intros Hk. split.
        + rewrite Forall_forall in Hrange. apply list_elem_of_In in Hk.
          specialize (Hrange k Hk). lia.
        + apply existsb_exists. exists k. split; [exact Hk|apply Nat.eqb_refl]. }
    pose proof (Hsplit (seq 0 (length sv))) as Hs. rewrite length_seq in Hs.
    rewrite (Permutation_length Hperm) in Hs. exact Hs.
Qed.

End SingleVariableFacts.

(** ** Vectors of samples and the conjugate augmentation *)

Section VectorSamplesFacts.
Context `{Sc : Scalar} (HL : ScalarLaws Sc).
#[local] Set Default Proof Using "Type HL".

Lemma conj_lists_closed (v0 : list F) (a : ndarray) (l : list (nat * F)) :
  (forall ix, In ix l -> existsb (feqb (fconj (snd ix))) v0 = true) ->
  conj_lists v0 a l = Ok ([], []).
Proof.
  induction l as [|[i x] l IH]; intros H; [reflexivity|].
  cbn [conj_lists]. pose proof (H (i, x) ltac:(now left)) as Hx. cbn [snd] in Hx. rewrite Hx.
  apply IH. intros ix Hix. apply H. now right.
Qed.

Lemma lacking_nonempty (v0 : list F) :
  forallb (fun x => existsb (feqb (fconj x)) v0) v0 = false ->
  lacking v0 (enumerate v0) <> [].
Proof.
  intros Hc E.
  assert (Hall : forallb (fun x => existsb (feqb (fconj x)) v0) v0 = true).
  { apply forallb_forall. intros x Hx.
    destruct (existsb (feqb (fconj x)) v0) eqn:Ex; [reflexivity|].
    destruct (in_enumerate HL v0 x Hx) as [i Hi].
    assert (Hin : In (i, x) (lacking v0 (enumerate v0))).
    { apply filter_In. split; [exact Hi|]. cbn. now rewrite Ex. }
    rewrite E in Hin. destruct Hin. }
  congruence.
Qed.

(** For a vector of at least two samples (data of a model with one input
    and one output in one variable), the augmentation does nothing when
    the sampling values are closed under conjugation, and raises
    [ValueError] otherwise: each conjugated slice has shape (1,), and
    [np.vstack] cannot stack it under the vector. *)
Theorem vector_samples_augmentation (sv_items : list loc) (svs_loc : loc) (smp0 : ndarray)
    (s : store) (l0 : loc) (v0 : list F) (n : nat) :
  sv_items !! 0 = Some l0 ->
  s !! l0 = Some (OVec v0) ->
  s !! svs_loc = Some (OList sv_items) ->
  shape smp0 = [n] ->
  length v0 = n ->
  2 <= n ->
  if forallb (fun x => existsb (feqb (fconj x)) v0) v0
  then add_conjugates sv_items svs_loc smp0 s = Done smp0 s
  else exists s', add_conjugates sv_items svs_loc smp0 s = Fail ValueError s'.
Proof.
  intros H0 Hl0 Hsv Hshape Hlen Hn.
  assert (E1 : read_vec l0 s = Done v0 s) by (unfold read_vec; now rewrite Hl0).
  destruct (forallb (fun x => existsb (feqb (fconj x)) v0) v0) eqn:Hc.
  - unfold add_conjugates. rewrite H0, (bind_Done _ _ _ _ _ E1).
    rewrite conj_lists_closed.
    + rewrite (bind_Done _ _ _ _ _ (lift_Ok _ _)). reflexivity.
    + intros ix Hix. apply (enumerate_bound HL) in Hix. destruct Hix as [_ Hin].
      rewrite forallb_forall in Hc. now apply Hc.
  - pose proof (lacking_nonempty v0 Hc) as Hne.
    unfold add_conjugates. rewrite H0, (bind_Done _ _ _ _ _ E1).
    rewrite (conj_lists_ok HL v0 smp0 n [] (enumerate v0) Hshape).
    2:{ intros ix Hix. apply (enumerate_bound HL) in Hix. lia. }
    rewrite (bind_Done _ _ _ _ _ (lift_Ok _ _)). cbn [fst snd].
    destruct (lacking v0 (enumerate v0)) as [|ix0 lack]; [contradiction|].
    cbn [map].
    set (grid := v0 ++ _).
    assert (Hlt : svs_loc < length s) by (eapply lookup_lt_Some; eauto).
    assert (E2 : alloc (OVec grid) s = Done (length s) (s ++ [OVec grid])) by reflexivity.
    rewrite (bind_Done _ _ _ _ _ E2).
    set (s2 := <[svs_loc := OList (<[0 := length s]> sv_items)]> (s ++ [OVec grid])).
    assert (E3 : list_setitem svs_loc 0 (length s) (s ++ [OVec grid]) = Done tt s2).
    { unfold list_setitem. rewrite lookup_app_l by assumption. rewrite Hsv.
      destruct sv_items as [|r0 rest]; [discriminate|]. reflexivity. }
    rewrite (bind_Done _ _ _ _ _ E3).
    exists s2.
    assert (Ev : forall rows r, shape r = [1] -> vstack (smp0 :: r :: rows) = Raise ValueError).
    { intros rows r Hr.
      assert (Ea : atleast_2d smp0 = mk_ndarray [1; n] (data smp0))
        by (unfold atleast_2d; now rewrite Hshape).
      assert (Er : atleast_2d r = mk_ndarray [1; 1] (data r))
        by (unfold atleast_2d; now rewrite Hr).
      unfold vstack. cbn [map]. rewrite Ea, Er. cbn [forallb shape tail].
      destruct (bool_decide_reflect ([1] = [n])) as [E|_]; [|reflexivity].
      injection E as E. lia. }
    rewrite Ev by reflexivity.
    apply (bind_Fail _ _ _ _ _ (lift_Raise _ _)).
Qed.

End VectorSamplesFacts.

(** ** A successful post-processing *)

Section TruncationFacts.
Context `{Sc : Scalar} (K : numerics).

(** Every object the store held is what it was, except the object [p];
    objects may have been added. *)
Definition outer_only (p : loc) (s s' : store) : Prop :=
  length s <= length s' /\ forall l, l < length s -> l <> p -> s' !! l = s !! l.

Lemma outer_only_refl p s : outer_only p s s.
Proof. split; auto. Qed.

Lemma outer_only_trans p s1 s2 s3 :
  outer_only p s1 s2 -> outer_only p s2 s3 -> outer_only p s1 s3.
Proof.
  intros [L1 H1] [L2 H2]. split; [lia|].
  intros l Hl Hp. rewrite H2 by (auto; lia). now apply H1.
Qed.

Lemma truncate_step_outer p mr i s s' :
  truncate_step p mr i s = Done tt s' -> outer_only p s s'.
Proof.
  unfold truncate_step. intros H.
  apply bind_inv_Done in H. destruct H as (part & s1 & E1 & H).
  pose proof (pure_Done_store _ _ _ _ (pure_read_part _ _) E1) as ->.
  apply bind_inv_Done in H. destruct H as (q & s2 & E2 & H).
  unfold alloc in E2. injection E2 as <- <-.
  unfold list_setitem in H.
  destruct ((s ++ [OInts (slice_to part (nth i mr 0 + 1)%Z)]) !! p) as [[items| | |]|];
    try discriminate.
  destruct (i <? length items); [|discriminate]. injection H as <-.
  split.
  - rewrite length_insert, length_app. lia.
  - intros l Hl Hp. rewrite list_lookup_insert_ne by auto. now rewrite lookup_app_l.
Qed.

Lemma truncate_for_each_outer p mr (l : list nat) :
  forall s s', for_each l (truncate_step p mr) s = Done tt s' -> outer_only p s s'.
Proof.
  induction l as [|i l IH]; intros s s' H.
  - injection H as <-. apply outer_only_refl.
  - cbn [for_each] in H. apply bind_inv_Done in H. destruct H as ([] & s1 & E1 & H).
    eapply outer_only_trans; [eapply truncate_step_outer; eauto|eauto].
Qed.

Lemma slice_to_take (l : list nat) (stop : Z) : exists m, slice_to l stop = take m l.
Proof. unfold slice_to. destruct (0 <=? stop)%Z; eauto. Qed.

Lemma truncate_for_each_exact p mr n :
  forall a s refs parts,
  has_parts s p refs parts -> a + n <= length parts ->
  exists s' refs' parts',
    for_each (seq a n) (truncate_step p mr) s = Done tt s' /\
    has_parts s' p refs' parts' /\
    length parts' = length parts /\
    forall i part, parts !! i = Some part ->
      parts' !! i = Some (if (a <=? i) && (i <? a + n)
                          then slice_to part (nth i mr 0 + 1)%Z else part).
Proof.
  induction n as [|n IH]; intros a s refs parts H Hlen.
  - exists s, refs, parts. split; [reflexivity|]. split; [assumption|]. split; [reflexivity|].
    intros i part Hi. rewrite Hi. f_equal.
    destruct (Nat.leb_spec a i), (Nat.ltb_spec i (a + 0)); cbn [andb]; try reflexivity; lia.
  - cbn [seq for_each].
    destruct (lookup_lt_is_Some_2 parts a ltac:(lia)) as [part_a Ha].
    destruct (truncate_step_has s p refs parts mr a part_a H Ha) as (s1 & refs1 & E1 & H1 & _).
    rewrite (bind_Done _ _ _ _ _ E1).
    destruct (IH (S a) s1 refs1 _ H1 ltac:(rewrite length_insert; lia))
      as (s' & refs' & parts' & E & H' & Hl' & Hchar).
    exists s', refs', parts'. split; [exact E|]. split; [exact H'|].
    split; [now rewrite Hl', length_insert|].
    intros i part Hi. destruct (decide (i = a)) as [->|Hne].
    + assert (part = part_a) by congruence. subst part.
      rewrite (Hchar a (slice_to part_a (nth a mr 0 + 1)%Z))
        by (apply list_lookup_insert_eq; eapply lookup_lt_Some; eauto).
      f_equal.
      replace ((S a <=? a) && (a <? S a + n)) with false
        by (symmetry; apply andb_false_iff; left; apply Nat.leb_gt; lia).
      replace ((a <=? a) && (a <? a + S n)) with true
        by (symmetry; apply andb_true_iff; split; [apply Nat.leb_le|apply Nat.ltb_lt]; lia).
      reflexivity.
    + rewrite (Hchar i part) by (rewrite list_lookup_insert_ne by auto; exact Hi).
      f_equal.
      replace ((S a <=? i) && (i <? S a + n)) with ((a <=? i) && (i <? a + S n)); [reflexivity|].
      destruct (Nat.leb_spec (S a) i), (Nat.leb_spec a i),
        (Nat.ltb_spec i (S a + n)), (Nat.ltb_spec i (a + S n)); simpl; try reflexivity; lia.
Qed.

(** When [_post_processing] succeeds, it returns the partition object it
    was given; every slot of that outer list is bound to a prefix of the
    list it held; and no other object of the store has changed: the inner
    lists that were in the partition before keep all their entries. *)
Theorem post_processing_truncates (smp : ndarray) (svs : list (list F)) (p : loc) (d : Z)
    (tol : M) (s s' : store) (refs : list loc) (parts : list (list nat)) (c : list F) (q : loc) :
  has_parts s p refs parts ->
  length parts = length svs ->
  _post_processing K smp svs p d tol s = Done (Some (c, q)) s' ->
  q = p
  /\ outer_only p s s'
  /\ exists parts',
       read_parts p s' = Done parts' s' /\
       length parts' = length parts /\
       forall i part, parts !! i = Some part ->
         exists m, parts' !! i = Some (take m part).
Proof.
  intros H Hlen Hpp. unfold _post_processing in Hpp.
  rewrite (bind_Done _ _ _ _ _ (read_parts_has _ _ _ _ H)) in Hpp.
  destruct (max_rks_of K smp svs parts tol) as [max_rks|e] eqn:Emr;
    [|rewrite (bind_Fail _ _ _ _ _ (lift_Raise _ _)) in Hpp; discriminate].
  rewrite (bind_Done _ _ _ _ _ (lift_Ok _ _)) in Hpp.
  destruct (_ || _); [discriminate|].
  set (mr := <[_ := _]> max_rks) in Hpp.
  assert (Hmr : length mr = length parts).
  { unfold mr. rewrite length_insert. unfold max_rks_of in Emr.
    apply mapM_res_length in Emr. rewrite Emr, length_seq. lia. }
  destruct (truncate_for_each_exact p mr (length mr) 0 s refs parts H ltac:(lia))
    as (s1 & refs' & parts' & E & H' & Hl' & Hchar).
  pose proof (truncate_for_each_outer p mr _ _ _ E) as Hout.
  rewrite (bind_Done _ _ _ _ _ E) in Hpp.
  rewrite (bind_Done _ _ _ _ _ (read_parts_has _ _ _ _ H')) in Hpp.
  destruct (full_nd_loewner smp svs parts') as [L|e].
  - rewrite (bind_Done _ _ _ _ _ (lift_Ok _ _)) in Hpp. injection Hpp as <- <- <-.
    split; [reflexivity|]. split; [exact Hout|].
    exists parts'. split; [now apply read_parts_has with refs'|]. split; [exact Hl'|].
    intros i part Hi. rewrite (Hchar i part Hi).
    assert (Hi' : i < length parts) by (eapply lookup_lt_Some; eauto).
    replace ((0 <=? i) && (i <? 0 + length mr)) with true
      by (symmetry; apply andb_true_iff; split; [apply Nat.leb_le|apply Nat.ltb_lt]; lia).
    destruct (slice_to_take part (nth i mr 0 + 1)%Z) as [m ->]. eauto.
  - rewrite (bind_Fail _ _ _ _ _ (lift_Raise _ _)) in Hpp. discriminate.
Qed.

End TruncationFacts.

(** ** Interpolation by the reduced model *)

Section InterpolationFacts.
Context `{Sc : Scalar} (K : numerics) (HL : ScalarLaws Sc) (HO : OrderLaws Sc).
#[local] Set Default Proof Using "Type HL HO".

Lemma ravel_from_snoc (dims ks : list nat) (n b : nat) : forall a,
  length dims = length ks ->
  ravel_from a (dims ++ [n]) (ks ++ [b]) = ravel_from a dims ks * n + b.
Proof.
  revert ks. induction dims as [|m dims IH]; intros [|k ks] a Hl; simpl in Hl; try lia.
  - reflexivity.
  - cbn [app ravel_from]. apply IH. lia.
Qed.

Lemma product_length {A : Type} (pools : list (list A)) :
  length (product pools) = fold_right Nat.mul 1 (map length pools).
Proof.
  induction pools as [|pool pools IH] using rev_ind; [reflexivity|].
  rewrite product_snoc, product_step_length, IH, map_app. cbn [map].
  now rewrite fold_mul_snoc.
Qed.

(** The entry of [itertools.product] at the flat position of a tuple of
    positions is the tuple of the entries at these positions. *)
Lemma nth_product_ravel {A : Type} (d : A) (pools : list (list A)) :
  forall ks,
  Forall2 (fun k pool => k < length pool) ks pools ->
  ravel (map length pools) ks < length (product pools)
  /\ nth (ravel (map length pools) ks) (product pools) []
     = zip_with (fun k pool => nth k pool d) ks pools.
Proof.
  unfold ravel.
  induction pools as [|pool pools IH] using rev_ind; intros ks HF.
  - apply Forall2_nil_inv_r in HF. subst ks. cbn. split; [lia|reflexivity].
  - apply Forall2_app_inv_r in HF. destruct HF as (ks1 & ks2 & HF1 & HF2 & ->).
    apply Forall2_cons_inv_r in HF2. destruct HF2 as (b & ks3 & Hb & HF3 & ->).
    apply Forall2_nil_inv_r in HF3. subst ks3.
    destruct (IH ks1 HF1) as [Hlt Hnth].
    pose proof (Forall2_length _ _ _ HF1) as Hlen.
    rewrite map_app. cbn [map].
    rewrite ravel_from_snoc by (now rewrite length_map).
    rewrite product_snoc. rewrite product_step_length.
    set (a := ravel_from 0 (map length pools) ks1) in *.
    assert (Hn : length pool <> 0) by lia.
    split; [nia|].
    unfold product_step.
    rewrite (nth_flat_map_uniform _ (length pool) _ _ [] [])
      by (try (intros x; apply length_map); nia).
    replace ((a * length pool + b) / length pool) with a
      by (rewrite Nat.div_add_l by lia; rewrite Nat.div_small by lia; lia).
    replace ((a * length pool + b) mod length pool) with b
      by (rewrite Nat.add_comm, Nat.Div0.mod_add; symmetry; now apply Nat.mod_small).
    rewrite (nth_map_lt HL HO _ _ _ d) by assumption.
    rewrite Hnth. rewrite zip_with_app by assumption. reflexivity.
Qed.

Lemma NoDup_take_idx (sv : list F) (part : list nat) :
  NoDup sv -> NoDup part -> Forall (fun j => j < length sv) part -> NoDup (take_idx sv part).
Proof.
  intros Hsv Hp Hr. unfold take_idx.
  induction Hp as [|j part Hj Hp IH]; cbn; [constructor|].
  apply Forall_cons in Hr. destruct Hr as [Hjr Hr].
  constructor; [|now apply IH].
  intros Hin. apply Hj. apply list_elem_of_In in Hin. apply in_map_iff in Hin.
  destruct Hin as (j' & E & Hj'). apply list_elem_of_In in Hj'.
  assert (Hj'r : j' < length sv) by (rewrite Forall_forall in Hr; now apply Hr).
  destruct (Nat.eq_dec j' j) as [->|Hne]; [exact Hj'|].
  exfalso. now apply (NoDup_nth_ne HL HO sv j' j Hsv Hj'r Hjr Hne).
Qed.

End InterpolationFacts.

Section ModelFacts.
Context `{Sc : Scalar} (K : numerics) (HL : ScalarLaws Sc) (HO : OrderLaws Sc).
Context (finite : F -> Prop) (HF : FiniteLaws Sc finite).
#[local] Set Default Proof Using "Type HL HO HF".

(** The barycentric form that a pass builds from a partition returns, at
    every grid point of the partition, [(c * v) / c] for the sample [v]
    of that grid point and the coefficient [c] of its node combination. *)
Lemma form_at_grid_point (svs : list (list F)) (samples : ndarray) (parts : list (list nat))
    (coefs : list F) (tol : M) (ks : list nat) :
  let idx := zip_with (fun k part => nth k part 0) ks parts in
  let c := nth (ravel (map length parts) ks) coefs fzero in
  mltb (fabs fzero) tol = true ->
  Forall2 (fun part sv => NoDup part /\ Forall (fun j => j < length sv) part /\
                          NoDup sv /\ Forall finite sv)
          parts svs ->
  Forall finite (data samples) ->
  Forall2 (fun k part => k < length part) ks parts ->
  length coefs = length (product parts) ->
  Forall finite coefs ->
  make_bary_func (zip_with take_idx svs parts) (map (fun x => [x]) (select samples parts))
                 coefs tol (coords svs idx)
  = [fdiv (fmul c (tget samples idx)) c].
Proof.
  intros idx c Htol Hps Hsf Hks Hc Hcf.
  set (nodes := zip_with take_idx svs parts).
  assert (Hdims : map length nodes = map length parts).
  { unfold nodes. clear -Hps. induction Hps as [|part sv parts svs _ _ IH]; [reflexivity|].
    cbn. rewrite IH. f_equal. unfold take_idx. apply length_map. }
  assert (Hargs : coords svs idx = zip_with (fun k nds => nth k nds fzero) ks nodes).
  { unfold coords, idx, nodes. clear -Hps Hks HL HO. revert ks Hks.
    induction Hps as [|part sv parts svs _ _ IH]; intros [|k ks] Hks;
      try (apply Forall2_length in Hks; discriminate); [reflexivity|].
    apply Forall2_cons in Hks. destruct Hks as [Hk Hks].
    cbn. rewrite IH by assumption. f_equal.
    unfold take_idx. symmetry.
    exact (nth_map_lt HL HO (fun j => nth j sv fzero) part k 0 fzero Hk). }
  assert (HN : Forall2 (fun k nds => k < length nds /\ NoDup nds /\ Forall finite nds)
                       ks nodes).
  { unfold nodes. clear -Hps Hks HL HO HF. revert ks Hks.
    induction Hps as [|part sv parts svs (Hp & Hr & Hsv & Hfin) _ IH]; intros [|k ks] Hks;
      try (apply Forall2_length in Hks; discriminate); [constructor|].
    apply Forall2_cons in Hks. destruct Hks as [Hk Hks].
    cbn. constructor; [|now apply IH].
    split; [unfold take_idx; now rewrite length_map|].
    split; [now apply (NoDup_take_idx HL HO)|].
    unfold take_idx. apply Forall_forall. intros x Hx. apply list_elem_of_In in Hx.
    apply in_map_iff in Hx. destruct Hx as (j & <- & _).
    now apply (finite_nth HL HO finite HF). }
  destruct (nth_product_ravel HL HO 0 parts ks Hks) as [Hlt Hnth].
  rewrite Hargs. unfold make_bary_func.
  destruct (pd_at_nodes HL HO finite HF tol nodes Htol ks 1 0 HN ltac:(lia)) as [Epd _].
  change (eye_row 1 0) with [fone] in Epd. rewrite Epd. rewrite Nat.mul_1_l.
  rewrite Hdims. rewrite <- (product_length HL HO).
  change (ravel_from 0 (map length parts) ks) with (ravel (map length parts) ks).
  rewrite (bary_value_of_selector HL HO finite HF coefs _ (length (product parts))
             (ravel (map length parts) ks)); try assumption.
  - rewrite (nth_map_lt HL HO _ _ _ fzero) by (unfold select; now rewrite length_map).
    unfold select. rewrite (nth_map_lt HL HO _ _ _ []) by assumption.
    now rewrite Hnth.
  - unfold select. now rewrite !length_map.
  - apply Forall_forall. intros v Hv. apply list_elem_of_In in Hv.
    apply in_map_iff in Hv. destruct Hv as (x & <- & Hx).
    split.
    + destruct (select samples parts) as [|y l] eqn:E; [|reflexivity].
      unfold select in E. apply map_eq_nil in E. rewrite E in Hlt. simpl in Hlt. lia.
    + unfold select in Hx. apply in_map_iff in Hx. destruct Hx as (i & <- & _).
      constructor; [|constructor]. unfold tget. now apply (finite_nth HL HO finite HF).
Qed.


End ModelFacts.

(** ** The checks of [reduce] on its arguments *)

Section ArgumentFacts.
Context `{Sc : Scalar} (K : numerics).

Lemma mapM_read_vec (s : store) (refs : list loc) (svs : list (list F)) :
  Forall2 (fun r v => s !! r = Some (OVec v)) refs svs ->
  mapM read_vec refs s = Done svs s.
Proof.
  induction 1 as [|r v refs svs Hr _ IH]; simpl; [reflexivity|].
  assert (E : read_vec r s = Done v s) by (unfold read_vec; now rewrite Hr).
  rewrite (bind_Done _ _ _ _ _ E). rewrite (bind_Done _ _ _ _ _ IH). reflexivity.
Qed.

(** The statements of [reduce] before its checks, for a reductor that does
    not add conjugates: the copies are made and the largest magnitude of
    the samples is taken. *)
Lemma reduce_init_checks (self : reductor) (tol : M) (itpl_part : option loc)
    (max_itpl : option (list Z)) (s : store) (sv_items : list loc) (svs : list (list F))
    (smp : ndarray) :
  conjugate self = false ->
  s !! sampling_values self = Some (OList sv_items) ->
  Forall2 (fun r v => s !! r = Some (OVec v)) sv_items svs ->
  s !! samples self = Some (OTensor smp) ->
  data smp <> [] ->
  exists max_samples,
    reduce_init K self tol itpl_part max_itpl s
    = (tr ← lift (mimo_transform K svs smp);
       p ← init_itpl_part itpl_part (length svs);
       let max_itpl' :=
         match max_itpl with
         | None => map (fun sv => (Z.of_nat (length sv) - 1)%Z) svs
         | Some mi => mi
         end in
       if negb (length max_itpl' =? length svs) then raise AssertionError
       else
         ret {| p_env := {| e_svs := svs; e_samples := fst (fst tr);
                            e_rel_tol := mmul tol max_samples;
                            e_max_itpl := max_itpl' |};
                p_samples_orig := smp;
                p_dim_input := snd (fst tr);
                p_dim_output := snd tr;
                p_locals := {| l_itpl_part := p; l_bary := BaryConst (np_mean (fst (fst tr)));
                               l_form := None; l_j := 0; l_log := [] |} |})
        ((s ++ [OList sv_items]) ++ [OTensor smp]).
Proof.
  intros Hc Hsv Hvec Hsmp Hdata.
  destruct (np_max (map fabs (data smp))) as [mx|e] eqn:Emax.
  2:{ destruct (data smp); [congruence|discriminate]. }
  exists mx. unfold reduce_init.
  assert (E1 : read_list (sampling_values self) s = Done sv_items s)
    by (unfold read_list; now rewrite Hsv).
  rewrite (bind_Done _ _ _ _ _ E1).
  rewrite (bind_Done _ _ s (s ++ [OList sv_items]) (length s)) by reflexivity.
  assert (E2 : read_tensor (samples self) (s ++ [OList sv_items])
               = Done smp (s ++ [OList sv_items])).
  { unfold read_tensor. rewrite lookup_app_l by (now apply lookup_lt_Some in Hsmp).
    now rewrite Hsmp. }
  rewrite (bind_Done _ _ _ _ _ E2).
  rewrite (bind_Done _ _ (s ++ [OList sv_items]) ((s ++ [OList sv_items]) ++ [OTensor smp])
             (length (s ++ [OList sv_items]))) by reflexivity.
  rewrite Hc.
  rewrite (bind_Done _ _ ((s ++ [OList sv_items]) ++ [OTensor smp])
             ((s ++ [OList sv_items]) ++ [OTensor smp]) smp) by reflexivity.
  assert (E3 : read_list (length s) ((s ++ [OList sv_items]) ++ [OTensor smp])
               = Done sv_items ((s ++ [OList sv_items]) ++ [OTensor smp])).
  { unfold read_list. rewrite <- app_assoc. rewrite lookup_app_r by lia.
    now rewrite Nat.sub_diag. }
  rewrite (bind_Done _ _ _ _ _ E3).
  assert (E4 : mapM read_vec sv_items ((s ++ [OList sv_items]) ++ [OTensor smp])
               = Done svs ((s ++ [OList sv_items]) ++ [OTensor smp])).
  { apply mapM_read_vec. eapply Forall2_impl; [exact Hvec|].
    intros r v Hr. cbn beta. rewrite <- app_assoc.
    rewrite lookup_app_l by (now apply lookup_lt_Some in Hr). exact Hr. }
  rewrite (bind_Done _ _ _ _ _ E4).
  rewrite Emax, (bind_Done _ _ _ _ _ (lift_Ok _ _)).
  reflexivity.
Qed.

(** [reduce] checks its arguments before the first pass of its loop. For a
    reductor that does not add conjugates, on samples that are not empty:
    when the samples have neither one axis per variable nor two more, the
    call raises [AssertionError]; when they have two axes and there is no
    variable, the test of the sampling values of variable 0 raises
    [IndexError]; otherwise, when the partition handed in has not one
    entry per variable, or when [max_itpl] has not one entry per variable,
    the call raises [AssertionError]; all this without entering the loop.
    In every other case the loop is reached. *)
Theorem reduce_checks_arguments (self : reductor) (tol : M) (itpl_part : option loc)
    (max_itpl : option (list Z)) (s : store) (sv_items : list loc) (svs : list (list F))
    (smp : ndarray) :
  conjugate self = false ->
  s !! sampling_values self = Some (OList sv_items) ->
  Forall2 (fun r v => s !! r = Some (OVec v)) sv_items svs ->
  s !! samples self = Some (OTensor smp) ->
  data smp <> [] ->
  (forall q, itpl_part = Some q -> exists items, s !! q = Some (OList items)) ->
  let rank_ok :=
    (length (shape smp) =? length svs) || (length (shape smp) =? length svs + 2) in
  let no_variable := (length svs =? 0) && negb (length (shape smp) =? 0) in
  let part_ok :=
    match itpl_part with
    | None => true
    | Some q => match s !! q with
                | Some (OList items) => length items =? length svs
                | _ => false
                end
    end in
  let caps_ok :=
    match max_itpl with
    | None => true
    | Some mi => length mi =? length svs
    end in
  if negb rank_ok
  then exists s1, forall fuel,
         reduce K fuel self tol itpl_part max_itpl s = Some (Fail AssertionError s1)
  else if no_variable
  then exists s1, forall fuel,
         reduce K fuel self tol itpl_part max_itpl s = Some (Fail IndexError s1)
  else if part_ok && caps_ok
  then exists pr s1, reduce_init K self tol itpl_part max_itpl s = Done pr s1
  else exists s1, forall fuel,
         reduce K fuel self tol itpl_part max_itpl s = Some (Fail AssertionError s1).
Proof.
  intros Hc Hsv Hvec Hsmp Hdata Hq. cbv zeta.
  destruct (reduce_init_checks self tol itpl_part max_itpl s sv_items svs smp
              Hc Hsv Hvec Hsmp Hdata) as [mx E].
  set (s2 := (s ++ [OList sv_items]) ++ [OTensor smp]) in *.
  assert (Hfail : forall e s1, reduce_init K self tol itpl_part max_itpl s = Fail e s1 ->
            forall fuel, reduce K fuel self tol itpl_part max_itpl s = Some (Fail e s1)).
  { intros e s1 H fuel. unfold reduce. now rewrite H. }
  assert (Hraise : forall e, mimo_transform K svs smp = Raise e ->
            exists s1, forall fuel,
              reduce K fuel self tol itpl_part max_itpl s = Some (Fail e s1)).
  { intros e He. exists s2. apply Hfail. rewrite E, He.
    now rewrite (bind_Fail _ _ _ _ _ (lift_Raise _ _)). }
  assert (Hcont : forall tr, mimo_transform K svs smp = Ok tr ->
            if match itpl_part with
               | None => true
               | Some q => match s !! q with
                           | Some (OList items) => length items =? length svs
                           | _ => false
                           end
               end
               && match max_itpl with
                  | None => true
                  | Some mi => length mi =? length svs
                  end
            then exists pr s1, reduce_init K self tol itpl_part max_itpl s = Done pr s1
            else exists s1, forall fuel,
                   reduce K fuel self tol itpl_part max_itpl s
                   = Some (Fail AssertionError s1)).
  { intros tr Htr. rewrite Htr, (bind_Done _ _ _ _ _ (lift_Ok _ _)) in E.
    destruct itpl_part as [q|].
    - destruct (Hq q eq_refl) as [items Hitems]. rewrite Hitems.
      assert (Er : read_list q s2 = Done items s2).
      { unfold read_list, s2. rewrite <- app_assoc.
        rewrite lookup_app_l by (now apply lookup_lt_Some in Hitems). now rewrite Hitems. }
      assert (Ei : init_itpl_part (Some q) (length svs) s2
                   = if length items =? length svs then Done q s2 else Fail AssertionError s2).
      { unfold init_itpl_part. rewrite (bind_Done _ _ _ _ _ Er).
        destruct (length items =? length svs); reflexivity. }
      destruct (length items =? length svs) eqn:El; rewrite ?El in Ei; cbn [andb].
      + rewrite (bind_Done _ _ _ _ _ Ei) in E.
        destruct max_itpl as [mi|].
        * destruct (length mi =? length svs) eqn:Em; cbv zeta in E; rewrite Em in E;
            cbn [negb] in E; [eauto|].
          exists s2. apply Hfail. exact E.
        * cbv zeta in E. rewrite length_map, Nat.eqb_refl in E. cbn [negb] in E. eauto.
      + exists s2. apply Hfail. rewrite E. now rewrite (bind_Fail _ _ _ _ _ Ei).
    - destruct (init_itpl_part_none (length svs) s2) as (p & refs & s3 & Ep & _).
      rewrite (bind_Done _ _ _ _ _ Ep) in E. cbn [andb].
      destruct max_itpl as [mi|].
      + destruct (length mi =? length svs) eqn:Em; cbv zeta in E; rewrite Em in E;
          cbn [negb] in E; [eauto|].
        exists s3. apply Hfail. exact E.
      + cbv zeta in E. rewrite length_map, Nat.eqb_refl in E. cbn [negb] in E. eauto. }
  clear E Hfail.
  unfold mimo_transform in Hraise, Hcont.
  destruct (Nat.eqb_spec (length (shape smp)) (length svs)) as [E1|E1]; cbn [orb negb].
  - replace ((length svs =? 0) && negb (length (shape smp) =? 0)) with false.
    + now apply (Hcont (smp, 1, 1)).
    + rewrite E1. destruct (length svs =? 0); reflexivity.
  - destruct (Nat.eqb_spec (length (shape smp)) (length svs + 2)) as [E2|E2]; cbn [negb].
    + destruct svs as [|sv0 svs'].
      * replace (length (shape smp) =? 0) with false
          by (symmetry; apply Nat.eqb_neq; simpl in E2; lia).
        cbn. now apply Hraise.
      * cbn [length Nat.eqb andb]. eapply Hcont. reflexivity.
    + now apply Hraise.
Qed.

End ArgumentFacts.

(** ** The shape of the full Loewner matrix *)

Section FullLoewnerFacts.
Context `{Sc : Scalar}.

(** *** Sums over the tuples of flags *)

(** The weight of a tuple of flags: the product, over the variables, of
    the first number of the pair where the flag is [false] and of the
    second where it is [true]. *)
Definition flag_weight (u : list (nat * nat)) (i : list bool) : nat :=
  fold_right Nat.mul 1 (zip_with (fun (b : bool) (p : nat * nat) => if b then snd p else fst p) i u).

Lemma fold_mul_app (l1 l2 : list nat) :
  fold_right Nat.mul 1 (l1 ++ l2) = fold_right Nat.mul 1 l1 * fold_right Nat.mul 1 l2.
Proof. induction l1 as [|x l1 IH]; cbn; [lia|]. rewrite IH. lia. Qed.

Lemma product_size {A : Type} (pools : list (list A)) :
  length (product pools) = fold_right Nat.mul 1 (map length pools).
Proof.
  induction pools as [|pool pools IH] using rev_ind; [reflexivity|].
  rewrite product_snoc, product_step_length, IH, map_app. cbn [map].
  now rewrite fold_mul_snoc.
Qed.

Lemma flag_weight_snoc (u : list (nat * nat)) (p : nat * nat) (i : list bool) (b : bool) :
  length i = length u ->
  flag_weight (u ++ [p]) (i ++ [b]) = flag_weight u i * (if b then snd p else fst p).
Proof.
  intros Hl. unfold flag_weight. rewrite zip_with_app by exact Hl.
  rewrite fold_mul_app. cbn. lia.
Qed.

Lemma flag_tuples_S (d : nat) :
  flag_tuples (S d) = product_step (flag_tuples d) [false; true].
Proof.
  unfold flag_tuples. cbn [repeat]. rewrite repeat_cons. apply product_snoc.
Qed.

Lemma flag_tuples_length (d : nat) (i : list bool) : In i (flag_tuples d) -> length i = d.
Proof.
  intros Hi. apply product_length_in in Hi. now rewrite repeat_length in Hi.
Qed.

Lemma list_sum_flat_map {A B : Type} (g : B -> nat) (h : A -> list B) (l : list A) :
  list_sum (map g (flat_map h l)) = list_sum (map (fun x => list_sum (map g (h x))) l).
Proof.
  induction l as [|x l IH]; [reflexivity|].
  cbn [flat_map map]. rewrite map_app, list_sum_app, IH. reflexivity.
Qed.

Lemma list_sum_scale {A : Type} (f : A -> nat) (c : nat) (l : list A) :
  list_sum (map (fun x => f x * c) l) = list_sum (map f l) * c.
Proof.
  unfold list_sum. induction l as [|x l IH]; cbn; [reflexivity|]. rewrite IH. lia.
Qed.

Lemma list_sum_ext_in {A : Type} (f g : A -> nat) (l : list A) :
  (forall x, In x l -> f x = g x) -> list_sum (map f l) = list_sum (map g l).
Proof. intros H. f_equal. now apply map_ext_in. Qed.

(** Summed over all tuples of flags, the weights give the product of the
    sums of the pairs. *)
Lemma flag_weight_sum (u : list (nat * nat)) :
  list_sum (map (flag_weight u) (flag_tuples (length u)))
  = fold_right Nat.mul 1 (map (fun p => fst p + snd p) u).
Proof.
  induction u as [|p u IH] using rev_ind; [reflexivity|].
  rewrite length_app. cbn [length]. rewrite Nat.add_1_r, flag_tuples_S.
  unfold product_step. rewrite list_sum_flat_map.
  rewrite (list_sum_ext_in _ (fun x => flag_weight u x * (fst p + snd p))).
  - rewrite list_sum_scale, IH, map_app, fold_mul_app. cbn [map fold_right].
    now rewrite Nat.mul_1_r.
  - intros x Hx. apply flag_tuples_length in Hx. unfold list_sum. cbn [map fold_right].
    rewrite !flag_weight_snoc by exact Hx. nia.
Qed.

Lemma flag_weight_cons (p : nat * nat) (u : list (nat * nat)) (b : bool) (i : list bool) :
  flag_weight (p :: u) (b :: i) = (if b then snd p else fst p) * flag_weight u i.
Proof. reflexivity. Qed.

(** The weights that keep only the first numbers vanish on every tuple
    with a raised flag. *)
Lemma flag_weight_all_false (u : list (nat * nat)) (i : list bool) :
  length i = length u ->
  flag_weight (map (fun p => (fst p, 0)) u) i
  = if forallb negb i then flag_weight u i else 0.
Proof.
  revert u. induction i as [|b i IH]; intros [|p u] Hl; try discriminate; [reflexivity|].
  cbn [map forallb]. rewrite !flag_weight_cons, IH by (cbn in Hl; lia).
  destruct b; cbn; [reflexivity|]. destruct (forallb negb i); lia.
Qed.

Lemma flag_weight_all_true (u : list (nat * nat)) (i : list bool) :
  length i = length u ->
  flag_weight (map (fun p => (0, snd p)) u) i
  = if forallb (fun b => b) i then flag_weight u i else 0.
Proof.
  revert u. induction i as [|b i IH]; intros [|p u] Hl; try discriminate; [reflexivity|].
  cbn [map forallb]. rewrite !flag_weight_cons, IH by (cbn in Hl; lia).
  destruct b; cbn; [|reflexivity]. destruct (forallb (fun b => b) i); lia.
Qed.

Lemma not_both_trivial (i : list bool) :
  i <> [] -> forallb negb i = true -> forallb (fun b => b) i = false.
Proof. destruct i as [|[] i]; [congruence|discriminate|reflexivity]. Qed.

Lemma list_sum_split3 {A : Type} (f g h k : A -> nat) (l : list A) :
  (forall x, In x l -> f x + g x + h x = k x) ->
  list_sum (map f l) + list_sum (map g l) + list_sum (map h l) = list_sum (map k l).
Proof.
  unfold list_sum. induction l as [|x l IH]; intros H; [reflexivity|].
  cbn. specialize (IH (fun y Hy => H y (or_intror Hy))).
  specialize (H x (or_introl eq_refl)). lia.
Qed.

(** The tuples that are neither all [false] nor all [true] carry the
    whole sum but the two products. *)
Lemma flag_weight_sum_nontrivial (u : list (nat * nat)) :
  u <> [] ->
  list_sum (map (fun i => if is_trivial i then 0 else flag_weight u i) (flag_tuples (length u)))
  + fold_right Nat.mul 1 (map fst u) + fold_right Nat.mul 1 (map snd u)
  = fold_right Nat.mul 1 (map (fun p => fst p + snd p) u).
Proof.
  intros Hu.
  pose proof (flag_weight_sum (map (fun p => (fst p, 0)) u)) as HF.
  pose proof (flag_weight_sum (map (fun p => (0, snd p)) u)) as HT.
  rewrite length_map, map_map in HF, HT. cbn [fst snd] in HF, HT.
  rewrite (map_ext (fun p : nat * nat => fst p + 0) fst) in HF by (intros; lia).
  rewrite (map_ext (fun p : nat * nat => 0 + snd p) snd) in HT by reflexivity.
  rewrite <- HF, <- HT, <- flag_weight_sum.
  apply list_sum_split3. intros i Hi. apply flag_tuples_length in Hi.
  rewrite flag_weight_all_false, flag_weight_all_true by exact Hi.
  assert (Hne : i <> []) by (destruct i, u; cbn in Hi; congruence).
  unfold is_trivial.
  destruct (forallb negb i) eqn:EF.
  - rewrite (not_both_trivial i Hne EF). cbn. lia.
  - destruct (forallb (fun b => b) i); cbn; lia.
Qed.

(** *** The pieces of a block *)

Lemma keep_flagged_cons {A : Type} (b : bool) (i : list bool) (x : A) (l : list A) :
  keep_flagged (b :: i) (x :: l) = if b then x :: keep_flagged i l else keep_flagged i l.
Proof. unfold keep_flagged. cbn. now destruct b. Qed.

Lemma keep_unflagged_cons {A : Type} (b : bool) (i : list bool) (x : A) (l : list A) :
  keep_unflagged (b :: i) (x :: l) = if b then keep_unflagged i l else x :: keep_unflagged i l.
Proof. unfold keep_unflagged. cbn. now destruct b. Qed.

Lemma keep_weight (P Q : list (list nat)) (i : list bool) :
  length P = length i -> length Q = length i ->
  length (product (keep_unflagged i P)) * length (product (keep_flagged i Q))
  = flag_weight (zip (map length P) (map length Q)) i.
Proof.
  rewrite !product_size. revert P Q.
  induction i as [|b i IH]; intros [|p P] [|q Q] HP HQ; try discriminate; [reflexivity|].
  rewrite keep_flagged_cons, keep_unflagged_cons. cbn [map zip_with].
  rewrite flag_weight_cons. cbn [fst snd].
  specialize (IH P Q ltac:(cbn in HP; lia) ltac:(cbn in HQ; lia)).
  destruct b; cbn [map fold_right]; rewrite <- IH; nia.
Qed.

Lemma keep_flagged_length {A B : Type} (i : list bool) (l : list A) (l' : list B) :
  length l = length i -> length l' = length i ->
  length (keep_flagged i l) = length (keep_flagged i l').
Proof.
  revert l l'. induction i as [|b i IH]; intros [|x l] [|y l'] H H'; try discriminate;
    [reflexivity|].
  rewrite !keep_flagged_cons.
  specialize (IH l l' ltac:(cbn in H; lia) ltac:(cbn in H'; lia)).
  destruct b; cbn [length]; now rewrite IH.
Qed.

Lemma keep_flagged_nontrivial {A : Type} (i : list bool) (l : list A) :
  length l = length i -> forallb negb i = false -> 1 <= length (keep_flagged i l).
Proof.
  revert l. induction i as [|b i IH]; intros [|x l] H Hnt; try discriminate.
  rewrite keep_flagged_cons. destruct b; cbn [length]; [lia|].
  apply IH; [cbn in H; lia|exact Hnt].
Qed.

Lemma ls_part_keep_flagged (i : list bool) (P : list (list nat)) (S : list (list F)) :
  length P = length i -> length S = length i ->
  _ls_part (keep_flagged i P) (keep_flagged i S) = keep_flagged i (_ls_part P S).
Proof.
  unfold _ls_part. revert P S.
  induction i as [|b i IH]; intros [|p P] [|sv S] HP HS; try discriminate; [reflexivity|].
  cbn [zip_with]. rewrite !keep_flagged_cons.
  specialize (IH P S ltac:(cbn in HP; lia) ltac:(cbn in HS; lia)).
  destruct b; cbn [zip_with]; now rewrite IH.
Qed.

(** The flags of the index list [l_j] are those of the tuple. *)
Lemma merge_slices_flags {A : Type} (i : list bool) (j : list nat) (l : list A) :
  length l = length i -> length j = length (keep_unflagged i l) ->
  map (fun o : option nat => match o with None => true | Some _ => false end) (merge_slices i j)
  = i.
Proof.
  revert j l. induction i as [|b i IH]; intros j [|x l] Hl Hj; try discriminate; [reflexivity|].
  rewrite keep_unflagged_cons in Hj. destruct b; cbn [merge_slices map].
  - f_equal. apply (IH j l); [cbn in Hl; lia|exact Hj].
  - destruct j as [|y j]; [discriminate|]. cbn [map]. f_equal.
    apply (IH j l); [cbn in Hl; lia|cbn in Hj; lia].
Qed.

(** What a successful [nd_loewner] returns: one row per combination of
    least-squares indices, one column per combination of interpolation
    indices. *)
Lemma nd_loewner_ok_shape (samples : ndarray) (svs : list (list F)) (itpl : list (list nat))
    (L : matrix) :
  1 <= length (shape samples) ->
  length svs = length (shape samples) ->
  length itpl = length (shape samples) ->
  nd_loewner samples svs itpl = Ok L ->
  length L = length (product (_ls_part itpl svs))
  /\ Forall (fun row => length row = length (product itpl)) L
  /\ product itpl <> [].
Proof.
  intros Hd Hs Hp H. unfold nd_loewner in H.
  assert (Hl : length (_ls_part itpl svs) = length (shape samples)).
  { unfold _ls_part. rewrite length_zip_with. lia. }
  unfold select in H. rewrite !length_map in H.
  destruct (length (product itpl) =? 0) eqn:E1; [discriminate|].
  destruct (length (product (_ls_part itpl svs)) =? 0) eqn:E2; [discriminate|].
  cbn [orb] in H. injection H as <-.
  rewrite sdpd_outer by lia.
  replace (S (length (shape samples) - 1)) with (length (shape samples)) by lia.
  rewrite (take_ge itpl) by lia. rewrite (take_ge (_ls_part itpl svs)) by lia.
  unfold mat_div. rewrite map_map, zip_with_map_same.
  split; [now rewrite length_map|]. split.
  - apply Forall_forall. intros row Hrow. apply list_elem_of_In, in_map_iff in Hrow.
    destruct Hrow as (rs & <- & _). rewrite map_map, zip_with_map_same. now rewrite length_map.
  - now apply product_nonempty_length.
Qed.

Lemma kron_row_length (ra rb : list F) : length (kron_row ra rb) = length ra * length rb.
Proof. unfold kron_row. apply length_flat_map_uniform. intros a. apply length_map. Qed.

Lemma kron_shape (A B : matrix) (c c' : nat) :
  Forall (fun row => length row = c) A ->
  Forall (fun row => length row = c') B ->
  length (kron A B) = length A * length B
  /\ Forall (fun row => length row = c * c') (kron A B).
Proof.
  intros HA HB. split.
  - unfold kron. apply length_flat_map_uniform. intros ra. apply length_map.
  - apply Forall_forall. intros row Hrow. apply list_elem_of_In in Hrow.
    unfold kron in Hrow. apply in_flat_map in Hrow. destruct Hrow as (ra & Hra & Hrow).
    apply in_map_iff in Hrow. destruct Hrow as (rb & <- & Hrb).
    rewrite kron_row_length. rewrite Forall_forall in HA, HB.
    rewrite (HA ra), (HB rb) by now apply list_elem_of_In. reflexivity.
Qed.

Lemma eye_shape (n : nat) :
  length (eye n) = n /\ Forall (fun row => length row = n) (eye n).
Proof.
  unfold eye. split; [now rewrite length_map, length_seq|].
  apply Forall_forall. intros row Hrow. apply list_elem_of_In, in_map_iff in Hrow.
  destruct Hrow as (k & <- & _). unfold eye_row. now rewrite length_map, length_seq.
Qed.

Lemma T_mat_fold_shape (z : list (list nat * option nat)) : forall (T0 : matrix) (c0 : nat),
  Forall (fun row => length row = c0) T0 ->
  length (fold_left
            (fun T pk =>
               let T_new :=
                 match snd pk with
                 | None => eye (length (fst pk))
                 | Some x => [eye_row (length (fst pk)) (first_index x (fst pk))]
                 end in
               kron T T_new) z T0)
  = length T0 * fold_right Nat.mul 1
                  (map (fun pk : list nat * option nat =>
                          match snd pk with None => length (fst pk) | Some _ => 1 end) z)
  /\ Forall (fun row => length row
                        = c0 * fold_right Nat.mul 1
                                 (map (fun pk : list nat * option nat => length (fst pk)) z))
            (fold_left
               (fun T pk =>
                  let T_new :=
                    match snd pk with
                    | None => eye (length (fst pk))
                    | Some x => [eye_row (length (fst pk)) (first_index x (fst pk))]
                    end in
                  kron T T_new) z T0).
Proof.
  induction z as [|[p o] z IH]; intros T0 c0 H0.
  - cbn. split; [lia|]. eapply Forall_impl; [exact H0|]. cbn. intros row ->. lia.
  - cbn [fold_left map fold_right fst snd].
    set (T_new := match o with
                  | None => eye (length p)
                  | Some x => [eye_row (length p) (first_index x p)]
                  end).
    assert (HN : length T_new = match o with None => length p | Some _ => 1 end
                 /\ Forall (fun row => length row = length p) T_new).
    { unfold T_new. destruct o; [|apply eye_shape].
      split; [reflexivity|]. constructor; [|constructor].
      unfold eye_row. now rewrite length_map, length_seq. }
    destruct HN as [HN1 HN2].
    destruct (kron_shape T0 T_new c0 (length p) H0 HN2) as [HK1 HK2].
    destruct (IH (kron T0 T_new) (c0 * length p) HK2) as [IH1 IH2].
    split.
    + etransitivity; [exact IH1|]. rewrite HK1, HN1. lia.
    + eapply Forall_impl; [exact IH2|]. cbn beta. intros row ->. lia.
Qed.

Lemma T_mat_shape (itpl : list (list nat)) (l_j : list (option nat)) :
  length l_j = length itpl ->
  length (T_mat itpl l_j)
  = length (product (keep_flagged
                       (map (fun o : option nat => match o with None => true | Some _ => false end)
                            l_j) itpl))
  /\ Forall (fun row => length row = length (product itpl)) (T_mat itpl l_j).
Proof.
  intros Hl. unfold T_mat.
  assert (H0 : Forall (fun row : list F => length row = 1) [[fone]])
    by (constructor; [reflexivity|constructor]).
  destruct (T_mat_fold_shape (zip itpl l_j) [[fone]] 1 H0) as [H1 H2].
  rewrite !product_size. split.
  - etransitivity; [exact H1|]. cbn [length]. rewrite Nat.mul_1_l. clear H0 H1 H2. revert l_j Hl.
    induction itpl as [|p itpl IH]; intros [|o l_j] Hl; try discriminate; [reflexivity|].
    cbn [zip_with map fst snd]. rewrite keep_flagged_cons.
    specialize (IH l_j ltac:(cbn in Hl; lia)).
    destruct o; cbn [map fold_right]; rewrite IH; lia.
  - eapply Forall_impl; [exact H2|]. cbn beta. intros row ->. rewrite Nat.mul_1_l.
    f_equal. clear H0 H1 H2. revert l_j Hl.
    induction itpl as [|p itpl IH]; intros [|o l_j] Hl; try discriminate; [reflexivity|].
    cbn [zip_with map fst]. f_equal. apply IH. cbn in Hl. lia.
Qed.

Lemma row_matmul_length (r : list F) (B : matrix) (n : nat) :
  Forall (fun row => length row = n) B -> length (row_matmul r B n) = n.
Proof.
  intros HB. unfold row_matmul.
  assert (G : forall (z : list (F * list F)) (acc : list F),
             Forall (fun xb => length (snd xb) = n) z -> length acc = n ->
             length (fold_left (fun acc xb => vec_add acc (vec_scale (fst xb) (snd xb))) z acc)
             = n).
  { induction z as [|xb z IH]; intros acc Hz Hacc; [exact Hacc|].
    cbn [fold_left]. inversion Hz as [|? ? Hx Hz']; subst. apply IH; [exact Hz'|].
    unfold vec_add, vec_scale. rewrite length_zip_with, length_map. lia. }
  apply G; [|apply repeat_length].
  clear G. revert r. induction HB as [|b B Hb _ IH]; intros [|x r]; cbn; constructor;
    [exact Hb|apply IH].
Qed.

Lemma matmul_shape (A B : matrix) (n : nat) :
  B <> [] -> Forall (fun row => length row = n) B ->
  length (matmul A B) = length A /\ Forall (fun row => length row = n) (matmul A B).
Proof.
  intros HB HF. unfold matmul. split; [apply length_map|].
  assert (Hn : length (nth 0 B []) = n).
  { destruct B as [|b B]; [congruence|]. now inversion HF. }
  rewrite Hn. apply Forall_forall. intros row Hrow. apply list_elem_of_In, in_map_iff in Hrow.
  destruct Hrow as (r & <- & _). now apply row_matmul_length.
Qed.

(** *** The blocks *)

(** The rows one tuple of flags adds: for each combination of
    interpolation indices of the variables not flagged, a Loewner matrix
    in the flagged variables, spread over the columns of the full matrix. *)
Lemma full_block_shape (samples : ndarray) (svs : list (list F)) (itpl : list (list nat))
    (i : list bool) :
  length svs = length (shape samples) ->
  length itpl = length (shape samples) ->
  length i = length (shape samples) ->
  forallb negb i = false ->
  forall (js : list (list nat)) (acc : res matrix) (L : matrix),
    Forall (fun j => length j = length (keep_unflagged i itpl)) js ->
    fold_left
      (fun acc' j =>
         res_bind acc' (fun L' =>
         let l_j := merge_slices i j in
         let samples0 := slice_fixed samples l_j in
         let svs0 := keep_flagged i svs in
         let itpl_part0 := keep_flagged i itpl in
         res_bind (nd_loewner samples0 svs0 itpl_part0) (fun LL =>
         Ok (L' ++ matmul LL (T_mat itpl l_j)))))
      js acc = Ok L ->
    exists L0,
      acc = Ok L0 /\
      length L = length L0
                 + length js * length (product (keep_flagged i (_ls_part itpl svs))) /\
      (Forall (fun row => length row = length (product itpl)) L0 ->
       Forall (fun row => length row = length (product itpl)) L).
Proof.
  intros Hs Hp Hi Hnt. induction js as [|j js IH]; intros acc L Hjs H.
  - cbn in H. exists L. split; [exact H|]. split; [cbn; lia|auto].
  - cbn [fold_left] in H. inversion Hjs as [|? ? Hj Hjs']; subst.
    destruct (IH _ _ Hjs' H) as (L1 & E1 & Hlen & Hw).
    destruct acc as [L0|e]; [|discriminate]. cbn [res_bind] in E1. cbv zeta in E1.
    destruct (nd_loewner (slice_fixed samples (merge_slices i j)) (keep_flagged i svs)
                (keep_flagged i itpl)) as [LL|e] eqn:ELL; [|discriminate].
    cbn [res_bind] in E1. injection E1 as <-.
    pose proof (merge_slices_flags i j itpl ltac:(lia) Hj) as Hflags.
    assert (Hshape : shape (slice_fixed samples (merge_slices i j))
                     = keep_flagged i (shape samples)).
    { unfold slice_fixed. cbn [shape]. now rewrite Hflags. }
    assert (Hd0 : 1 <= length (shape (slice_fixed samples (merge_slices i j)))).
    { rewrite Hshape. apply keep_flagged_nontrivial; [lia|exact Hnt]. }
    assert (Hs0 : length (keep_flagged i svs)
                  = length (shape (slice_fixed samples (merge_slices i j)))).
    { rewrite Hshape. apply keep_flagged_length; lia. }
    assert (Hp0 : length (keep_flagged i itpl)
                  = length (shape (slice_fixed samples (merge_slices i j)))).
    { rewrite Hshape. apply keep_flagged_length; lia. }
    destruct (nd_loewner_ok_shape _ _ _ _ Hd0 Hs0 Hp0 ELL) as (HLL & _ & Hne).
    assert (Hlj : length (merge_slices i j) = length itpl).
    { rewrite <- (length_map (fun o : option nat =>
                                match o with None => true | Some _ => false end)), Hflags. lia. }
    destruct (T_mat_shape itpl (merge_slices i j) Hlj) as [HT1 HT2].
    rewrite Hflags in HT1.
    assert (HTne : T_mat itpl (merge_slices i j) <> []).
    { intros E. rewrite E in HT1. cbn in HT1.
      destruct (product (keep_flagged i itpl)); [congruence|discriminate]. }
    destruct (matmul_shape LL _ _ HTne HT2) as [HM1 HM2].
    exists L0. split; [reflexivity|]. split.
    + rewrite Hlen, length_app, HM1, HLL, ls_part_keep_flagged by lia. cbn [length]. lia.
    + intros H0. apply Hw. apply Forall_app. split; assumption.
Qed.

Lemma full_fold_shape (samples : ndarray) (svs : list (list F)) (itpl : list (list nat)) :
  length svs = length (shape samples) ->
  length itpl = length (shape samples) ->
  forall (ts : list (list bool)) (acc : res matrix) (L : matrix),
    Forall (fun i => length i = length (shape samples)) ts ->
    fold_left
      (fun acc i =>
         if is_trivial i then acc
         else
           fold_left
             (fun acc' j =>
                res_bind acc' (fun L' =>
                let l_j := merge_slices i j in
                let samples0 := slice_fixed samples l_j in
                let svs0 := keep_flagged i svs in
                let itpl_part0 := keep_flagged i itpl in
                res_bind (nd_loewner samples0 svs0 itpl_part0) (fun LL =>
                Ok (L' ++ matmul LL (T_mat itpl l_j)))))
             (product (keep_unflagged i itpl)) acc)
      ts acc = Ok L ->
    exists L0,
      acc = Ok L0 /\
      length L
      = length L0
        + list_sum (map (fun i => if is_trivial i then 0
                                  else flag_weight (zip (map length itpl)
                                                        (map length (_ls_part itpl svs))) i) ts) /\
      (Forall (fun row => length row = length (product itpl)) L0 ->
       Forall (fun row => length row = length (product itpl)) L).
Proof.
  intros Hs Hp. induction ts as [|i ts IH]; intros acc L Hts H.
  - cbn in H. exists L. split; [exact H|]. split; [cbn; lia|auto].
  - cbn [fold_left] in H. inversion Hts as [|? ? Hi Hts']; subst.
    destruct (IH _ _ Hts' H) as (L1 & E1 & Hlen & Hw).
    cbn [map]. unfold list_sum in *. cbn [fold_right].
    destruct (is_trivial i) eqn:Et.
    + exists L1. split; [exact E1|]. split; [lia|exact Hw].
    + unfold is_trivial in Et. apply orb_false_iff in Et. destruct Et as [Hnt _].
      assert (Hjs : Forall (fun j => length j = length (keep_unflagged i itpl))
                           (product (keep_unflagged i itpl))).
      { apply Forall_forall. intros j Hj. apply list_elem_of_In in Hj.
        now apply product_length_in in Hj. }
      destruct (full_block_shape samples svs itpl i Hs Hp Hi Hnt _ acc L1 Hjs E1)
        as (L0 & E0 & Hlen0 & Hw0).
      exists L0. split; [exact E0|]. split; [|auto].
      rewrite Hlen, Hlen0, keep_weight; [lia|lia|].
      unfold _ls_part. rewrite length_zip_with. lia.
Qed.

Lemma np_delete_arange_length (n : nat) (p : list nat) :
  NoDup p -> Forall (fun k => k < n) p ->
  length p + length (np_delete_arange n p) = n.
Proof.
  intros Hnd Hrange. unfold np_delete_arange.
  set (f := fun k => existsb (Nat.eqb k) p).
  assert (Hsplit : forall l : list nat,
            length (List.filter (fun k => negb (f k)) l) + length (List.filter f l) = length l).
  { induction l as [|x l IH]; [reflexivity|]. cbn. destruct (f x); cbn; lia. }
  assert (Hperm : List.filter f (seq 0 n) ≡ₚ p).
  { apply NoDup_Permutation; [apply NoDup_list_filter, NoDup_seq|exact Hnd|].
    intros k. rewrite !list_elem_of_In, filter_In, in_seq. unfold f. split.
    - intros [_ E]. apply existsb_exists in E. destruct E as (x & Hx & E).
      apply Nat.eqb_eq in E. now subst.
    - intros Hk. split.
      + rewrite Forall_forall in Hrange. apply list_elem_of_In in Hk.
        specialize (Hrange k Hk). lia.
      + apply existsb_exists. exists k. split; [exact Hk|apply Nat.eqb_refl]. }
  pose proof (Hsplit (seq 0 n)) as Hs. rewrite length_seq in Hs.
  rewrite (Permutation_length Hperm) in Hs. rewrite Nat.add_comm. exact Hs.
Qed.

(** The full Loewner matrix has one column for each point of the
    interpolation grid and one row for each other point of the sampling
    grid: whenever [full_nd_loewner] returns, on a partition of indices
    within range and without repetition, every row of its result has as
    many entries as there are combinations of interpolation indices, and
    the rows and these combinations together count the grid points. *)
Theorem full_nd_loewner_shape (samples : ndarray) (svs : list (list F))
    (itpl_part : list (list nat)) (L : matrix) :
  1 <= length (shape samples) ->
  length svs = length (shape samples) ->
  Forall2 (fun part (sv : list F) => NoDup part /\ Forall (fun k => k < length sv) part)
          itpl_part svs ->
  full_nd_loewner samples svs itpl_part = Ok L ->
  Forall (fun row => length row = length (product itpl_part)) L
  /\ length L + length (product itpl_part) = fold_right Nat.mul 1 (map length svs).
Proof.
  intros Hd Hs Hparts H.
  assert (Hp : length itpl_part = length (shape samples)).
  { apply Forall2_length in Hparts. lia. }
  unfold full_nd_loewner in H.
  destruct (nd_loewner samples svs itpl_part) as [L0|e] eqn:E0; [|discriminate].
  cbn [res_bind] in H.
  destruct (nd_loewner_ok_shape _ _ _ _ Hd Hs Hp E0) as (HL0 & HW0 & _).
  assert (Hts : Forall (fun i => length i = length (shape samples)) (flag_tuples (length svs))).
  { apply Forall_forall. intros i Hi. apply list_elem_of_In in Hi.
    apply flag_tuples_length in Hi. lia. }
  destruct (full_fold_shape samples svs itpl_part Hs Hp _ (Ok L0) L Hts H)
    as (L0' & EL & Hlen & Hw).
  injection EL as <-. split; [exact (Hw HW0)|].
  set (u := zip (map length itpl_part) (map length (_ls_part itpl_part svs))) in *.
  assert (Hlu : length u = length svs).
  { unfold u, _ls_part. rewrite length_zip_with, !length_map, length_zip_with. lia. }
  assert (Hu : u <> []) by (intros E; rewrite E in Hlu; cbn in Hlu; lia).
  pose proof (flag_weight_sum_nontrivial u Hu) as Hsum. rewrite Hlu in Hsum.
  assert (Hfst : map fst u = map length itpl_part).
  { unfold u. apply fst_zip. unfold _ls_part. rewrite !length_map, length_zip_with. lia. }
  assert (Hsnd : map snd u = map length (_ls_part itpl_part svs)).
  { unfold u. apply snd_zip. unfold _ls_part. rewrite !length_map, length_zip_with. lia. }
  assert (Hall : map (fun p => fst p + snd p) u = map length svs).
  { unfold u, _ls_part. clear -Hparts.
    induction Hparts as [|part sv parts svs' [Hnd Hr] _ IH]; [reflexivity|].
    cbn [map zip_with fst snd]. rewrite IH. f_equal.
    now apply np_delete_arange_length. }
  rewrite Hfst, Hsnd, Hall, <- (product_size itpl_part),
    <- (product_size (_ls_part itpl_part svs)) in Hsum.
  rewrite Hlen, HL0. lia.
Qed.

End FullLoewnerFacts.

(** ** The indices of the partition *)

Section ValidPartitionFacts.
Context `{Sc : Scalar} (K : numerics) (HL : ScalarLaws Sc).
Hypothesis fimag_conj : forall x : F, fimag_nonzero (fconj x) = fimag_nonzero x.
Hypothesis fconj_moves : forall x : F, fimag_nonzero x = true -> fconj x <> x.
#[local] Set Default Proof Using "Type HL fimag_conj fconj_moves".

(** The partition of a variable with the sampling values [sv] holds
    pairwise distinct indices into [sv]. *)
Definition valid_part (sv : list F) (part : list nat) : Prop :=
  NoDup part /\ Forall (fun j => j < length sv) part.

(** With the index of a sampling value that is not real, the partition
    holds the index [np.where] finds for its conjugate. *)
Definition conj_closed (sv : list F) (part : list nat) : Prop :=
  forall j c, In j part -> fimag_nonzero (nth j sv fzero) = true ->
    find_index (fconj (nth j sv fzero)) sv = Some c -> In c part.

(** What the loop keeps about [self.itpl_part]. *)
Definition valid_parts (conj : bool) (svs : list (list F)) (parts : list (list nat)) : Prop :=
  length parts = length svs /\
  (forall i part, parts !! i = Some part -> valid_part (nth i svs []) part) /\
  (conj = true -> forall part, parts !! 0 = Some part -> conj_closed (nth 0 svs []) part).

Lemma find_index_Some (x : F) (v : list F) (c : nat) :
  find_index x v = Some c -> c < length v /\ nth c v fzero = x.
Proof.
  revert c. induction v as [|y v IH]; intros c; simpl; [discriminate|].
  destruct (feqb y x) eqn:E.
  - intros [= <-]. split; [lia|]. now apply feqb_eq.
  - destruct (find_index x v) as [c'|]; simpl; [|discriminate].
    intros [= <-]. destruct (IH c' eq_refl) as [Hlt Hn]. split; [lia|exact Hn].
Qed.

Lemma find_index_NoDup (v : list F) (g : nat) :
  NoDup v -> g < length v -> find_index (nth g v fzero) v = Some g.
Proof.
  intros Hnd. revert g. induction Hnd as [|y v Hy Hnd IH]; intros g Hg; simpl in Hg; [lia|].
  destruct g as [|g]; simpl.
  - replace (feqb y y) with true by (symmetry; now apply feqb_eq). reflexivity.
  - destruct (feqb y (nth g v fzero)) eqn:E.
    + apply feqb_eq in E. exfalso. apply Hy. rewrite E.
      apply list_elem_of_In. apply nth_In. lia.
    + rewrite IH by lia. reflexivity.
Qed.

Lemma NoDup_snoc (l : list nat) (x : nat) : NoDup l -> ~ In x l -> NoDup (l ++ [x]).
Proof.
  intros Hl Hx. apply NoDup_app. split; [exact Hl|]. split.
  - intros y Hy Hy'. apply list_elem_of_In in Hy. apply list_elem_of_In in Hy'.
    destruct Hy' as [<-|[]]. contradiction.
  - apply NoDup_singleton.
Qed.

Lemma valid_part_take (sv : list F) (part : list nat) (m : nat) :
  valid_part sv part -> valid_part sv (take m part).
Proof.
  intros [Hnd Hr]. split.
  - rewrite <- (take_drop m part) in Hnd. apply NoDup_app in Hnd. apply Hnd.
  - now apply Forall_take.
Qed.

(** The greedy step keeps the indices of a partition distinct and in
    range, and the partition of variable 0 closed under conjugation. *)
Lemma greedy_new_valid conj svs max_itpl greedy_idx i part new :
  nth i greedy_idx 0 < length (nth i svs []) ->
  valid_part (nth i svs []) part ->
  (i = 0 -> conj = true -> NoDup (nth 0 svs []) /\ conj_closed (nth 0 svs []) part) ->
  greedy_new conj svs max_itpl greedy_idx i part = Ok new ->
  valid_part (nth i svs []) (part ++ new) /\
  (i = 0 -> conj = true -> conj_closed (nth 0 svs []) (part ++ new)).
Proof.
  intros Hg [Hnd Hr] Hc. unfold greedy_new.
  set (g := nth i greedy_idx 0) in *.
  destruct (existsb (Nat.eqb g) part) eqn:Eg; cbn [negb andb].
  { intros [= <-]. rewrite app_nil_r. split; [now split|]. intros Hi Hcj. now apply Hc. }
  assert (Hgn : ~ In g part).
  { intros Hin. apply existsb_eqb_In in Hin. congruence. }
  destruct (Z.ltb (Z.of_nat (length part)) (nth i max_itpl 0%Z)).
  2:{ intros [= <-]. rewrite app_nil_r. split; [now split|]. intros Hi Hcj. now apply Hc. }
  destruct ((i =? 0) && conj && fimag_nonzero (nth g (nth i svs []) fzero)) eqn:Ec.
  - apply andb_true_iff in Ec. destruct Ec as [Ec Him].
    apply andb_true_iff in Ec. destruct Ec as [Ei Ecj].
    apply Nat.eqb_eq in Ei. subst i.
    destruct (Hc eq_refl Ecj) as [Hsv Hcl].
    set (sv := nth 0 svs []) in *.
    destruct (find_index (fconj (nth g sv fzero)) sv) as [c|] eqn:Ef; [|discriminate].
    intros [= <-].
    destruct (find_index_Some _ _ _ Ef) as [Hclt Hcv].
    assert (Hcg : c <> g).
    { intros ->. symmetry in Hcv. exact (fconj_moves _ Him Hcv). }
    assert (Hback : find_index (fconj (nth c sv fzero)) sv = Some g).
    { rewrite Hcv, fconj_invol. now apply find_index_NoDup. }
    assert (Hcim : fimag_nonzero (nth c sv fzero) = true).
    { rewrite Hcv, fimag_conj. exact Him. }
    assert (Hcn : ~ In c part).
    { intros Hin. apply Hgn. exact (Hcl c g Hin Hcim Hback). }
    split; [split|].
    + change [g; c] with ([g] ++ [c]). rewrite app_assoc. apply NoDup_snoc.
      * now apply NoDup_snoc.
      * intros Hin. apply in_app_or in Hin. destruct Hin as [Hin|[Hin|[]]]; [contradiction|].
        now apply Hcg.
    + apply Forall_app. split; [exact Hr|]. repeat constructor; assumption.
    + intros _ _ j c' Hj Hjm Hjf. apply in_app_or in Hj. apply in_or_app.
      destruct Hj as [Hj|[<-|[<-|[]]]].
      * left. exact (Hcl j c' Hj Hjm Hjf).
      * right. rewrite Ef in Hjf. injection Hjf as <-. simpl. auto.
      * right. rewrite Hback in Hjf. injection Hjf as <-. simpl. auto.
  - intros [= <-]. split; [split|].
    + now apply NoDup_snoc.
    + apply Forall_app. split; [exact Hr|]. repeat constructor; assumption.
    + intros -> Hcj. subst conj. cbn [Nat.eqb andb] in Ec.
      destruct (Hc eq_refl eq_refl) as [Hsv Hcl].
      intros j c' Hj Hjm Hjf. apply in_app_or in Hj. apply in_or_app.
      destruct Hj as [Hj|[<-|[]]].
      * left. exact (Hcl j c' Hj Hjm Hjf).
      * congruence.
Qed.

Lemma argmax_lt (l : list M) : l <> [] -> argmax l < length l.
Proof.
  destruct l as [|x l]; [congruence|]. intros _. unfold argmax.
  exact (proj2 (argmax_from_spec l [x] x 0 eq_refl ltac:(simpl; lia))).
Qed.

(** Every component of the greedy index is an index of its variable. *)
Lemma greedy_idx_range (svs : list (list F)) (err_mat : list M) (i : nat) :
  err_mat <> [] -> length err_mat = length (grid_indices svs) -> i < length svs ->
  nth i (unravel (map length svs) (argmax err_mat)) 0 < length (nth i svs []).
Proof.
  intros Hne Hlen Hi.
  pose proof (unravel_bound (map length svs) (argmax err_mat) i) as Hb.
  rewrite <- grid_indices_length, <- Hlen, length_map in Hb.
  specialize (Hb (argmax_lt _ Hne) Hi).
  replace (nth i (map length svs) 0) with (length (nth i svs [])) in Hb; [exact Hb|].
  exact (eq_sym (map_nth (@length F) svs [] i)).
Qed.

Lemma greedy_append_valid conj svs max_itpl greedy_idx parts parts1 :
  (forall i, i < length svs -> nth i greedy_idx 0 < length (nth i svs [])) ->
  (conj = true -> NoDup (nth 0 svs [])) ->
  valid_parts conj svs parts ->
  length parts1 = length parts ->
  (forall i part, parts !! i = Some part ->
     exists new, greedy_new conj svs max_itpl greedy_idx i part = Ok new /\
                 parts1 !! i = Some (part ++ new)) ->
  valid_parts conj svs parts1.
Proof.
  intros Hg Hsv (Hlen & Hv & Hcl) Hlen1 Hchar.
  assert (Hstep : forall i part1, parts1 !! i = Some part1 ->
            valid_part (nth i svs []) part1 /\
            (i = 0 -> conj = true -> conj_closed (nth 0 svs []) part1)).
  { intros i part1 Hi.
    assert (Hlt : i < length parts) by (rewrite <- Hlen1; eapply lookup_lt_Some; eauto).
    destruct (lookup_lt_is_Some_2 parts i Hlt) as [part Hp].
    destruct (Hchar i part Hp) as (new & Hnew & Hp1).
    rewrite Hi in Hp1. injection Hp1 as ->.
    apply (greedy_new_valid conj svs max_itpl greedy_idx i part new).
    - apply Hg. lia.
    - now apply Hv.
    - intros -> Hcj. split; [now apply Hsv|]. now apply Hcl.
    - exact Hnew. }
  split; [congruence|]. split.
  - intros i part1 Hi. apply (Hstep i part1 Hi).
  - intros Hcj part1 Hi. now apply (Hstep 0 part1 Hi).
Qed.

(** When [_post_processing] succeeds, every slot of the partition holds a
    prefix of the list it held. *)
Lemma post_processing_prefix smp svs p d tol s refs parts :
  has_parts s p refs parts -> length parts = length svs ->
  match _post_processing K smp svs p d tol s with
  | Done None s' => s' = s
  | Done (Some (c, q)) s' =>
      q = p /\ exists refs' parts',
        has_parts s' p refs' parts' /\ length parts' = length parts /\
        forall i part, parts !! i = Some part -> exists m, parts' !! i = Some (take m part)
  | Fail e s' => True
  end.
Proof.
  intros H Hlen. unfold _post_processing.
  rewrite (bind_Done _ _ _ _ _ (read_parts_has _ _ _ _ H)).
  destruct (max_rks_of K smp svs parts tol) as [max_rks|e] eqn:Emr;
    [|rewrite (bind_Fail _ _ _ _ _ (lift_Raise _ _)); exact I].
  rewrite (bind_Done _ _ _ _ _ (lift_Ok _ _)).
  destruct (_ || _); [reflexivity|].
  set (mr := <[_ := _]> max_rks).
  assert (Hmr : length mr = length parts).
  { unfold mr. rewrite length_insert. unfold max_rks_of in Emr.
    apply mapM_res_length in Emr. rewrite Emr, length_seq. lia. }
  destruct (truncate_for_each_exact p mr (length mr) 0 s refs parts H ltac:(lia))
    as (s' & refs' & parts' & E & H' & Hl' & Hchar).
  rewrite (bind_Done _ _ _ _ _ E).
  rewrite (bind_Done _ _ _ _ _ (read_parts_has _ _ _ _ H')).
  destruct (full_nd_loewner smp svs parts') as [L|e].
  - rewrite (bind_Done _ _ _ _ _ (lift_Ok _ _)). cbn.
    split; [reflexivity|]. exists refs', parts'. split; [exact H'|]. split; [exact Hl'|].
    intros i part Hi. rewrite (Hchar i part Hi).
    destruct (slice_to_take part (nth i mr 0 + 1)%Z) as [m ->].
    destruct ((0 <=? i) && (i <? 0 + length mr)); [eauto|].
    exists (length part). now rewrite firstn_all.
  - rewrite (bind_Fail _ _ _ _ _ (lift_Raise _ _)). exact I.
Qed.

(** The partition a pass leaves behind: the greedy step appends to every
    slot, and a pass that exits may then have cut the slots to prefixes. *)
Lemma iter_update_prefix self env l1 err_mat s refs parts :
  wf_part s (l_itpl_part l1) refs parts ->
  length parts = length (e_svs env) ->
  let p := l_itpl_part l1 in
  let greedy_idx := unravel (map length (e_svs env)) (argmax err_mat) in
  match iter_update K self env l1 err_mat s with
  | Fail e s' => True
  | Done st s' =>
      exists parts1,
        length parts1 = length parts /\
        (forall i part, parts !! i = Some part ->
           exists new, greedy_new (conjugate self) (e_svs env) (e_max_itpl env) greedy_idx i part
                       = Ok new /\ parts1 !! i = Some (part ++ new)) /\
        match st with
        | Continue l' => l_itpl_part l' = p /\ wf_part s' p refs parts1
        | Exit r l' =>
            l_itpl_part l' = p /\
            exists parts2,
              read_parts p s' = Done parts2 s' /\ length parts2 = length parts /\
              forall i part1, parts1 !! i = Some part1 ->
                exists m, parts2 !! i = Some (take m part1)
        end
  end.
Proof.
  intros W Hlen p greedy_idx. unfold iter_update. fold p. fold greedy_idx.
  rewrite <- Hlen.
  destruct (greedy_append_wf (conjugate self) (e_svs env) (e_max_itpl env) greedy_idx
              s p refs parts W)
    as [(s1 & parts1 & E & W1 & O & Hchar)|(e & s1 & i & part & E & _)];
    [|rewrite (bind_Fail _ _ _ _ _ E); exact I].
  rewrite (bind_Done _ _ _ _ _ E).
  rewrite (bind_Done _ _ _ _ _ (read_parts_wf _ _ _ _ W1)).
  destruct (full_nd_loewner (e_samples env) (e_svs env) parts1) as [L|e] eqn:EL;
    [|rewrite (bind_Fail _ _ _ _ _ (lift_Raise _ _)); exact I].
  rewrite (bind_Done _ _ _ _ _ (lift_Ok _ _)).
  destruct (null_dim (fst (svd_last K L)) (nsp_tol self)) as [d_nsp|e] eqn:Ed;
    [|rewrite (bind_Fail _ _ _ _ _ (lift_Raise _ _)); exact I].
  rewrite (bind_Done _ _ _ _ _ (lift_Ok _ _)).
  assert (Hlen1 : length parts1 = length parts).
  { rewrite <- (wf_length _ _ _ _ W1). apply (wf_length _ _ _ _ W). }
  assert (Hsame : forall i part1, parts1 !! i = Some part1 ->
            exists m, parts1 !! i = Some (take m part1)).
  { intros i part1 Hi. exists (length part1). now rewrite firstn_all. }
  unfold nonminimal_branch.
  destruct (Nat.ltb_spec 1 d_nsp) as [Hgt|Hle].
  - destruct (post_process self) eqn:Epp.
    + pose proof (post_processing_prefix (e_samples env) (e_svs env) p (Z.of_nat d_nsp)
                    (L_rk_tol self) s1 refs parts1 (wf_has_parts _ _ _ _ W1)
                    ltac:(congruence)) as Hpp.
      unfold mbind at 1, st_bind, bind. unfold mbind at 1, st_bind, bind.
      destruct (_post_processing K (e_samples env) (e_svs env) p (Z.of_nat d_nsp)
                  (L_rk_tol self) s1) as [[[c q]|] s2|e s2]; [| |exact I].
      * destruct Hpp as (-> & refs' & parts2 & H2 & Hl2 & Hch2).
        cbn [ret fst snd].
        rewrite (bind_Done _ _ _ _ _ (read_parts_has _ _ _ _ H2)).
        destruct (Nat.leb_spec 1 d_nsp) as [_|]; [|lia]. cbn [andb ret].
        exists parts1. split; [exact Hlen1|]. split; [exact Hchar|].
        split; [reflexivity|].
        exists parts2. split; [now apply read_parts_has with refs'|].
        split; [congruence|exact Hch2].
      * subst s2. cbn [ret fst snd].
        rewrite (bind_Done _ _ _ _ _ (read_parts_wf _ _ _ _ W1)).
        destruct (Nat.leb_spec 1 d_nsp) as [_|]; [|lia]. cbn [andb ret].
        exists parts1. split; [exact Hlen1|]. split; [exact Hchar|].
        split; [reflexivity|].
        exists parts1. split; [now apply read_parts_wf with refs|].
        split; [exact Hlen1|exact Hsame].
    + unfold mbind at 1, st_bind, bind. cbn [ret fst snd].
      rewrite (bind_Done _ _ _ _ _ (read_parts_wf _ _ _ _ W1)). cbn [andb ret].
      exists parts1. split; [exact Hlen1|]. split; [exact Hchar|].
      split; [reflexivity|exact W1].
  - unfold mbind at 1, st_bind, bind. cbn [ret fst snd].
    rewrite (bind_Done _ _ _ _ _ (read_parts_wf _ _ _ _ W1)).
    destruct (post_process self) eqn:Epp; cbn [andb].
    + destruct (Nat.leb_spec 1 d_nsp) as [Hge|Hlt]; cbn [ret].
      * exists parts1. split; [exact Hlen1|]. split; [exact Hchar|].
        split; [reflexivity|].
        exists parts1. split; [now apply read_parts_wf with refs|].
        split; [exact Hlen1|exact Hsame].
      * exists parts1. split; [exact Hlen1|]. split; [exact Hchar|].
        split; [reflexivity|exact W1].
    + cbn [ret]. exists parts1. split; [exact Hlen1|]. split; [exact Hchar|].
      split; [reflexivity|exact W1].
Qed.

(** What a pass of the loop leaves of a valid partition. *)
Lemma reduce_iter_valid self env l s refs parts st s' :
  wf_part s (l_itpl_part l) refs parts ->
  (conjugate self = true -> NoDup (nth 0 (e_svs env) [])) ->
  valid_parts (conjugate self) (e_svs env) parts ->
  reduce_iter K self env l s = Done st s' ->
  l_itpl_part (step_locals st) = l_itpl_part l /\
  match st with
  | Continue _ =>
      exists parts', wf_part s' (l_itpl_part l) refs parts' /\
                     valid_parts (conjugate self) (e_svs env) parts'
  | Exit _ _ =>
      exists parts', read_parts (l_itpl_part l) s' = Done parts' s' /\
                     length parts' = length (e_svs env) /\
                     forall i part, parts' !! i = Some part -> valid_part (nth i (e_svs env) []) part
  end.
Proof.
  intros W Hsv V H. pose proof V as (Hlen & Hv & _). unfold reduce_iter in H.
  rewrite (bind_Done _ _ _ _ _ (read_parts_wf _ _ _ _ W)) in H.
  destruct (any_room parts (e_max_itpl env)); cbn [negb] in H.
  2:{ injection H as <- <-. split; [reflexivity|]. exists parts.
      split; [now apply read_parts_wf with refs|]. split; assumption. }
  destruct (np_max (masked_err K env (l_bary l) parts)) as [err|e] eqn:Emax;
    [|rewrite (bind_Fail _ _ _ _ _ (lift_Raise _ _)) in H; discriminate].
  rewrite (bind_Done _ _ _ _ _ (lift_Ok _ _)) in H.
  destruct (mleb err (e_rel_tol env)).
  { injection H as <- <-. split; [reflexivity|]. exists parts.
    split; [now apply read_parts_wf with refs|]. split; assumption. }
  assert (Hne : masked_err K env (l_bary l) parts <> []).
  { intros E0. rewrite E0 in Emax. discriminate. }
  pose proof (iter_update_prefix self env (log_step l parts)
                (masked_err K env (l_bary l) parts) s refs parts W Hlen) as Hspec.
  cbv zeta in Hspec. rewrite H in Hspec. cbn [log_step l_itpl_part] in Hspec.
  destruct Hspec as (parts1 & Hlen1 & Hchar & Hst).
  assert (V1 : valid_parts (conjugate self) (e_svs env) parts1).
  { eapply greedy_append_valid; [|exact Hsv|exact V|exact Hlen1|exact Hchar].
    intros i Hi. apply greedy_idx_range; [exact Hne|apply masked_err_length|exact Hi]. }
  destruct st as [l'|r l']; cbn [step_locals].
  - destruct Hst as [Hp W1]. split; [exact Hp|]. exists parts1. now split.
  - destruct Hst as (Hp & parts2 & Hr & Hlen2 & Hpre). split; [exact Hp|].
    exists parts2. split; [exact Hr|]. split; [congruence|].
    intros i part2 Hi.
    assert (Hlt : i < length parts1) by (rewrite Hlen1, <- Hlen2; eapply lookup_lt_Some; eauto).
    destruct (lookup_lt_is_Some_2 parts1 i Hlt) as [part1 Hp1].
    destruct (Hpre i part1 Hp1) as [m Hm]. rewrite Hi in Hm. injection Hm as ->.
    apply valid_part_take. destruct V1 as (_ & Hv1 & _). now apply Hv1.
Qed.

Lemma reduce_loop_valid self env fuel :
  forall l s refs parts r l' s',
  wf_part s (l_itpl_part l) refs parts ->
  (conjugate self = true -> NoDup (nth 0 (e_svs env) [])) ->
  valid_parts (conjugate self) (e_svs env) parts ->
  reduce_loop K fuel self env l s = Some (Done (r, l') s') ->
  l_itpl_part l' = l_itpl_part l /\
  exists parts', read_parts (l_itpl_part l) s' = Done parts' s' /\
                 length parts' = length (e_svs env) /\
                 forall i part, parts' !! i = Some part -> valid_part (nth i (e_svs env) []) part.
Proof.
  induction fuel as [|fuel IH]; intros l s refs parts r l' s' W Hsv V H; [discriminate|].
  cbn [reduce_loop] in H.
  destruct (reduce_iter K self env l s) as [[l1|r1 l1] s1|e s1] eqn:E; [| |discriminate].
  - destruct (reduce_iter_valid _ _ _ _ _ _ _ _ W Hsv V E) as (Hp & parts1 & W1 & V1).
    cbn [step_locals] in Hp. rewrite <- Hp in W1.
    destruct (IH _ _ _ _ _ _ _ W1 Hsv V1 H) as (Hp' & Hres). rewrite Hp in Hp', Hres.
    split; assumption.
  - injection H as <- <- <-.
    destruct (reduce_iter_valid _ _ _ _ _ _ _ _ W Hsv V E) as (Hp & Hres).
    split; assumption.
Qed.

Lemma pure_reduce_final (pr : prepared) (l : locals) : pure_st (reduce_final pr l).
Proof.
  unfold reduce_final. apply pure_bind.
  - destruct (_ || _); [|apply pure_ret].
    apply pure_bind; [apply pure_read_parts|]. intros parts. apply pure_ret.
  - intros mv. destruct (l_form l) as [[[n v] c]|]; [apply pure_ret|apply pure_raise].
Qed.

(** The partition [reduce] builds. When [reduce] is called without a
    partition, on samples whose shape is that of the grid, and returns a
    reduced model, [self.itpl_part] holds, for every variable, pairwise
    distinct indices into the sampling values of that variable (as
    extended by the conjugates); with enforced conjugates this needs the
    sampling values of variable 0 to be pairwise distinct. *)
Theorem reduce_partition_valid (fuel : nat) (self : reductor) (tol : M)
    (max_itpl : option (list Z)) (s s1 s' : store) (pr : prepared) (r : rom) (l : locals) :
  reduce_init K self tol None max_itpl s = Done pr s1 ->
  shape (e_samples (p_env pr)) = map length (e_svs (p_env pr)) ->
  (conjugate self = true -> NoDup (nth 0 (e_svs (p_env pr)) [])) ->
  reduce K fuel self tol None max_itpl s = Some (Done (r, l) s') ->
  exists parts,
    read_parts (l_itpl_part l) s' = Done parts s' /\
    Forall2 (fun part sv => NoDup part /\ Forall (fun j => j < length sv) part)
            parts (e_svs (p_env pr)).
Proof.
  unfold reduce. intros Einit _ Hsv H. rewrite Einit in H.
  destruct (reduce_init_none K _ _ _ _ _ _ Einit) as (_ & refs & W).
  destruct (reduce_loop K fuel self (p_env pr) (p_locals pr) s1) as [[[r1 l1] s2|e s2]|] eqn:El;
    try discriminate.
  destruct (reduce_final pr l1 s2) as [rm s3|e s3] eqn:Ef; [|discriminate].
  injection H as <- <- <-.
  apply (pure_Done_store _ _ _ _ (pure_reduce_final pr l1)) in Ef. subst s3.
  assert (V0 : valid_parts (conjugate self) (e_svs (p_env pr))
                 (repeat [] (length (e_svs (p_env pr))))).
  { split; [apply repeat_length|]. split.
    - intros i part Hi.
      assert (Hlt : i < length (e_svs (p_env pr))).
      { apply lookup_lt_Some in Hi. now rewrite repeat_length in Hi. }
      rewrite lookup_repeat in Hi by exact Hlt. injection Hi as <-.
      split; constructor.
    - intros _ part Hi j c Hj.
      assert (Hlt : 0 < length (e_svs (p_env pr))).
      { apply lookup_lt_Some in Hi. now rewrite repeat_length in Hi. }
      rewrite lookup_repeat in Hi by exact Hlt. injection Hi as <-. destruct Hj. }
  destruct (reduce_loop_valid _ _ _ _ _ _ _ _ _ _ W Hsv V0 El)
    as (Hp & parts & Hr & Hlen & Hv).
  exists parts. rewrite Hp. split; [exact Hr|].
  apply Forall2_same_length_lookup_2; [exact Hlen|].
  intros i part sv Hi Hs. specialize (Hv i part Hi).
  rewrite (nth_lookup_Some _ _ [] _ Hs) in Hv. exact Hv.
Qed.

End ValidPartitionFacts.

Module GaussConjugateFacts.
Import Gauss GaussFacts.
#[local] Open Scope Qc_scope.

Lemma Qc_opp_fixed (a : Qc) : - a = a -> a = 0.
Proof.
  intros H.
  assert (E : a * (1 + 1) = 0).
  { replace (a * (1 + 1)) with (a - - a) by ring. rewrite H. ring. }
  destruct (Qcmult_integral _ _ E) as [E1|E2]; [exact E1|].
  apply (f_equal (fun q => Qnum (this q))) in E2. vm_compute in E2. discriminate E2.
Qed.

Lemma gimag_conj (x : gauss) : gimag_nonzero (gconj x) = gimag_nonzero x.
Proof.
  unfold gimag_nonzero, gconj. cbn [im]. f_equal.
  destruct (Qc_eq_bool (im x) 0) eqn:E.
  - apply Qc_eq_bool_eq in E. rewrite E. apply Qc_eq_bool_eq. ring.
  - destruct (Qc_eq_bool (- im x) 0) eqn:E2; [|reflexivity].
    apply Qc_eq_bool_eq in E2.
    assert (E3 : im x = 0) by (replace (im x) with (- - im x) by ring; rewrite E2; ring).
    apply Qc_eq_bool_eq in E3. congruence.
Qed.

Lemma gconj_moves (x : gauss) : gimag_nonzero x = true -> gconj x <> x.
Proof.
  intros H E. apply (f_equal im) in E. cbn [gconj im] in E.
  apply Qc_opp_fixed in E. unfold gimag_nonzero in H. rewrite E, Qc_eq_bool_refl in H.
  discriminate H.
Qed.

End GaussConjugateFacts.

(** ** Runs on Gaussian rationals *)

Module Examples.
Import Gauss GaussFacts.

(** The real number [z] and the imaginary number [z * 1j]. *)
Definition rz (z : Z) : gauss := real (inject_Z z).
Definition iz (z : Z) : gauss := imag (inject_Z z).

(** The square that stands for the magnitude [n / d]. *)
Definition sq (n d : Z) : Qc := Q2Qc (Qmake (n * n) (Z.to_pos (d * d))).

Ltac gauss_neq :=
  let E := fresh "E" in
  intros E;
  first [ apply (f_equal (fun g => Qnum (this (re g)))) in E; vm_compute in E; discriminate E
        | apply (f_equal (fun g => Qnum (this (im g)))) in E; vm_compute in E; discriminate E ].

Ltac nodup_gauss :=
  repeat (apply NoDup_cons_2;
          [ rewrite ?not_elem_of_cons; repeat split; try gauss_neq; apply not_elem_of_nil | ]);
  apply NoDup_nil_2.

Ltac nodup_nat :=
  repeat (apply NoDup_cons_2;
          [ rewrite ?not_elem_of_cons; repeat split; try discriminate; apply not_elem_of_nil | ]);
  apply NoDup_nil_2.

(** Equations between closed terms, by evaluation of the left-hand side. *)
Ltac vm_refl :=
  match goal with
  | |- ?l = ?r => let v := eval vm_compute in l in exact (@eq_refl _ v <: l = r)
  end.

(** *** A Loewner matrix in two variables *)

Definition ex3_svs : list (list gauss) := [map rz [0; 1; 2]%Z; map rz [0; 1]%Z].
Definition ex3_samples : ndarray := mk_ndarray [3; 2] (map rz [1; 2; 3; 5; 8; 13]%Z).
Definition ex3_part : list (list nat) := [[0]; [0]].

Lemma nd_loewner_entries_witness :
  nd_loewner ex3_samples ex3_svs ex3_part
  = Ok (map (fun rs => map (fun cs => loewner_entry ex3_samples ex3_svs rs cs)
                           (product ex3_part))
            (product (_ls_part ex3_part ex3_svs))).
Proof.
  apply (nd_loewner_entries ex3_samples ex3_svs ex3_part).
  - simpl. lia.
  - reflexivity.
  - reflexivity.
  - vm_compute. discriminate.
  - vm_compute. discriminate.
Defined.

(** *** The barycentric form at a node combination *)

Definition ex4_nodes : list (list gauss) := [map rz [0; 1]%Z; map rz [0; 2; 5]%Z].
Definition ex4_vals : list (list gauss) :=
  map (fun z => [rz z; rz (10 + z)]) [0; 1; 2; 3; 4; 5]%Z.
Definition ex4_coefs : list gauss := map rz [1; 2; 3; 4; 5; 6]%Z.
Definition ex4_tol : Qc := sq 1 100000000000000.
Definition ex4_ks : list nat := [1; 2].
Definition ex4_args : list gauss := zip_with (fun k nodes => nth k nodes fzero) ex4_ks ex4_nodes.


(** *** The numerical kernels on the matrices of the runs *)

(** What LAPACK returns on the Loewner matrices that arise below, the
    singular values kept as squares and the singular vector up to its
    normalisation (the barycentric form cancels it): a single column has
    its norm as singular value; a matrix with two columns all of whose rows
    are multiples of (1, 1) has its Frobenius norm and zero, the kernel
    being spanned by (1, -1); the matrix with three columns of the run of
    the failing post-processing has the singular values sqrt(85/18),
    sqrt(2), sqrt(2) and (3, -2, 0) in the eigenspace of the smallest. *)
Definition frobenius2 (L : matrix) : Qc :=
  fold_right Qcplus 0%Qc (map gnorm2 (concat L)).

Definition lapack_svd (L : matrix) : list Qc * list gauss :=
  match length (hd [] L) with
  | 1 => ([frobenius2 L], [gone])
  | 2 => ([frobenius2 L; 0%Qc], [rz 1; rz (-1)])
  | 3 => ([Q2Qc (85 # 18); Q2Qc 2; Q2Qc 2], [rz 3; rz (-2); rz 0])
  | _ => ([], [])
  end.

(** The rank of a single column: one when its norm exceeds the tolerance. *)
Definition lapack_rank (L : matrix) (tol : Qc) : nat :=
  match length (hd [] L) with
  | 1 => if qltb tol (frobenius2 L) then 1 else 0
  | _ => 0
  end.

Definition lapack : numerics := {|
  svd_last := lapack_svd;
  matrix_rank := lapack_rank;
  new_rng_vectors := fun _ _ _ => ([], []);
  default_removable_singularity_tol := sq 1 100000000000000
|}.

(** *** The identity sampled at 0, 1, 2, 3 *)

Definition ex1_store : store :=
  [OVec (map rz [0; 1; 2; 3]%Z); OList [0]; OTensor (mk_ndarray [4] (map rz [0; 1; 2; 3]%Z))].

Definition ex1_self : reductor := {|
  sampling_values := 1; samples := 2; conjugate := false; nsp_tol := sq 1 10000;
  post_process := true; L_rk_tol := sq 1 100000000; num_vars := 1
|}.

Definition ex1_tol : Qc := sq 1 100.

(** The second pass of this run finds the error 3 above the threshold
    0.03, extends the partition to [0, 3], finds the Loewner matrix of
    rank one and leaves the loop, logging convergence. *)
Lemma nullspace_exit_above_threshold :
  exists pr s1 l1 s2 l2 s3 err,
    reduce_init lapack ex1_self ex1_tol None None ex1_store = Done pr s1 /\
    reduce_iter lapack ex1_self (p_env pr) (p_locals pr) s1 = Done (Continue l1) s2 /\
    read_parts (l_itpl_part l1) s2 = Done [[0]] s2 /\
    any_room [[0]] (e_max_itpl (p_env pr)) = true /\
    np_max (masked_err lapack (p_env pr) (l_bary l1) [[0]]) = Ok err /\
    mleb err (e_rel_tol (p_env pr)) = false /\
    reduce_iter lapack ex1_self (p_env pr) l1 s2 = Done (Exit NullspaceConverged l2) s3 /\
    List.last (l_log l2) (LogStep 0 []) = LogConvergedNullspace /\
    read_parts (l_itpl_part l2) s3 = Done [[0; 3]] s3.
Proof.
  let r0 := eval vm_compute in (reduce_init lapack ex1_self ex1_tol None None ex1_store) in
  match r0 with
  | Done ?pr ?s1 =>
      let r1 := eval vm_compute in (reduce_iter lapack ex1_self (p_env pr) (p_locals pr) s1) in
      match r1 with
      | Done (Continue ?l1) ?s2 =>
          let r2 := eval vm_compute in (reduce_iter lapack ex1_self (p_env pr) l1 s2) in
          let e := eval vm_compute in (np_max (masked_err lapack (p_env pr) (l_bary l1) [[0]])) in
          match r2 with
          | Done (Exit _ ?l2) ?s3 =>
              match e with Ok ?err => exists pr, s1, l1, s2, l2, s3, err end
          end
      end
  end.
  repeat split; vm_refl.
Qed.

Lemma stopping_criterion_witness :
  exists pr s1,
    reduce_init lapack ex1_self ex1_tol None None ex1_store = Done pr s1 /\
    exists max_samples,
      np_max (map fabs (data (p_samples_orig pr))) = Ok max_samples /\
      forall l s parts err,
        read_parts (l_itpl_part l) s = Done parts s ->
        any_room parts (e_max_itpl (p_env pr)) = true ->
        np_max (masked_err lapack (p_env pr) (l_bary l) parts) = Ok err ->
        ((exists l' s',
            reduce_iter lapack ex1_self (p_env pr) l s = Done (Exit ToleranceReached l') s')
         <-> mleb err (mmul ex1_tol max_samples) = true)
        /\ (forall r l' s',
              reduce_iter lapack ex1_self (p_env pr) l s = Done (Exit r l') s' ->
              r = ToleranceReached \/ (r = NullspaceConverged /\ post_process ex1_self = true)).
Proof.
  assert (H : exists pr s1,
             reduce_init lapack ex1_self ex1_tol None None ex1_store = Done pr s1).
  { let r0 := eval vm_compute in (reduce_init lapack ex1_self ex1_tol None None ex1_store) in
    match r0 with Done ?pr ?s1 => exists pr, s1 end. vm_refl. }
  destruct H as (pr & s1 & H). exists pr, s1. split; [exact H|].
  exact (stopping_criterion lapack ex1_self ex1_tol None None ex1_store s1 pr H).
Defined.

(** *** The same samples with a partition object of the caller *)

Definition ex10_store : store := ex1_store ++ [OInts []; OList [3]].


(** *** The loop from its initial state *)

Definition ex2_env : loop_env := {|
  e_svs := [map rz [0; 1; 2; 3]%Z];
  e_samples := mk_ndarray [4] (map rz [0; 1; 2; 3]%Z);
  e_rel_tol := sq 3 100;
  e_max_itpl := [3%Z]
|}.

Definition ex2_locals : locals := {|
  l_itpl_part := 1; l_bary := BaryConst (real (3 # 2)); l_form := None; l_j := 0; l_log := []
|}.

Definition ex2_store : store := [OInts []; OList [0]].

Definition ex2_parts : list (list nat) := [[]].

Lemma greedy_loop_terminates_witness :
  (forall l' s', reduce_iter lapack ex1_self ex2_env ex2_locals ex2_store = Done (Continue l') s' ->
     exists parts',
       read_parts (l_itpl_part l') s' = Done parts' s' /\
       exists i part part',
         ex2_parts !! i = Some part /\ parts' !! i = Some part' /\
         (Z.of_nat (length part) < nth i (e_max_itpl ex2_env) 0)%Z /\
         length part < length part')
  /\ exists out, reduce_loop lapack 4 ex1_self ex2_env ex2_locals ex2_store = Some out.
Proof.
  destruct (greedy_loop_terminates lapack ex1_self ex2_env ex2_locals ex2_store [0] ex2_parts)
    as (_ & Hgrow & Hend & _).
  - split; [reflexivity|]. split; [nodup_nat|]. repeat constructor.
  - split; [reflexivity|]. split; [reflexivity|]. vm_refl.
  - split; [exact Hgrow|exact Hend].
Defined.

(** *** Constant samples and a negative tolerance *)

Definition ex2_neg_store : store :=
  [OVec (map rz [0; 1; 2]%Z); OList [0]; OTensor (mk_ndarray [3] (map rz [1; 1; 1]%Z))].

Definition ex2_neg_self : reductor := {|
  sampling_values := 1; samples := 2; conjugate := false; nsp_tol := sq 1 10000;
  post_process := false; L_rk_tol := sq 1 100000000; num_vars := 1
|}.

Definition ex2_neg_tol : Qc := Q2Qc (-1).

(** With the tolerance -1 the threshold is negative, so an error of zero
    does not stop the loop. The first pass interpolates the constant
    samples at index 0; every later pass finds the error zero everywhere,
    selects index 0 again, which is already in the partition, and changes
    nothing: the loop never ends. *)
Lemma negative_tolerance_never_exits :
  (exists pr s1,
     reduce_init lapack ex2_neg_self ex2_neg_tol None None ex2_neg_store = Done pr s1 /\
     mltb (e_rel_tol (p_env pr)) mzero = true /\
     forall fuel, reduce_loop lapack fuel ex2_neg_self (p_env pr) (p_locals pr) s1 = None)
  /\ forall fuel, reduce lapack fuel ex2_neg_self ex2_neg_tol None None ex2_neg_store = None.
Proof.
  assert (H : exists pr s1,
     reduce_init lapack ex2_neg_self ex2_neg_tol None None ex2_neg_store = Done pr s1 /\
     mltb (e_rel_tol (p_env pr)) mzero = true /\
     forall fuel, reduce_loop lapack fuel ex2_neg_self (p_env pr) (p_locals pr) s1 = None).
  { let r0 := eval vm_compute in
        (reduce_init lapack ex2_neg_self ex2_neg_tol None None ex2_neg_store) in
    match r0 with
    | Done ?pr ?s1 =>
        exists pr, s1; split; [vm_refl|]; split; [vm_refl|];
        let r1 := eval vm_compute in
            (reduce_iter lapack ex2_neg_self (p_env pr) (p_locals pr) s1) in
        match r1 with
        | Done (Continue ?l1) ?s2 =>
            assert (H1 : reduce_iter lapack ex2_neg_self (p_env pr) (p_locals pr) s1
                         = Done (Continue l1) s2) by vm_refl;
            assert (Hstep : forall j log,
                      exists log',
                        reduce_iter lapack ex2_neg_self (p_env pr)
                          {| l_itpl_part := l_itpl_part l1; l_bary := l_bary l1;
                             l_form := l_form l1; l_j := j; l_log := log |} s2
                        = Done (Continue
                                  {| l_itpl_part := l_itpl_part l1; l_bary := l_bary l1;
                                     l_form := l_form l1; l_j := S j; l_log := log' |}) s2)
              by (intros j log; exists ((log ++ [LogStep (S j) [1]]) ++ []); vm_refl);
            assert (Hloop : forall fuel j log,
                      reduce_loop lapack fuel ex2_neg_self (p_env pr)
                        {| l_itpl_part := l_itpl_part l1; l_bary := l_bary l1;
                           l_form := l_form l1; l_j := j; l_log := log |} s2 = None)
              by (induction fuel as [|fuel IH]; intros j log; [reflexivity|];
                  destruct (Hstep j log) as [log' E];
                  cbn [reduce_loop]; rewrite E; apply IH);
            intros [|fuel]; [reflexivity|];
            cbn [reduce_loop]; rewrite H1; apply (Hloop fuel 1 [LogStep 1 [0]])
        end
    end. }
  split; [exact H|].
  destruct H as (pr & s1 & E & _ & Hl). intros fuel. unfold reduce. rewrite E, Hl. reflexivity.
Qed.

(** *** Samples on a 3 x 3 grid *)

Definition ex5_store : store :=
  [OVec (map rz [0; 1; 2]%Z); OVec (map rz [0; 1; 2]%Z); OList [0; 1];
   OTensor (mk_ndarray [3; 3] (map rz [9; 0; 1; 1; 2; 0; 0; 0; 5]%Z))].

Definition ex5_self : reductor := {|
  sampling_values := 2; samples := 3; conjugate := false; nsp_tol := sq 1 10000;
  post_process := false; L_rk_tol := sq 1 100000000; num_vars := 2
|}.

Definition ex5_tol : Qc := sq 1 1000.

(** The first pass selects (0, 0). In the second pass the largest masked
    error, 9, is first met at (0, 1): the partition of variable 0 holds one
    index of the two it may hold, and stays as it is, since index 0 is a
    member already; only variable 1 is extended. *)
Lemma greedy_step_skips_member :
  exists pr s1 l1 s2 err s3,
    reduce_init lapack ex5_self ex5_tol None None ex5_store = Done pr s1 /\
    e_max_itpl (p_env pr) = [2; 2]%Z /\
    reduce_iter lapack ex5_self (p_env pr) (p_locals pr) s1 = Done (Continue l1) s2 /\
    read_parts (l_itpl_part l1) s2 = Done [[0]; [0]] s2 /\
    np_max (masked_err lapack (p_env pr) (l_bary l1) [[0]; [0]]) = Ok err /\
    mleb err (e_rel_tol (p_env pr)) = false /\
    unravel (map length (e_svs (p_env pr)))
            (argmax (masked_err lapack (p_env pr) (l_bary l1) [[0]; [0]])) = [0; 1] /\
    greedy_append (conjugate ex5_self) (e_svs (p_env pr)) (e_max_itpl (p_env pr)) [0; 1]
                  (l_itpl_part l1) 2 s2 = Done tt s3 /\
    read_parts (l_itpl_part l1) s3 = Done [[0]; [0; 1]] s3.
Proof.
  let r0 := eval vm_compute in (reduce_init lapack ex5_self ex5_tol None None ex5_store) in
  match r0 with
  | Done ?pr ?s1 =>
      let r1 := eval vm_compute in (reduce_iter lapack ex5_self (p_env pr) (p_locals pr) s1) in
      match r1 with
      | Done (Continue ?l1) ?s2 =>
          let e := eval vm_compute in
              (np_max (masked_err lapack (p_env pr) (l_bary l1) [[0]; [0]])) in
          let r2 := eval vm_compute in
              (greedy_append false (e_svs (p_env pr)) (e_max_itpl (p_env pr)) [0; 1]
                             (l_itpl_part l1) 2 s2) in
          match r2 with
          | Done _ ?s3 => match e with Ok ?err => exists pr, s1, l1, s2, err, s3 end
          end
      end
  end.
  repeat split; vm_refl.
Qed.

(** *** A greedy step on a grid of conjugate pairs *)

Definition ex5_conj_svs : list (list gauss) := [map iz [1; -1; 2; -2]%Z; map rz [0; 1]%Z].
Definition ex5_conj_err : list Qc := map (fun z => Q2Qc (inject_Z z)) [1; 1; 1; 1; 4; 4; 4; 4]%Z.
Definition ex5_conj_store : store := [OInts []; OInts []; OList [0; 1]].
Definition ex5_conj_parts : list (list nat) := [[]; []].

Lemma greedy_step_extends_partition_witness :
  unravel (map length ex5_conj_svs) (argmax ex5_conj_err) = [2; 0]
  /\ exists s' parts',
       greedy_append true ex5_conj_svs [3; 1]%Z [2; 0] 2 2 ex5_conj_store = Done tt s' /\
       wf_part s' 2 [0; 1] parts' /\
       parts' !! 0 = Some [2; 3] /\
       parts' !! 1 = Some [0].
Proof.
  destruct (greedy_step_extends_partition (Sc := gauss_scalar) true ex5_conj_svs [3; 1]%Z
              ex5_conj_err ex5_conj_store 2 [0; 1] ex5_conj_parts)
    as [_ (s' & parts' & E & W & _ & Hchar)].
  - split; [reflexivity|]. split; [nodup_nat|]. repeat constructor.
  - reflexivity.
  - reflexivity.
  - discriminate.
  - intros _ _. exists 3. vm_refl.
  - split; [vm_refl|]. exists s', parts'. split; [exact E|]. split; [exact W|].
    split; [exact (Hchar 0 [] eq_refl)|exact (Hchar 1 [] eq_refl)].
Defined.

(** *** Conjugate pairs and the cap of variable 0 *)

Definition ex9_store : store :=
  [OVec (map iz [1; -1; 2; -2]%Z); OList [0];
   OTensor (mk_ndarray [4] (map iz [1; -1; 2; -2]%Z))].

Definition ex9_self : reductor := {|
  sampling_values := 1; samples := 2; conjugate := true; nsp_tol := sq 1 10000;
  post_process := false; L_rk_tol := sq 1 100000000; num_vars := 1
|}.

Definition ex9_tol : Qc := sq 1 100.

(** C9. After any pass, the partition of a variable other than 0, and that
    of variable 0 when conjugates are not enforced, has at most
    [max_itpl[i]] entries if it had at most that many before the pass; the
    partition of variable 0 has at most [max_itpl[0] + 1] entries if it had
    at most that many before. The bound [max_itpl[0] + 1] is reached: with
    conjugates enforced, the sampling values 1j, -1j, 2j, -2j, the identity
    as samples and [max_itpl = [1]], [reduce] returns with the partition
    [2, 3] of variable 0. *)
Theorem partition_size_bound :
  (forall (Sc : Scalar) (K : numerics) (self : reductor) (env : loop_env) (l : locals)
          (s : store) (refs : list loc) (parts : list (list nat)) (st : step) (s' : store),
     wf_part s (l_itpl_part l) refs parts ->
     length parts = length (e_svs env) ->
     reduce_iter K self env l s = Done st s' ->
     exists parts',
       read_parts (l_itpl_part (step_locals st)) s' = Done parts' s' /\
       length parts' = length parts /\
       forall i part part', parts !! i = Some part -> parts' !! i = Some part' ->
         (i <> 0 \/ conjugate self = false ->
          (Z.of_nat (length part) <= nth i (e_max_itpl env) 0)%Z ->
          (Z.of_nat (length part') <= nth i (e_max_itpl env) 0)%Z)
         /\ ((Z.of_nat (length part) <= nth i (e_max_itpl env) 0 + 1)%Z ->
             (Z.of_nat (length part') <= nth i (e_max_itpl env) 0 + 1)%Z))
  /\ exists r l s',
       reduce lapack 5 ex9_self ex9_tol None (Some [1%Z]) ex9_store = Some (Done (r, l) s') /\
       read_parts (l_itpl_part l) s' = Done [[2; 3]] s'.
Proof.
  split.
  - intros Sc K self env l s refs parts st s'. apply reduce_iter_bound.
  - let r0 := eval vm_compute in
        (reduce lapack 5 ex9_self ex9_tol None (Some [1%Z]) ex9_store) in
    match r0 with Some (Done (?r, ?l) ?s') => exists r, l, s' end.
    split; vm_refl.
Qed.

(** The first pass of that run, from the empty partition. *)
Lemma partition_size_bound_witness :
  exists pr s1 st s2 parts',
    reduce_init lapack ex9_self ex9_tol None (Some [1%Z]) ex9_store = Done pr s1 /\
    reduce_iter lapack ex9_self (p_env pr) (p_locals pr) s1 = Done st s2 /\
    read_parts (l_itpl_part (step_locals st)) s2 = Done parts' s2 /\
    (forall part', parts' !! 0 = Some part' -> (Z.of_nat (length part') <= 1 + 1)%Z).
Proof.
  let r0 := eval vm_compute in
      (reduce_init lapack ex9_self ex9_tol None (Some [1%Z]) ex9_store) in
  match r0 with
  | Done ?pr ?s1 =>
      let r1 := eval vm_compute in (reduce_iter lapack ex9_self (p_env pr) (p_locals pr) s1) in
      match r1 with
      | Done ?st ?s2 =>
          destruct (proj1 partition_size_bound gauss_scalar lapack ex9_self (p_env pr)
                      (p_locals pr) s1 [5] [[]] st s2) as (parts' & Hr & _ & Hb);
          [ split; [vm_refl|]; split; [nodup_nat|repeat constructor]
          | reflexivity
          | vm_refl
          | exists pr, s1, st, s2, parts';
            split; [vm_refl|]; split; [vm_refl|]; split; [exact Hr|];
            intros part' Hp; apply (proj2 (Hb 0 [] part' eq_refl Hp)); simpl; lia ]
      end
  end.
Defined.

(** *** A pass whose post-processing fails *)

(** The samples [f(s, p) = p] on the grid of 0, 1, 2, 3 and 0, 1, 2, the
    partition [[0, 1], [0]] of the caller, the caps [3, 1] and the
    nullspace tolerance 0.7. *)
Definition ex7_samples : ndarray :=
  mk_ndarray [4; 3] (map rz [0; 1; 2; 0; 1; 2; 0; 1; 2; 0; 1; 2]%Z).

Definition ex7_store : store :=
  [OVec (map rz [0; 1; 2; 3]%Z); OVec (map rz [0; 1; 2]%Z); OList [0; 1]; OTensor ex7_samples;
   OInts [0; 1]; OInts [0]; OList [4; 5]].

Definition ex7_self : reductor := {|
  sampling_values := 2; samples := 3; conjugate := false; nsp_tol := sq 7 10;
  post_process := true; L_rk_tol := sq 1 100000000; num_vars := 2
|}.

Definition ex7_tol : Qc := sq 1 10000000.

Lemma post_processing_failure_falls_back_witness :
  exists pr s1 l2 s2,
    reduce_init lapack ex7_self ex7_tol (Some 6) (Some [3; 1]%Z) ex7_store = Done pr s1 /\
    reduce_iter lapack ex7_self (p_env pr) (p_locals pr) s1
      = Done (Exit NullspaceConverged l2) s2 /\
    l_log l2 = [LogStep 1 [2; 1]; LogStartPostProcessing; LogPostProcessingFailed;
                LogConvergedNullspace] /\
    read_parts (l_itpl_part l2) s2 = Done [[0; 1; 2]; [0]] s2 /\
    _post_processing lapack (e_samples (p_env pr)) (e_svs (p_env pr)) 6 2 (L_rk_tol ex7_self) s2
      = Done None s2.
Proof.
  let r0 := eval vm_compute in
      (reduce_init lapack ex7_self ex7_tol (Some 6) (Some [3; 1]%Z) ex7_store) in
  match r0 with
  | Done ?pr ?s1 =>
      let parts := constr:([[0; 1]; [0]]) in
      let parts1 := constr:([[0; 1; 2]; [0]]) in
      let e := eval vm_compute in
          (np_max (masked_err lapack (p_env pr) (l_bary (p_locals pr)) parts)) in
      let g := eval vm_compute in
          (greedy_append false (e_svs (p_env pr)) (e_max_itpl (p_env pr)) [2; 0] 6 2 s1) in
      let m := eval vm_compute in
          (full_nd_loewner (e_samples (p_env pr)) (e_svs (p_env pr)) parts1) in
      match e with
      | Ok ?err =>
          match g with
          | Done _ ?s2 =>
              match m with
              | Ok ?L =>
                  destruct (post_processing_failure_falls_back lapack ex7_self (p_env pr)
                              (p_locals pr) s1 s2 parts parts1 err L 2 [2; 1]%Z)
                    as (Hs & _ & Hiter);
                  [ vm_refl | vm_refl | vm_refl | vm_refl | vm_refl | vm_refl | vm_refl
                  | vm_refl | lia | reflexivity | vm_refl | left; vm_refl
                  | exists pr, s1; do 2 eexists;
                    split; [vm_refl|]; split; [exact Hiter|];
                    split; [vm_refl|]; split; [vm_refl|exact Hs] ]
              end
          end
      end
  end.
Defined.

(** *** A run with conjugate augmentation *)

(** The samples [f(s, p) = s] at 1j, 2j and 0, 1. *)
Definition ex8_samples : ndarray := mk_ndarray [2; 2] (map iz [1; 1; 2; 2]%Z).

Definition ex8_store : store :=
  [OVec (map iz [1; 2]%Z); OVec (map rz [0; 1]%Z); OList [0; 1]; OTensor ex8_samples].

Definition ex8_self : reductor := {|
  sampling_values := 2; samples := 3; conjugate := true; nsp_tol := sq 1 10000;
  post_process := true; L_rk_tol := sq 1 100000000; num_vars := 2
|}.

Definition ex8_tol : Qc := sq 1 100.

Lemma reduce_preserves_input_witness :
  exists r l s',
    reduce lapack 5 ex8_self ex8_tol None None ex8_store = Some (Done (r, l) s') /\
    rom_nodes r = [map iz [2; -2]%Z; map rz [0]%Z] /\
    s' !! 2 = Some (OList [0; 1]) /\
    (forall r, r ∈ [0; 1] -> s' !! r = ex8_store !! r) /\
    s' !! 3 = Some (OTensor ex8_samples).
Proof.
  let r0 := eval vm_compute in (reduce lapack 5 ex8_self ex8_tol None None ex8_store) in
  match r0 with
  | Some (Done (?r, ?l) ?s') =>
      exists r, l, s'; split; [vm_refl|]; split; [vm_refl|];
      apply (reduce_preserves_input lapack 5 ex8_self ex8_tol None None ex8_store
               (Done (r, l) s') [0; 1] ex8_samples);
      [ reflexivity
      | repeat constructor; eexists; reflexivity
      | reflexivity
      | vm_refl ]
  end.
Defined.

Definition ex6_state : store := ex8_store ++ [OList [0; 1]; OTensor ex8_samples].

Lemma conjugate_augmentation_witness :
  exists smp1 s' items' l0',
    add_conjugates [0; 1] 4 ex8_samples ex6_state = Done smp1 s' /\
    s' !! 4 = Some (OList items') /\
    items' !! 0 = Some l0' /\
    s' !! l0' = Some (OVec (map iz [1; 2; -1; -2]%Z)) /\
    (forall x, In x (map iz [1; 2; -1; -2]%Z) -> In (fconj x) (map iz [1; 2; -1; -2]%Z)) /\
    shape smp1 = [4; 2] /\
    data smp1 = map iz [1; 1; 2; 2; -1; -1; -2; -2]%Z.
Proof.
  destruct (conjugate_augmentation gauss_laws [0; 1] 4 ex8_samples ex6_state 0
              (map iz [1; 2]%Z) 2 2 [])
    as (smp1 & s' & items' & l0' & E & H1 & H2 & H3 & H4 & H5 & H6).
  - reflexivity.
  - reflexivity.
  - reflexivity.
  - reflexivity.
  - simpl. lia.
  - exists smp1, s', items', l0'.
    split; [exact E|]. split; [exact H1|]. split; [exact H2|].
    split; [rewrite H3; f_equal; f_equal; vm_refl|].
    split; [|split].
    + intros x Hx.
      replace (map iz [1; 2; -1; -2]%Z)
        with (map iz [1; 2]%Z
              ++ map (fun ix => fconj (snd ix))
                     (lacking (map iz [1; 2]%Z) (enumerate (map iz [1; 2]%Z)))) in * by vm_refl.
      now apply H4.
    + rewrite H5. vm_refl.
    + rewrite H6. vm_refl.
Defined.

(** *** One-dimensional samples with conjugate augmentation *)

Definition ex6_store : store :=
  [OVec (map iz [1; 2]%Z); OList [0]; OTensor (mk_ndarray [2] (map iz [1; 2]%Z))].

Definition ex6_self : reductor := {|
  sampling_values := 1; samples := 2; conjugate := true; nsp_tol := sq 1 10000;
  post_process := true; L_rk_tol := sq 1 100000000; num_vars := 1
|}.

(** The samples of a transfer function with one input and one output at
    1j and 2j are a vector. Each slice [samples[i, None]] has shape (1,),
    which [np.vstack] cannot stack under the vector of shape (2,). *)
Lemma conjugate_augmentation_raises_on_vector :
  exists s', reduce lapack 5 ex6_self ex8_tol None None ex6_store = Some (Fail ValueError s').
Proof.
  let r0 := eval vm_compute in (reduce lapack 5 ex6_self ex8_tol None None ex6_store) in
  match r0 with Some (Fail _ ?s') => exists s' end.
  vm_refl.
Qed.

(** *** Further runs *)

(** The run on the identity ends within four passes. *)
Lemma reduce_terminates_witness :
  exists out, reduce lapack 4 ex1_self ex1_tol None None ex1_store = Some out.
Proof.
  let r0 := eval vm_compute in (reduce_init lapack ex1_self ex1_tol None None ex1_store) in
  match r0 with
  | Done ?pr ?s1 =>
      apply (reduce_terminates lapack ex1_self ex1_tol None ex1_store s1 pr 4);
      [ vm_refl | vm_refl | vm_refl | vm_compute; lia ]
  end.
Defined.

(** Constant samples: the mean meets the tolerance in the first pass. *)
Lemma first_pass_exit_unbound_witness :
  exists s1,
    reduce lapack 1 ex2_neg_self ex1_tol None None ex2_neg_store
    = Some (Fail UnboundLocalError s1).
Proof.
  let r0 := eval vm_compute in
      (reduce_init lapack ex2_neg_self ex1_tol None None ex2_neg_store) in
  match r0 with
  | Done ?pr ?s1 =>
      exists s1;
      apply (first_pass_exit_unbound lapack ex2_neg_self ex1_tol None None ex2_neg_store s1 pr
               [[]] 0);
      [ vm_refl | vm_refl | right ];
      let e := eval vm_compute in
          (np_max (masked_err lapack (p_env pr) (l_bary (p_locals pr)) [[]])) in
      match e with Ok ?err => exists err; split; vm_refl end
  end.
Defined.

(** *** A single conjugate pair *)

Definition ex_pair_svs : list (list gauss) := [map iz [1; -1]%Z].

Definition ex_pair_samples : ndarray := mk_ndarray [2] (map iz [1; -1]%Z).

Definition ex_pair_store : store :=
  [OVec (map iz [1; -1]%Z); OList [0]; OTensor ex_pair_samples].

Lemma exhausted_variable_raises_witness :
  nd_loewner ex_pair_samples ex_pair_svs [[0; 1]] = Raise ValueError
  /\ full_nd_loewner ex_pair_samples ex_pair_svs [[0; 1]] = Raise ValueError.
Proof.
  apply (exhausted_variable_raises ex_pair_samples ex_pair_svs [[0; 1]] 0
           (map iz [1; -1]%Z) [0; 1]).
  - reflexivity.
  - reflexivity.
  - intros k Hk. simpl in Hk. simpl. lia.
Defined.

(** With conjugates enforced and the default caps, the first pass puts both
    indices of the sampling values 1j, -1j into the partition, and the
    Loewner matrix cannot be formed, whatever the numerical kernels are. *)
Theorem conjugate_pair_exhausts_grid (K : numerics) :
  exists s', reduce K 1 ex9_self ex9_tol None None ex_pair_store = Some (Fail ValueError s').
Proof.
  let r0 := eval vm_compute in (reduce K 1 ex9_self ex9_tol None None ex_pair_store) in
  match r0 with Some (Fail _ ?s') => exists s' end.
  vm_refl.
Qed.

(** *** Denominators and evaluation near a node *)


(** The point (1 + 1e-15, 5 - 1e-15) next to the node combination (1, 5). *)
Definition ex4_near : list (gauss * nat) :=
  [(real (1000000000000001 # 1000000000000000), 1);
   (real (4999999999999999 # 1000000000000000), 2)].


(** *** Further properties on the runs above *)

Lemma loewner_single_variable_witness :
  full_nd_loewner (mk_ndarray [4] (map rz [0; 1; 2; 3]%Z)) [map rz [0; 1; 2; 3]%Z] [[0; 3]]
  = Ok (map (fun r => map (fun c =>
                             fdiv (fsub (tget (mk_ndarray [4] (map rz [0; 1; 2; 3]%Z)) [r])
                                        (tget (mk_ndarray [4] (map rz [0; 1; 2; 3]%Z)) [c]))
                                  (fsub (nth r (map rz [0; 1; 2; 3]%Z) fzero)
                                        (nth c (map rz [0; 1; 2; 3]%Z) fzero))) [0; 3])
            (np_delete_arange (length (map rz [0; 1; 2; 3]%Z)) [0; 3])).
Proof.
  apply (loewner_single_variable (e_samples ex2_env) (map rz [0; 1; 2; 3]%Z) [0; 3]).
  - reflexivity.
  - discriminate.
  - vm_compute. discriminate.
Defined.

Lemma ls_part_complement_witness :
  exists ls,
    _ls_part ex3_part ex3_svs !! 0 = Some ls /\
    (forall k, In k ls <-> k < length (map rz [0; 1; 2]%Z) /\ ~ In k [0]) /\
    NoDup ls /\
    (NoDup [0] -> length ls + length [0] = length (map rz [0; 1; 2]%Z)).
Proof.
  apply (ls_part_complement (Sc := gauss_scalar) ex3_part ex3_svs 0 (map rz [0; 1; 2]%Z) [0]).
  - reflexivity.
  - reflexivity.
  - repeat constructor.
Defined.

(** The state of the failing run when the augmentation starts. *)
Definition ex6_vector_state : store := ex6_store ++ [OList [0]; OTensor (mk_ndarray [2] (map iz [1; 2]%Z))].

Lemma vector_samples_augmentation_witness :
  exists s',
    add_conjugates [0] 3 (mk_ndarray [2] (map iz [1; 2]%Z)) ex6_vector_state
    = Fail ValueError s'.
Proof.
  pose proof (vector_samples_augmentation gauss_laws [0] 3 (mk_ndarray [2] (map iz [1; 2]%Z))
                ex6_vector_state 0 (map iz [1; 2]%Z) 2
                eq_refl eq_refl eq_refl eq_refl eq_refl (le_n 2)) as H.
  assert (E : forallb (fun x => existsb (feqb (fconj x)) (map iz [1; 2]%Z)) (map iz [1; 2]%Z)
              = false) by vm_refl.
  rewrite E in H. exact H.
Defined.

(** *** A successful post-processing *)

(** The samples [f(s, p) = s] on the grid of 0, 1, 2, 3 and 0, 1, 2 with
    the partition [[0, 1], [0, 1]], whose Loewner matrix has a nullspace of
    dimension two. *)
Definition ex_pp_samples : ndarray :=
  mk_ndarray [4; 3] (map rz [0; 0; 0; 1; 1; 1; 2; 2; 2; 3; 3; 3]%Z).

Definition ex_pp_svs : list (list gauss) := [map rz [0; 1; 2; 3]%Z; map rz [0; 1; 2]%Z].

Definition ex_pp_store : store := [OInts [0; 1]; OInts [0; 1]; OList [0; 1]].

Lemma post_processing_truncates_witness :
  exists c s',
    _post_processing lapack ex_pp_samples ex_pp_svs 2 2 (sq 1 100000000) ex_pp_store
    = Done (Some (c, 2)) s' /\
    read_parts 2 s' = Done [[0; 1]; [0]] s' /\
    s' !! 0 = Some (OInts [0; 1]) /\
    s' !! 1 = Some (OInts [0; 1]).
Proof.
  assert (H : has_parts ex_pp_store 2 [0; 1] [[0; 1]; [0; 1]]).
  { split; [reflexivity|]. constructor; [reflexivity|]. constructor; [reflexivity|].
    constructor. }
  assert (E : exists c s',
             _post_processing lapack ex_pp_samples ex_pp_svs 2 2 (sq 1 100000000) ex_pp_store
             = Done (Some (c, 2)) s' /\
             read_parts 2 s' = Done [[0; 1]; [0]] s').
  { let r0 := eval vm_compute in
        (_post_processing lapack ex_pp_samples ex_pp_svs 2 2 (sq 1 100000000) ex_pp_store) in
    match r0 with Done (Some (?c, _)) ?s' => exists c, s' end. split; vm_refl. }
  destruct E as (c & s' & E & Hr).
  destruct (post_processing_truncates lapack ex_pp_samples ex_pp_svs 2 2 (sq 1 100000000)
              ex_pp_store s' [0; 1] [[0; 1]; [0; 1]] c 2 H eq_refl E)
    as (_ & [_ Hout] & _).
  exists c, s'. split; [exact E|]. split; [exact Hr|].
  split; [rewrite (Hout 0) by (simpl; lia); reflexivity
         |rewrite (Hout 1) by (simpl; lia); reflexivity].
Defined.

(** *** The model of the run on the identity at a grid point *)


(** *** Arguments that do not fit *)

(** Matrix-valued samples without any variable. *)
Definition ex0_store : store := [OList []; OTensor (mk_ndarray [1; 1] [rz 1])].

Definition ex0_self : reductor := {|
  sampling_values := 0; samples := 1; conjugate := false; nsp_tol := sq 1 10000;
  post_process := true; L_rk_tol := sq 1 100000000; num_vars := 0
|}.

Lemma reduce_checks_arguments_witness :
  (exists s1, forall fuel,
     reduce lapack fuel ex1_self ex1_tol None (Some [3; 3]%Z) ex1_store
     = Some (Fail AssertionError s1))
  /\ (exists s1, forall fuel,
        reduce lapack fuel ex0_self ex1_tol None None ex0_store = Some (Fail IndexError s1)).
Proof.
  split.
  - assert (H : Forall2 (fun r (v : list gauss) => ex1_store !! r = Some (OVec v))
                        [0] [map rz [0; 1; 2; 3]%Z])
      by (constructor; [reflexivity|constructor]).
    assert (Hd : data (mk_ndarray [4] (map rz [0; 1; 2; 3]%Z)) <> []) by (intros [=]).
    assert (Hq : forall q : loc, @None loc = Some q ->
                   exists items, ex1_store !! q = Some (OList items)) by (intros q [=]).
    exact (reduce_checks_arguments lapack ex1_self ex1_tol None (Some [3; 3]%Z) ex1_store
             [0] [map rz [0; 1; 2; 3]%Z] (mk_ndarray [4] (map rz [0; 1; 2; 3]%Z))
             eq_refl eq_refl H eq_refl Hd Hq).
  - assert (H : Forall2 (fun r (v : list gauss) => ex0_store !! r = Some (OVec v)) [] [])
      by constructor.
    assert (Hd : data (mk_ndarray [1; 1] [rz 1]) <> []) by (intros [=]).
    assert (Hq : forall q : loc, @None loc = Some q ->
                   exists items, ex0_store !! q = Some (OList items)) by (intros q [=]).
    exact (reduce_checks_arguments lapack ex0_self ex1_tol None None ex0_store
             [] [] (mk_ndarray [1; 1] [rz 1]) eq_refl eq_refl H eq_refl Hd Hq).
Defined.

(** *** The shape of a full Loewner matrix in two variables *)

Lemma full_nd_loewner_shape_witness :
  exists L,
    full_nd_loewner ex_pp_samples ex_pp_svs [[0; 1]; [0]] = Ok L /\
    Forall (fun row => length row = length (product [[0; 1]; [0]])) L /\
    length L + length (product [[0; 1]; [0]]) = fold_right Nat.mul 1 (map length ex_pp_svs).
Proof.
  assert (H : Forall2 (fun part (sv : list gauss) =>
                         NoDup part /\ Forall (fun k => k < length sv) part)
                      [[0; 1]; [0]] ex_pp_svs).
  { constructor; [split; [nodup_nat|repeat constructor]|].
    constructor; [split; [nodup_nat|repeat constructor]|constructor]. }
  assert (E : exists L, full_nd_loewner ex_pp_samples ex_pp_svs [[0; 1]; [0]] = Ok L).
  { let r0 := eval vm_compute in (full_nd_loewner ex_pp_samples ex_pp_svs [[0; 1]; [0]]) in
    match r0 with Ok ?L => exists L end. vm_refl. }
  destruct E as [L E]. exists L. split; [exact E|].
  exact (full_nd_loewner_shape ex_pp_samples ex_pp_svs [[0; 1]; [0]] L
           (le_S 1 1 (le_n 1)) eq_refl H E).
Defined.

Lemma reduce_partition_valid_witness :
  exists r l s',
    reduce lapack 10 ex8_self ex8_tol None None ex8_store = Some (Done (r, l) s') /\
    read_parts (l_itpl_part l) s' = Done [[1; 3]; [0]] s' /\
    Forall2 (fun (part : list nat) (sv : list gauss) =>
               NoDup part /\ Forall (fun j => j < length sv) part)
            [[1; 3]; [0]] [map iz [1; 2; -1; -2]%Z; map rz [0; 1]%Z].
Proof.
  assert (E : exists r l s' pr s1,
             reduce lapack 10 ex8_self ex8_tol None None ex8_store = Some (Done (r, l) s') /\
             reduce_init lapack ex8_self ex8_tol None None ex8_store = Done pr s1 /\
             read_parts (l_itpl_part l) s' = Done [[1; 3]; [0]] s' /\
             e_svs (p_env pr) = [map iz [1; 2; -1; -2]%Z; map rz [0; 1]%Z] /\
             shape (e_samples (p_env pr)) = map length (e_svs (p_env pr))).
  { let r0 := eval vm_compute in (reduce lapack 10 ex8_self ex8_tol None None ex8_store) in
    let i0 := eval vm_compute in (reduce_init lapack ex8_self ex8_tol None None ex8_store) in
    match r0 with
    | Some (Done (?r, ?l) ?s') =>
        match i0 with Done ?pr ?s1 => exists r, l, s', pr, s1 end
    end.
    do 4 (split; [vm_refl|]). vm_refl. }
  destruct E as (r & l & s' & pr & s1 & E & Hinit & Hr & Hsvs & Hshape).
  assert (Hsv : conjugate ex8_self = true -> NoDup (nth 0 (e_svs (p_env pr)) [])).
  { intros _. rewrite Hsvs. cbn [nth]. nodup_gauss. }
  destruct (reduce_partition_valid lapack gauss_laws GaussConjugateFacts.gimag_conj
              GaussConjugateFacts.gconj_moves 10 ex8_self ex8_tol None ex8_store s1 s' pr r l
              Hinit Hshape Hsv E) as (parts & Hr' & Hv).
  exists r, l, s'. split; [exact E|]. split; [exact Hr|].
  assert (parts = [[1; 3]; [0]]) by congruence. subst parts.
  rewrite Hsvs in Hv. exact Hv.
Defined.

End Examples.

From Stdlib Require Qabs.

(** * Gauss quadratures ([pymor/tools/quadratures.py]) *)

(** The class [GaussQuadratures]: its tables and its class methods. The
    entries of the tables are the decimal literals of the source, kept as
    exact rational numbers. *)

Module Quadratures.

(** The decimal literal with the digits [m] and [places] decimal places:
    [.5] is [dec 5 1], [.69e-1] is [dec 69 3]. *)
Definition dec (m : Z) (places : positive) : Q := Qmake m (Pos.pow 10 places).
Arguments dec m%_Z places%_positive.

(** [l[i]] for a tuple or a one-dimensional array: a negative index counts
    from the end, an index out of range raises [IndexError]. *)
Definition getitem {A : Type} (l : list A) (i : Z) : res A :=
  let n := Z.of_nat (length l) in
  let j := if (i <? 0)%Z then (i + n)%Z else i in
  if ((0 <=? j) && (j <? n))%Z then
    match nth_error l (Z.to_nat j) with
    | Some a => Ok a
    | None => Raise IndexError
    end
  else Raise IndexError.

Definition orders : list Z := [1; 3; 5; 7; 9; 11; 13; 15; 17; 19; 21; 23]%Z.

Definition order_map : list Z :=
  [0; 0; 1; 1; 2; 2; 3; 3; 4; 4; 5; 5; 6; 6; 7; 7; 8; 8; 9; 9; 10; 10; 11; 11]%Z.

Definition points : list (list Q) :=
  [[dec 5 1];
   [dec 2113248654051871177454256097490212721761991243649365619906988367580111638485333271531423022071252374 100;
    dec 7886751345948128822545743902509787278238008756350634380093011632419888361514666728468576977928747626 100];
   [dec 1127016653792583114820734600217600389167078294708409173412426233886516908063020966480712623141326482 100;
    dec 5 1;
    dec 8872983346207416885179265399782399610832921705291590826587573766113483091936979033519287376858673518 100];
   [dec 694318442029737123880267555535952474521373101851411811921390395467352642524755671479188300577603474 100;
    dec 3300094782075718675986671204483776563997120651145428237035230115894899847683814827610623597822225942 100;
    dec 6699905217924281324013328795516223436002879348854571762964769884105100152316185172389376402177774058 100;
    dec 9305681557970262876119732444464047525478626898148588188078609604532647357475244328520811699422396526 100];
   [dec 469100770306680036011865608503035174371740446187345685631188567281146025416565765294285052232288690 100;
    dec 2307653449471584544818427896498955975163566965472200218988841864702644073161223544820981663747145342 100;
    dec 5 1;
    dec 7692346550528415455181572103501044024836433034527799781011158135297355926838776455179018336252854658 100;
    dec 9530899229693319963988134391496964825628259553812654314368811432718853974583434234705714947767711310 100];
   [dec 337652428984239860938492227530026954326171311438550875637251917366932495778999018618556300390370075 100;
    dec 1693953067668677431693002024900473264967757178024149645927366470739082516964284495278567981267692718 100;
    dec 3806904069584015456847491391596440322906946849299893249093024177128625328621800788753877863713254342 100;
    dec 6193095930415984543152508608403559677093053150700106750906975822871374671378199211246122136286745658 100;
    dec 8306046932331322568306997975099526735032242821975850354072633529260917483035715504721432018732307282 100;
    dec 9662347571015760139061507772469973045673828688561449124362748082633067504221000981381443699609629925 100];
   [dec 254460438286207377369051579760743687996145311646911082256154480434683348225799295971346149860371380 100;
    dec 1292344072003027800680676133596057964629261764293048699400223240162850626639097431035865838165683764 100;
    dec 2970774243113014165466967939615192683263089929503149368064783741026680933869371723358436551361267061 100;
    dec 5 1;
    dec 7029225756886985834533032060384807316736910070496850631935216258973319066130628276641563448638732939 100;
    dec 8707655927996972199319323866403942035370738235706951300599776759837149373360902568964134161834316236 100;
    dec 9745539561713792622630948420239256312003854688353088917743845519565316651774200704028653850139628620 100];
   [dec 198550717512318841582195657152635047858823828492739808641801113137875511282903577802805203683438658 100;
    dec 1016667612931866302042230317620847815814141341920175839649148524803913471617634539264240363521370305 100;
    dec 2372337950418355070911304754053768254790178784398035711245714503637725896157193637380192999031840090 100;
    dec 4082826787521750975302619288199080096666210935435131088414057631503977628892289429419658881444383232 100;
    dec 5917173212478249024697380711800919903333789064564868911585942368496022371107710570580341118555616768 100;
    dec 7627662049581644929088695245946231745209821215601964288754285496362274103842806362619807000968159910 100;
    dec 8983332387068133697957769682379152184185858658079824160350851475196086528382365460735759636478629695 100;
    dec 9801449282487681158417804342847364952141176171507260191358198886862124488717096422197194796316561342 100];
   [dec 159198802461869550822118985481635649752975997540373352249883440754598128016996234690631253865529442 100;
    dec 819844463366821028502851059651325617279466409376620019478140101802724965592049405530269014870712298 100;
    dec 1933142836497048013456489803292629076071396975297176535635935288593663267544994007083799930482157077 100;
    dec 3378732882980955354807309926783316957140218696315134555864762615789067102324378754034506991507512164 100;
    dec 5 1;
    dec 6621267117019044645192690073216683042859781303684865444135237384210932897675621245965493008492487836 100;
    dec 8066857163502951986543510196707370923928603024702823464364064711406336732455005992916200069517842923 100;
    dec 9180155536633178971497148940348674382720533590623379980521859898197275034407950594469730985129287702 100;
    dec 9840801197538130449177881014518364350247024002459626647750116559245401871983003765309368746134470558 100];
   [dec 130467357414141399610179939577739732858650266538089403843939666517023983826819201871382175218657218 100;
    dec 674683166555077446339516557882534757362284925173347737390201340773126224309722193216046355269771146 100;
    dec 1602952158504877968828363174425632121153526440825952661675914055237207123024625376924607132147598102 100;
    dec 2833023029353764046003670284171079188999640811718767517486492434281165054611482493874486210249411394 100;
    dec 4255628305091843945575869994351400076912175702896541521460053732420481913221657393144111851002681544 100;
    dec 5744371694908156054424130005648599923087824297103458478539946267579518086778342606855888148997318456 100;
    dec 7166976970646235953996329715828920811000359188281232482513507565718834945388517506125513789750588606 100;
    dec 8397047841495122031171636825574367878846473559174047338324085944762792876975374623075392867852401898 100;
    dec 9325316833444922553660483442117465242637715074826652262609798659226873775690277806783953644730228854 100;
    dec 9869532642585858600389820060422260267141349733461910596156060333482976016173180798128617824781342782 100];
   [dec 108856709269715035980309994385713046142887955401077922870994670081681003095550058998403009163276150 100;
    dec 564687001159523504624211153480363666841621243873428075162944722311943430713136662788547024367013129 100;
    dec 1349239972129753379532918739844232709751784689869348440108108301564933774707403852022882945143581500 100;
    dec 2404519353965940920371371652706952227598864424400357554895386942566520367744635535872006099477254724 100;
    dec 3652284220238275138342340072995692376601890687804738591880371840599714668881526321480892038778663494 100;
    dec 5 1;
    dec 6347715779761724861657659927004307623398109312195261408119628159400285331118473678519107961221336506 100;
    dec 7595480646034059079628628347293047772401135575599642445104613057433479632255364464127993900522745276 100;
    dec 8650760027870246620467081260155767290248215310130651559891891698435066225292596147977117054856418500 100;
    dec 9435312998840476495375788846519636333158378756126571924837055277688056569286863337211452975632986871 100;
    dec 9891143290730284964019690005614286953857112044598922077129005329918318996904449941001596990836723850 100];
   [dec 92196828766403746547254549253595885199224000931342447686589390961033778408730088873713660547738821 100;
    dec 479413718147625716607670669404519037312016453933512267229621196593826021353821047565152860881333661 100;
    dec 1150486629028476564815530833935909620075371249905341811677904678754417284457643879917875003882890447 100;
    dec 2063410228566912763516487905297328598154507429759737592448645601663296503120523687821446175056258990 100;
    dec 3160842505009099031236542316781412193718199293322951893441000602479550352416060630606327857497267114 100;
    dec 4373832957442655422637793152680734350083015418472778633935391226257689718793051556285658507652543202 100;
    dec 5626167042557344577362206847319265649916984581527221366064608773742310281206948443714341492347456798 100;
    dec 6839157494990900968763457683218587806281800706677048106558999397520449647583939369393672142502732886 100;
    dec 7936589771433087236483512094702671401845492570240262407551354398336703496879476312178553824943741010 100;
    dec 8849513370971523435184469166064090379924628750094658188322095321245582715542356120082124996117109553 100;
    dec 9520586281852374283392329330595480962687983546066487732770378803406173978646178952434847139118666339 100;
    dec 9907803171233596253452745450746404114800775999068657552313410609038966221591269911126286339452261179 100]].

Definition weights : list (list Q) :=
  [[dec 1000000000000000000000000000000000000000000000000000000000000000000000000000000000000000000000000000 99];
   [dec 5000000000000000000000000000000000000000000000000000000000000000000000000000000000000000000000000000 100;
    dec 5000000000000000000000000000000000000000000000000000000000000000000000000000000000000000000000000000 100];
   [dec 2777777777777777777777777777777777777777777777777777777777777777777777777777777777777777777777777768 100;
    dec 4444444444444444444444444444444444444444444444444444444444444444444444444444444444444444444444444444 100;
    dec 2777777777777777777777777777777777777777777777777777777777777777777777777777777777777777777777777777 100];
   [dec 1739274225687269286865319746109997036176743479169467702462646597593759337329551758609918838661290805 100;
    dec 3260725774312730713134680253890002963823256520830532297537353402406240662670448241390081161338709199 100;
    dec 3260725774312730713134680253890002963823256520830532297537353402406240662670448241390081161338709201 100;
    dec 1739274225687269286865319746109997036176743479169467702462646597593759337329551758609918838661290798 100];
   [dec 1184634425280945437571320203599586813216300011062070077914139441108586442015215492899967152469757221 100;
    dec 2393143352496832340206457574178190964561477766715707699863638336669191335762562284877810625308020550 100;
    dec 2844444444444444444444444444444444444444444444444444444444444444444444444444444444444444444444444445 100;
    dec 2393143352496832340206457574178190964561477766715707699863638336669191335762562284877810625308020556 100;
    dec 1184634425280945437571320203599586813216300011062070077914139441108586442015215492899967152469757224 100];
   [dec 8566224618958517252014807108636644676341125074202199119931771989947288027117007732396385271319433505 101;
    dec 1803807865240693037849167569188580558307609463733727411448696201185700189186308591604811009944096747 100;
    dec 2339569672863455236949351719947754974058278028846052676558126599819571008101990635155550462923959909 100;
    dec 2339569672863455236949351719947754974058278028846052676558126599819571008101990635155550462923959910 100;
    dec 1803807865240693037849167569188580558307609463733727411448696201185700189186308591604811009944096740 100;
    dec 8566224618958517252014807108636644676341125074202199119931771989947288027117007732396385271319433505 101];
   [dec 6474248308443484663530571633954100916429370112997333198860431936232761748602115435781270908146042335 101;
    dec 1398526957446383339507338857118897912434625326132993822685070163468094052152813384066204714505988094 100;
    dec 1909150252525594724751848877444875669391825417669313673755417255153527732170648541743423296720224005 100;
    dec 2089795918367346938775510204081632653061224489795918367346938775510204081632653061224489795918367346 100;
    dec 1909150252525594724751848877444875669391825417669313673755417255153527732170648541743423296720224007 100;
    dec 1398526957446383339507338857118897912434625326132993822685070163468094052152813384066204714505988092 100;
    dec 6474248308443484663530571633954100916429370112997333198860431936232761748602115435781270908146042285 101];
   [dec 5061426814518812957626567715498109505769704552584247852950184903237008938173539243014136965202250520 101;
    dec 1111905172266872352721779972131204422150654350256247823629546446468084072852245204268265711885989640 100;
    dec 1568533229389436436689811009933006566301644995013674688451319725374781359710867484808490381169642782 100;
    dec 1813418916891809914825752246385978060970730199471652702624115337833433673619533386621830210424142548 100;
    dec 1813418916891809914825752246385978060970730199471652702624115337833433673619533386621830210424142549 100;
    dec 1568533229389436436689811009933006566301644995013674688451319725374781359710867484808490381169642781 100;
    dec 1111905172266872352721779972131204422150654350256247823629546446468084072852245204268265711885989639 100;
    dec 5061426814518812957626567715498109505769704552584247852950184903237008938173539243014136965202250335 101];
   [dec 4063719418078720598594607905526182533783086039120537535555383844034334315422603147278927735147128571 101;
    dec 9032408034742870202923601562145640475716891086602024224916795323567864527247313488229748865159985275 101;
    dec 1303053482014677311593714347093164248859201022186499759699985010598054078344456223238230465475087002 100;
    dec 1561735385200014200343152032922218327993774306309523227770055827995719486620096582850609609440031770 100;
    dec 1651196775006298815822625346434870244394053917863441672965482489292013101536911060720584530108339632 100;
    dec 1561735385200014200343152032922218327993774306309523227770055827995719486620096582850609609440031768 100;
    dec 1303053482014677311593714347093164248859201022186499759699985010598054078344456223238230465475087008 100;
    dec 9032408034742870202923601562145640475716891086602024224916795323567864527247313488229748865159985195 101;
    dec 4063719418078720598594607905526182533783086039120537535555383844034334315422603147278927735147128848 101];
   [dec 3333567215434406879678440494666589642893241716007907256434744080670603204204355088839275484252944050 101;
    dec 7472567457529029657288816982884866620127831983471368391773863437661932736331500547297363231736597515 101;
    dec 1095431812579910219977674671140815962293859352613385449404782718175999553264756406213419965886010958 100;
    dec 1346333596549981775456134607847346764298799692304418979002816381210767161595896383821133183546263805 100;
    dec 1477621123573764350869464973256691647105233585134268006771540148779979691085761646351782978968771084 100;
    dec 1477621123573764350869464973256691647105233585134268006771540148779979691085761646351782978968771085 100;
    dec 1346333596549981775456134607847346764298799692304418979002816381210767161595896383821133183546263804 100;
    dec 1095431812579910219977674671140815962293859352613385449404782718175999553264756406213419965886010963 100;
    dec 7472567457529029657288816982884866620127831983471368391773863437661932736331500547297363231736597595 101;
    dec 3333567215434406879678440494666589642893241716007907256434744080670603204204355088839275484252943861 101];
   [dec 2783428355808683324137686022127428936425781284844907417419214283707770364036877194184561103615942288 101;
    dec 6279018473245231231734714961197005009880789569770175033196700540895728756623563881734382085702726505 101;
    dec 9314510546386712571304882071582794584564237402010170589075320208693617400439275123466537925898979300 101;
    dec 1165968822959952399592618524215875697158990861584792545136598610609661066094404979770199742191308422 100;
    dec 1314022722551233310903444349452545976863823388015722781900276857427564016697726267762084985085133530 100;
    dec 1364625433889503153572417641681710945780209849473918737988002057266126530195794265058334322403586472 100;
    dec 1314022722551233310903444349452545976863823388015722781900276857427564016697726267762084985085133529 100;
    dec 1165968822959952399592618524215875697158990861584792545136598610609661066094404979770199742191308422 100;
    dec 9314510546386712571304882071582794584564237402010170589075320208693617400439275123466537925898979305 101;
    dec 6279018473245231231734714961197005009880789569770175033196700540895728756623563881734382085702726505 101;
    dec 2783428355808683324137686022127428936425781284844907417419214283707770364036877194184561103615942288 101];
   [dec 2358766819325591359730798074250853015851453699742354478025267350190486057601935533541295353770726794 101;
    dec 5346966299765921548012735909699811210728508673516244000256302105140949681374878827026865904815822880 101;
    dec 8003916427167311316732626477167953593600586524543208895494977207897711258664557534082827631852886530 101;
    dec 1015837133615329608745322279048991882532590736372950731992972828988228162552364218975721975323026162 100;
    dec 1167462682691774043804249494624390281297049860998774373652617489107460000397058376403395132542818452 100;
    dec 1245735229067013925002812180214756054152304512848094156976755015581397137286440215155784003090211766 100;
    dec 1245735229067013925002812180214756054152304512848094156976755015581397137286440215155784003090211766 100;
    dec 1167462682691774043804249494624390281297049860998774373652617489107460000397058376403395132542818452 100;
    dec 1015837133615329608745322279048991882532590736372950731992972828988228162552364218975721975323026162 100;
    dec 8003916427167311316732626477167953593600586524543208895494977207897711258664557534082827631852886530 101;
    dec 5346966299765921548012735909699811210728508673516244000256302105140949681374878827026865904815822885 101;
    dec 2358766819325591359730798074250853015851453699742354478025267350190486057601935533541295353770726794 101]].

Definition maxpoints : nat := length points.

(** [_determine_order]: an [assert] that fails raises [AssertionError],
    whatever its message. *)
Definition _determine_order (order npoints : option Z) : res Z :=
  match order, npoints with
  | None, None => Raise AssertionError
  | Some _, Some _ => Raise AssertionError
  | Some o, None =>
      if ((0 <=? o) && (o <=? Z.of_nat (length order_map) - 1))%Z then getitem order_map o
      else Raise AssertionError
  | None, Some n =>
      if ((1 <=? n) && (n <=? Z.of_nat (length orders)))%Z then Ok (n - 1)%Z
      else Raise AssertionError
  end.

Definition quadrature (order npoints : option Z) : res (list Q * list Q) :=
  res_bind (_determine_order order npoints) (fun p =>
  res_bind (getitem points p) (fun P =>
  res_bind (getitem weights p) (fun W =>
  Ok (P, W)))).

(** [iter_quadrature]: the pairs the generator yields when it is run to
    its end. *)
Definition iter_quadrature (order npoints : option Z) : res (list (Q * Q)) :=
  res_bind (_determine_order order npoints) (fun p =>
  res_bind (getitem points p) (fun P =>
  mapM_res
    (fun i =>
       res_bind (getitem points p) (fun P' =>
       res_bind (getitem P' (Z.of_nat i)) (fun x =>
       res_bind (getitem weights p) (fun W' =>
       res_bind (getitem W' (Z.of_nat i)) (fun w =>
       Ok (x, w))))))
    (seq 0 (length P)))).

(** ** Properties *)

Lemma getitem_nonneg {A : Type} (l : list A) (i : nat) (a : A) :
  nth_error l i = Some a -> getitem l (Z.of_nat i) = Ok a.
Proof.
  intros H. unfold getitem. cbv zeta.
  assert (Hi : i < length l) by (apply nth_error_Some; congruence).
  destruct (Z.ltb_spec (Z.of_nat i) 0); [lia|].
  destruct (Z.leb_spec 0 (Z.of_nat i)); [|lia].
  destruct (Z.ltb_spec (Z.of_nat i) (Z.of_nat (length l))); [|lia].
  cbn [andb]. now rewrite Nat2Z.id, H.
Qed.

Lemma getitem_nonneg_None {A : Type} (l : list A) (i : nat) :
  nth_error l i = None -> getitem l (Z.of_nat i) = Raise IndexError.
Proof.
  intros H. unfold getitem. cbv zeta.
  destruct (Z.ltb_spec (Z.of_nat i) 0); [lia|].
  destruct (_ && _)%bool; [|reflexivity]. now rewrite Nat2Z.id, H.
Qed.

(** The integers from 0 up to a bound, one by one. *)
Lemma Z_below (P : Z -> Prop) (k : nat) :
  (forall n, n < k -> P (Z.of_nat n)) -> forall z, (0 <= z < Z.of_nat k)%Z -> P z.
Proof.
  intros H z Hz. rewrite <- (Z2Nat.id z) by lia. apply H. lia.
Qed.

Lemma determine_order_range (order npoints : option Z) (p : Z) :
  _determine_order order npoints = Ok p -> (0 <= p <= 11)%Z.
Proof.
  unfold _determine_order.
  change (length order_map) with 24. change (length orders) with 12.
  destruct order as [o|], npoints as [n|]; try discriminate.
  - destruct (Z.leb_spec 0 o); [|discriminate].
    destruct (Z.leb_spec o (Z.of_nat 24 - 1)); [|discriminate].
    cbn [andb]. revert p.
    apply (Z_below (fun o => forall p, getitem order_map o = Ok p -> (0 <= p <= 11)%Z) 24);
      [|lia].
    intros k Hk p.
    do 24 (destruct k as [|k]; [cbn; intros [= <-]; lia|]). lia.
  - destruct (Z.leb_spec 1 n); [|discriminate].
    destruct (Z.leb_spec n (Z.of_nat 12)); [|discriminate].
    cbn [andb]. intros [= <-]. lia.
Qed.

(** [quadrature(order=o)] works with the smallest rule that is exact to
    the order [o]: for an order from 0 to 23, [_determine_order] returns the
    index [p] of a rule whose order [orders[p]] is [o] or [o + 1], every
    rule before it being of an order below [o]; for any other order it
    raises [AssertionError]. *)
Theorem determine_order_smallest_rule (o : Z) :
  if ((0 <=? o) && (o <=? 23))%Z
  then exists p q,
         _determine_order (Some o) None = Ok p /\
         getitem orders p = Ok q /\
         (o <= q <= o + 1)%Z /\
         forall p' q', (0 <= p' < p)%Z -> getitem orders p' = Ok q' -> (q' < o)%Z
  else _determine_order (Some o) None = Raise AssertionError.
Proof.
  destruct (Z.leb_spec 0 o) as [H0|H0]; cbn [andb].
  2:{ unfold _determine_order. destruct (Z.leb_spec 0 o); [lia|reflexivity]. }
  destruct (Z.leb_spec o 23) as [H1|H1].
  2:{ unfold _determine_order. change (length order_map) with 24.
      destruct (Z.leb_spec 0 o); [|lia].
      destruct (Z.leb_spec o (Z.of_nat 24 - 1)); [lia|reflexivity]. }
  revert o H0 H1.
  enough (H : forall o, (0 <= o < Z.of_nat 24)%Z ->
            exists p q,
              _determine_order (Some o) None = Ok p /\
              getitem orders p = Ok q /\
              (o <= q <= o + 1)%Z /\
              forall p' q', (0 <= p' < p)%Z -> getitem orders p' = Ok q' -> (q' < o)%Z)
    by (intros o H0 H1; apply H; lia).
  apply Z_below. intros k Hk.
  assert (Hmin : forall (p : nat) (o : Z),
            (forall p', p' < p -> forall q', nth_error orders p' = Some q' -> (q' < o)%Z) ->
            forall p' q', (0 <= p' < Z.of_nat p)%Z -> getitem orders p' = Ok q' -> (q' < o)%Z).
  { intros p o H p' q' Hp' Hq'. rewrite <- (Z2Nat.id p') in Hq' by lia.
    destruct (nth_error orders (Z.to_nat p')) as [q''|] eqn:E.
    - rewrite (getitem_nonneg _ _ _ E) in Hq'. injection Hq' as <-.
      apply (H (Z.to_nat p')); [lia|exact E].
    - rewrite (getitem_nonneg_None _ _ E) in Hq'. discriminate. }
  do 24 (destruct k as [|k];
         [eexists _, _; split; [reflexivity|]; split; [reflexivity|]; split; [cbn; lia|];
          match goal with
          | |- forall p' q', (0 <= p' < ?p)%Z -> _ =>
              apply (Hmin (Z.to_nat p)); intros p' Hp' q';
              cbn in Hp';
              do 12 (destruct p' as [|p']; [cbn; intros [= <-]; lia|]); lia
          end|]).
  lia.
Qed.

Lemma sorted_adjacent (l : list Q) :
  (forall i, S i < length l -> (nth i l 0 < nth (S i) l 0)%Q) ->
  forall i j, i < j -> j < length l -> (nth i l 0 < nth j l 0)%Q.
Proof.
  intros H i j Hij Hj. induction j as [|j IH]; [lia|].
  destruct (Nat.eq_dec i j) as [->|Hne]; [now apply H|].
  apply Qlt_trans with (nth j l 0%Q); [apply IH; lia|now apply H].
Qed.

(** [quadrature(npoints=n)] returns [n] points and [n] weights, for
    every [n] from 1 up to [maxpoints()], and raises [AssertionError] for
    every other [n]. The points lie strictly between 0 and 1, in
    increasing order, and the weights are positive. *)
Theorem quadrature_npoints (n : Z) :
  if ((1 <=? n) && (n <=? Z.of_nat maxpoints))%Z
  then exists P W,
         quadrature None (Some n) = Ok (P, W) /\
         Z.of_nat (length P) = n /\
         Z.of_nat (length W) = n /\
         Forall (fun x => 0 < x /\ x < 1)%Q P /\
         (forall i j, i < j -> j < length P -> (nth i P 0 < nth j P 0)%Q) /\
         Forall (fun w => 0 < w)%Q W
  else quadrature None (Some n) = Raise AssertionError.
Proof.
  change (Z.of_nat maxpoints) with 12%Z.
  destruct (Z.leb_spec 1 n) as [H0|H0]; cbn [andb].
  2:{ unfold quadrature, _determine_order. destruct (Z.leb_spec 1 n); [lia|reflexivity]. }
  destruct (Z.leb_spec n 12) as [H1|H1].
  2:{ unfold quadrature, _determine_order. change (length orders) with 12.
      destruct (Z.leb_spec 1 n); [|lia].
      destruct (Z.leb_spec n (Z.of_nat 12)); [lia|reflexivity]. }
  replace n with (Z.of_nat (Z.to_nat (n - 1)) + 1)%Z by lia.
  assert (Hk : Z.to_nat (n - 1) < 12) by lia.
  generalize dependent (Z.to_nat (n - 1)). clear. intros k Hk.
  do 12 (destruct k as [|k];
         [eexists _, _; split; [reflexivity|]; split; [reflexivity|]; split; [reflexivity|];
          split; [repeat constructor|];
          split; [apply sorted_adjacent; cbn [length]; intros i Hi;
                  do 12 (destruct i as [|i]; [first [exfalso; lia|vm_compute; reflexivity]|]); lia
                 |repeat constructor]|]).
  lia.
Qed.

Lemma mapM_res_zip (P W : list Q) (f : nat -> res (Q * Q)) :
  length P = length W ->
  (forall i x w, nth_error P i = Some x -> nth_error W i = Some w -> f i = Ok (x, w)) ->
  mapM_res f (seq 0 (length P)) = Ok (zip P W).
Proof.
  intros Hl Hf.
  enough (G : forall k P1 W1 P2 W2, P = P1 ++ P2 -> W = W1 ++ W2 ->
              length P1 = k -> length W1 = k ->
              mapM_res f (seq k (length P2)) = Ok (zip P2 W2)).
  { apply (G 0 [] [] P W); reflexivity. }
  intros k P1 W1 P2. revert k P1 W1.
  induction P2 as [|x P2 IH]; intros k P1 W1 W2 HP HW H1 H2.
  - reflexivity.
  - destruct W2 as [|w W2].
    { subst. rewrite !length_app in Hl. cbn in Hl. lia. }
    cbn [length seq mapM_res zip_with].
    rewrite (Hf k x w).
    + cbn [res_bind].
      rewrite (IH (S k) (P1 ++ [x]) (W1 ++ [w]) W2).
      * reflexivity.
      * subst P. now rewrite <- app_assoc.
      * subst W. now rewrite <- app_assoc.
      * rewrite length_app. cbn. lia.
      * rewrite length_app. cbn. lia.
    + subst P. rewrite nth_error_app2 by lia. now rewrite H1, Nat.sub_diag.
    + subst W. rewrite nth_error_app2 by lia. now rewrite H2, Nat.sub_diag.
Qed.

(** [iter_quadrature] yields the points of [quadrature], each with its
    weight, in the order of the tables; it raises what [quadrature]
    raises. *)
Theorem iter_quadrature_pairs (order npoints : option Z) :
  iter_quadrature order npoints
  = res_bind (quadrature order npoints) (fun PW => Ok (zip (fst PW) (snd PW))).
Proof.
  unfold iter_quadrature, quadrature.
  destruct (_determine_order order npoints) as [p|e] eqn:E; [|reflexivity].
  apply determine_order_range in E. cbn [res_bind].
  rewrite <- (Z2Nat.id p) by lia.
  assert (Hk : Z.to_nat p < 12) by lia.
  generalize dependent (Z.to_nat p). clear. intros k Hk.
  assert (G : forall P W,
            nth_error points k = Some P -> nth_error weights k = Some W ->
            length P = length W ->
            res_bind (getitem points (Z.of_nat k)) (fun P0 =>
              mapM_res
                (fun i =>
                   res_bind (getitem points (Z.of_nat k)) (fun P' =>
                   res_bind (getitem P' (Z.of_nat i)) (fun x =>
                   res_bind (getitem weights (Z.of_nat k)) (fun W' =>
                   res_bind (getitem W' (Z.of_nat i)) (fun w => Ok (x, w))))))
                (seq 0 (length P0)))
            = res_bind
                (res_bind (getitem points (Z.of_nat k)) (fun P0 =>
                 res_bind (getitem weights (Z.of_nat k)) (fun W0 => Ok (P0, W0))))
                (fun PW => Ok (zip (fst PW) (snd PW)))).
  { intros P W HP HW Hl.
    rewrite (getitem_nonneg _ _ _ HP), (getitem_nonneg _ _ _ HW). cbn [res_bind fst snd].
    apply mapM_res_zip; [exact Hl|].
    intros i x w Hx Hw. cbn [res_bind].
    now rewrite (getitem_nonneg _ _ _ Hx), (getitem_nonneg _ _ _ Hw). }
  do 12 (destruct k as [|k]; [eapply G; reflexivity|]).
  lia.
Qed.

(** ** Exactness of the rules *)

(** The quadrature sum of the monomial of degree [k]. *)
Fixpoint qpow (x : Q) (k : nat) : Q :=
  match k with
  | O => 1%Q
  | S k' => (x * qpow x k')%Q
  end.

Definition moment (P W : list Q) (k : nat) : Q :=
  fold_right Qplus 0%Q (zip_with (fun x w => (w * qpow x k)%Q) P W).

(** *** Enclosures in fixed point *)

(** Numbers with 56 binary places: the integer [a] stands for [a / 2^56].
    Products are rounded down for lower bounds and up for upper bounds. *)
Definition fx (a : Z) : Q := Qmake a (2 ^ 56).

Definition fx_one : Z := Z.shiftl 1 56.

Definition fx_floor (x : Q) : Z := (Z.shiftl (Qnum x) 56 / Zpos (Qden x))%Z.

Definition mul_lo (a b : Z) : Z := Z.shiftr (a * b) 56.

Definition mul_hi (a b : Z) : Z := (Z.shiftr (a * b) 56 + 1)%Z.

Fixpoint pow_fx (mul : Z -> Z -> Z) (x : Z) (k : nat) : Z :=
  match k with
  | O => fx_one
  | S k' => mul x (pow_fx mul x k')
  end.

Definition sum_fx (mul : Z -> Z -> Z) (ws xs : list Z) (k : nat) : Z :=
  fold_right Z.add 0%Z (zip_with (fun w x => mul w (pow_fx mul x k)) ws xs).

(** The sums for the degrees [j], [j + 1], ..., the powers being carried
    along in [pw]. *)
Fixpoint fx_sums (mul : Z -> Z -> Z) (K : nat) (ws xs pw : list Z) : list Z :=
  match K with
  | O => []
  | S K' => fold_right Z.add 0%Z (zip_with mul ws pw)
            :: fx_sums mul K' ws xs (zip_with mul xs pw)
  end.

Lemma fx_sums_spec (mul : Z -> Z -> Z) (ws xs : list Z) (K : nat) : forall j,
  fx_sums mul K ws xs (map (fun x => pow_fx mul x j) xs)
  = map (fun k => sum_fx mul ws xs (j + k)) (seq 0 K).
Proof.
  induction K as [|K IH]; intros j; [reflexivity|].
  cbn [fx_sums seq map]. f_equal.
  - unfold sum_fx. rewrite Nat.add_0_r. f_equal. clear.
    revert ws. induction xs as [|x xs IH]; intros [|w ws]; cbn; try reflexivity.
    now rewrite IH.
  - replace (zip_with mul xs (map (fun x => pow_fx mul x j) xs))
      with (map (fun x => pow_fx mul x (S j)) xs).
    + rewrite IH, <- seq_shift, map_map. apply map_ext. intros k.
      now rewrite Nat.add_succ_r.
    + clear. induction xs as [|x xs IH]; cbn; [reflexivity|]. now rewrite <- IH.
Qed.

Lemma fx_add (a b : Z) : (fx (a + b) == fx a + fx b)%Q.
Proof. unfold fx, Qeq, Qplus. cbn [Qnum Qden]. nia. Qed.

Lemma fx_le (a b : Z) : (a <= b)%Z -> (fx a <= fx b)%Q.
Proof. unfold fx, Qle. cbn [Qnum Qden]. nia. Qed.

Lemma fx_nonneg (a : Z) : (0 <= a)%Z -> (0 <= fx a)%Q.
Proof. unfold fx, Qle. cbn [Qnum Qden]. lia. Qed.

Lemma fx_one_eq : (fx fx_one == 1)%Q.
Proof. reflexivity. Qed.

Lemma fx_mul (a b : Z) : (fx a * fx b == Qmake (a * b) (2 ^ 56 * 2 ^ 56))%Q.
Proof. reflexivity. Qed.

Lemma shiftr_bounds (n : Z) :
  (Z.shiftr n 56 * 2 ^ 56 <= n < (Z.shiftr n 56 + 1) * 2 ^ 56)%Z.
Proof.
  rewrite Z.shiftr_div_pow2 by lia.
  pose proof (Z.mul_div_le n (2 ^ 56) ltac:(lia)).
  pose proof (Z.mul_succ_div_gt n (2 ^ 56) ltac:(lia)). lia.
Qed.

Lemma mul_lo_sound (a b : Z) (u v : Q) :
  (0 <= a)%Z -> (0 <= b)%Z -> (fx a <= u)%Q -> (fx b <= v)%Q ->
  (0 <= mul_lo a b)%Z /\ (fx (mul_lo a b) <= u * v)%Q.
Proof.
  intros Ha Hb Hu Hv. unfold mul_lo.
  pose proof (shiftr_bounds (a * b)) as [H1 H2].
  split; [apply Z.shiftr_nonneg; nia|].
  apply Qle_trans with (fx a * fx b)%Q.
  - rewrite fx_mul. unfold fx, Qle. cbn [Qnum Qden].
    change (Z.pos (2 ^ 56 * 2 ^ 56)) with (2 ^ 56 * 2 ^ 56)%Z.
    change (Z.pos (2 ^ 56)) with (2 ^ 56)%Z. nia.
  - apply Qmult_le_compat_nonneg; split; auto using fx_nonneg.
Qed.

Lemma mul_hi_sound (a b : Z) (u v : Q) :
  (0 <= u)%Q -> (0 <= v)%Q -> (u <= fx a)%Q -> (v <= fx b)%Q ->
  (u * v <= fx (mul_hi a b))%Q.
Proof.
  intros Hu Hv Ha Hb. unfold mul_hi.
  pose proof (shiftr_bounds (a * b)) as [H1 H2].
  apply Qle_trans with (fx a * fx b)%Q.
  - apply Qmult_le_compat_nonneg; split; assumption.
  - rewrite fx_mul. unfold fx, Qle. cbn [Qnum Qden].
    change (Z.pos (2 ^ 56 * 2 ^ 56)) with (2 ^ 56 * 2 ^ 56)%Z.
    change (Z.pos (2 ^ 56)) with (2 ^ 56)%Z. nia.
Qed.

Lemma qpow_nonneg (x : Q) (k : nat) : (0 <= x)%Q -> (0 <= qpow x k)%Q.
Proof.
  intros Hx. induction k as [|k IH]; cbn [qpow]; [discriminate|].
  now apply Qmult_le_0_compat.
Qed.

Lemma pow_lo_sound (xl : Z) (x : Q) (k : nat) :
  (0 <= xl)%Z -> (fx xl <= x)%Q ->
  (0 <= pow_fx mul_lo xl k)%Z /\ (fx (pow_fx mul_lo xl k) <= qpow x k)%Q.
Proof.
  intros Hl Hx. induction k as [|k [IH1 IH2]]; cbn [pow_fx qpow].
  - split; [discriminate|]. rewrite fx_one_eq. apply Qle_refl.
  - now apply mul_lo_sound.
Qed.

Lemma pow_hi_sound (xh : Z) (x : Q) (k : nat) :
  (0 <= x)%Q -> (x <= fx xh)%Q ->
  (qpow x k <= fx (pow_fx mul_hi xh k))%Q.
Proof.
  intros H0 Hx. induction k as [|k IH]; cbn [pow_fx qpow].
  - rewrite fx_one_eq. apply Qle_refl.
  - apply mul_hi_sound; auto using qpow_nonneg.
Qed.

Lemma sum_lo_sound (ws xs : list Z) (W P : list Q) (k : nat) :
  Forall2 (fun xl x => (0 <= xl)%Z /\ (fx xl <= x)%Q) xs P ->
  Forall2 (fun wl w => (0 <= wl)%Z /\ (fx wl <= w)%Q) ws W ->
  (fx (sum_fx mul_lo ws xs k) <= moment P W k)%Q.
Proof.
  intros HP. revert ws W. unfold sum_fx, moment.
  induction HP as [|xl x xs P [Hx0 Hx] _ IH]; intros ws W HW.
  - destruct HW; cbn; discriminate.
  - destruct HW as [|wl w ws W [Hw0 Hw] HW]; [cbn; discriminate|].
    cbn [zip_with fold_right]. rewrite fx_add.
    apply Qplus_le_compat; [|now apply IH].
    destruct (pow_lo_sound xl x k Hx0 Hx) as [Hp0 Hp].
    exact (proj2 (mul_lo_sound wl _ w _ Hw0 Hp0 Hw Hp)).
Qed.

Lemma sum_hi_sound (ws xs : list Z) (W P : list Q) (k : nat) :
  Forall2 (fun xh x => (0 <= x)%Q /\ (x <= fx xh)%Q) xs P ->
  Forall2 (fun wh w => (0 <= w)%Q /\ (w <= fx wh)%Q) ws W ->
  (moment P W k <= fx (sum_fx mul_hi ws xs k))%Q.
Proof.
  intros HP. revert ws W. unfold sum_fx, moment.
  induction HP as [|xh x xs P [Hx0 Hx] _ IH]; intros ws W HW.
  - destruct HW; cbn; discriminate.
  - destruct HW as [|wh w ws W [Hw0 Hw] HW]; [cbn; discriminate|].
    cbn [zip_with fold_right]. rewrite fx_add.
    apply Qplus_le_compat; [|now apply IH].
    apply mul_hi_sound; try assumption; [now apply qpow_nonneg|now apply pow_hi_sound].
Qed.

(** The floor of a table entry, and what it encloses: every number within
    [2^-53] of the entry. *)
Lemma fx_floor_spec (x : Q) : (fx (fx_floor x) <= x)%Q /\ (x <= fx (fx_floor x + 1))%Q.
Proof.
  unfold fx_floor, fx, Qle. cbn [Qnum Qden]. rewrite Z.shiftl_mul_pow2 by lia.
  change (Z.pos (2 ^ 56)) with (2 ^ 56)%Z.
  pose proof (Z.mul_div_le (Qnum x * 2 ^ 56) (Z.pos (Qden x)) ltac:(lia)).
  pose proof (Z.mul_succ_div_gt (Qnum x * 2 ^ 56) (Z.pos (Qden x)) ltac:(lia)).
  nia.
Qed.

Lemma fx_enclosure (x x' : Q) :
  (Qabs.Qabs (x' - x) <= 1 # 2 ^ 53)%Q ->
  (fx (fx_floor x - 8) <= x')%Q /\ (x' <= fx (fx_floor x + 9))%Q.
Proof.
  intros H. apply Qabs.Qabs_Qle_condition in H. destruct H as [H1 H2].
  destruct (fx_floor_spec x) as [F1 F2].
  replace (fx_floor x + 9)%Z with ((fx_floor x + 1) + 8)%Z by lia.
  unfold Z.sub. rewrite !fx_add. rewrite fx_add in F2.
  assert (E : (fx 8 == 1 # 2 ^ 53)%Q) by reflexivity.
  assert (E' : (fx (-8) == - (1 # 2 ^ 53))%Q) by reflexivity.
  rewrite E, E'. split; lra.
Qed.

Lemma enclosures (P P' : list Q) :
  Forall2 (fun x' x => (Qabs.Qabs (x' - x) <= 1 # 2 ^ 53)%Q) P' P ->
  forallb (fun a => (0 <=? a)%Z) (map (fun x => (fx_floor x - 8)%Z) P) = true ->
  Forall2 (fun xl x' => (0 <= xl)%Z /\ (fx xl <= x')%Q) (map (fun x => (fx_floor x - 8)%Z) P) P'
  /\ Forall2 (fun xh x' => (0 <= x')%Q /\ (x' <= fx xh)%Q)
             (map (fun x => (fx_floor x + 9)%Z) P) P'.
Proof.
  induction 1 as [|x' x P' P Hx _ IH]; intros Hpos; [split; constructor|].
  cbn [map forallb] in Hpos. apply andb_true_iff in Hpos. destruct Hpos as [H0 Hpos].
  apply Z.leb_le in H0. destruct (fx_enclosure x x' Hx) as [Hl Hh].
  destruct (IH Hpos) as [IHl IHh]. cbn [map]. split; constructor; try assumption.
  - split; assumption.
  - split; [|assumption]. apply Qle_trans with (fx (fx_floor x - 8)); [|assumption].
    now apply fx_nonneg.
Qed.

Lemma lower_ok (lo : Z) (k1 : positive) :
  (fx_one * (100000000000000 - Z.pos k1) <=? lo * Z.pos k1 * 100000000000000)%Z = true ->
  ((1 # k1) - (1 # 100000000000000) <= fx lo)%Q.
Proof.
  intros H. apply Z.leb_le in H. unfold fx, Qle, Qminus, Qplus, Qopp. cbn [Qnum Qden].
  unfold fx_one in H. change (Z.shiftl 1 56) with (2 ^ 56)%Z in H.
  rewrite !Pos2Z.inj_mul. change (Z.pos (2 ^ 56)) with (2 ^ 56)%Z. nia.
Qed.

Lemma upper_ok (hi : Z) (k1 : positive) :
  (hi * Z.pos k1 * 100000000000000 <=? fx_one * (100000000000000 + Z.pos k1))%Z = true ->
  (fx hi <= (1 # k1) + (1 # 100000000000000))%Q.
Proof.
  intros H. apply Z.leb_le in H. unfold fx, Qle, Qplus. cbn [Qnum Qden].
  unfold fx_one in H. change (Z.shiftl 1 56) with (2 ^ 56)%Z in H.
  rewrite !Pos2Z.inj_mul. change (Z.pos (2 ^ 56)) with (2 ^ 56)%Z. nia.
Qed.

(** The test of the rule of index [p]: for every degree up to [2 p + 1],
    the enclosure of the quadrature sum lies within [10^-14] of
    [1 / (k + 1)]. *)
Definition check_rule (p : nat) : bool :=
  let fP := map fx_floor (nth p points []) in
  let fW := map fx_floor (nth p weights []) in
  let Pl := map (fun f => (f - 8)%Z) fP in
  let Wl := map (fun f => (f - 8)%Z) fW in
  let Ph := map (fun f => (f + 9)%Z) fP in
  let Wh := map (fun f => (f + 9)%Z) fW in
  let los := fx_sums mul_lo (2 * p + 2) Wl Pl (map (fun _ => fx_one) Pl) in
  let his := fx_sums mul_hi (2 * p + 2) Wh Ph (map (fun _ => fx_one) Ph) in
  forallb (fun a => (0 <=? a)%Z) Pl
  && forallb (fun a => (0 <=? a)%Z) Wl
  && forallb
       (fun k =>
          let k1 := Z.pos (Pos.of_succ_nat k) in
          (fx_one * (100000000000000 - k1) <=? nth k los 0 * k1 * 100000000000000)%Z
          && (nth k his 0 * k1 * 100000000000000 <=? fx_one * (100000000000000 + k1))%Z)
       (seq 0 (2 * p + 2)).

Lemma nth_map_seq {A : Type} (f : nat -> A) (K k : nat) (d : A) :
  k < K -> nth k (map f (seq 0 K)) d = f k.
Proof.
  intros Hk. rewrite (nth_indep _ d (f 0)) by (rewrite length_map, length_seq; lia).
  now rewrite map_nth, seq_nth.
Qed.

Lemma check_rule_sound (p k : nat) (P' W' : list Q) :
  check_rule p = true ->
  k < 2 * p + 2 ->
  Forall2 (fun x' x => (Qabs.Qabs (x' - x) <= 1 # 2 ^ 53)%Q) P' (nth p points []) ->
  Forall2 (fun w' w => (Qabs.Qabs (w' - w) <= 1 # 2 ^ 53)%Q) W' (nth p weights []) ->
  (Qabs.Qabs (moment P' W' k - (1 # Pos.of_succ_nat k)) <= 1 # 100000000000000)%Q.
Proof.
  intros Hc Hk HP HW. unfold check_rule in Hc. cbv zeta in Hc.
  rewrite (map_map fx_floor (fun f => (f - 8)%Z) (nth p points [])),
          (map_map fx_floor (fun f => (f - 8)%Z) (nth p weights [])),
          (map_map fx_floor (fun f => (f + 9)%Z) (nth p points [])),
          (map_map fx_floor (fun f => (f + 9)%Z) (nth p weights [])) in Hc.
  apply andb_true_iff in Hc. destruct Hc as [Hc Hb].
  apply andb_true_iff in Hc. destruct Hc as [HPpos HWpos].
  destruct (enclosures _ _ HP HPpos) as [HPl HPh].
  destruct (enclosures _ _ HW HWpos) as [HWl HWh].
  rewrite forallb_forall in Hb. specialize (Hb k ltac:(apply in_seq; lia)).
  apply andb_true_iff in Hb. destruct Hb as [Hlo Hhi].
  rewrite (map_ext (fun _ : Z => fx_one) (fun x => pow_fx mul_lo x 0)) in Hlo by reflexivity.
  rewrite (map_ext (fun _ : Z => fx_one) (fun x => pow_fx mul_hi x 0)) in Hhi by reflexivity.
  rewrite fx_sums_spec in Hlo, Hhi.
  rewrite nth_map_seq in Hlo, Hhi by lia.
  cbn [Nat.add] in Hlo, Hhi.
  apply lower_ok in Hlo. apply upper_ok in Hhi.
  pose proof (sum_lo_sound _ _ _ _ k HPl HWl) as Hl.
  pose proof (sum_hi_sound _ _ _ _ k HPh HWh) as Hh.
  apply Qabs.Qabs_Qle_condition. split; lra.
Qed.

Lemma check_all_rules : forallb check_rule (seq 0 12) = true.
Proof. vm_compute. reflexivity. Qed.

Lemma determine_order_half (o p : Z) :
  _determine_order (Some o) None = Ok p -> (0 <= p <= 11)%Z /\ (o <= 2 * p + 1)%Z.
Proof.
  intros H. split; [exact (determine_order_range _ _ _ H)|].
  unfold _determine_order in H. change (length order_map) with 24 in H.
  destruct (Z.leb_spec 0 o); [|discriminate].
  destruct (Z.leb_spec o (Z.of_nat 24 - 1)); [|discriminate].
  cbn [andb] in H. revert p H.
  apply (Z_below (fun o => forall p, getitem order_map o = Ok p -> (o <= 2 * p + 1)%Z) 24);
    [|lia].
  intros k Hk p.
  do 24 (destruct k as [|k]; [cbn; intros [= <-]; lia|]). lia.
Qed.

Lemma getitem_nth {A : Type} (l : list A) (i : nat) (a d : A) :
  getitem l (Z.of_nat i) = Ok a -> nth i l d = a.
Proof.
  intros H. destruct (nth_error l i) as [b|] eqn:E.
  - rewrite (getitem_nonneg _ _ _ E) in H. injection H as <-.
    now apply nth_error_nth.
  - rewrite (getitem_nonneg_None _ _ E) in H. discriminate.
Qed.

(** The rule [quadrature(order=o)] returns integrates every monomial of
    degree at most [o] over the unit interval to within [10^-14]: the sum
    of the weights times the [k]-th powers of the points differs from
    [1 / (k + 1)] by at most [10^-14]. This holds for the entries of the
    tables and for every other numbers within [2^-53] of them, such as
    the entries rounded to double precision; the sum itself is exact. *)
Theorem quadrature_exact (o : Z) (k : nat) (P W P' W' : list Q) :
  quadrature (Some o) None = Ok (P, W) ->
  (Z.of_nat k <= o)%Z ->
  Forall2 (fun x' x => (Qabs.Qabs (x' - x) <= 1 # 2 ^ 53)%Q) P' P ->
  Forall2 (fun w' w => (Qabs.Qabs (w' - w) <= 1 # 2 ^ 53)%Q) W' W ->
  (Qabs.Qabs (moment P' W' k - (1 # Pos.of_succ_nat k)) <= 1 # 100000000000000)%Q.
Proof.
  intros Hq Hk HP HW. unfold quadrature in Hq.
  destruct (_determine_order (Some o) None) as [p|e] eqn:E; [|discriminate].
  cbn [res_bind] in Hq. destruct (determine_order_half _ _ E) as [Hp Ho].
  rewrite <- (Z2Nat.id p) in Hq by lia.
  destruct (getitem points (Z.of_nat (Z.to_nat p))) as [P0|e] eqn:EP; [|discriminate].
  cbn [res_bind] in Hq.
  destruct (getitem weights (Z.of_nat (Z.to_nat p))) as [W0|e] eqn:EW; [|discriminate].
  cbn [res_bind] in Hq. injection Hq as <- <-.
  apply (getitem_nth _ _ _ []) in EP. apply (getitem_nth _ _ _ []) in EW. subst P0 W0.
  apply (check_rule_sound (Z.to_nat p)); try assumption; [|lia].
  pose proof check_all_rules as Hall. rewrite forallb_forall in Hall.
  apply Hall. apply in_seq. lia.
Qed.

(** *** Instances *)

Lemma close_self (l : list Q) :
  Forall2 (fun x' x => (Qabs.Qabs (x' - x) <= 1 # 2 ^ 53)%Q) l l.
Proof.
  assert (Hd : (0 < 1 # 2 ^ 53)%Q) by reflexivity.
  induction l as [|x l IH]; constructor; [|exact IH].
  apply Qabs.Qabs_Qle_condition. split; lra.
Qed.

Lemma quadrature_exact_witness :
  exists P W,
    quadrature (Some 3%Z) None = Ok (P, W) /\
    (Qabs.Qabs (moment P W 3 - (1 # 4)) <= 1 # 100000000000000)%Q.
Proof.
  eexists _, _. split; [reflexivity|].
  apply (quadrature_exact 3 3 _ _ _ _ eq_refl); [lia|apply close_self|apply close_self].
Defined.

End Quadratures.

(** * Log output ([pymor/core/logger.py]) *)

(** The formatter of the log lines and the indentation of blocks. Strings
    are those of the source; the time and the level a logger is enabled
    for are parameters. *)

From Stdlib Require String Ascii DecimalString.

Module Logger.
Import String.StringSyntax.
#[local] Open Scope string_scope.

Abbreviation string := String.string.

(** ** Strings *)

Definition dot : Ascii.ascii := Ascii.ascii_of_nat 46.

(** [s.split('.')] *)
Fixpoint split_dot (s : string) : list string :=
  match s with
  | String.EmptyString => [String.EmptyString]
  | String.String c s' =>
      if Ascii.eqb c dot then String.EmptyString :: split_dot s'
      else match split_dot s' with
           | t :: ts => String.String c t :: ts
           | [] => [String.String c String.EmptyString]
           end
  end.

(** ['.'.join(l)] *)
Fixpoint join_dot (l : list string) : string :=
  match l with
  | [] => ""
  | [t] => t
  | t :: l' => String.append t (String.String dot (join_dot l'))
  end.

(** [s * n] *)
Definition str_mul (s : string) (n : Z) : string :=
  String.concat "" (repeat s (Z.to_nat n)).

(** [str(n)] for an integer *)
Definition str_of_int (n : Z) : string :=
  DecimalString.NilZero.string_of_int (Z.to_int n).

(** ['{:02}'.format(n)] *)
Definition fmt02 (n : Z) : string :=
  if ((0 <=? n) && (n <? 10))%Z then String.append "0" (str_of_int n) else str_of_int n.

(** [l[start:stop]] *)
Definition py_slice {A : Type} (l : list A) (start stop : Z) : list A :=
  let n := Z.of_nat (length l) in
  let norm := fun i : Z => if (i <? 0)%Z then Z.max 0 (i + n) else Z.min i n in
  take (Z.to_nat (norm stop - norm start)) (drop (Z.to_nat (norm start)) l).

(** ** Constants *)

Definition ESC : string := String.String (Ascii.ascii_of_nat 27) "".
Definition RESET_SEQ : string := String.append ESC "[0m".
Definition BOLD_SEQ : string := String.append ESC "[1m".

(** [COLOR_SEQ % n] *)
Definition COLOR_SEQ (n : Z) : string :=
  String.append ESC (String.append "[1;" (String.append (str_of_int n) "m")).

(** The dictionary [COLORS]. *)
Definition COLORS (levelname : string) : option Z :=
  if String.eqb levelname "WARNING" then Some 3%Z
  else if String.eqb levelname "INFO" then Some 2%Z
  else if String.eqb levelname "INFO2" then Some 3%Z
  else if String.eqb levelname "INFO3" then Some 1%Z
  else if String.eqb levelname "DEBUG" then Some 4%Z
  else if String.eqb levelname "CRITICAL" then Some 5%Z
  else if String.eqb levelname "ERROR" then Some 1%Z
  else None.

(** The module-level settings. *)
Record settings : Type := {
  MAX_HIERARCHY_LEVEL : Z;
  BLOCK_TIMINGS : bool;
  INDENT_BLOCKS : bool;
  INDENT : Z
}.

(** ** [ColoredFormatter] *)

(** [formatTime], [elapsed] being [int(time.time() - start_time)]. *)
Definition formatTime (g : settings) (elapsed : Z) : string :=
  let days := (elapsed / 86400)%Z in
  let remainder := (elapsed mod 86400)%Z in
  let hours := (remainder / 3600)%Z in
  let remainder' := (remainder mod 3600)%Z in
  let minutes := (remainder' / 60)%Z in
  let seconds := (remainder' mod 60)%Z in
  let indent := str_mul "  | " (INDENT g) in
  if negb (days =? 0)%Z then
    String.concat "" [indent; str_of_int days; "d "; fmt02 hours; ":"; fmt02 minutes; ":";
                      fmt02 seconds]
  else if negb (hours =? 0)%Z then
    String.concat "" [indent; fmt02 hours; ":"; fmt02 minutes; ":"; fmt02 seconds]
  else
    String.concat "" [indent; fmt02 minutes; ":"; fmt02 seconds].

(** The fields of a log record that [format] reads and writes. *)
Record record : Type := {
  name : string;
  levelname : string;
  msg : string
}.

(** What [format] returns: a line of its own, or the line that
    [logging.Formatter.format] makes of the record as [format] has left
    it. *)
Inductive formatted : Type :=
| Line (s : string)
| Formatter_format (r : record).

(** The name [format] gives the record. *)
Definition shorten_name (g : settings) (nm : string) : string :=
  let tokens := split_dot nm in
  if (MAX_HIERARCHY_LEVEL g - 1 <? Z.of_nat (length tokens))%Z
  then join_dot (py_slice tokens 1 (MAX_HIERARCHY_LEVEL g) ++ [List.last tokens ""])
  else join_dot (py_slice tokens 1 (MAX_HIERARCHY_LEVEL g)).

Definition format (use_color : bool) (g : settings) (r : record) : formatted :=
  if String.eqb (levelname r) "BLOCK_TIME" then
    Line (String.concat "" [str_mul "  | " (INDENT g - 1); "  \--------------- "; msg r])
  else if String.eqb (msg r) "" then Line (str_mul "  | " (INDENT g))
  else
    let name1 := shorten_name g (name r) in
    match (if use_color then COLORS (levelname r) else None) with
    | Some c =>
        if String.eqb (levelname r) "INFO" || String.eqb (levelname r) "BLOCK" then
          Formatter_format {| name := name1; levelname := RESET_SEQ; msg := msg r |}
        else if String.prefix "INFO" (levelname r) then
          Formatter_format
            {| name := String.concat "" [RESET_SEQ; COLOR_SEQ (30 + c); name1; RESET_SEQ];
               levelname := RESET_SEQ; msg := msg r |}
        else
          Formatter_format
            {| name := name1;
               levelname := String.concat ""
                              [RESET_SEQ; "|"; COLOR_SEQ (30 + c); levelname r; RESET_SEQ];
               msg := msg r |}
    | None =>
        if String.eqb (levelname r) "INFO" || String.eqb (levelname r) "BLOCK" then
          Formatter_format {| name := name1; levelname := ""; msg := msg r |}
        else Formatter_format {| name := name1; levelname := levelname r; msg := msg r |}
    end.

(** ** Properties of the formatter *)

Fixpoint dotfree (s : string) : bool :=
  match s with
  | String.EmptyString => true
  | String.String c s' => negb (Ascii.eqb c dot) && dotfree s'
  end.

Lemma split_dot_nonempty (s : string) : split_dot s <> [].
Proof.
  induction s as [|c s IH]; cbn; [discriminate|].
  destruct (Ascii.eqb c dot); [discriminate|]. destruct (split_dot s); discriminate.
Qed.

Lemma split_dot_dotfree (s : string) : Forall (fun t => dotfree t = true) (split_dot s).
Proof.
  induction s as [|c s IH]; cbn; [repeat constructor|].
  destruct (Ascii.eqb c dot) eqn:E; [constructor; [reflexivity|exact IH]|].
  destruct (split_dot s) as [|t ts]; [repeat constructor; cbn; now rewrite E|].
  inversion IH as [|? ? Ht Hts]; subst. constructor; [|exact Hts].
  cbn. now rewrite E, Ht.
Qed.

Lemma split_dot_single (t : string) : dotfree t = true -> split_dot t = [t].
Proof.
  induction t as [|c t IH]; cbn; [reflexivity|]. intros H.
  apply andb_true_iff in H. destruct H as [Hc Ht]. apply negb_true_iff in Hc.
  now rewrite Hc, (IH Ht).
Qed.

Lemma split_dot_append (t rest : string) :
  dotfree t = true ->
  split_dot (String.append t (String.String dot rest)) = t :: split_dot rest.
Proof.
  induction t as [|c t IH]; cbn; [reflexivity|]. intros H.
  apply andb_true_iff in H. destruct H as [Hc Ht]. apply negb_true_iff in Hc.
  now rewrite Hc, (IH Ht).
Qed.

(** Joining and splitting again gives the components back. *)
Lemma split_join (l : list string) :
  l <> [] -> Forall (fun t => dotfree t = true) l -> split_dot (join_dot l) = l.
Proof.
  induction l as [|t l IH]; [congruence|]. intros _ H.
  inversion H as [|? ? Ht Hl]; subst. destruct l as [|t' l].
  - cbn. now apply split_dot_single.
  - cbn [join_dot]. rewrite split_dot_append by exact Ht.
    f_equal. apply IH; [discriminate|exact Hl].
Qed.

Lemma join_split (s : string) : join_dot (split_dot s) = s.
Proof.
  induction s as [|c s IH]; [reflexivity|]. cbn [split_dot].
  destruct (Ascii.eqb c dot) eqn:E.
  - apply Ascii.eqb_eq in E. subst c.
    pose proof (split_dot_nonempty s) as Hne.
    destruct (split_dot s) as [|t ts]; [congruence|].
    change (join_dot ("" :: t :: ts))
      with (String.append "" (String.String dot (join_dot (t :: ts)))).
    now rewrite IH.
  - pose proof (split_dot_nonempty s) as Hne.
    destruct (split_dot s) as [|t [|t' ts]]; [congruence| |].
    + cbn in *. now rewrite IH.
    + change (join_dot (String.String c t :: t' :: ts))
        with (String.String c (String.append t (String.String dot (join_dot (t' :: ts))))).
      change (join_dot (t :: t' :: ts))
        with (String.append t (String.String dot (join_dot (t' :: ts)))) in IH.
      now rewrite IH.
Qed.

Lemma last_dotfree (l : list string) :
  Forall (fun t => dotfree t = true) l -> dotfree (List.last l "") = true.
Proof.
  induction 1 as [|t l Ht Hl IH]; [reflexivity|].
  destruct l; [exact Ht|exact IH].
Qed.

Lemma py_slice_from_1 {A : Type} (l : list A) (stop : Z) :
  l <> [] -> (1 <= stop)%Z ->
  py_slice l 1 stop = take (Z.to_nat stop - 1) (drop 1 l).
Proof.
  intros Hl Hs. unfold py_slice. cbv zeta.
  assert (Hn : 1 <= length l) by (destruct l; [congruence|cbn; lia]).
  destruct (Z.ltb_spec 1 0); [lia|]. destruct (Z.ltb_spec stop 0); [lia|].
  replace (Z.to_nat (Z.min 1 (Z.of_nat (length l)))) with 1 by lia.
  destruct (Z.le_gt_cases stop (Z.of_nat (length l))).
  - f_equal. lia.
  - rewrite !take_ge; [reflexivity| |]; rewrite length_drop; lia.
Qed.

(** The name of a record after [format], by components. With
    [MAX_HIERARCHY_LEVEL = m >= 1] and a name of [n] components:
    for [n > m], the components 2 to [m] and the last one ([m] in all, the
    first stripped, the last preserved); for [n = m >= 2], the components
    2 to [n] and the last one again; for [n < m], the components 2 to [n]
    (none for [n = 1]). *)
Theorem shorten_name_components (g : settings) (nm : string) :
  (1 <= MAX_HIERARCHY_LEVEL g)%Z ->
  let tokens := split_dot nm in
  let m := Z.to_nat (MAX_HIERARCHY_LEVEL g) in
  (m < length tokens ->
   split_dot (shorten_name g nm) = take (m - 1) (drop 1 tokens) ++ [List.last tokens ""])
  /\ (length tokens = m -> 2 <= m ->
      split_dot (shorten_name g nm) = drop 1 tokens ++ [List.last tokens ""])
  /\ (length tokens = m -> m = 1 -> shorten_name g nm = nm)
  /\ (length tokens < m -> shorten_name g nm = join_dot (drop 1 tokens)).
Proof.
  intros HM tokens m.
  pose proof (split_dot_nonempty nm) as Hne. fold tokens in Hne.
  pose proof (split_dot_dotfree nm) as Hdf. fold tokens in Hdf.
  assert (Hlast : dotfree (List.last tokens "") = true) by now apply last_dotfree.
  assert (Hs : py_slice tokens 1 (MAX_HIERARCHY_LEVEL g) = take (m - 1) (drop 1 tokens))
    by now apply py_slice_from_1.
  assert (Hj : join_dot tokens = nm) by apply join_split.
  unfold shorten_name. fold tokens. rewrite Hs. clearbody tokens.
  assert (Hdrop : Forall (fun t => dotfree t = true) (take (m - 1) (drop 1 tokens))).
  { apply Forall_take, Forall_drop, Hdf. }
  split; [|split; [|split]].
  - intros Hn. destruct (Z.ltb_spec (MAX_HIERARCHY_LEVEL g - 1) (Z.of_nat (length tokens)));
      [|lia].
    apply split_join; [now destruct (take _ _)|].
    apply Forall_app. split; [exact Hdrop|]. now constructor.
  - intros Hn Hm. destruct (Z.ltb_spec (MAX_HIERARCHY_LEVEL g - 1) (Z.of_nat (length tokens)));
      [|lia].
    rewrite take_ge in * by (rewrite length_drop; lia).
    apply split_join; [now destruct (drop _ _)|].
    apply Forall_app. split; [exact Hdrop|]. now constructor.
  - intros Hn Hm. destruct (Z.ltb_spec (MAX_HIERARCHY_LEVEL g - 1) (Z.of_nat (length tokens)));
      [|lia].
    rewrite Hm. cbn [Nat.sub take app join_dot].
    rewrite <- Hj.
    destruct tokens as [|t [|t' ts]]; [congruence|reflexivity|cbn in Hn; lia].
  - intros Hn. destruct (Z.ltb_spec (MAX_HIERARCHY_LEVEL g - 1) (Z.of_nat (length tokens)));
      [lia|].
    rewrite take_ge by (rewrite length_drop; lia). reflexivity.
Qed.

Lemma dotfree_append (a b : string) :
  dotfree (String.append a b) = dotfree a && dotfree b.
Proof. induction a as [|c a IH]; cbn; [reflexivity|]. now rewrite IH, andb_assoc. Qed.

Lemma dotfree_concat (l : list string) :
  dotfree (String.concat "" l) = forallb dotfree l.
Proof.
  induction l as [|a l IH]; [reflexivity|]. cbn [forallb]. rewrite <- IH.
  destruct l as [|b l]; [cbn; now rewrite andb_true_r|].
  change (String.concat "" (a :: b :: l))
    with (String.append a (String.append "" (String.concat "" (b :: l)))).
  now rewrite dotfree_append.
Qed.

Lemma shorten_name_default (g : settings) (nm : string) :
  MAX_HIERARCHY_LEVEL g = 1%Z -> shorten_name g nm = List.last (split_dot nm) "".
Proof.
  intros HM. unfold shorten_name. rewrite HM.
  pose proof (split_dot_nonempty nm) as Hne.
  rewrite py_slice_from_1 by (auto; lia).
  destruct (Z.ltb_spec (1 - 1) (Z.of_nat (length (split_dot nm)))) as [_|H].
  - reflexivity.
  - destruct (split_dot nm); [congruence|cbn in H; lia].
Qed.

Lemma shorten_name_dotfree (g : settings) (nm : string) :
  MAX_HIERARCHY_LEVEL g = 1%Z -> dotfree nm = true -> shorten_name g nm = nm.
Proof.
  intros HM H. rewrite shorten_name_default by exact HM.
  now rewrite split_dot_single.
Qed.

Lemma COLORS_range (l : string) (c : Z) : COLORS l = Some c -> (1 <= c <= 5)%Z.
Proof.
  unfold COLORS. repeat (destruct (String.eqb l _); [intros [= <-]; lia|]). discriminate.
Qed.

(** With the default [MAX_HIERARCHY_LEVEL = 1], formatting a record a
    second time, as the second of two handlers does, leaves it as the first
    formatting has left it: the name stays the last component, coloured
    once, and the level name is not replaced again. *)
Theorem format_twice (use_color : bool) (g : settings) (r r1 : record) :
  MAX_HIERARCHY_LEVEL g = 1%Z ->
  format use_color g r = Formatter_format r1 ->
  format use_color g r1 = Formatter_format r1.
Proof.
  intros HM H. unfold format in H.
  destruct (String.eqb (levelname r) "BLOCK_TIME") eqn:Eb; [discriminate|].
  destruct (String.eqb (msg r) "") eqn:Em; [discriminate|].
  assert (Hdf : dotfree (shorten_name g (name r)) = true).
  { rewrite shorten_name_default by exact HM. apply last_dotfree, split_dot_dotfree. }
  assert (Hcase :
    (exists c, use_color = true /\ COLORS (levelname r) = Some c /\
       (r1 = {| name := shorten_name g (name r); levelname := RESET_SEQ; msg := msg r |}
        \/ r1 = {| name := String.concat ""
                             [RESET_SEQ; COLOR_SEQ (30 + c); shorten_name g (name r); RESET_SEQ];
                   levelname := RESET_SEQ; msg := msg r |}
        \/ r1 = {| name := shorten_name g (name r);
                   levelname := String.concat ""
                                  [RESET_SEQ; "|"; COLOR_SEQ (30 + c); levelname r; RESET_SEQ];
                   msg := msg r |}))
    \/ ((if use_color then COLORS (levelname r) else None) = None /\
        (r1 = {| name := shorten_name g (name r); levelname := ""; msg := msg r |}
         \/ (String.eqb (levelname r) "INFO" || String.eqb (levelname r) "BLOCK" = false /\
             r1 = {| name := shorten_name g (name r); levelname := levelname r;
                     msg := msg r |})))).
  { destruct (if use_color then COLORS (levelname r) else None) as [c|] eqn:Ec.
    - left. exists c. destruct use_color; [|discriminate]. split; [reflexivity|].
      split; [exact Ec|].
      destruct (String.eqb (levelname r) "INFO" || String.eqb (levelname r) "BLOCK");
        [injection H as <-; auto|].
      destruct (String.prefix "INFO" (levelname r)); injection H as <-; auto.
    - right. split; [reflexivity|].
      destruct (String.eqb (levelname r) "INFO" || String.eqb (levelname r) "BLOCK") eqn:Ei;
        injection H as <-; auto. }
  clear H.
  destruct Hcase as [(c & Hu & Ec & Hr)|[Ec Hr]]; [subst use_color|].
  - apply COLORS_range in Ec.
    assert (Hc : c = 1%Z \/ c = 2%Z \/ c = 3%Z \/ c = 4%Z \/ c = 5%Z) by lia.
    destruct Hr as [-> | [-> | ->]]; unfold format; cbn [name levelname msg]; rewrite Em.
    + rewrite (shorten_name_dotfree g _ HM Hdf). reflexivity.
    + rewrite shorten_name_dotfree; [reflexivity|exact HM|].
      rewrite dotfree_concat. cbn [forallb]. rewrite Hdf.
      destruct Hc as [-> | [-> | [-> | [-> | ->]]]]; vm_compute; reflexivity.
    + rewrite (shorten_name_dotfree g _ HM Hdf). reflexivity.
  - destruct Hr as [-> | [Ei ->]]; unfold format; cbn [name levelname msg]; rewrite Em.
    + rewrite (shorten_name_dotfree g _ HM Hdf). cbn.
      destruct use_color; reflexivity.
    + rewrite Eb, Ec, Ei, (shorten_name_dotfree g _ HM Hdf). reflexivity.
Qed.

(** ** Blocks *)

(** The levels [BLOCK] and [BLOCK_TIME]. *)
Definition BLOCK : Z := 25.
Definition BLOCK_TIME : Z := 26.

(** A line on its way out: the time stamp [formatTime] gives it and what
    [format] makes of its record. *)
Record event : Type := {
  asctime : string;
  body_of : formatted
}.

(** The module-level settings and the lines written so far. *)
Record state : Type := {
  globals : settings;
  out : list event
}.

(** What differs from one logger and one moment to another: whether the
    formatter colours, the levels the logger is enabled for, its name,
    the seconds since the start and the text ['{}'.format(duration)] of a
    duration. *)
Record context : Type := {
  use_color : bool;
  isEnabledFor : Z -> bool;
  logger_name : string;
  elapsed : Z;
  duration_text : string
}.

(** [logger.log(level, msg)], with the name of the level. *)
Definition log (c : context) (level : Z) (lname : string) (m : string) (s : state) : state :=
  if isEnabledFor c level then
    {| globals := globals s;
       out := out s ++ [{| asctime := formatTime (globals s) (elapsed c);
                           body_of := format (use_color c) (globals s)
                                        {| name := logger_name c; levelname := lname;
                                           msg := m |} |}] |}
  else s.

Definition set_INDENT (g : settings) (i : Z) : settings :=
  {| MAX_HIERARCHY_LEVEL := MAX_HIERARCHY_LEVEL g; BLOCK_TIMINGS := BLOCK_TIMINGS g;
     INDENT_BLOCKS := INDENT_BLOCKS g; INDENT := i |}.

(** [set_log_format] *)
Definition set_log_format (max_hierarchy_level : Z) (indent_blocks block_timings : bool)
    (s : state) : state :=
  {| globals := {| MAX_HIERARCHY_LEVEL := max_hierarchy_level; BLOCK_TIMINGS := block_timings;
                   INDENT_BLOCKS := indent_blocks; INDENT := INDENT (globals s) |};
     out := out s |}.

(** A [LogIndenter]; its attribute [tic] exists once [__enter__] has set
    it. *)
Record LogIndenter : Type := {
  doit : bool;
  tic : option unit
}.

Inductive error : Type := AttributeError.

(** [_block]: the line of the block is logged, then the indenter made. *)
Definition _block (c : context) (m : string) (s : state) : LogIndenter * state :=
  let s1 := log c BLOCK "BLOCK" m s in
  ({| doit := isEnabledFor c BLOCK && INDENT_BLOCKS (globals s1); tic := None |}, s1).

Definition __enter__ (li : LogIndenter) (s : state) : LogIndenter * state :=
  let li1 := if BLOCK_TIMINGS (globals s) then {| doit := doit li; tic := Some tt |} else li in
  (li1,
   if doit li then
     {| globals := set_INDENT (globals s) (INDENT (globals s) + 1); out := out s |}
   else s).

(** A call returns, or raises and leaves the state as it is then. *)
Inductive outcome : Type :=
| Returned (s : state)
| Raised (e : error) (s : state).

Definition __exit__ (c : context) (li : LogIndenter) (s : state) : outcome :=
  if doit li then
    if BLOCK_TIMINGS (globals s) then
      match tic li with
      | None => Raised AttributeError s
      | Some _ =>
          let s1 := log c BLOCK_TIME "BLOCK_TIME"
                        (String.concat "" ["duration: "; duration_text c; "s"]) s in
          Returned {| globals := set_INDENT (globals s1) (INDENT (globals s1) - 1);
                      out := out s1 |}
      end
    else Returned {| globals := set_INDENT (globals s) (INDENT (globals s) - 1); out := out s |}
  else Returned s.

(** [with logger.block(m): body], for a body that does not raise. The
    contexts are those of the three calls. *)
Definition with_block (c0 c1 : context) (m : string) (body : state -> state) (s : state)
  : outcome :=
  let '(li, s1) := _block c0 m s in
  let '(li1, s2) := __enter__ li s1 in
  __exit__ c1 li1 (body s2).

(** ** Properties of blocks *)

Lemma prefix_append (a b : string) : String.prefix a (String.append a b) = true.
Proof.
  induction a as [|c a IH]; [destruct b; reflexivity|]. cbn.
  destruct (Ascii.ascii_dec c c); [exact IH|congruence].
Qed.

Lemma formatTime_indent (g : settings) (e : Z) :
  String.prefix (str_mul "  | " (INDENT g)) (formatTime g e) = true.
Proof.
  unfold formatTime. cbv zeta.
  destruct (negb _); [apply prefix_append|]. destruct (negb _); apply prefix_append.
Qed.

Lemma format_block_time (uc : bool) (g : settings) (nm m : string) :
  format uc g {| name := nm; levelname := "BLOCK_TIME"; msg := m |}
  = Line (String.concat "" [str_mul "  | " (INDENT g - 1); "  \--------------- "; m]).
Proof. reflexivity. Qed.

(** A block that is indented and timed: the statement returns, [INDENT]
    is afterwards what it was before, and the two lines of the block, the
    one that opens it and the one that gives its duration, carry the same
    indentation, that of the level outside the block. The body may do
    anything that keeps [INDENT] and [BLOCK_TIMINGS] and only adds
    lines, such as logging and further blocks. *)
Theorem block_lines_aligned (c0 c1 : context) (m : string) (body : state -> state)
    (s : state) :
  isEnabledFor c0 BLOCK = true ->
  isEnabledFor c1 BLOCK_TIME = true ->
  INDENT_BLOCKS (globals s) = true ->
  BLOCK_TIMINGS (globals s) = true ->
  (forall t, INDENT (globals (body t)) = INDENT (globals t)
             /\ BLOCK_TIMINGS (globals (body t)) = BLOCK_TIMINGS (globals t)
             /\ exists more, out (body t) = out t ++ more) ->
  exists s' opening more closing,
    with_block c0 c1 m body s = Returned s'
    /\ INDENT (globals s') = INDENT (globals s)
    /\ out s' = out s ++ [opening] ++ more ++ [closing]
    /\ String.prefix (str_mul "  | " (INDENT (globals s))) (asctime opening) = true
    /\ body_of closing
       = Line (String.concat ""
                 [str_mul "  | " (INDENT (globals s)); "  \--------------- ";
                  String.concat "" ["duration: "; duration_text c1; "s"]]).
Proof.
  intros Hb Ht Hi Htm Hbody.
  unfold with_block, _block, __enter__, log. rewrite Hb. cbn [globals out doit].
  rewrite Hi, Htm. cbn [andb doit tic].
  match goal with |- context [body ?t] => set (s2 := t) end.
  destruct (Hbody s2) as (HI & HT & more & Hout).
  assert (G1 : INDENT (globals s2) = (INDENT (globals s) + 1)%Z) by reflexivity.
  assert (G2 : BLOCK_TIMINGS (globals s2) = true) by exact Htm.
  assert (G3 : exists opening,
            out s2 = out s ++ [opening]
            /\ String.prefix (str_mul "  | " (INDENT (globals s))) (asctime opening) = true).
  { eexists. split; [reflexivity|]. apply formatTime_indent. }
  destruct G3 as (opening & G3 & G4). clearbody s2.
  unfold __exit__. cbn [doit tic]. rewrite HT, G2. unfold log. rewrite Ht.
  rewrite format_block_time.
  eexists _, opening, more, _. split; [reflexivity|]. cbn [globals out set_INDENT INDENT].
  split; [lia|].
  split; [rewrite Hout, G3; now rewrite <- !app_assoc|].
  split; [exact G4|].
  cbn [body_of]. rewrite HI, G1.
  replace (INDENT (globals s) + 1 - 1)%Z with (INDENT (globals s)) by lia. reflexivity.
Qed.

(** Timings switched on inside a block. When [BLOCK_TIMINGS] is off as an
    indented block is entered and on as it is left, [__exit__] raises
    [AttributeError], for [__enter__] has not set [tic]; and [INDENT] keeps
    the level of the inside of the block. *)
Theorem block_timings_switched_on (c0 c1 : context) (m : string) (body : state -> state)
    (s : state) :
  isEnabledFor c0 BLOCK = true ->
  INDENT_BLOCKS (globals s) = true ->
  BLOCK_TIMINGS (globals s) = false ->
  (forall t, INDENT (globals (body t)) = INDENT (globals t)
             /\ BLOCK_TIMINGS (globals (body t)) = true) ->
  exists s',
    with_block c0 c1 m body s = Raised AttributeError s'
    /\ INDENT (globals s') = (INDENT (globals s) + 1)%Z.
Proof.
  intros Hb Hi Htm Hbody.
  unfold with_block, _block, __enter__, log. rewrite Hb. cbn [globals out doit].
  rewrite Hi, Htm. cbn [andb doit tic].
  match goal with |- context [body ?t] => set (s2 := t) end.
  destruct (Hbody s2) as (HI & HT).
  unfold __exit__. cbn [doit tic]. rewrite HT.
  eexists. split; [reflexivity|]. rewrite HI. reflexivity.
Qed.

(** ** Instances *)

Definition ex_settings (m : Z) (timings : bool) : settings :=
  {| MAX_HIERARCHY_LEVEL := m; BLOCK_TIMINGS := timings; INDENT_BLOCKS := true; INDENT := 0 |}.

Definition ex_context : context :=
  {| use_color := false; isEnabledFor := fun level => (20 <=? level)%Z;
     logger_name := "pymor.core.logger"; elapsed := 75; duration_text := "0.5" |}.

Lemma shorten_name_components_witness :
  split_dot (shorten_name (ex_settings 2 true) "pymor.core") = ["core"; "core"]
  /\ split_dot (shorten_name (ex_settings 2 true) "pymor.core.logger") = ["core"; "logger"].
Proof.
  assert (H : (1 <= MAX_HIERARCHY_LEVEL (ex_settings 2 true))%Z) by (cbn; lia).
  split.
  - exact (proj1 (proj2 (shorten_name_components (ex_settings 2 true) "pymor.core" H))
             eq_refl (le_n 2)).
  - exact (proj1 (shorten_name_components (ex_settings 2 true) "pymor.core.logger" H)
             (le_n 3)).
Defined.

Lemma format_twice_witness :
  format true (ex_settings 1 true)
    {| name := "logger";
       levelname := String.concat "" [RESET_SEQ; "|"; COLOR_SEQ 33; "WARNING"; RESET_SEQ];
       msg := "slow convergence" |}
  = Formatter_format
      {| name := "logger";
         levelname := String.concat "" [RESET_SEQ; "|"; COLOR_SEQ 33; "WARNING"; RESET_SEQ];
         msg := "slow convergence" |}.
Proof.
  exact (format_twice true (ex_settings 1 true)
           {| name := "pymor.core.logger"; levelname := "WARNING"; msg := "slow convergence" |}
           _ eq_refl eq_refl).
Defined.

Lemma block_lines_aligned_witness :
  exists s' opening more closing,
    with_block ex_context ex_context "Solving" (fun t => t)
      {| globals := ex_settings 1 true; out := [] |} = Returned s'
    /\ INDENT (globals s') = 0%Z
    /\ out s' = [] ++ [opening] ++ more ++ [closing]
    /\ String.prefix (str_mul "  | " 0) (asctime opening) = true
    /\ body_of closing
       = Line (String.concat ""
                 [str_mul "  | " 0; "  \--------------- ";
                  String.concat "" ["duration: "; "0.5"; "s"]]).
Proof.
  apply (block_lines_aligned ex_context ex_context "Solving" (fun t => t)
           {| globals := ex_settings 1 true; out := [] |});
    try reflexivity.
  intros t. split; [reflexivity|]. split; [reflexivity|]. exists []. now rewrite app_nil_r.
Defined.

Lemma block_timings_switched_on_witness :
  exists s',
    with_block ex_context ex_context "Solving" (set_log_format 1 true true)
      {| globals := ex_settings 1 false; out := [] |} = Raised AttributeError s'
    /\ INDENT (globals s') = (0 + 1)%Z.
Proof.
  apply (block_timings_switched_on ex_context ex_context "Solving" (set_log_format 1 true true)
           {| globals := ex_settings 1 false; out := [] |});
    try reflexivity.
  intros t. split; reflexivity.
Defined.

End Logger.

(** * Finite element operators ([pymor/discreteoperators/cg.py]) *)

(** The assembly of the system matrices of [L2ProductP1] and
    [DiffusionOperatorP1] from the local integrals: the global indices, the
    treatment of Dirichlet nodes and the sparse matrix. The local integrals
    [SF_INTS] (the result of [np.einsum]) and the data of the grid (the
    vertices of the elements, the Dirichlet mask and the Dirichlet
    nodes) are inputs. *)

Module CG.
Section Assembly.
Context `{Sc : Scalar}.

(** [np.repeat(a, r, axis=1)] for a two-dimensional array. *)
Definition np_repeat_axis1 {A : Type} (a : list (list A)) (r : nat) : list (list A) :=
  map (flat_map (fun x => repeat x r)) a.

(** [np.tile(a, [1, r])] for a two-dimensional array. *)
Definition np_tile_axis1 {A : Type} (a : list (list A)) (r : nat) : list (list A) :=
  map (fun row => List.concat (repeat row r)) a.

(** [mask[idx]] for a one-dimensional array [mask] and an array of indices. *)
Definition take_mask (mask : list bool) (idx : list nat) : res (list bool) :=
  mapM_res (fun i => match nth_error mask i with
                     | Some b => Ok b
                     | None => Raise IndexError
                     end) idx.

(** [np.where(cond, 0, x)] for one-dimensional arrays: an array of length
    one is broadcast to the length of the other. *)
Definition np_where_zero (cond : list bool) (x : list F) : res (list F) :=
  let pick := fun (c : bool) (v : F) => if c then fzero else v in
  if length cond =? length x then Ok (zip_with pick cond x)
  else match cond, x with
       | _, [v] => Ok (map (fun c => pick c v) cond)
       | [c], _ => Ok (map (pick c) x)
       | _, _ => Raise ValueError
       end.

(** A sparse matrix in coordinate format: its shape and its entries
    [(value, row, column)]. *)
Record coo : Type := {
  coo_shape : nat * nat;
  coo_entries : list (F * nat * nat)
}.

(** [coo_matrix((data, (i, j)), shape=(n, n))] *)
Definition coo_matrix (data : list F) (i j : list nat) (n : nat) : res coo :=
  if negb ((length data =? length i) && (length data =? length j)) then Raise ValueError
  else if negb (forallb (fun k => k <? n) i && forallb (fun k => k <? n) j) then Raise ValueError
  else Ok {| coo_shape := (n, n); coo_entries := zip (zip data i) j |}.

(** The entry [(r, c)] of [csr_matrix(A)]: the entries of [A] at that
    place are added up. *)
Definition entry (A : coo) (r c : nat) : F :=
  fold_right fadd fzero
    (map (fun t => fst (fst t))
       (List.filter (fun t => (snd (fst t) =? r) && (snd t =? c)) (coo_entries A))).

(** The global indices of the rows and the columns of the local integrals:
    [SF_I0] and [SF_I1], from [g.subentities(0, g.dim)]. *)
Definition SF_I0 (subentities : list (list nat)) (dim : nat) : list nat :=
  List.concat (np_repeat_axis1 subentities (dim + 1)).

Definition SF_I1 (subentities : list (list nat)) (dim : nat) : list nat :=
  List.concat (np_tile_axis1 subentities (dim + 1)).

(** [L2ProductP1.assemble], from the local integrals on. *)
Definition L2ProductP1_assemble (size : nat) (subentities : list (list nat)) (dim : nat)
    (SF_INTS : list F) : res coo :=
  coo_matrix SF_INTS (SF_I0 subentities dim) (SF_I1 subentities dim) size.

(** The data of [boundary_info] that [assemble] reads. *)
Record boundary_info : Type := {
  has_dirichlet : bool;
  dirichlet_mask : list bool;
  dirichlet_boundaries : list nat
}.

(** [DiffusionOperatorP1.assemble], from the local integrals on. *)
Definition DiffusionOperatorP1_assemble (size : nat) (subentities : list (list nat)) (dim : nat)
    (bi : boundary_info) (dirichlet_clear_columns dirichlet_clear_diag : bool)
    (SF_INTS : list F) : res coo :=
  let I0 := SF_I0 subentities dim in
  let I1 := SF_I1 subentities dim in
  if has_dirichlet bi then
    res_bind (take_mask (dirichlet_mask bi) I0) (fun m0 =>
    res_bind (np_where_zero m0 SF_INTS) (fun ints1 =>
    res_bind (if dirichlet_clear_columns then
                res_bind (take_mask (dirichlet_mask bi) I1) (fun m1 => np_where_zero m1 ints1)
              else Ok ints1) (fun ints2 =>
    if negb dirichlet_clear_diag then
      coo_matrix (ints2 ++ repeat fone (length (dirichlet_boundaries bi)))
                 (I0 ++ dirichlet_boundaries bi) (I1 ++ dirichlet_boundaries bi) size
    else coo_matrix ints2 I0 I1 size)))
  else coo_matrix SF_INTS I0 I1 size.

(** ** The global indices *)

Lemma zip_repeat_l {A B : Type} (x : A) (l : list B) :
  zip (repeat x (length l)) l = map (pair x) l.
Proof. induction l as [|b l IH]; cbn; [reflexivity|]. now rewrite IH. Qed.

Lemma length_concat_repeat {A : Type} (row : list A) (r : nat) :
  length (List.concat (repeat row r)) = r * length row.
Proof. induction r as [|r IH]; cbn; [reflexivity|]. rewrite length_app, IH. lia. Qed.

Lemma length_flat_map_repeat {A : Type} (xs : list A) (r : nat) :
  length (flat_map (fun x => repeat x r) xs) = length xs * r.
Proof. induction xs as [|x xs IH]; cbn; [reflexivity|]. rewrite length_app, repeat_length, IH. lia. Qed.

Lemma zip_repeat_tile {A : Type} (row xs : list A) :
  zip (flat_map (fun x => repeat x (length row)) xs) (List.concat (repeat row (length xs)))
  = flat_map (fun a => map (pair a) row) xs.
Proof.
  induction xs as [|x xs IH]; [reflexivity|].
  cbn [flat_map length repeat List.concat].
  rewrite zip_with_app by apply repeat_length.
  now rewrite zip_repeat_l, IH.
Qed.

Lemma flat_map_pairs {A B : Type} (xs : list A) (row : list B) :
  flat_map (fun a => map (pair a) row) xs = list_prod xs row.
Proof. induction xs as [|x xs IH]; [reflexivity|]. cbn. now rewrite IH. Qed.

(** The rows and the columns of the local integrals: for elements with
    [dim + 1] vertices each, [SF_I0] and [SF_I1] list, element after
    element, every pair of vertices of the element, the first vertex
    running slowest: the order of the entries [e, p, q] of [SF_INTS]. *)
Theorem global_dof_pairs (subentities : list (list nat)) (dim : nat) :
  Forall (fun row => length row = dim + 1) subentities ->
  zip (SF_I0 subentities dim) (SF_I1 subentities dim)
  = flat_map (fun row => list_prod row row) subentities
  /\ length (SF_I0 subentities dim) = length subentities * ((dim + 1) * (dim + 1)).
Proof.
  unfold SF_I0, SF_I1, np_repeat_axis1, np_tile_axis1.
  induction 1 as [|row sub Hrow _ [IH1 IH2]]; [split; reflexivity|].
  cbn [map List.concat flat_map length]. split.
  - rewrite zip_with_app.
    + rewrite IH1. f_equal. rewrite <- Hrow.
      rewrite zip_repeat_tile. apply flat_map_pairs.
    + rewrite length_flat_map_repeat, length_concat_repeat. lia.
  - rewrite length_app, IH2, length_flat_map_repeat, Hrow. lia.
Qed.

End Assembly.

(** ** The treatment of Dirichlet nodes *)

Section Dirichlet.
Context `{Sc : Scalar} (HL : ScalarLaws Sc).
#[local] Set Default Proof Using "Type HL".

Lemma length_SF_I (subentities : list (list nat)) (dim : nat) :
  length (SF_I1 subentities dim) = length (SF_I0 subentities dim).
Proof.
  unfold SF_I0, SF_I1, np_repeat_axis1, np_tile_axis1.
  induction subentities as [|row sub IH]; [reflexivity|].
  cbn [map List.concat]. rewrite !length_app, IH, length_flat_map_repeat, length_concat_repeat.
  lia.
Qed.

Lemma take_mask_spec (mask : list bool) (idx : list nat) (m : list bool) :
  take_mask mask idx = Ok m -> m = map (fun i => nth i mask false) idx.
Proof.
  unfold take_mask. revert m. induction idx as [|i idx IH]; intros m H.
  - now injection H as <-.
  - cbn [mapM_res] in H. destruct (nth_error mask i) as [b|] eqn:E; [|discriminate].
    cbn [res_bind] in H.
    destruct (mapM_res _ idx) as [m'|e]; [|discriminate]. cbn [res_bind] in H.
    injection H as <-. cbn [map]. f_equal; [|now apply IH].
    symmetry. now apply nth_error_nth.
Qed.

Lemma np_where_zero_same (cond : list bool) (x : list F) :
  length cond = length x ->
  np_where_zero cond x = Ok (zip_with (fun (c : bool) v => if c then fzero else v) cond x).
Proof. intros H. unfold np_where_zero. now rewrite H, Nat.eqb_refl. Qed.

(** The value [assemble] keeps of a local integral with the row [r] and
    the column [c]. *)
Definition kept (mask : list bool) (clear_columns : bool) (t : F * nat * nat) : F * nat * nat :=
  let '(v, r, c) := t in
  (if nth r mask false then fzero
   else if clear_columns && nth c mask false then fzero else v, r, c).

Lemma zip3_kept (mask : list bool) (cc : bool) (ints : list F) : forall I0 I1 : list nat,
  length ints = length I0 -> length I1 = length I0 ->
  zip (zip (let ints1 := zip_with (fun (c : bool) v => if c then fzero else v)
                                  (map (fun i => nth i mask false) I0) ints in
            if cc then zip_with (fun (c : bool) v => if c then fzero else v)
                                (map (fun i => nth i mask false) I1) ints1
            else ints1) I0) I1
  = map (kept mask cc) (zip (zip ints I0) I1).
Proof.
  cbv zeta. destruct cc.
  - induction ints as [|v ints IH]; intros [|r I0] [|c I1] H0 H1; try discriminate;
      [reflexivity|].
    specialize (IH I0 I1 ltac:(cbn in H0; lia) ltac:(cbn in H1; lia)).
    cbn [map zip_with kept andb]. rewrite <- IH.
    f_equal. destruct (nth r mask false), (nth c mask false); reflexivity.
  - induction ints as [|v ints IH]; intros [|r I0] [|c I1] H0 H1; try discriminate;
      [reflexivity|].
    specialize (IH I0 I1 ltac:(cbn in H0; lia) ltac:(cbn in H1; lia)).
    cbn [map zip_with kept andb]. now rewrite <- IH.
Qed.

Lemma coo_matrix_entries (data : list F) (i j : list nat) (n : nat) (A : coo) :
  coo_matrix data i j n = Ok A ->
  coo_entries A = zip (zip data i) j /\ length data = length i /\ length data = length j.
Proof.
  unfold coo_matrix. intros H.
  destruct (Nat.eqb_spec (length data) (length i)); [|discriminate].
  destruct (Nat.eqb_spec (length data) (length j)); [|discriminate].
  cbn [andb negb] in H. destruct (negb _); [discriminate|].
  injection H as <-. auto.
Qed.

Lemma zip3_app (a a' : list F) (i i' j j' : list nat) :
  length a = length i -> length j = length i ->
  zip (zip (a ++ a') (i ++ i')) (j ++ j') = zip (zip a i) j ++ zip (zip a' i') j'.
Proof.
  intros Ha Hj. rewrite (zip_with_app pair a a' i i' Ha).
  apply zip_with_app. rewrite length_zip_with. lia.
Qed.

Lemma zip3_ones (l : list nat) :
  zip (zip (repeat fone (length l)) l) l = map (fun b => (fone, b, b)) l.
Proof. induction l as [|b l IH]; [reflexivity|]. cbn. now rewrite IH. Qed.

(** What a successful [assemble] holds when there are Dirichlet nodes. *)
Lemma assemble_entries (size : nat) (subentities : list (list nat)) (dim : nat)
    (bi : boundary_info) (cc cd : bool) (SF_INTS : list F) (A : coo) :
  has_dirichlet bi = true ->
  length SF_INTS = length (SF_I0 subentities dim) ->
  DiffusionOperatorP1_assemble size subentities dim bi cc cd SF_INTS = Ok A ->
  coo_entries A
  = map (kept (dirichlet_mask bi) cc)
        (zip (zip SF_INTS (SF_I0 subentities dim)) (SF_I1 subentities dim))
    ++ (if cd then [] else map (fun b => (fone, b, b)) (dirichlet_boundaries bi)).
Proof.
  intros Hd Hlen H. unfold DiffusionOperatorP1_assemble in H. cbv zeta in H.
  rewrite Hd in H.
  pose proof (length_SF_I subentities dim) as HI.
  set (I0 := SF_I0 subentities dim) in *. set (I1 := SF_I1 subentities dim) in *.
  destruct (take_mask (dirichlet_mask bi) I0) as [m0|e] eqn:E0; [|discriminate].
  apply take_mask_spec in E0. subst m0. cbn [res_bind] in H.
  rewrite np_where_zero_same in H by (rewrite length_map; lia). cbn [res_bind] in H.
  pose proof (zip3_kept (dirichlet_mask bi) cc SF_INTS I0 I1 Hlen HI) as Hk.
  cbv zeta in Hk.
  destruct cc.
  - destruct (take_mask (dirichlet_mask bi) I1) as [m1|e] eqn:E1; [|discriminate].
    apply take_mask_spec in E1. subst m1. cbn [res_bind] in H.
    rewrite np_where_zero_same in H
      by (rewrite length_map, length_zip_with, length_map; lia).
    cbn [res_bind] in H. destruct cd; cbn [negb] in H.
    + apply coo_matrix_entries in H. destruct H as (-> & _). rewrite Hk. now rewrite app_nil_r.
    + apply coo_matrix_entries in H. destruct H as (-> & _).
      rewrite zip3_app; [|rewrite ?length_zip_with, ?length_map; lia|exact HI].
      rewrite Hk. f_equal. apply zip3_ones.
  - cbn [res_bind] in H. destruct cd; cbn [negb] in H.
    + apply coo_matrix_entries in H. destruct H as (-> & _). rewrite Hk. now rewrite app_nil_r.
    + apply coo_matrix_entries in H. destruct H as (-> & _).
      rewrite zip3_app; [|rewrite ?length_zip_with, ?length_map; lia|exact HI].
      rewrite Hk. f_equal. apply zip3_ones.
Qed.

Definition at_place (r c : nat) (t : F * nat * nat) : bool :=
  (snd (fst t) =? r) && (snd t =? c).

Lemma entry_eq (A : coo) (r c : nat) :
  entry A r c
  = fold_right fadd fzero (map (fun t => fst (fst t)) (List.filter (at_place r c) (coo_entries A))).
Proof. reflexivity. Qed.

Lemma sum_zeros (l rest : list F) :
  Forall (fun v => v = fzero) l ->
  fold_right fadd fzero (l ++ rest) = fold_right fadd fzero rest.
Proof.
  induction 1 as [|v l -> _ IH]; [reflexivity|]. cbn. now rewrite IH, fadd_0_l.
Qed.

Lemma filter_kept (mask : list bool) (cc : bool) (r c : nat) (l : list (F * nat * nat)) :
  List.filter (at_place r c) (map (kept mask cc) l)
  = map (kept mask cc) (List.filter (at_place r c) l).
Proof.
  induction l as [|[[v r'] c'] l IH]; [reflexivity|].
  cbn [map List.filter].
  assert (E : at_place r c (kept mask cc (v, r', c')) = at_place r c (v, r', c'))
    by reflexivity.
  rewrite E. destruct (at_place r c (v, r', c')); cbn [map]; now rewrite IH.
Qed.

Lemma filter_boundary (r c : nat) (l : list nat) :
  NoDup l ->
  map (fun t : F * nat * nat => fst (fst t))
      (List.filter (at_place r c) (map (fun b => (fone, b, b)) l))
  = if (r =? c) && existsb (Nat.eqb r) l then [fone] else [].
Proof.
  induction 1 as [|b l Hb Hnd IH]; [now rewrite andb_false_r|].
  cbn [map List.filter existsb].
  assert (E : at_place r c (fone, b, b) = (b =? r) && (b =? c)) by reflexivity.
  rewrite E. clear E.
  destruct (Nat.eqb_spec b r) as [Hbr|Hbr].
  - subst b. rewrite Nat.eqb_refl. cbn [andb orb].
    assert (Hex : existsb (Nat.eqb r) l = false).
    { destruct (existsb (Nat.eqb r) l) eqn:E; [|reflexivity].
      apply existsb_exists in E. destruct E as (x & Hx & E). apply Nat.eqb_eq in E. subst x.
      exfalso. apply Hb. now apply list_elem_of_In. }
    rewrite Hex, andb_false_r in IH.
    destruct (r =? c); cbn [andb map fst]; now rewrite IH.
  - cbn [andb]. rewrite IH.
    destruct (Nat.eqb_spec r b) as [Hrb|_]; [congruence|]. reflexivity.
Qed.

(** The rows of the Dirichlet nodes. When the boundary has Dirichlet
    nodes, listed once each in [dirichlet_boundaries], the row of such a
    node in the assembled matrix is the row of the identity: a one on
    the diagonal and zeros elsewhere; with [dirichlet_clear_diag] the row
    is zero. *)
Theorem dirichlet_rows (size : nat) (subentities : list (list nat)) (dim : nat)
    (bi : boundary_info) (cc cd : bool) (SF_INTS : list F) (A : coo) :
  has_dirichlet bi = true ->
  length SF_INTS = length (SF_I0 subentities dim) ->
  NoDup (dirichlet_boundaries bi) ->
  (forall b, In b (dirichlet_boundaries bi) <-> nth b (dirichlet_mask bi) false = true) ->
  DiffusionOperatorP1_assemble size subentities dim bi cc cd SF_INTS = Ok A ->
  forall r c,
    nth r (dirichlet_mask bi) false = true ->
    entry A r c = if cd then fzero else if r =? c then fone else fzero.
Proof.
  intros Hd Hlen Hnd Hdb H r c Hr.
  rewrite entry_eq, (assemble_entries _ _ _ _ _ _ _ _ Hd Hlen H).
  rewrite List.filter_app, map_app, filter_kept.
  rewrite sum_zeros.
  - destruct cd; [reflexivity|]. rewrite filter_boundary by exact Hnd.
    destruct (Nat.eqb_spec r c) as [->|Hrc]; [|reflexivity].
    assert (E : existsb (Nat.eqb c) (dirichlet_boundaries bi) = true).
    { apply existsb_exists. exists c. split; [now apply Hdb|apply Nat.eqb_refl]. }
    rewrite E. cbn. apply fadd_0_r.
  - apply Forall_forall. intros v Hv. apply list_elem_of_In, in_map_iff in Hv.
    destruct Hv as (t & <- & Ht). apply in_map_iff in Ht. destruct Ht as ([[v0 r0] c0] & <- & Ht).
    apply filter_In in Ht. destruct Ht as [_ Ht]. unfold at_place in Ht. cbn [fst snd] in Ht.
    apply andb_true_iff in Ht. destruct Ht as [Hr0 _]. apply Nat.eqb_eq in Hr0. subst r0.
    cbn [kept fst]. now rewrite Hr.
Qed.

Lemma filter_boundary_none (r c : nat) (l : list nat) (mask : list bool) :
  nth r mask false = false ->
  Forall (fun b => nth b mask false = true) l ->
  List.filter (at_place r c) (map (fun b => (fone, b, b)) l) = [].
Proof.
  intros Hr. induction 1 as [|b l Hbm _ IH]; [reflexivity|].
  cbn [map List.filter].
  assert (E : at_place r c (fone, b, b) = (b =? r) && (b =? c)) by reflexivity.
  rewrite E. destruct (Nat.eqb_spec b r) as [->|_]; [congruence|]. exact IH.
Qed.

(** The rows of the other nodes. In the row of a node that is not a
    Dirichlet node, an entry is the sum of the local integrals of its
    place, as [assemble] gives it for a boundary without Dirichlet
    nodes, except that with [dirichlet_clear_columns] the entries in the
    columns of Dirichlet nodes are zero. *)
Theorem interior_rows (size : nat) (subentities : list (list nat)) (dim : nat)
    (bi bi0 : boundary_info) (cc cd cc0 cd0 : bool) (SF_INTS : list F) (A A0 : coo) :
  has_dirichlet bi = true ->
  has_dirichlet bi0 = false ->
  length SF_INTS = length (SF_I0 subentities dim) ->
  (forall b, In b (dirichlet_boundaries bi) <-> nth b (dirichlet_mask bi) false = true) ->
  DiffusionOperatorP1_assemble size subentities dim bi cc cd SF_INTS = Ok A ->
  DiffusionOperatorP1_assemble size subentities dim bi0 cc0 cd0 SF_INTS = Ok A0 ->
  forall r c,
    nth r (dirichlet_mask bi) false = false ->
    entry A r c = if cc && nth c (dirichlet_mask bi) false then fzero else entry A0 r c.
Proof.
  intros Hd Hd0 Hlen Hdb H H0 r c Hr.
  rewrite !entry_eq, (assemble_entries _ _ _ _ _ _ _ _ Hd Hlen H).
  unfold DiffusionOperatorP1_assemble in H0. cbv zeta in H0. rewrite Hd0 in H0.
  apply coo_matrix_entries in H0. destruct H0 as (-> & _).
  rewrite List.filter_app, map_app, filter_kept.
  assert (Hb : List.filter (at_place r c)
                 (if cd then [] else map (fun b => (fone, b, b)) (dirichlet_boundaries bi)) = []).
  { destruct cd; [reflexivity|].
    assert (Hall : Forall (fun b => nth b (dirichlet_mask bi) false = true)
                          (dirichlet_boundaries bi)).
    { apply Forall_forall. intros b Hb. apply Hdb. now apply list_elem_of_In. }
    now apply (filter_boundary_none r c _ (dirichlet_mask bi)). }
  rewrite Hb. cbn [map]. rewrite app_nil_r.
  destruct (cc && nth c (dirichlet_mask bi) false) eqn:Ec.
  - rewrite <- (app_nil_r (map _ (map _ _))). rewrite sum_zeros; [reflexivity|].
    apply Forall_forall. intros v Hv. apply list_elem_of_In, in_map_iff in Hv.
    destruct Hv as (t & <- & Ht). apply in_map_iff in Ht. destruct Ht as ([[v0 r0] c0] & <- & Ht).
    apply filter_In in Ht. destruct Ht as [_ Ht]. unfold at_place in Ht. cbn [fst snd] in Ht.
    apply andb_true_iff in Ht. destruct Ht as [Hr0 Hc0].
    apply Nat.eqb_eq in Hr0. apply Nat.eqb_eq in Hc0. subst r0 c0.
    cbn [kept fst]. now rewrite Hr, Ec.
  - f_equal. rewrite map_map. apply map_ext_in. intros [[v0 r0] c0] Ht.
    apply filter_In in Ht. destruct Ht as [_ Ht]. unfold at_place in Ht. cbn [fst snd] in Ht.
    apply andb_true_iff in Ht. destruct Ht as [Hr0 Hc0].
    apply Nat.eqb_eq in Hr0. apply Nat.eqb_eq in Hc0. subst r0 c0.
    cbn [kept fst]. now rewrite Hr, Ec.
Qed.

End Dirichlet.

(** ** Instances: two line elements on three nodes *)

Import Gauss GaussFacts Examples.

Definition ex_subentities : list (list nat) := [[0; 1]; [1; 2]].

Definition ex_SF_INTS : list gauss := map rz [1; -1; -1; 1; 1; -1; -1; 1]%Z.

Definition ex_boundary_info : boundary_info :=
  {| has_dirichlet := true; dirichlet_mask := [true; false; true];
     dirichlet_boundaries := [0; 2] |}.

Lemma global_dof_pairs_witness :
  zip (SF_I0 ex_subentities 1) (SF_I1 ex_subentities 1)
  = flat_map (fun row => list_prod row row) ex_subentities
  /\ length (SF_I0 ex_subentities 1) = length ex_subentities * ((1 + 1) * (1 + 1)).
Proof.
  apply (global_dof_pairs ex_subentities 1). repeat constructor.
Defined.

Lemma ex_boundary_listed (b : nat) :
  In b (dirichlet_boundaries ex_boundary_info)
  <-> nth b (dirichlet_mask ex_boundary_info) false = true.
Proof.
  split.
  - intros [<-|[<-|[]]]; reflexivity.
  - destruct b as [|[|[|b]]]; cbn; intros H; try discriminate; auto.
    destruct b; discriminate.
Qed.

Lemma dirichlet_rows_witness :
  exists A,
    DiffusionOperatorP1_assemble 3 ex_subentities 1 ex_boundary_info false false ex_SF_INTS
    = Ok A
    /\ entry A 0 0 = fone /\ entry A 0 1 = fzero /\ entry A 2 1 = fzero.
Proof.
  assert (Hnd : NoDup (dirichlet_boundaries ex_boundary_info)) by nodup_nat.
  assert (E : exists A,
             DiffusionOperatorP1_assemble 3 ex_subentities 1 ex_boundary_info false false
               ex_SF_INTS = Ok A).
  { let r0 := eval vm_compute in
        (DiffusionOperatorP1_assemble 3 ex_subentities 1 ex_boundary_info false false
           ex_SF_INTS) in
    match r0 with Ok ?A => exists A end. vm_refl. }
  destruct E as [A E]. exists A. split; [exact E|].
  pose proof (dirichlet_rows gauss_laws 3 ex_subentities 1 ex_boundary_info false false
                ex_SF_INTS A eq_refl eq_refl Hnd ex_boundary_listed E) as H.
  split; [exact (H 0 0 eq_refl)|]. split; [exact (H 0 1 eq_refl)|exact (H 2 1 eq_refl)].
Defined.

Definition ex_no_boundary : boundary_info :=
  {| has_dirichlet := false; dirichlet_mask := [false; false; false];
     dirichlet_boundaries := [] |}.

Lemma interior_rows_witness :
  exists A A0,
    DiffusionOperatorP1_assemble 3 ex_subentities 1 ex_boundary_info true false ex_SF_INTS
    = Ok A
    /\ DiffusionOperatorP1_assemble 3 ex_subentities 1 ex_no_boundary false false ex_SF_INTS
       = Ok A0
    /\ entry A 1 1 = entry A0 1 1 /\ entry A 1 0 = fzero.
Proof.
  assert (E : exists A A0,
             DiffusionOperatorP1_assemble 3 ex_subentities 1 ex_boundary_info true false
               ex_SF_INTS = Ok A
             /\ DiffusionOperatorP1_assemble 3 ex_subentities 1 ex_no_boundary false false
                  ex_SF_INTS = Ok A0).
  { let r0 := eval vm_compute in
        (DiffusionOperatorP1_assemble 3 ex_subentities 1 ex_boundary_info true false
           ex_SF_INTS) in
    let r1 := eval vm_compute in
        (DiffusionOperatorP1_assemble 3 ex_subentities 1 ex_no_boundary false false
           ex_SF_INTS) in
    match r0 with Ok ?A => match r1 with Ok ?A0 => exists A, A0 end end.
    split; vm_refl. }
  destruct E as (A & A0 & E & E0). exists A, A0. split; [exact E|]. split; [exact E0|].
  pose proof (interior_rows gauss_laws 3 ex_subentities 1 ex_boundary_info ex_no_boundary
                true false false false ex_SF_INTS A A0 eq_refl eq_refl eq_refl
                ex_boundary_listed E E0) as H.
  split; [exact (H 1 1 eq_refl)|exact (H 1 0 eq_refl)].
Defined.

End CG.
